(** * Frequency-domain array processing: [WATCtools] and [fk_freq]

    A shallow embedding of [src/WATCtools.py] ([bpf], [co_array], [ft],
    [ift], [MCCMcalc], [psf], [randc]) and of
    [src/array_processing/algorithms/fk_freq.py], and the properties of
    these functions.

    Numbers.  Python floats are modelled by exact real numbers ([R]) and
    complex floats by pairs of reals: rounding is not modelled.  What IEEE
    arithmetic does at a division by zero is modelled: numpy's [/] on arrays
    returns [nan] or [inf] there (with a warning, no exception), and the
    type [fl] below holds such a value.

    Arrays.  A 2-D [ndarray] is the list of its rows.  Functions of numpy,
    scipy and obspy that the sources call are modelled by their
    mathematical definition (the discrete Fourier transform for
    [numpy.fft.fft], the full discrete convolution for
    [scipy.signal.convolve2d], ...). *)

From Stdlib Require Import Reals Lra Lia List ZArith Bool Arith.
From Stdlib Require Import Sorting.Sorted.
From Stdlib Require Import FunctionalExtensionality.
Import ListNotations.

Set Implicit Arguments.

(* ================================================================== *)
(** * Part I: the model *)
(* ================================================================== *)

(** ** Python exceptions and results *)

Inductive exn : Type :=
| ValueError
| IndexError
| AxisError
| ZeroDivisionError
| OverflowError.

Inductive result (A : Type) : Type :=
| Ok (a : A)
| Raise (e : exn).

Arguments Ok {A} a.
Arguments Raise {A} e.

Definition bind {A B : Type} (m : result A) (k : A -> result B) : result B :=
  match m with
  | Ok a => k a
  | Raise e => Raise e
  end.

Notation "x <- m ;; k" := (bind m (fun x => k))
  (at level 61, m at next level, right associativity).

(** ** Index helpers *)

(** Python's [range(a, b)] over natural numbers. *)
Definition range (a b : nat) : list nat := seq a (b - a).

(** Python's [range(a, b)] over integers. *)
Definition rangeZ (a b : Z) : list Z :=
  map (fun k => (a + Z.of_nat k)%Z) (seq 0 (Z.to_nat (b - a))).

(** Python's [l[start:stop]]: a negative bound counts from the end, and
    bounds are clipped to the length. *)
Definition py_slice {A : Type} (start stop : Z) (l : list A) : list A :=
  let len := Z.of_nat (length l) in
  let norm := fun i : Z =>
    if (i <? 0)%Z then Z.max 0 (len + i) else Z.min i len in
  firstn (Z.to_nat (norm stop - norm start)) (skipn (Z.to_nat (norm start)) l).

(** [x.shape] of a 2-D array held as the list of its rows. *)
Definition shape {A : Type} (x : list (list A)) : nat * nat :=
  (length x, length (hd [] x)).

(** A list of rows is an [m] by [n] array. *)
Definition wf_matrix {A : Type} (m n : nat) (x : list (list A)) : Prop :=
  length x = m /\ Forall (fun row => length row = n) x.

(** ** Floats that may be infinite or not a number *)

Inductive fl : Type :=
| Fin (r : R)
| PInf
| NInf
| NaN.

(** An array whose entries are numbers, or one whose every entry is [nan]
    or infinite. *)
Inductive farray (A : Type) : Type :=
| Finite (a : A)
| NonFinite.

Arguments Finite {A} a.
Arguments NonFinite {A}.

(** numpy arrays of floats and of complex floats. *)
Inductive ndarray : Type :=
| Float64 (a : list (list R))
| Complex128 (a : list (list (R * R))).

Local Open Scope R_scope.

(** numpy's [x / y] on floats: [nan] for 0/0, an infinity for x/0 (the
    zero of this model has no sign: every zero divisor below is a sum of
    squares, [+0.0]). *)
Definition true_divide (x y : R) : fl :=
  if Req_dec_T y 0
  then (if Req_dec_T x 0 then NaN else if Rlt_dec 0 x then PInf else NInf)
  else Fin (x / y).

(** numpy's [x ** p] for a natural exponent: [x ** 0] is 1 for every [x],
    [nan] and [inf] included. *)
Definition fl_pow (x : fl) (p : nat) : fl :=
  match p with
  | O => Fin 1
  | S _ =>
      match x with
      | Fin r => Fin (r ^ p)
      | PInf => PInf
      | NInf => if Nat.even p then PInf else NInf
      | NaN => NaN
      end
  end.

Definition is_finite (x : fl) : bool :=
  match x with Fin _ => true | _ => false end.

Definition fl_value (x : fl) : R :=
  match x with Fin r => r | _ => 0 end.

(** ** Complex numbers *)

Definition C : Type := (R * R)%type.

Definition C0 : C := (0, 0).
Definition C1 : C := (1, 0).
Definition RtoC (x : R) : C := (x, 0).
Definition Re (z : C) : R := fst z.
Definition Im (z : C) : R := snd z.
Definition Cplus (a b : C) : C := (fst a + fst b, snd a + snd b).
Definition Cmult (a b : C) : C :=
  (fst a * fst b - snd a * snd b, fst a * snd b + snd a * fst b).
Definition Cconj (a : C) : C := (fst a, - snd a).
(** A real times a complex number. *)
Definition Cscal (r : R) (a : C) : C := (r * fst a, r * snd a).
(** [real(conj(a) * a)], the squared modulus. *)
Definition Cnorm2 (a : C) : R := fst a * fst a + snd a * snd a.
(** [exp(1j * t)] *)
Definition cis (t : R) : C := (cos t, sin t).

(** The sum of [f 0], ..., [f (n-1)]. *)
Fixpoint Csum (f : nat -> C) (n : nat) : C :=
  match n with
  | O => C0
  | S k => Cplus (Csum f k) (f k)
  end.

Definition Rsum (l : list R) : R := fold_right Rplus 0 l.
Definition Csum_list (l : list C) : C := fold_right Cplus C0 l.

(** ** numpy *)

Module Np.

(** [np.mean(v)] *)
Definition mean (v : list R) : R := Rsum v / INR (length v).

(** [np.linspace(a, b, num)] *)
Definition linspace (a b : R) (num : nat) : list R :=
  match num with
  | O => []
  | S O => [a]
  | _ => map (fun i => a + INR i * ((b - a) / INR (num - 1))) (seq 0 num)
  end.

(** [np.round(r)]: to the nearest integer, a tie to the even one. *)
Definition round (r : R) : Z :=
  let f := Zfloor r in
  if Rlt_dec (r - IZR f) (1 / 2) then f
  else if Rlt_dec (1 / 2) (r - IZR f) then (f + 1)%Z
  else if Z.even f then f else (f + 1)%Z.

(** Python's [int(r)] on a float: truncation toward zero. *)
Definition py_int (r : R) : Z :=
  if Rle_dec 0 r then Zfloor r else (- Zfloor (- r))%Z.

(** The columns of an array, and the array of given columns. *)
Definition columns {A : Type} (d0 : A) (x : list (list A)) : list (list A) :=
  map (fun c => map (fun row => nth c row d0) x) (seq 0 (snd (shape x))).

Definition of_columns {A : Type} (d0 : A) (nrows : nat) (cols : list (list A))
  : list (list A) :=
  map (fun r => map (fun col => nth r col d0) cols) (seq 0 nrows).

(** The discrete Fourier transform of [v] cropped or zero-padded to [n]
    points: [numpy.fft.fft(v, n)]. *)
Definition fft_vec (n : nat) (v : list C) : list C :=
  map (fun k =>
         Csum (fun j => Cmult (nth j v C0)
                          (cis (- (2 * PI * INR j * INR k / INR n)))) n)
      (seq 0 n).

(** [numpy.fft.ifft(v, n)]: the inverse transform, with its factor 1/n. *)
Definition ifft_vec (n : nat) (v : list C) : list C :=
  map (fun j =>
         Cscal (1 / INR n)
           (Csum (fun k => Cmult (nth k v C0)
                             (cis (2 * PI * INR j * INR k / INR n))) n))
      (seq 0 n).

(** [numpy.fft.rfft(v, n)]: the bins 0 .. n//2 of the transform. *)
Definition rfft_vec (n : nat) (v : list R) : list C :=
  firstn (n / 2 + 1) (fft_vec n (map RtoC v)).

(** An axis of a 2-D array: -2 .. 1, a negative one counts from the last. *)
Definition normalize_axis (axis : Z) : result nat :=
  if ((-2 <=? axis) && (axis <? 2))%Z
  then Ok (Z.to_nat (axis mod 2))
  else Raise AxisError.

Definition shape_at {A : Type} (x : list (list A)) (ax : nat) : nat :=
  match ax with
  | O => fst (shape x)
  | _ => snd (shape x)
  end.

(** Apply a transform of vectors along an axis of a 2-D array, the
    transformed axis getting [npts] entries. *)
Definition along_axis (f : list C -> list C) (npts : nat) (ax : nat)
  (x : list (list C)) : list (list C) :=
  match ax with
  | O => of_columns C0 npts (map f (columns C0 x))
  | _ => map f x
  end.

(** The number of points of a transform: the length [n] when given,
    else the length of the axis; numpy raises [ValueError] below 1. *)
Definition fft_points (x : list (list C)) (n : option Z) (ax : nat)
  : result nat :=
  let npts := match n with
              | Some k => k
              | None => Z.of_nat (shape_at x ax)
              end in
  if (npts <? 1)%Z then Raise ValueError else Ok (Z.to_nat npts).

(** The axis of a transform.  On an axis that is out of bounds numpy
    raises [IndexError] when no length is given (it reads [a.shape[axis]]
    first), [ValueError] when the length given is below 1 (checked before
    the axis), and [AxisError] otherwise. *)
Definition fft_axis (n : option Z) (axis : Z) : result nat :=
  match normalize_axis axis with
  | Ok ax => Ok ax
  | Raise e =>
      match n with
      | None => Raise IndexError
      | Some k => if (k <? 1)%Z then Raise ValueError else Raise e
      end
  end.

(** [numpy.fft.fft(x, n, axis)] and [numpy.fft.ifft(x, n, axis)] *)
Definition fft (x : list (list C)) (n : option Z) (axis : Z)
  : result (list (list C)) :=
  ax <- fft_axis n axis ;;
  npts <- fft_points x n ax ;;
  Ok (along_axis (fft_vec npts) npts ax x).

Definition ifft (x : list (list C)) (n : option Z) (axis : Z)
  : result (list (list C)) :=
  ax <- fft_axis n axis ;;
  npts <- fft_points x n ax ;;
  Ok (along_axis (ifft_vec npts) npts ax x).

(** [X / N] for a complex array and an integer: where [N] is zero every
    entry is 0/0 or z/0. *)
Definition divide_by (X : list (list C)) (N : nat)
  : farray (list (list C)) :=
  if (N =? 0)%nat && negb (forallb (fun row => (length row =? 0)%nat) X)
  then NonFinite
  else Finite (map (map (Cscal (1 / INR N))) X).

(** [a[idxx] = 0] on the rows of [a], for a list of integer indices: a
    negative index counts from the end, and numpy raises [IndexError] on
    one out of bounds. *)
Definition set_rows_zero (a : list (list C)) (idxx : list Z)
  : result (list (list C)) :=
  let N := Z.of_nat (length a) in
  if forallb (fun i => (- N <=? i)%Z && (i <? N)%Z) idxx
  then Ok (map (fun p =>
                  if existsb (fun i => (i mod N =? Z.of_nat (fst p))%Z) idxx
                  then map (fun _ => C0) (snd p)
                  else snd p)
               (combine (seq 0 (length a)) a))
  else Raise IndexError.

(** [np.bartlett(M)] *)
Definition bartlett (M : nat) : list R :=
  match M with
  | O => []
  | S O => [1]
  | _ => map (fun k =>
                1 - Rabs (IZR (1 - Z.of_nat M + 2 * Z.of_nat k))
                    / INR (M - 1))
             (seq 0 M)
  end.

(** [scipy.signal.convolve2d(S, ker.reshape(-1,1), mode='full')]: every
    column of [S] convolved with [ker]; row [t] of the result is the sum
    over [l] of [ker[l] * S[t-l]], for [t < len(S) + len(ker) - 1].  (On
    an empty [S] the model returns an empty array.) *)
Definition convolve2d_full (S : list (list C)) (ker : list R)
  : list (list C) :=
  match S with
  | [] => []
  | _ =>
      map (fun t =>
             map (fun c =>
                    Csum (fun l =>
                            if (l <=? t)%nat
                            then Cscal (nth l ker 0)
                                   (nth c (nth (t - l) S []) C0)
                            else C0)
                         (length ker))
                 (seq 0 (snd (shape S))))
          (seq 0 (length S + length ker - 1))
  end.

End Np.

(** ** [WATCtools.py] *)

Module WATCtools.

(** [a[:, cols]] with a list of column indices: numpy raises [IndexError]
    on an index that is out of bounds. *)
Definition take_cols (a : list (list R)) (cols : list nat)
  : result (list (list R)) :=
  if forallb (fun c => Nat.ltb c (snd (shape a))) cols
  then Ok (map (fun row => map (fun c => nth c row 0) cols) a)
  else Raise IndexError.

(** Elementwise [a - b] of two arrays of one shape. *)
Definition sub_matrix (a b : list (list R)) : list (list R) :=
  map (fun rows => map (fun p => fst p - snd p) (combine (fst rows) (snd rows)))
      (combine a b).

(** [[(i, j) for i in range(n-1) for j in range(i+1, n)]] *)
Definition pair_index (n : nat) : list (nat * nat) :=
  flat_map (fun i => map (fun j => (i, j)) (range (i + 1) n)) (range 0 (n - 1)).

(** [co_array(rij)] *)
Definition co_array (rij : list (list R)) : result (list (list R)) :=
  let idx := pair_index (snd (shape rij)) in
  a <- take_cols rij (map fst idx) ;;
  b <- take_cols rij (map snd idx) ;;
  Ok (sub_matrix a b).

(** [ft(x, n, axis)] ([norm] left at its default [None]):
    [fft(x, n, axis, norm)/N[axis]] with [N = x.shape]. *)
Definition ft (x : list (list C)) (n : option Z) (axis : Z)
  : result (farray (list (list C))) :=
  X <- Np.fft x n axis ;;
  ax <- Np.normalize_axis axis ;;
  Ok (Np.divide_by X (Np.shape_at x ax)).

(** [ift(X, n, axis, allowComplex)] ([norm] left at [None]):
    [ifft(X, n, axis, norm)*N[axis]] with [N = X.shape], and its real part
    unless [allowComplex]. *)
Definition ift (X : list (list C)) (n : option Z) (axis : Z)
  (allowComplex : bool) : result ndarray :=
  x <- Np.ifft X n axis ;;
  ax <- Np.normalize_axis axis ;;
  let x := map (map (Cscal (INR (Np.shape_at X ax)))) x in
  if allowComplex then Ok (Complex128 x) else Ok (Float64 (map (map Re) x)).

(** The corner indices [idx_one] of [bpf] for [N] samples and the two
    corner frequencies. *)
Definition bpf_corners (N : nat) (band : R * R) : Z * Z * Z * Z :=
  (* band.sort() *)
  let lo := Rmin (fst band) (snd band) in
  let hi := Rmax (fst band) (snd band) in
  let NZ := Z.of_nat N in
  if (N mod 2 =? 1)%nat then
    let b0 := Np.round (lo * (INR N - 1) / 2) in
    let b1 := Np.round (hi * (INR N - 1) / 2) in
    let Nyq := ((NZ + 1) / 2)%Z in
    let idx_temp := (2 * Nyq - b1)%Z in
    (b0, b1, (idx_temp - 1)%Z, (NZ - b0 + 1 - 1)%Z)
  else
    let b0 := Np.round (lo * INR N / 2) in
    let b1 := Np.round (hi * INR N / 2) in
    let Nyq := (NZ / 2)%Z in
    let idx_temp := (2 * Nyq - b1 + 1)%Z in
    (b0, b1, (idx_temp - 1)%Z, (NZ - b0 + 1 - 1)%Z).

(** The indices [idxx] that [bpf] sets to zero. *)
Definition bpf_mask (N : nat) (band : R * R) : list Z :=
  let '(i0, i1, i2, i3) := bpf_corners N band in
  rangeZ 0 i0 ++ rangeZ (i1 + 1) i2 ++ rangeZ (i3 + 1) (Z.of_nat N).

(** [bpf(x, band)] for a 2-D [x]: returns [(x_bpf, X_bpf)]. *)
Definition bpf (x : list (list R)) (band : R * R)
  : result (list (list R) * list (list C)) :=
  X0 <- ft (map (map RtoC) x) None 0 ;;
  match X0 with
  | NonFinite =>
      (* not reached: without a length, [fft] raises on an empty axis, so
         [ft] divides by a count that is not zero *)
      Raise ValueError
  | Finite X =>
      let N := fst (shape x) in
      X_bpf <- Np.set_rows_zero X (bpf_mask N band) ;;
      r <- ift X_bpf None 0 false ;;
      match r with
      | Float64 x_bpf => Ok (x_bpf, X_bpf)
      | Complex128 _ => Raise ValueError (* not reached: [allowComplex=False] *)
      end
  end.

(** [Sidx = [(i, j) for i in range(d) for j in range(i, d)]] *)
Definition Sidx (d : nat) : list (nat * nat) :=
  flat_map (fun i => map (fun j => (i, j)) (range i d)) (range 0 d).

(** [didx]: the positions in [Sidx] of the diagonal pairs. *)
Definition didx (d : nat) : list nat :=
  filter (fun k => (fst (nth k (Sidx d) (0, 0)) =? snd (nth k (Sidx d) (0, 0)))%nat)
         (seq 0 (length (Sidx d))).

(** One row of the stack [S]: the entries [Sidx] of
    [outer(X[i,:], X[i,:].conj())]. *)
Definition spectral_row (d : nat) (Xi : list C) : list C :=
  map (fun ij => Cmult (nth (fst ij) Xi C0) (Cconj (nth (snd ij) Xi C0)))
      (Sidx d).

(** [triang(N) = bartlett(N+2)[1:-1]], the default window. *)
Definition triang (N : nat) : list R :=
  py_slice 1 (-1) (Np.bartlett (N + 2)).

(** [Ssmooth(S, w, n, window)]: [n] passes of
    [S = convolve2d(S, window(w).reshape(-1,1), mode='full')[w//2:-w//2+1,:]]. *)
Fixpoint Ssmooth (S : list (list C)) (w n : nat) (window : nat -> list R)
  : list (list C) :=
  match n with
  | O => S
  | S k =>
      Ssmooth (py_slice (Z.of_nat (w / 2)) ((- Z.of_nat w) / 2 + 1)
                 (Np.convolve2d_full S (window w)))
              w k window
  end.

(** [sum(S[:,didx].real.T)**2] at one frequency. *)
Definition trS (d : nat) (row : list C) : R :=
  (Rsum (map (fun k => Re (nth k row C0)) (didx d))) ^ 2.

(** [S = (S*(S.conj())*2).real; S[:,didx] /= 2; trS2 = sum(S.T)] at one
    frequency. *)
Definition trS2 (d : nat) (row : list C) : R :=
  Rsum (map (fun k =>
               let v := Cnorm2 (nth k row C0) * 2 in
               if existsb (Nat.eqb k) (didx d) then v / 2 else v)
            (seq 0 (length row))).

(** [P = (d*trS2 - trS)/((d-1)*trS)] at one frequency. *)
Definition coherence (d : nat) (row : list C) : fl :=
  true_divide (INR d * trS2 d row - trS d row) ((INR d - 1) * trS d row).

(** [P[0] = 0] and [P[-1] = 0]. *)
Definition set_first (P : list fl) : result (list fl) :=
  match P with
  | [] => Raise IndexError
  | _ :: t => Ok (Fin 0 :: t)
  end.

Definition set_last (P : list fl) : result (list fl) :=
  match P with
  | [] => Raise IndexError
  | _ => Ok (removelast P ++ [Fin 0])
  end.

(** The smoothed stack of [psf] for the half spectrum [X] of [d]
    channels. *)
Definition psf_stack (d : nat) (X : list (list C)) (w n : nat)
  (window : option (nat -> list R)) : list (list C) :=
  let S := map (spectral_row d) X in
  let window := match window with Some f => f | None => triang end in
  Ssmooth S w n window.

(** [psf(x, p, w, n, window)] for a natural contrast [p]: returns
    [(x_psf, P)]. *)
Definition psf (x : list (list R)) (p w n : nat)
  (window : option (nat -> list R))
  : result (farray (list (list R)) * list fl) :=
  let '(N, d) := shape x in
  X0 <- ft (map (map RtoC) x) None 0 ;;
  match X0 with
  | NonFinite => Raise ValueError (* not reached, as in [bpf] *)
  | Finite X0 =>
      let X := firstn (N / 2 + 1) X0 in
      let S := psf_stack d X w n window in
      (* with no channel, [trS] and [trS2] are the integer 0 of [sum([])] *)
      if (d =? 0)%nat then Raise ZeroDivisionError else
      let P := map (coherence d) S in
      P <- set_first P ;;
      P <- (if (N mod 2 =? 1)%nat then Ok P else set_last P) ;;
      let fudgeIdx := if (N mod 2 =? 1)%nat then 0%nat else 1%nat in
      (* tile(P**p, d).reshape(X.shape[::-1]) *)
      if negb (length P * d =? length X * d)%nat then Raise ValueError else
      let Pp := map (fun v => fl_pow v p) P in
      if forallb is_finite Pp then
        let Xw := map (fun r => map (Cscal (fl_value (fst r))) (snd r))
                      (combine Pp X) in
        let mirror := map (fun k => map Cconj (nth k Xw []))
                          (rev (range 1 (N / 2 - fudgeIdx + 1))) in
        r <- ift (Xw ++ mirror) None 0 false ;;
        match r with
        | Float64 x_psf => Ok (Finite x_psf, P)
        | Complex128 _ => Raise ValueError (* not reached *)
        end
      else Ok (NonFinite, P)
  end.

End WATCtools.

(** ** [fk_freq.py] *)

Module FkFreq.

(** The arrays the caller holds, by reference; [fk_freq] is handed the
    references of [data] and [rij]. *)
Definition loc : Type := nat.
Definition heap : Type := loc -> list (list R).

Definition upd (h : heap) (l : loc) (a : list (list R)) : heap :=
  fun l' => if (l' =? l)%nat then a else h l'.

(** A computation that reads and writes the heap and may raise; what was
    written before an exception stays written. *)
Definition M (A : Type) : Type := heap -> result A * heap.

Definition ret {A : Type} (a : A) : M A := fun h => (Ok a, h).
Definition raise {A : Type} (e : exn) : M A := fun h => (Raise e, h).
Definition bindM {A B : Type} (m : M A) (k : A -> M B) : M B :=
  fun h => match m h with
           | (Ok a, h') => k a h'
           | (Raise e, h') => (Raise e, h')
           end.
Definition lift {A : Type} (r : result A) : M A := fun h => (r, h).

Notation "x <~ m ; k" := (bindM m (fun x => k))
  (at level 61, m at next level, right associativity).

(** A numpy view: the array it shares its memory with, transposed or not.
    [np.transpose] returns a view. *)
Record view : Type := { base : loc; transposed : bool }.

Definition as_view (l : loc) : view := {| base := l; transposed := false |}.
Definition transpose (v : view) : view :=
  {| base := base v; transposed := negb (transposed v) |}.

Fixpoint set_nth {A : Type} (k : nat) (v : A) (l : list A) : list A :=
  match l, k with
  | [], _ => []
  | _ :: t, O => v :: t
  | a :: t, S k' => a :: set_nth k' v t
  end.

(** [v[:, c]]: a column of the view is a row of the base array when the
    view is transposed. *)
Definition get_col (v : view) (c : nat) : M (list R) :=
  fun h =>
    let a := h (base v) in
    if transposed v then
      (if (c <? length a)%nat then (Ok (nth c a []), h)
       else (Raise IndexError, h))
    else
      (if (c <? snd (shape a))%nat then (Ok (map (fun row => nth c row 0) a), h)
       else (Raise IndexError, h)).

(** [v[:, c] = vals]: the write goes to the memory of the base array. *)
Definition set_col (v : view) (c : nat) (vals : list R) : M unit :=
  fun h =>
    let a := h (base v) in
    if transposed v then
      (if (c <? length a)%nat then (Ok tt, upd h (base v) (set_nth c vals a))
       else (Raise IndexError, h))
    else
      (if (c <? snd (shape a))%nat
       then (Ok tt, upd h (base v)
                      (map (fun p => set_nth c (snd p) (fst p)) (combine a vals)))
       else (Raise IndexError, h)).

Definition get_shape (l : loc) : M (nat * nat) := fun h => (Ok (shape (h l)), h).

(** The retained band of bins [(nlow, nhigh, nf)] for [m] samples. *)
Definition nfft_of (m : nat) : nat := 2 ^ Nat.log2_up m.

Definition band_bins (m : nat) (fs fmin fmax : R) : Z * Z * Z :=
  let nfft := nfft_of m in
  let deltaf := fs / INR nfft in
  let nlow := Np.py_int (fmin / deltaf + 0.5) in
  let nhigh := Np.py_int (fmax / deltaf + 0.5) in
  let nlow := Z.max 1 nlow in
  let nhigh := Z.min (Z.of_nat nfft / 2 - 1) nhigh in
  (nlow, nhigh, (nhigh - nlow + 1)%Z).

(** Broadcasting of the last axes, of lengths [n] and [nsta]. *)
Definition broadcastable (n nsta : nat) : bool :=
  (n =? nsta)%nat || (n =? 1)%nat || (nsta =? 1)%nat.

Definition broadcast_mult (a b : list C) : list C :=
  if (length a =? length b)%nat
  then map (fun p => Cmult (fst p) (snd p)) (combine a b)
  else if (length a =? 1)%nat then map (Cmult (hd C0 a)) b
  else map (fun z => Cmult z (hd C0 b)) a.

Definition add_matrix (a b : list (list R)) : list (list R) :=
  map (fun rows => map (fun p => fst p + snd p) (combine (fst rows) (snd rows)))
      (combine a b).

Definition zeros (m n : nat) : list (list R) := repeat (repeat 0 n) m.

(** [Master] at one frequency: the steering phasors times the Fourier
    coefficients of the stations, for every slowness and azimuth. *)
Definition master (freq : R) (TT : list (list (list R))) (fcoeff : list C)
  : list (list (list C)) :=
  map (map (fun delays =>
              broadcast_mult
                (map (fun t => cis (- (2 * PI * freq * t))) delays) fcoeff))
      TT.

(** One pass of the loop over frequencies: [pow_mapt += Top2] and
    [pow_mapb += Bot]. *)
Definition freq_step (n nsta : nat) (TT : list (list (list R)))
  (ft : list (list C)) (freqrange : list R)
  (acc : list (list R) * list (list R)) (ii : nat)
  : result (list (list R) * list (list R)) :=
  let freq := nth ii freqrange 0 in
  let fcoeff := map (fun row => nth ii row C0) ft in
  if broadcastable n nsta then
    let Master := master freq TT fcoeff in
    let Top := map (map Csum_list) Master in
    let Top2 := map (map Cnorm2) Top in
    let Bot := map (map (fun ms => Rsum (map Cnorm2 ms))) Master in
    Ok (add_matrix (fst acc) Top2, add_matrix (snd acc) Bot)
  else Raise ValueError.

Section Beamformer.

(** [obspy.signal.invsim.cosine_taper(m, p=0.22)], a function of the obspy
    library: a vector of [m] weights. *)
Variable cosine_taper : nat -> list R.

(** The loop over the traces: each column of [data] has its mean removed in
    place, is tapered and transformed, and the bins of the band are kept. *)
Fixpoint trace_loop (data : loc) (m : nat) (nlow nf : Z) (jjs : list nat)
  : M (list (list C)) :=
  match jjs with
  | [] => ret []
  | jj :: rest =>
      col <~ get_col (as_view data) jj ;
      _ <~ set_col (as_view data) jj (map (fun v => v - Np.mean col) col) ;
      col <~ get_col (as_view data) jj ;
      let dat := map (fun p => fst p * snd p) (combine col (cosine_taper m)) in
      let row := py_slice nlow (nlow + nf) (Np.rfft_vec (nfft_of m) dat) in
      rows <~ trace_loop data m nlow nf rest ;
      ret (row :: rows)
  end.

(** [fk_freq(data, fs, rij, vmin, vmax, fmin, fmax, nvel, ntheta)] *)
Definition fk_freq (data : loc) (fs : R) (rij : loc)
  (vmin vmax fmin fmax : R) (nvel ntheta : nat) : M (list (list fl)) :=
  let rij := transpose (as_view rij) in
  c0 <~ get_col rij 0 ;
  _ <~ set_col rij 0 (map (fun v => v - Np.mean c0) c0) ;
  c1 <~ get_col rij 1 ;
  _ <~ set_col rij 1 (map (fun v => v - Np.mean c1) c1) ;
  sh <~ get_shape data ;
  let '(m, nsta) := sh in
  if Req_dec_T vmax 0 then raise ZeroDivisionError else
  if Req_dec_T vmin 0 then raise ZeroDivisionError else
  let sits := Np.linspace (1 / vmax) (1 / vmin) nvel in
  let theta := Np.linspace 0 (2 * PI) ntheta in
  east <~ get_col rij 1 ;
  north <~ get_col rij 0 ;
  let TT := map (fun s =>
                   map (fun t =>
                          map (fun p => s * cos t * fst p + s * sin t * snd p)
                              (combine east north))
                       theta)
                sits in
  (* ceil(np.log2(0)) *)
  if (m =? 0)%nat then raise OverflowError else
  (* fmin / float(deltaf) *)
  if Req_dec_T (fs / INR (nfft_of m)) 0 then raise ZeroDivisionError else
  let '(nlow, nhigh, nf) := band_bins m fs fmin fmax in
  (* np.empty((nsta, nf)) *)
  if (nf <? 0)%Z then raise ValueError else
  ft <~ trace_loop data m nlow nf (range 0 nsta) ;
  let freqrange := Np.linspace fmin fmax (Z.to_nat nf) in
  acc <~ lift (fold_left
                 (fun acc ii => a <- acc ;;
                                freq_step (length east) nsta TT ft freqrange a ii)
                 (range 0 (length freqrange))
                 (Ok (zeros nvel ntheta, zeros nvel ntheta))) ;
  ret (map (fun rows => map (fun p => true_divide (fst p) (snd p))
                            (combine (fst rows) (snd rows)))
           (combine (fst acc) (snd acc))).

End Beamformer.

End FkFreq.

(** ** [MCCMcalc] of [WATCtools.py] *)

Module Mccm.
Import WATCtools.

(** The exceptions of [MCCMcalc]: those above, and [TypeError]. *)
Inductive py_exn : Type :=
| Core (e : exn)
| TypeError.

Inductive outcome (A : Type) : Type :=
| Returns (a : A)
| Raises (e : py_exn).

Arguments Returns {A} a.
Arguments Raises {A} e.

(** [np.average(a)], the mean: [nan] for an empty array. *)
Definition average (a : list R) : fl :=
  true_divide (Rsum a) (INR (length a)).

(** [np.average(a, weights=w)] for 1-D arrays: [TypeError] when the
    shapes differ (no axis is given), [ZeroDivisionError] when the
    weights sum to zero. *)
Definition average_weighted (a w : list R) : outcome R :=
  if negb (length a =? length w)%nat then Raises TypeError
  else if Req_dec_T (Rsum w) 0 then Raises (Core ZeroDivisionError)
  else Returns (Rsum (map (fun p => fst p * snd p) (combine a w)) / Rsum w).

(** Sorting, for the median. *)
Fixpoint insert (x : R) (l : list R) : list R :=
  match l with
  | [] => [x]
  | y :: t => if Rle_dec x y then x :: l else y :: insert x t
  end.

Definition sort (l : list R) : list R := fold_right insert [] l.

(** [np.median(a)]: the middle value of the sorted array, the mean of
    the two middle values for an even length, [nan] for an empty
    array. *)
Definition median (a : list R) : fl :=
  match a with
  | [] => NaN
  | _ =>
      let s := sort a in
      let n := length a in
      if Nat.even n
      then Fin ((nth (n / 2 - 1) s 0 + nth (n / 2) s 0) / 2)
      else Fin (nth (n / 2) s 0)
  end.

(** [Wgt = array([wgt[i]*wgt[j] for i in range(wgt.size-1)
                                  for j in range(i+1,wgt.size)])] *)
Definition pair_weights (wgt : list R) : list R :=
  map (fun ij => nth (fst ij) wgt 0 * nth (snd ij) wgt 0)
      (pair_index (length wgt)).

(** [idx = [i for i, e in enumerate(Wgt) if e != 0]] *)
Definition weighted_pairs (Wgt : list R) : list nat :=
  filter (fun i => if Req_dec_T (nth i Wgt 0) 0 then false else true)
         (seq 0 (length Wgt)).

(** [MCCMcalc(cmax, wgt)]: returns [(MCCM, MdCCM)]. *)
Definition MCCMcalc (cmax : list R) (wgt : option (list R))
  : outcome (fl * fl) :=
  match wgt with
  | None => Returns (average cmax, median cmax)
  | Some wgt =>
      let Wgt := pair_weights wgt in
      match average_weighted cmax Wgt with
      | Raises e => Raises e
      | Returns MCCM =>
          let idx := weighted_pairs Wgt in
          Returns (Fin MCCM, median (map (fun i => nth i cmax 0) idx))
      end
  end.

End Mccm.

(** ** [WATCtools.randc] *)

Module Randc.
Import WATCtools.

(** The argument [N]: an [int], or a tuple of one or of two of them (an
    output of more dimensions is not modelled). *)
Inductive shape_arg : Type :=
| Int (n0 : Z)
| Tuple1 (n0 : Z)
| Tuple2 (n0 n1 : Z).

(** The returned array, of one dimension or of two. *)
Inductive noise : Type :=
| Vector (v : list fl)
| Matrix (a : list (list fl)).

(** numpy's [x ** y] on floats, for a base that is zero, positive or
    [inf]: [x ** 0] is 1 for every [x]. *)
Definition float_power (x : fl) (y : R) : fl :=
  if Req_dec_T y 0 then Fin 1 else
  match x with
  | Fin r =>
      if Req_dec_T r 0 then (if Rlt_dec 0 y then Fin 0 else PInf)
      else if Rlt_dec 0 r then Fin (Rpower r y)
      else NaN (* not reached: no amplitude is negative *)
  | PInf => if Rlt_dec 0 y then PInf else Fin 0
  | _ => NaN
  end.

(** [numpy.std(a, ddof=1)]: the sum of the squared deviations over
    [max(size - 1, 0)], and its square root. *)
Definition std (a : list R) : fl :=
  match true_divide
          (Rsum (map (fun v => (v - Np.mean a) * (v - Np.mean a)) a))
          (INR (length a - 1)) with
  | Fin v => Fin (sqrt v)
  | PInf => PInf
  | _ => NaN
  end.

(** [x / s] for a float [x] and the float [s] that [std] returned. *)
Definition divide (x : R) (s : fl) : fl :=
  match s with
  | Fin r => true_divide x r
  | NaN => NaN
  | _ => Fin 0
  end.

(** [hstack((c0, arange(1,n+1), cFiller, arange(n,0,-1)))] *)
Definition amplitudes (c0 : fl) (n : nat) (cFiller : list fl) : list fl :=
  [c0] ++ map (fun k => Fin (INR k)) (range 1 (n + 1)) ++ cFiller
       ++ map (fun k => Fin (INR k)) (rev (range 1 (n + 1))).

(** [exp(vstack((zeros((1,M[1])), 1j*cPhase, pFiller, -1j*flipud(cPhase))))] *)
Definition phasors (cols : nat) (cPhase pFiller : list (list R))
  : list (list C) :=
  map (map cis)
      ([repeat 0 cols] ++ cPhase ++ pFiller ++ map (map Ropp) (rev cPhase)).

(** [r[0] = 0] *)
Definition set_first_row (cols : nat) (r : list (list fl))
  : result (list (list fl)) :=
  match r with
  | [] => Raise IndexError
  | _ :: t => Ok (repeat (Fin 0) cols :: t)
  end.

(** [r.reshape(N)] for an [r] of [N[0]] rows and [M[1]] columns. *)
Definition reshape (N : shape_arg) (r : list (list fl)) : noise :=
  match N with
  | Int _ | Tuple1 _ => Vector (concat r)
  | Tuple2 _ _ => Matrix r
  end.

Section Generator.

(** [numpy.random.random_sample((n, cols))]: the draws, each in [0, 1). *)
Variable random_sample : nat -> nat -> list (list R).

(** [randc(N, beta)] *)
Definition randc (N : shape_arg) (beta : R) : result noise :=
  (* N = (N,) for an int; M = (N[0], 1) for one dimension, else N *)
  let '(n0, m1) := match N with
                   | Int n0 | Tuple1 n0 => (n0, 1%Z)
                   | Tuple2 n0 n1 => (n0, n1)
                   end in
  let c0 := if Rlt_dec beta 0 then Fin 0 else PInf in
  let n := Zfloor ((IZR n0 - 1) / 2) in
  (* random_sample refuses a negative dimension *)
  if ((n <? 0) || (m1 <? 0))%Z then Raise ValueError else
  let n := Z.to_nat n in
  let cols := Z.to_nat m1 in
  let cPhase := map (map (fun u => u * 2 * PI)) (random_sample n cols) in
  let odd := (n0 mod 2 =? 1)%Z in
  let cFiller := if odd then [] else [Fin (IZR n0 / 2)] in
  let pFiller := if odd then [] else [repeat 0 cols] in
  let r := amplitudes c0 n cFiller in
  let phasor := phasors cols cPhase pFiller in
  (* tile(r,M[1]).reshape(M[1],N[0]).T**(-beta/2) *)
  if negb (length r * cols =? cols * Z.to_nat n0)%nat then Raise ValueError else
  let r := map (fun a => repeat (float_power a (- beta / 2)) cols) r in
  r <- (if Req_dec_T beta 0 then set_first_row cols r else Ok r) ;;
  if forallb (forallb is_finite) r then
    let X := map (fun p => map (fun q => Cscal (fl_value (fst q)) (snd q))
                             (combine (fst p) (snd p)))
                 (combine r phasor) in
    y <- ift X None 0 false ;;
    match y with
    | Float64 x =>
        let s := std (concat x) in
        Ok (reshape N (map (map (fun v => divide v s)) x))
    | Complex128 _ => Raise ValueError (* not reached: [allowComplex=False] *)
    end
  else
    (* an amplitude that is not finite would make every entry [nan] *)
    Ok (reshape N (map (map (fun _ => NaN)) r)).

End Generator.

End Randc.

(* ================================================================== *)
(** * Part II: properties *)
(* ================================================================== *)

(** ** Lists *)

Lemma nth_map_lt {A B : Type} (f : A -> B) (l : list A) (i : nat) (d : B) (d' : A) :
  (i < length l)%nat -> nth i (map f l) d = f (nth i l d').
Proof.
  intros H. rewrite (nth_indep (map f l) d (f d')) by (now rewrite length_map).
  apply map_nth.
Qed.

Lemma nth_seq_lt (a len i d : nat) :
  (i < len)%nat -> nth i (seq a len) d = (a + i)%nat.
Proof. intros H. now apply seq_nth. Qed.

Lemma wf_matrix_nth {A : Type} (m n : nat) (x : list (list A)) (r : nat) :
  wf_matrix m n x -> (r < m)%nat -> length (nth r x []) = n.
Proof.
  intros [Hm Hn] Hr. rewrite Forall_forall in Hn. apply Hn.
  apply nth_In. now rewrite Hm.
Qed.

Lemma wf_matrix_shape {A : Type} (m n : nat) (x : list (list A)) :
  wf_matrix m n x -> (0 < m)%nat -> shape x = (m, n).
Proof.
  intros [Hm Hn] Hpos. unfold shape. rewrite Hm. f_equal.
  destruct x as [|row x]; simpl in *; [lia|].
  now inversion Hn.
Qed.

Lemma StronglySorted_app {A : Type} (R : A -> A -> Prop) (l1 l2 : list A) :
  StronglySorted R l1 -> StronglySorted R l2 ->
  (forall a b, In a l1 -> In b l2 -> R a b) ->
  StronglySorted R (l1 ++ l2).
Proof.
  induction l1 as [|a l1 IH]; simpl; intros H1 H2 H12; [exact H2|].
  inversion H1; subst. constructor.
  - apply IH; auto.
  - rewrite Forall_forall in *. intros b Hb. apply in_app_or in Hb.
    destruct Hb as [Hb|Hb]; auto.
Qed.

(** ** [co_array] *)

Module CoArrayProofs.
Import WATCtools.

(** The lexicographic order of pairs. *)
Definition lex_lt (p q : nat * nat) : Prop :=
  (fst p < fst q)%nat \/ (fst p = fst q /\ (snd p < snd q)%nat).

Lemma in_pair_index (n i j : nat) :
  In (i, j) (pair_index n) <-> (i < j < n)%nat.
Proof.
  unfold pair_index, range. rewrite in_flat_map. split.
  - intros [i' [Hi Hj]]. rewrite in_map_iff in Hj.
    destruct Hj as [j' [Heq Hj]]. inversion Heq; subst.
    rewrite in_seq in Hi, Hj. lia.
  - intros H. exists i. split.
    + rewrite in_seq. lia.
    + rewrite in_map_iff. exists j. split; [reflexivity|].
      rewrite in_seq. lia.
Qed.

Lemma length_pair_rows (n k : nat) :
  (k <= n - 1)%nat ->
  (2 * length (flat_map (fun i => map (fun j => (i, j)) (range (i + 1) n))
                 (seq 0 k)) + k * k = k * (2 * n - 1))%nat.
Proof.
  induction k as [|k IH]; intros Hk; [reflexivity|].
  rewrite seq_S, flat_map_app, length_app. simpl flat_map.
  rewrite app_nil_r, length_map. unfold range at 2. rewrite length_seq.
  specialize (IH ltac:(lia)). simpl Nat.add at 2. nia.
Qed.

Lemma length_pair_index (n : nat) :
  length (pair_index n) = (n * (n - 1) / 2)%nat.
Proof.
  unfold pair_index. unfold range at 2. rewrite Nat.sub_0_r.
  pose proof (@length_pair_rows n (n - 1) (le_n _)) as H.
  apply Nat.div_unique with (r := 0%nat); [lia|].
  nia.
Qed.

Lemma sorted_pair_row (i a len : nat) :
  StronglySorted lex_lt (map (fun j => (i, j)) (seq a len)).
Proof.
  revert a. induction len as [|len IH]; intros a; simpl; constructor.
  - apply IH.
  - rewrite Forall_forall. intros q Hq. rewrite in_map_iff in Hq.
    destruct Hq as [j [<- Hj]]. rewrite in_seq in Hj.
    right. simpl. lia.
Qed.

Lemma sorted_pair_rows (n a k : nat) :
  StronglySorted lex_lt
    (flat_map (fun i => map (fun j => (i, j)) (range (i + 1) n)) (seq a k)).
Proof.
  revert a. induction k as [|k IH]; intros a; simpl; [constructor|].
  apply StronglySorted_app.
  - apply sorted_pair_row.
  - apply IH.
  - intros p q Hp Hq. rewrite in_map_iff in Hp. destruct Hp as [j [<- _]].
    rewrite in_flat_map in Hq. destruct Hq as [i' [Hi' Hq]].
    rewrite in_map_iff in Hq. destruct Hq as [j' [<- _]].
    rewrite in_seq in Hi'. left. simpl. lia.
Qed.

Lemma sorted_pair_index (n : nat) : StronglySorted lex_lt (pair_index n).
Proof. apply sorted_pair_rows. Qed.

Lemma pair_index_bound (n k : nat) :
  (k < length (pair_index n))%nat ->
  (fst (nth k (pair_index n) (0, 0)) < snd (nth k (pair_index n) (0, 0)) < n)%nat.
Proof.
  intros Hk. apply in_pair_index.
  rewrite <- surjective_pairing. now apply nth_In.
Qed.

Lemma take_cols_ok (a : list (list R)) (cols : list nat) :
  Forall (fun c => (c < snd (shape a))%nat) cols ->
  take_cols a cols = Ok (map (fun row => map (fun c => nth c row 0%R) cols) a).
Proof.
  intros Hc. unfold take_cols.
  replace (forallb _ cols) with true; [reflexivity|].
  symmetry. apply forallb_forall. intros c Hin.
  rewrite Forall_forall in Hc. apply Nat.ltb_lt. now apply Hc.
Qed.

Lemma co_array_ok (rij : list (list R)) :
  co_array rij =
  Ok (map (fun row =>
             map (fun p => (nth (fst p) row 0 - nth (snd p) row 0)%R)
                 (pair_index (snd (shape rij))))
          rij).
Proof.
  unfold co_array. set (n := snd (shape rij)).
  assert (Hb : forall p, In p (pair_index n) -> (fst p < snd p < n)%nat).
  { intros [i j] Hin. now apply in_pair_index. }
  rewrite !take_cols_ok.
  - simpl. f_equal. unfold sub_matrix. clear Hb.
    generalize (pair_index n) as idx. clear n. intros idx.
    induction rij as [|row rij IH]; [reflexivity|]. simpl. f_equal; [|exact IH].
    clear IH. induction idx as [|p l IHl]; [reflexivity|].
    simpl. now f_equal.
  - rewrite Forall_forall. intros c Hc. rewrite in_map_iff in Hc.
    destruct Hc as [p [<- Hp]]. fold n. apply Hb in Hp. lia.
  - rewrite Forall_forall. intros c Hc. rewrite in_map_iff in Hc.
    destruct Hc as [p [<- Hp]]. fold n. apply Hb in Hp. lia.
Qed.

End CoArrayProofs.

Import WATCtools CoArrayProofs.

(** The enumeration of the sensor pairs for three sensors, as in the
    specification's example. *)
Example pair_index_3 : pair_index 3 = [(0, 1); (0, 2); (1, 2)]%nat.
Proof. reflexivity. Qed.

(** C3. For a [d] by [n] coordinate matrix with [n >= 2], [co_array]
    returns a matrix of [d] rows and [n(n-1)/2] columns; the pairs it
    enumerates are exactly the pairs [(i, j)] with [i < j < n], in strictly
    increasing lexicographic order; and column [k] of the result is column
    [i_k] minus column [j_k] of [rij], for the [k]-th pair [(i_k, j_k)]. *)
Theorem co_array_columns (d n : nat) (rij : list (list R)) :
  wf_matrix d n rij -> (2 <= n)%nat ->
  exists xij,
    co_array rij = Ok xij /\
    wf_matrix d (n * (n - 1) / 2) xij /\
    (forall i j, In (i, j) (pair_index n) <-> (i < j < n)%nat) /\
    StronglySorted lex_lt (pair_index n) /\
    length (pair_index n) = (n * (n - 1) / 2)%nat /\
    forall r k, (r < d)%nat -> (k < n * (n - 1) / 2)%nat ->
      nth k (nth r xij []) 0%R =
      (nth (fst (nth k (pair_index n) (0, 0)%nat)) (nth r rij []) 0
       - nth (snd (nth k (pair_index n) (0, 0)%nat)) (nth r rij []) 0)%R.
Proof.
  intros Hwf Hn. eexists. split; [apply co_array_ok|].
  assert (Hidx : d = 0%nat \/ snd (shape rij) = n).
  { destruct d; [now left|right].
    now rewrite (wf_matrix_shape Hwf) by lia. }
  split; [|split; [|split; [|split]]].
  - destruct Hwf as [Hlen Hrows]. split; [now rewrite length_map|].
    rewrite Forall_forall. intros row Hrow. rewrite in_map_iff in Hrow.
    destruct Hrow as [row' [<- Hin]]. rewrite length_map.
    destruct Hidx as [H0|Hs].
    + rewrite H0 in Hlen. apply length_zero_iff_nil in Hlen.
      rewrite Hlen in Hin. destruct Hin.
    + rewrite Hs. apply length_pair_index.
  - intros i j. apply in_pair_index.
  - apply sorted_pair_index.
  - apply length_pair_index.
  - intros r k Hr Hk. destruct Hidx as [H0|Hs]; [lia|]. rewrite Hs.
    destruct Hwf as [Hlen _].
    rewrite (@nth_map_lt _ _ _ rij r [] []) by lia.
    rewrite (@nth_map_lt _ _ _ (pair_index n) k 0%R (0, 0)%nat)
      by (now rewrite length_pair_index).
    reflexivity.
Qed.

Lemma co_array_columns_witness :
  exists xij,
    co_array [[0; 1; 0]; [0; 0; 1]]%R = Ok xij /\
    wf_matrix 2 (3 * (3 - 1) / 2) xij /\
    (forall i j, In (i, j) (pair_index 3) <-> (i < j < 3)%nat) /\
    StronglySorted lex_lt (pair_index 3) /\
    length (pair_index 3) = (3 * (3 - 1) / 2)%nat /\
    forall r k, (r < 2)%nat -> (k < 3 * (3 - 1) / 2)%nat ->
      nth k (nth r xij []) 0%R =
      (nth (fst (nth k (pair_index 3) (0, 0)%nat))
           (nth r [[0; 1; 0]; [0; 0; 1]]%R []) 0
       - nth (snd (nth k (pair_index 3) (0, 0)%nat))
             (nth r [[0; 1; 0]; [0; 0; 1]]%R []) 0)%R.
Proof.
  apply (@co_array_columns 2 3 [[0; 1; 0]; [0; 0; 1]]%R).
  - split; [reflexivity|]. repeat constructor.
  - lia.
Defined.

(** C9 (as stated, refuted). With one sensor [co_array] does not fail: it
    returns a matrix with no column. *)
Lemma co_array_one_sensor_returns :
  co_array [[1]; [2]]%R = Ok [[]; []] /\
  ~ (exists e, co_array [[1]; [2]]%R = Raise e).
Proof.
  assert (H : co_array [[1]; [2]]%R = Ok [[]; []]).
  { rewrite co_array_ok. reflexivity. }
  split; [exact H|]. intros [e He]. rewrite H in He. discriminate.
Qed.

(** C9 (amended). [co_array] has no error path at all: on every array it
    returns; with fewer than two sensors what it returns is the [d] by [0]
    matrix. *)
Theorem co_array_few_sensors (d n : nat) (rij : list (list R)) :
  wf_matrix d n rij -> (n < 2)%nat ->
  co_array rij = Ok (repeat [] d) /\
  forall a : list (list R), exists xij, co_array a = Ok xij.
Proof.
  intros [Hlen Hrows] Hn. split.
  - rewrite co_array_ok. f_equal.
    assert (Hp : pair_index (snd (shape rij)) = []).
    { destruct rij as [|row rij]; [reflexivity|].
      inversion Hrows as [|? ? Hrow _]; subst. simpl.
      destruct (length row) as [|[|k]]; [reflexivity|reflexivity|].
      simpl in Hn. lia. }
    rewrite Hp. subst d. clear. induction rij; simpl; [reflexivity|].
    now f_equal.
  - intros a. eexists. apply co_array_ok.
Qed.

Lemma co_array_few_sensors_witness :
  co_array [[1]; [2]]%R = Ok (repeat [] 2) /\
  forall a : list (list R), exists xij, co_array a = Ok xij.
Proof.
  apply (@co_array_few_sensors 2 1 [[1]; [2]]%R).
  - split; [reflexivity|]. repeat constructor.
  - lia.
Defined.

(** ** Complex numbers and finite sums *)

Local Open Scope R_scope.

Ltac cx := unfold Cplus, Cmult, Cscal, Cconj, Cnorm2, RtoC, Re, Im, C0, C1 in *;
  simpl in *.
Ltac cx_eq := cx; f_equal; try ring.

Lemma Cplus_0_l (a : C) : Cplus C0 a = a.
Proof. destruct a. cx_eq. Qed.

Lemma Cplus_0_r (a : C) : Cplus a C0 = a.
Proof. destruct a. cx_eq. Qed.

Lemma Cplus_comm (a b : C) : Cplus a b = Cplus b a.
Proof. cx_eq. Qed.

Lemma Cplus_assoc (a b c : C) : Cplus a (Cplus b c) = Cplus (Cplus a b) c.
Proof. cx_eq. Qed.

Lemma Cmult_0_l (a : C) : Cmult C0 a = C0.
Proof. cx_eq. Qed.

Lemma Cmult_0_r (a : C) : Cmult a C0 = C0.
Proof. cx_eq. Qed.

Lemma Cmult_1_r (a : C) : Cmult a C1 = a.
Proof. destruct a. cx_eq. Qed.

Lemma Cmult_comm (a b : C) : Cmult a b = Cmult b a.
Proof. cx_eq. Qed.

Lemma Cmult_assoc (a b c : C) : Cmult a (Cmult b c) = Cmult (Cmult a b) c.
Proof. cx_eq. Qed.

Lemma Cmult_plus_distr_l (a b c : C) :
  Cmult a (Cplus b c) = Cplus (Cmult a b) (Cmult a c).
Proof. cx_eq. Qed.

Lemma Cmult_plus_distr_r (a b c : C) :
  Cmult (Cplus a b) c = Cplus (Cmult a c) (Cmult b c).
Proof. cx_eq. Qed.

Lemma Cscal_0_r (r : R) : Cscal r C0 = C0.
Proof. cx_eq. Qed.

Lemma Cscal_plus (r : R) (a b : C) :
  Cscal r (Cplus a b) = Cplus (Cscal r a) (Cscal r b).
Proof. cx_eq. Qed.

Lemma Cscal_Cscal (r s : R) (a : C) : Cscal r (Cscal s a) = Cscal (r * s) a.
Proof. cx_eq. Qed.

Lemma Cscal_1 (a : C) : Cscal 1 a = a.
Proof. destruct a. cx_eq. Qed.

Lemma Cscal_mult_l (r : R) (a b : C) :
  Cmult (Cscal r a) b = Cscal r (Cmult a b).
Proof. cx_eq. Qed.

Lemma Cscal_as_mult (r : R) (a : C) : Cscal r a = Cmult (RtoC r) a.
Proof. cx_eq. Qed.

Lemma Cnorm2_nonneg (a : C) : 0 <= Cnorm2 a.
Proof. cx. nra. Qed.

Lemma Cnorm2_mult (a b : C) : Cnorm2 (Cmult a b) = Cnorm2 a * Cnorm2 b.
Proof. cx. ring. Qed.

Lemma Cmult_integral (a b : C) : Cmult a b = C0 -> a <> C0 -> b = C0.
Proof.
  destruct a as [a1 a2], b as [b1 b2]. cx. intros H Ha.
  assert (H1 := f_equal fst H). assert (H2 := f_equal snd H).
  simpl in H1, H2. clear H.
  assert (Hpos : 0 < a1 * a1 + a2 * a2).
  { destruct (Rlt_dec 0 (a1 * a1 + a2 * a2)) as [Hlt|Hge]; [exact Hlt|].
    elim Ha. assert (a1 = 0) by nra. assert (a2 = 0) by nra. now subst. }
  assert (Hb1 : (a1 * a1 + a2 * a2) * b1 = 0).
  { replace ((a1 * a1 + a2 * a2) * b1)
      with (a1 * (a1 * b1 - a2 * b2) + a2 * (a1 * b2 + a2 * b1)) by ring.
    rewrite H1, H2. ring. }
  assert (Hb2 : (a1 * a1 + a2 * a2) * b2 = 0).
  { replace ((a1 * a1 + a2 * a2) * b2)
      with (a1 * (a1 * b2 + a2 * b1) - a2 * (a1 * b1 - a2 * b2)) by ring.
    rewrite H1, H2. ring. }
  apply Rmult_integral in Hb1, Hb2.
  destruct Hb1 as [?|Hb1]; [lra|]. destruct Hb2 as [?|Hb2]; [lra|].
  now subst.
Qed.

Lemma cis_0 : cis 0 = C1.
Proof. unfold cis, C1. now rewrite cos_0, sin_0. Qed.

Lemma cis_plus (a b : R) : cis (a + b) = Cmult (cis a) (cis b).
Proof. unfold cis. cx. rewrite cos_plus, sin_plus. f_equal; ring. Qed.

Lemma Cnorm2_cis (t : R) : Cnorm2 (cis t) = 1.
Proof.
  unfold cis. cx. pose proof (sin2_cos2 t) as H. unfold Rsqr in H. lra.
Qed.

Lemma cis_2PI_nat (k : nat) : cis (2 * INR k * PI) = C1.
Proof.
  unfold cis, C1.
  replace (2 * INR k * PI) with (0 + 2 * INR k * PI) by ring.
  now rewrite cos_period, sin_period, cos_0, sin_0.
Qed.

Lemma cis_neg (t : R) : cis (- t) = Cconj (cis t).
Proof. unfold cis. cx. now rewrite cos_neg, sin_neg. Qed.

(** [exp(1j*t)] is not 1 strictly between 0 and a full turn. *)
Lemma cis_neq_1 (t : R) : 0 < t < 2 * PI -> cis t <> C1.
Proof.
  intros [H0 H2] E. unfold cis, C1 in E.
  assert (Hc := f_equal fst E). simpl in Hc.
  replace t with (2 * (t / 2)) in Hc by field.
  rewrite cos_2a_sin in Hc.
  assert (Hsin : 0 < sin (t / 2)) by (apply sin_gt_0; lra).
  nra.
Qed.

Lemma Csum_ext (f g : nat -> C) (n : nat) :
  (forall k, (k < n)%nat -> f k = g k) -> Csum f n = Csum g n.
Proof.
  induction n as [|n IH]; intros H; [reflexivity|]. simpl.
  rewrite IH by (intros; apply H; lia). now rewrite H by lia.
Qed.

Lemma Csum_zero (n : nat) : Csum (fun _ => C0) n = C0.
Proof. induction n; simpl; [reflexivity|]. rewrite IHn. apply Cplus_0_l. Qed.

Lemma Csum_plus (f g : nat -> C) (n : nat) :
  Csum (fun k => Cplus (f k) (g k)) n = Cplus (Csum f n) (Csum g n).
Proof.
  induction n as [|n IH]; simpl; [cx_eq|]. rewrite IH. cx_eq.
Qed.

Lemma Csum_mult_l (c : C) (f : nat -> C) (n : nat) :
  Csum (fun k => Cmult c (f k)) n = Cmult c (Csum f n).
Proof.
  induction n as [|n IH]; simpl; [cx_eq|]. rewrite IH. cx_eq.
Qed.

Lemma Csum_mult_r (c : C) (f : nat -> C) (n : nat) :
  Csum (fun k => Cmult (f k) c) n = Cmult (Csum f n) c.
Proof.
  induction n as [|n IH]; simpl; [cx_eq|]. rewrite IH. cx_eq.
Qed.

Lemma Csum_scal (r : R) (f : nat -> C) (n : nat) :
  Csum (fun k => Cscal r (f k)) n = Cscal r (Csum f n).
Proof.
  induction n as [|n IH]; simpl; [cx_eq|]. rewrite IH. cx_eq.
Qed.

Lemma Csum_swap (f : nat -> nat -> C) (n m : nat) :
  Csum (fun j => Csum (fun k => f j k) m) n =
  Csum (fun k => Csum (fun j => f j k) n) m.
Proof.
  induction n as [|n IH]; simpl.
  - now rewrite Csum_zero.
  - rewrite IH. now rewrite <- Csum_plus.
Qed.

(** A sum with one nonzero term. *)
Lemma Csum_single (f : nat -> C) (n j : nat) :
  (j < n)%nat -> (forall k, (k < n)%nat -> k <> j -> f k = C0) ->
  Csum f n = f j.
Proof.
  induction n as [|n IH]; intros Hj Hz; [lia|]. simpl.
  destruct (Nat.eq_dec j n) as [->|Hne].
  - rewrite (@Csum_ext f (fun _ => C0)) by (intros; apply Hz; lia).
    rewrite Csum_zero. apply Cplus_0_l.
  - rewrite IH by (try lia; intros; apply Hz; lia).
    rewrite (Hz n) by lia. apply Cplus_0_r.
Qed.

(** The geometric sum of the powers of [exp(1j*t)]. *)
Lemma Csum_cis_telescope (t : R) (n : nat) :
  Cmult (Cplus C1 (Cscal (-1) (cis t))) (Csum (fun k => cis (INR k * t)) n) =
  Cplus C1 (Cscal (-1) (cis (INR n * t))).
Proof.
  induction n as [|n IH].
  - simpl. rewrite Rmult_0_l, cis_0. cx_eq.
  - cbn [Csum]. rewrite Cmult_plus_distr_l, IH.
    rewrite S_INR.
    replace ((INR n + 1) * t) with (INR n * t + t) by ring.
    rewrite cis_plus. cx_eq.
Qed.

(** Orthogonality of the roots of unity. *)
Lemma Csum_roots_of_unity (N j l : nat) :
  (j < N)%nat -> (l < N)%nat ->
  Csum (fun k => Cmult (cis (- (2 * PI * INR l * INR k / INR N)))
                   (cis (2 * PI * INR j * INR k / INR N))) N =
  if (j =? l)%nat then RtoC (INR N) else C0.
Proof.
  intros Hj Hl.
  assert (HN : 0 < INR N) by (apply lt_0_INR; lia).
  destruct (Nat.eqb_spec j l) as [->|Hne].
  - rewrite (@Csum_ext _ (fun _ => C1)).
    + clear. induction N as [|N IH]; [reflexivity|].
      cbn [Csum]. rewrite IH, S_INR. cx_eq.
    + intros k _. rewrite <- cis_plus.
      replace (_ + _) with 0 by ring. apply cis_0.
  - (* the sum over k of the k-th power of a root other than 1 *)
    assert (Hgen : forall a b : nat, (b < a)%nat -> (a < N)%nat ->
              Csum (fun k => cis (INR k * (2 * PI * (INR a - INR b) / INR N))) N
              = C0).
    { intros a b Hba HaN.
      set (t := 2 * PI * (INR a - INR b) / INR N).
      pose proof (Csum_cis_telescope t N) as Ht.
      assert (Hfull : cis (INR N * t) = C1).
      { unfold t. replace (INR N * _) with (2 * INR (a - b) * PI).
        - apply cis_2PI_nat.
        - rewrite minus_INR by lia. field. lra. }
      rewrite Hfull in Ht.
      replace (Cplus C1 (Cscal (-1) C1)) with C0 in Ht by cx_eq.
      apply Cmult_integral in Ht; [exact Ht|].
      intros E.
      assert (E1 : cis t = C1).
      { destruct (cis t) as [c s]. cx.
        assert (Hc := f_equal fst E). assert (Hs := f_equal snd E).
        simpl in Hc, Hs. f_equal; lra. }
      revert E1. apply cis_neq_1. unfold t.
      assert (Hab : 0 < INR a - INR b).
      { apply lt_INR in Hba. lra. }
      assert (HaN' : INR a - INR b < INR N).
      { apply lt_INR in HaN. pose proof (pos_INR b). lra. }
      pose proof PI_RGT_0 as Hpi.
      split.
      - apply Rdiv_lt_0_compat; [|lra]. nra.
      - apply Rmult_lt_reg_r with (INR N); [lra|].
        unfold Rdiv. rewrite Rmult_assoc, Rinv_l by lra. nra. }
    assert (Hcase : (l < j)%nat \/ (j < l)%nat) by lia.
    destruct Hcase as [Hlt|Hlt].
    + rewrite <- (Hgen j l Hlt Hj). apply Csum_ext. intros k _.
      rewrite <- cis_plus. f_equal. field. lra.
    + (* the conjugate sum *)
      pose proof (Hgen l j Hlt Hl) as Hs.
      assert (Hconj : forall (f : nat -> C) n,
                 Csum (fun k => Cconj (f k)) n = Cconj (Csum f n)).
      { intros f n. induction n as [|n IH]; simpl; [cx_eq|].
        rewrite IH. cx_eq. }
      rewrite (@Csum_ext _
                 (fun k => Cconj (cis (INR k * (2 * PI * (INR l - INR j) / INR N))))).
      * rewrite Hconj, Hs. cx_eq.
      * intros k _. rewrite <- cis_plus, <- cis_neg. f_equal. field. lra.
Qed.

(** ** Arrays as lists of rows *)

Section Columns.
Variable A : Type.
Variable d0 : A.

Lemma length_of_columns (n : nat) (cols : list (list A)) :
  length (Np.of_columns d0 n cols) = n.
Proof. unfold Np.of_columns. now rewrite length_map, length_seq. Qed.

Lemma wf_of_columns (n : nat) (cols : list (list A)) :
  wf_matrix n (length cols) (Np.of_columns d0 n cols).
Proof.
  split; [apply length_of_columns|].
  rewrite Forall_forall. intros row Hrow. unfold Np.of_columns in Hrow.
  rewrite in_map_iff in Hrow. destruct Hrow as [r [<- _]].
  now rewrite length_map.
Qed.

Lemma columns_of_columns (n : nat) (cols : list (list A)) :
  (1 <= n)%nat -> Forall (fun col => length col = n) cols ->
  Np.columns d0 (Np.of_columns d0 n cols) = cols.
Proof.
  intros Hn Hcols. unfold Np.columns.
  rewrite (wf_matrix_shape (wf_of_columns n cols)) by lia. simpl snd.
  apply nth_ext with (d := []) (d' := []).
  - now rewrite length_map, length_seq.
  - intros c Hc. rewrite length_map, length_seq in Hc.
    rewrite (@nth_map_lt _ _ _ _ c [] 0%nat) by (now rewrite length_seq).
    rewrite nth_seq_lt by lia. simpl.
    assert (Hlen : length (nth c cols []) = n).
    { rewrite Forall_forall in Hcols. apply Hcols. now apply nth_In. }
    apply nth_ext with (d := d0) (d' := d0).
    + now rewrite length_map, length_of_columns.
    + intros r Hr. rewrite length_map, length_of_columns in Hr.
      rewrite (@nth_map_lt _ _ _ _ r d0 [])
        by (now rewrite length_of_columns).
      unfold Np.of_columns.
      rewrite (@nth_map_lt _ _ _ _ r [] 0%nat) by (now rewrite length_seq).
      rewrite nth_seq_lt by lia. simpl.
      now rewrite (@nth_map_lt _ _ _ _ c d0 []) by lia.
Qed.

Lemma of_columns_columns (m n : nat) (x : list (list A)) :
  wf_matrix m n x -> (1 <= m)%nat ->
  Np.of_columns d0 m (Np.columns d0 x) = x.
Proof.
  intros Hwf Hm. unfold Np.of_columns, Np.columns.
  rewrite (wf_matrix_shape Hwf) by lia. simpl snd.
  pose proof Hwf as [Hlen _].
  apply nth_ext with (d := []) (d' := []).
  - now rewrite length_map, length_seq.
  - intros r Hr. rewrite length_map, length_seq in Hr.
    rewrite (@nth_map_lt _ _ _ _ r [] 0%nat) by (now rewrite length_seq).
    rewrite nth_seq_lt by lia. simpl.
    pose proof (wf_matrix_nth Hwf Hr) as Hrow.
    apply nth_ext with (d := d0) (d' := d0).
    + now rewrite !length_map, length_seq.
    + intros c Hc. rewrite !length_map, length_seq in Hc.
      rewrite (@nth_map_lt _ _ _ _ c d0 [])
        by (now rewrite length_map, length_seq).
      rewrite (@nth_map_lt _ _ _ _ c [] 0%nat) by (now rewrite length_seq).
      rewrite nth_seq_lt by lia. simpl.
      now rewrite (@nth_map_lt _ _ _ _ r d0 []) by lia.
Qed.

Lemma wf_columns (m n : nat) (x : list (list A)) :
  wf_matrix m n x -> (1 <= m)%nat ->
  wf_matrix n m (Np.columns d0 x).
Proof.
  intros Hwf Hm. unfold Np.columns.
  rewrite (wf_matrix_shape Hwf) by lia. simpl snd. split.
  - now rewrite length_map, length_seq.
  - rewrite Forall_forall. intros col Hcol. rewrite in_map_iff in Hcol.
    destruct Hcol as [c [<- _]]. rewrite length_map. apply Hwf.
Qed.

Lemma columns_map (f : A -> A) (x : list (list A)) :
  f d0 = d0 ->
  Np.columns d0 (map (map f) x) = map (map f) (Np.columns d0 x).
Proof.
  intros Hf. unfold Np.columns.
  assert (Hs : snd (shape (map (map f) x)) = snd (shape x)).
  { destruct x; simpl; [reflexivity|]. now rewrite length_map. }
  rewrite Hs, map_map. apply map_ext. intros c. rewrite !map_map.
  apply map_ext. intros row. rewrite <- Hf at 1. apply map_nth.
Qed.

Lemma of_columns_map (f : A -> A) (n : nat) (cols : list (list A)) :
  f d0 = d0 ->
  Np.of_columns d0 n (map (map f) cols) = map (map f) (Np.of_columns d0 n cols).
Proof.
  intros Hf. unfold Np.of_columns. rewrite map_map. apply map_ext.
  intros r. rewrite !map_map. apply map_ext. intros col.
  rewrite <- Hf at 1. apply map_nth.
Qed.

Lemma wf_matrix_map (B : Type) (f : A -> B) (m n : nat) (x : list (list A)) :
  wf_matrix m n x -> wf_matrix m n (map (map f) x).
Proof.
  intros [Hm Hn]. split; [now rewrite length_map|].
  rewrite Forall_forall in *. intros row Hrow. rewrite in_map_iff in Hrow.
  destruct Hrow as [row' [<- Hin]]. rewrite length_map. now apply Hn.
Qed.

End Columns.

(** ** The transform pair [ft] and [ift] *)

Module TransformProofs.
Import WATCtools.

Lemma length_fft_vec (n : nat) (v : list C) : length (Np.fft_vec n v) = n.
Proof. unfold Np.fft_vec. now rewrite length_map, length_seq. Qed.

Lemma length_ifft_vec (n : nat) (v : list C) : length (Np.ifft_vec n v) = n.
Proof. unfold Np.ifft_vec. now rewrite length_map, length_seq. Qed.

Lemma nth_fft_vec (n : nat) (v : list C) (k : nat) :
  (k < n)%nat ->
  nth k (Np.fft_vec n v) C0 =
  Csum (fun j => Cmult (nth j v C0)
                   (cis (- (2 * PI * INR j * INR k / INR n)))) n.
Proof.
  intros Hk. unfold Np.fft_vec.
  rewrite (@nth_map_lt _ _ _ _ k C0 0%nat) by (now rewrite length_seq).
  now rewrite nth_seq_lt.
Qed.

(** The inverse transform of the normalised transform of a vector is the
    vector, divided by its length. *)
Lemma ifft_fft_vec (N : nat) (v : list C) :
  length v = N -> (1 <= N)%nat ->
  Np.ifft_vec N (map (Cscal (1 / INR N)) (Np.fft_vec N v)) =
  map (Cscal (1 / INR N)) v.
Proof.
  intros Hlen HN1.
  assert (HN : 0 < INR N) by (apply lt_0_INR; lia).
  apply nth_ext with (d := C0) (d' := C0).
  - now rewrite length_ifft_vec, length_map.
  - intros j Hj. rewrite length_ifft_vec in Hj.
    unfold Np.ifft_vec at 1.
    rewrite (@nth_map_lt _ _ _ _ j C0 0%nat) by (now rewrite length_seq).
    rewrite nth_seq_lt by lia. simpl Nat.add.
    rewrite (@nth_map_lt _ _ _ _ j C0 C0) by lia. f_equal.
    rewrite (@Csum_ext _
       (fun k => Cscal (1 / INR N)
          (Csum (fun l => Cmult (nth l v C0)
             (Cmult (cis (- (2 * PI * INR l * INR k / INR N)))
                    (cis (2 * PI * INR j * INR k / INR N)))) N))).
    2:{ intros k Hk.
        rewrite (@nth_map_lt _ _ _ _ k C0 C0) by (now rewrite length_fft_vec).
        rewrite nth_fft_vec by lia. rewrite Cscal_mult_l. f_equal.
        rewrite <- Csum_mult_r. apply Csum_ext. intros l _.
        now rewrite Cmult_assoc. }
    rewrite Csum_scal, Csum_swap.
    rewrite (@Csum_ext _
       (fun l => Cmult (nth l v C0)
                   (if (j =? l)%nat then RtoC (INR N) else C0))).
    2:{ intros l Hl. rewrite Csum_mult_l. f_equal.
        now apply Csum_roots_of_unity. }
    rewrite (@Csum_single _ N j Hj).
    + rewrite Nat.eqb_refl. destruct (nth j v C0) as [a b]. cx.
      f_equal; field; lra.
    + intros k _ Hne. destruct (Nat.eqb_spec j k); [congruence|].
      apply Cmult_0_r.
Qed.

Lemma normalize_axis_0 : Np.normalize_axis 0 = Ok 0%nat.
Proof. reflexivity. Qed.

Lemma fft_points_default (N d : nat) (x : list (list C)) :
  wf_matrix N d x -> (1 <= N)%nat -> Np.fft_points x None 0 = Ok N.
Proof.
  intros [Hlen _] HN. unfold Np.fft_points. simpl. rewrite Hlen.
  destruct (Z.ltb_spec (Z.of_nat N) 1); [lia|]. now rewrite Nat2Z.id.
Qed.

Lemma divide_by_pos (X : list (list C)) (N : nat) :
  (1 <= N)%nat ->
  Np.divide_by X N = Finite (map (map (Cscal (1 / INR N))) X).
Proof.
  intros HN. unfold Np.divide_by.
  destruct (Nat.eqb_spec N 0); [lia|]. reflexivity.
Qed.

(** [ft(x)] with its default arguments on an array with at least one
    row. *)
Lemma ft_default (N d : nat) (x : list (list C)) :
  wf_matrix N d x -> (1 <= N)%nat ->
  ft x None 0 =
  Ok (Finite (map (map (Cscal (1 / INR N)))
                (Np.of_columns C0 N (map (Np.fft_vec N) (Np.columns C0 x))))).
Proof.
  intros Hwf HN. unfold ft, Np.fft, Np.fft_axis. rewrite normalize_axis_0. simpl bind.
  rewrite (fft_points_default Hwf HN). simpl.
  destruct Hwf as [Hlen _]. rewrite Hlen. now rewrite divide_by_pos.
Qed.

(** [ift(X)] with its default arguments. *)
Lemma ift_default (N d : nat) (X : list (list C)) :
  wf_matrix N d X -> (1 <= N)%nat ->
  ift X None 0 false =
  Ok (Float64
        (map (map Re)
           (map (map (Cscal (INR N)))
              (Np.of_columns C0 N (map (Np.ifft_vec N) (Np.columns C0 X)))))).
Proof.
  intros Hwf HN. unfold ift, Np.ifft, Np.fft_axis. rewrite normalize_axis_0. simpl bind.
  rewrite (fft_points_default Hwf HN). simpl.
  destruct Hwf as [Hlen _]. now rewrite Hlen.
Qed.

Lemma wf_ft_default (N d : nat) (x : list (list C)) :
  wf_matrix N d x -> (1 <= N)%nat ->
  wf_matrix N d
    (map (map (Cscal (1 / INR N)))
       (Np.of_columns C0 N (map (Np.fft_vec N) (Np.columns C0 x)))).
Proof.
  intros Hwf HN. apply wf_matrix_map.
  pose proof (wf_columns C0 Hwf HN) as [Hc _].
  pose proof (wf_of_columns C0 N (map (Np.fft_vec N) (Np.columns C0 x))) as H.
  now rewrite length_map, Hc in H.
Qed.

(** The round trip on complex arrays, before the real part is taken. *)
Lemma ifft_ft_columns (N d : nat) (x : list (list C)) :
  wf_matrix N d x -> (1 <= N)%nat ->
  map (map (Cscal (INR N)))
    (Np.of_columns C0 N
       (map (Np.ifft_vec N)
          (Np.columns C0
             (map (map (Cscal (1 / INR N)))
                (Np.of_columns C0 N
                   (map (Np.fft_vec N) (Np.columns C0 x))))))) = x.
Proof.
  intros Hwf HN.
  assert (HNr : 0 < INR N) by (apply lt_0_INR; lia).
  rewrite columns_map by apply Cscal_0_r.
  rewrite columns_of_columns.
  2: lia.
  2:{ rewrite Forall_forall. intros col Hcol. rewrite in_map_iff in Hcol.
      destruct Hcol as [col' [<- _]]. apply length_fft_vec. }
  assert (Hin : map (Np.ifft_vec N)
                  (map (map (Cscal (1 / INR N)))
                     (map (Np.fft_vec N) (Np.columns C0 x))) =
                map (map (Cscal (1 / INR N))) (Np.columns C0 x)).
  { rewrite !map_map. apply map_ext_in. intros col Hcol.
    apply ifft_fft_vec; [|lia].
    pose proof (wf_columns C0 Hwf HN) as [_ Hc].
    rewrite Forall_forall in Hc. now apply Hc. }
  rewrite Hin.
  rewrite of_columns_map by apply Cscal_0_r.
  rewrite (of_columns_columns C0 Hwf HN).
  rewrite map_map. rewrite <- (map_id x) at 2. apply map_ext.
  intros row. rewrite map_map. rewrite <- (map_id row) at 2.
  apply map_ext. intros z. rewrite Cscal_Cscal.
  replace (INR N * (1 / INR N)) with 1 by (field; lra). apply Cscal_1.
Qed.

End TransformProofs.

Import TransformProofs.

Lemma map_Re_RtoC (x : list (list R)) : map (map Re) (map (map RtoC) x) = x.
Proof.
  rewrite map_map. rewrite <- (map_id x) at 2. apply map_ext. intros row.
  rewrite map_map. rewrite <- (map_id row) at 2. now apply map_ext.
Qed.

(** C2. For a real matrix [x] (with at least one sample: numpy's [fft]
    raises on an empty axis), the inverse transform of the forward
    transform, both with their default arguments, returns [x].  The
    equality is exact in real arithmetic, which is what a floating-point
    tolerance approximates. *)
Theorem ift_ft_roundtrip (N d : nat) (x : list (list R)) :
  wf_matrix N d x -> (1 <= N)%nat ->
  exists X,
    ft (map (map RtoC) x) None 0 = Ok (Finite X) /\
    ift X None 0 false = Ok (Float64 x).
Proof.
  intros Hwf HN.
  pose proof (wf_matrix_map RtoC Hwf) as Hwfc.
  eexists. split; [apply (ft_default Hwfc HN)|].
  rewrite (ift_default (wf_ft_default Hwfc HN) HN).
  rewrite (ifft_ft_columns Hwfc HN). now rewrite map_Re_RtoC.
Qed.

Lemma ift_ft_roundtrip_witness :
  exists X,
    ft (map (map RtoC) [[1; 2]; [3; 4]; [5; 6]]) None 0 = Ok (Finite X) /\
    ift X None 0 false = Ok (Float64 [[1; 2]; [3; 4]; [5; 6]]).
Proof.
  apply (@ift_ft_roundtrip 3 2 [[1; 2]; [3; 4]; [5; 6]]).
  - split; [reflexivity|]. repeat constructor.
  - lia.
Defined.

(** ** The zero-frequency component of [ft] *)

Lemma fft_vec_dc (k : nat) (v : list C) :
  (1 <= k)%nat ->
  nth 0 (Np.fft_vec k v) C0 = Csum (fun j => nth j v C0) k.
Proof.
  intros Hk. rewrite nth_fft_vec by lia. apply Csum_ext. intros j _.
  replace (- (2 * PI * INR j * INR 0 / INR k)) with 0
    by (simpl; unfold Rdiv; ring).
  rewrite cis_0. apply Cmult_1_r.
Qed.

Lemma Csum_nth_pad (v : list C) (k : nat) :
  (length v <= k)%nat ->
  Csum (fun j => nth j v C0) k = Csum (fun j => nth j v C0) (length v).
Proof.
  induction k as [|k IH]; intros Hk.
  - now replace (length v) with 0%nat by lia.
  - destruct (Nat.eq_dec (length v) (S k)) as [->|Hne]; [reflexivity|].
    simpl. rewrite IH by lia. rewrite nth_overflow by lia. apply Cplus_0_r.
Qed.

Lemma normalize_axis_cases (axis : Z) (ax : nat) :
  Np.normalize_axis axis = Ok ax -> ax = 0%nat \/ ax = 1%nat.
Proof.
  unfold Np.normalize_axis.
  destruct ((-2 <=? axis)%Z && (axis <? 2)%Z); [|discriminate].
  intros H. inversion H.
  pose proof (Z.mod_pos_bound axis 2 ltac:(lia)). lia.
Qed.

(** What [ft] returns when the transformed axis is not empty and no entry
    is cropped: every component of the transform divided by the number
    of samples of [x] along the axis, and at frequency zero the mean of
    [x] along the axis. *)
Lemma ft_dc (N d : nat) (x : list (list C)) (n : option Z) (axis : Z)
  (ax : nat) :
  wf_matrix N d x ->
  Np.normalize_axis axis = Ok ax ->
  (1 <= Np.shape_at x ax)%nat ->
  (forall k, n = Some k -> (Z.of_nat (Np.shape_at x ax) <= k)%Z) ->
  exists F X,
    Np.fft x n axis = Ok F /\
    ft x n axis = Ok (Finite X) /\
    X = map (map (Cscal (1 / INR (Np.shape_at x ax)))) F /\
    (ax = 0%nat -> forall c, (c < d)%nat ->
       nth c (nth 0 X []) C0 =
       Cscal (1 / INR N) (Csum (fun r => nth c (nth r x []) C0) N)) /\
    (ax = 1%nat -> forall r, (r < N)%nat ->
       nth 0 (nth r X []) C0 =
       Cscal (1 / INR d) (Csum (fun c => nth c (nth r x []) C0) d)).
Proof.
  intros Hwf Hax Hpos Hn.
  assert (HN : (1 <= N)%nat).
  { destruct Hwf as [Hlen _]. destruct x; simpl in *.
    - destruct ax; simpl in Hpos; lia.
    - lia. }
  pose proof (wf_matrix_shape Hwf HN) as Hshape.
  set (L := Np.shape_at x ax) in *.
  assert (Hpts : exists npts, Np.fft_points x n ax = Ok npts /\ (L <= npts)%nat).
  { unfold Np.fft_points. destruct n as [k|].
    - specialize (Hn k eq_refl). destruct (Z.ltb_spec k 1); [lia|].
      eexists. split; [reflexivity|]. lia.
    - fold L. destruct (Z.ltb_spec (Z.of_nat L) 1); [lia|].
      eexists. split; [reflexivity|]. lia. }
  destruct Hpts as [npts [Hpts Hle]].
  exists (Np.along_axis (Np.fft_vec npts) npts ax x).
  exists (map (map (Cscal (1 / INR L))) (Np.along_axis (Np.fft_vec npts) npts ax x)).
  assert (Hfft : Np.fft x n axis = Ok (Np.along_axis (Np.fft_vec npts) npts ax x)).
  { unfold Np.fft, Np.fft_axis. rewrite Hax. simpl. now rewrite Hpts. }
  split; [exact Hfft|]. split.
  { unfold ft. rewrite Hfft, Hax. simpl. fold L. now rewrite divide_by_pos. }
  split; [reflexivity|]. split.
  - intros E0 c Hc. subst ax. simpl Np.along_axis.
    assert (HL : L = N) by (unfold L, Np.shape_at; now rewrite Hshape).
    rewrite HL in *.
    rewrite (@nth_map_lt _ _ _ _ 0%nat [] [])
      by (rewrite length_of_columns; lia).
    unfold Np.of_columns.
    rewrite (@nth_map_lt _ _ _ _ 0%nat [] 0%nat) by (rewrite length_seq; lia).
    rewrite nth_seq_lt by lia. simpl Nat.add.
    pose proof (wf_columns C0 Hwf HN) as [Hcl Hcr].
    rewrite (@nth_map_lt _ _ _ _ c C0 C0) by (now rewrite !length_map, Hcl).
    f_equal.
    rewrite (@nth_map_lt _ _ _ _ c C0 []) by (now rewrite length_map, Hcl).
    rewrite (@nth_map_lt _ _ _ _ c [] []) by (now rewrite Hcl).
    rewrite fft_vec_dc by lia.
    assert (Hcol : length (nth c (Np.columns C0 x) []) = N).
    { rewrite Forall_forall in Hcr. apply Hcr. apply nth_In. now rewrite Hcl. }
    rewrite Csum_nth_pad by lia. rewrite Hcol.
    apply Csum_ext. intros r Hr. unfold Np.columns.
    rewrite Hshape. simpl snd.
    rewrite (@nth_map_lt _ _ _ _ c [] 0%nat) by (now rewrite length_seq).
    rewrite nth_seq_lt by lia. simpl Nat.add.
    destruct Hwf as [Hlen _].
    now rewrite (@nth_map_lt _ _ _ _ r C0 []) by lia.
  - intros E1 r Hr. subst ax. simpl Np.along_axis.
    assert (HL : L = d) by (unfold L, Np.shape_at; now rewrite Hshape).
    rewrite HL in *. destruct Hwf as [Hlen Hrows].
    rewrite (@nth_map_lt _ _ _ _ r [] []) by (rewrite length_map; lia).
    rewrite (@nth_map_lt _ _ _ _ 0%nat C0 C0)
      by (rewrite (@nth_map_lt _ _ _ _ r [] []), length_fft_vec; lia).
    f_equal.
    rewrite (@nth_map_lt _ _ _ _ r [] []) by lia.
    rewrite fft_vec_dc by lia.
    assert (Hrow : length (nth r x []) = d).
    { rewrite Forall_forall in Hrows. apply Hrows. apply nth_In. lia. }
    rewrite Csum_nth_pad by lia. now rewrite Hrow.
Qed.

(** C8 (as stated, refuted). A series of two samples padded to four: the
    zero-frequency component of [ft] is 3, the sum divided by the two
    samples of the input; the mean of the padded series is 3/2. *)
Lemma ft_padded_dc_is_not_padded_mean :
  exists X,
    ft [[RtoC 2]; [RtoC 4]] (Some 4%Z) 0 = Ok (Finite X) /\
    nth 0 (nth 0 X []) C0 = RtoC 3 /\
    Np.mean [2; 4; 0; 0] = 3 / 2 /\
    nth 0 (nth 0 X []) C0 <> RtoC (Np.mean [2; 4; 0; 0]).
Proof.
  destruct (@ft_dc 2 1 [[RtoC 2]; [RtoC 4]] (Some 4%Z) 0 0%nat)
    as [F [X [_ [Hft [_ [H0 _]]]]]].
  - split; [reflexivity|]. repeat constructor.
  - reflexivity.
  - simpl. lia.
  - intros k Hk. inversion Hk. simpl. lia.
  - exists X. split; [exact Hft|].
    assert (HX : nth 0 (nth 0 X []) C0 = RtoC 3).
    { rewrite (H0 eq_refl 0%nat) by lia. simpl. cx. f_equal; field. }
    assert (Hm : Np.mean [2; 4; 0; 0] = 3 / 2).
    { unfold Np.mean, Rsum. simpl. field. }
    split; [exact HX|]. split; [exact Hm|].
    rewrite HX, Hm. unfold RtoC. intros E.
    assert (E1 := f_equal fst E). simpl in E1. lra.
Qed.

(** C8 (amended). [ft(x, n, axis)] divides every component of the
    transform of [x] (zero-padded to [n] when [n] is given) by the number
    of samples of [x] itself along the axis, padding not counted; so with
    no length given, or with zero padding, the zero-frequency component is
    the mean of the series of [x] along that axis. *)
Theorem ft_dc_is_input_mean (N d : nat) (x : list (list C)) (n : option Z)
  (axis : Z) (ax : nat) :
  wf_matrix N d x ->
  Np.normalize_axis axis = Ok ax ->
  (1 <= Np.shape_at x ax)%nat ->
  (forall k, n = Some k -> (Z.of_nat (Np.shape_at x ax) <= k)%Z) ->
  exists F X,
    Np.fft x n axis = Ok F /\
    ft x n axis = Ok (Finite X) /\
    X = map (map (Cscal (1 / INR (Np.shape_at x ax)))) F /\
    (ax = 0%nat -> forall c, (c < d)%nat ->
       nth c (nth 0 X []) C0 =
       Cscal (1 / INR N) (Csum (fun r => nth c (nth r x []) C0) N)) /\
    (ax = 1%nat -> forall r, (r < N)%nat ->
       nth 0 (nth r X []) C0 =
       Cscal (1 / INR d) (Csum (fun c => nth c (nth r x []) C0) d)).
Proof. exact (@ft_dc N d x n axis ax). Qed.

Lemma ft_dc_is_input_mean_witness :
  exists F X,
    Np.fft [[RtoC 2]; [RtoC 4]] (Some 4%Z) 0 = Ok F /\
    ft [[RtoC 2]; [RtoC 4]] (Some 4%Z) 0 = Ok (Finite X) /\
    X = map (map (Cscal (1 / INR (Np.shape_at [[RtoC 2]; [RtoC 4]] 0)))) F /\
    (0%nat = 0%nat -> forall c, (c < 1)%nat ->
       nth c (nth 0 X []) C0 =
       Cscal (1 / INR 2)
         (Csum (fun r => nth c (nth r [[RtoC 2]; [RtoC 4]] []) C0) 2)) /\
    (0%nat = 1%nat -> forall r, (r < 2)%nat ->
       nth 0 (nth r X []) C0 =
       Cscal (1 / INR 1)
         (Csum (fun c => nth c (nth r [[RtoC 2]; [RtoC 4]] []) C0) 1)).
Proof.
  apply (@ft_dc_is_input_mean 2 1 [[RtoC 2]; [RtoC 4]] (Some 4%Z) 0 0%nat).
  - split; [reflexivity|]. repeat constructor.
  - reflexivity.
  - simpl. lia.
  - intros k Hk. inversion Hk. simpl. lia.
Defined.

(** ** [bpf] *)

Module BpfProofs.
Import WATCtools.

Lemma round_IZR (z : Z) : Np.round (IZR z) = z.
Proof.
  unfold Np.round. rewrite ZfloorZ.
  destruct (Rlt_dec (IZR z - IZR z) (1 / 2)); [reflexivity|lra].
Qed.

Lemma in_rangeZ (a b i : Z) : In i (rangeZ a b) <-> (a <= i < b)%Z.
Proof.
  unfold rangeZ. rewrite in_map_iff. split.
  - intros [k [<- Hk]]. rewrite in_seq in Hk. lia.
  - intros H. exists (Z.to_nat (i - a)). split; [lia|].
    rewrite in_seq. lia.
Qed.

Lemma rangeZ_empty (a b : Z) : (b <= a)%Z -> rangeZ a b = [].
Proof.
  intros H. unfold rangeZ. now replace (Z.to_nat (b - a)) with 0%nat by lia.
Qed.

Lemma parity_cases (N : nat) :
  (N = 2 * (N / 2) + 1 /\ N mod 2 = 1 /\ (N + 1) / 2 = N / 2 + 1)%nat \/
  (N = 2 * (N / 2) /\ N mod 2 = 0 /\ (N + 1) / 2 = N / 2)%nat.
Proof.
  pose proof (Nat.div_mod_eq N 2) as H.
  pose proof (Nat.mod_upper_bound N 2 ltac:(lia)) as Hm.
  assert (Hc : (N mod 2 = 1 \/ N mod 2 = 0)%nat) by lia.
  destruct Hc as [Hc|Hc]; [left|right]; rewrite Hc in H;
    (split; [lia|split; [exact Hc|]]).
  - symmetry. apply Nat.div_unique with (r := 0%nat); lia.
  - symmetry. apply Nat.div_unique with (r := 1%nat); lia.
Qed.

(** The corner indices for a band that ends at the Nyquist frequency. *)
Lemma bpf_corners_to_nyquist (N : nat) (lo : R) :
  lo <= 1 ->
  bpf_corners N (lo, 1) =
  (Np.round (lo * (if (N mod 2 =? 1)%nat then INR N - 1 else INR N) / 2),
   Z.of_nat (N / 2), Z.of_nat ((N + 1) / 2),
   (Z.of_nat N
    - Np.round (lo * (if (N mod 2 =? 1)%nat then INR N - 1 else INR N) / 2)
    + 1 - 1)%Z).
Proof.
  intros Hlo. unfold bpf_corners. simpl fst. simpl snd.
  rewrite Rmin_left, Rmax_right by lra.
  destruct (parity_cases N) as [[HN [Hm Hh]]|[HN [Hm Hh]]]; rewrite Hm, Hh;
    simpl Nat.eqb; cbv iota.
  - assert (Hr : 1 * (INR N - 1) / 2 = IZR (Z.of_nat (N / 2))).
    { rewrite <- INR_IZR_INZ. rewrite HN at 1.
      rewrite plus_INR, mult_INR. simpl INR. field. }
    rewrite Hr, round_IZR. repeat f_equal.
    replace ((Z.of_nat N + 1) / 2)%Z with (Z.of_nat (N / 2) + 1)%Z; [lia|].
    apply Z.div_unique with (r := 0%Z); lia.
  - assert (Hr : 1 * INR N / 2 = IZR (Z.of_nat (N / 2))).
    { rewrite <- INR_IZR_INZ. rewrite HN at 1.
      rewrite mult_INR. simpl INR. field. }
    rewrite Hr, round_IZR. repeat f_equal.
    replace (Z.of_nat N / 2)%Z with (Z.of_nat (N / 2)); [lia|].
    apply Z.div_unique with (r := 0%Z); lia.
Qed.

(** The full band masks nothing. *)
Lemma bpf_mask_full (N : nat) : bpf_mask N (0, 1) = [].
Proof.
  unfold bpf_mask. rewrite bpf_corners_to_nyquist by lra.
  assert (Hr0 : forall r, Np.round (0 * r / 2) = 0%Z).
  { intros r. replace (0 * r / 2) with (IZR 0) by (unfold Rdiv; ring).
    apply round_IZR. }
  rewrite Hr0.
  pose proof (parity_cases N) as Hp.
  rewrite !rangeZ_empty by lia. reflexivity.
Qed.

(** The band [1, 1] masks every bin but [N/2 .. (N+1)/2]. *)
Lemma bpf_mask_nyquist (N : nat) (i : Z) :
  In i (bpf_mask N (1, 1)) <->
  (0 <= i < Z.of_nat N)%Z /\
  ~ (Z.of_nat (N / 2) <= i <= Z.of_nat ((N + 1) / 2))%Z.
Proof.
  unfold bpf_mask. rewrite bpf_corners_to_nyquist by lra.
  assert (Hr : Np.round (1 * (if (N mod 2 =? 1)%nat then INR N - 1 else INR N) / 2)
               = Z.of_nat (N / 2)).
  { destruct (parity_cases N) as [[HN [Hm Hh]]|[HN [Hm Hh]]]; rewrite Hm;
      simpl Nat.eqb; cbv iota.
    - replace (1 * (INR N - 1) / 2) with (IZR (Z.of_nat (N / 2)));
        [apply round_IZR|].
      rewrite <- INR_IZR_INZ. rewrite HN at 2.
      rewrite plus_INR, mult_INR. simpl INR. field.
    - replace (1 * INR N / 2) with (IZR (Z.of_nat (N / 2)));
        [apply round_IZR|].
      rewrite <- INR_IZR_INZ. rewrite HN at 2.
      rewrite mult_INR. simpl INR. field. }
  rewrite Hr. rewrite !in_app_iff, !in_rangeZ.
  pose proof (parity_cases N) as Hp. lia.
Qed.

Lemma nth_combine_seq {A : Type} (a : list A) (k : nat) (d : A) :
  (k < length a)%nat ->
  nth k (combine (seq 0 (length a)) a) (0%nat, d) = (k, nth k a d).
Proof.
  intros Hk. rewrite combine_nth by (now rewrite length_seq).
  now rewrite nth_seq_lt.
Qed.

(** What [a[idxx] = 0] does when every index is in [0, len(a)). *)
Lemma set_rows_zero_spec (a : list (list C)) (idxx : list Z) :
  (forall i, In i idxx -> (0 <= i < Z.of_nat (length a))%Z) ->
  exists a',
    Np.set_rows_zero a idxx = Ok a' /\
    length a' = length a /\
    forall k, (k < length a)%nat ->
      (In (Z.of_nat k) idxx -> nth k a' [] = map (fun _ => C0) (nth k a [])) /\
      (~ In (Z.of_nat k) idxx -> nth k a' [] = nth k a []).
Proof.
  intros Hin. unfold Np.set_rows_zero.
  replace (forallb _ idxx) with true.
  2:{ symmetry. apply forallb_forall. intros i Hi. specialize (Hin i Hi).
      apply andb_true_iff. split; [apply Z.leb_le|apply Z.ltb_lt]; lia. }
  eexists. split; [reflexivity|]. split.
  { now rewrite length_map, length_combine, length_seq, Nat.min_id. }
  intros k Hk.
  rewrite (@nth_map_lt _ _ _ _ k [] (0%nat, []))
    by (now rewrite length_combine, length_seq, Nat.min_id).
  rewrite nth_combine_seq by exact Hk. simpl fst. simpl snd.
  destruct (existsb _ idxx) eqn:E.
  - split; [reflexivity|]. intros Hn. exfalso. apply Hn.
    apply existsb_exists in E. destruct E as [i [Hi Heq]].
    apply Z.eqb_eq in Heq. specialize (Hin i Hi).
    rewrite Z.mod_small in Heq by lia. now subst.
  - split; [|reflexivity]. intros Hi. exfalso.
    assert (Ht : existsb (fun i => (i mod Z.of_nat (length a) =? Z.of_nat k)%Z)
                   idxx = true).
    { apply existsb_exists. exists (Z.of_nat k). split; [exact Hi|].
      apply Z.eqb_eq. apply Z.mod_small. lia. }
    congruence.
Qed.

Lemma set_rows_zero_nil (a : list (list C)) : Np.set_rows_zero a [] = Ok a.
Proof.
  destruct (@set_rows_zero_spec a []) as [a' [Ha [Hlen Hk]]];
    [intros i []|].
  rewrite Ha. f_equal. apply nth_ext with (d := []) (d' := []); [exact Hlen|].
  intros k Hlt. rewrite Hlen in Hlt. now apply (Hk k Hlt).
Qed.

Lemma wf_set_rows_zero (N d : nat) (a a' : list (list C)) (idxx : list Z) :
  wf_matrix N d a -> length a' = N ->
  (forall k, (k < N)%nat ->
     nth k a' [] = map (fun _ => C0) (nth k a []) \/ nth k a' [] = nth k a []) ->
  wf_matrix N d a'.
Proof.
  intros Hwf Hlen Hk. split; [exact Hlen|].
  rewrite Forall_forall. intros row Hrow.
  apply (In_nth _ _ []) in Hrow. destruct Hrow as [k [Hlt <-]].
  rewrite Hlen in Hlt. pose proof (wf_matrix_nth Hwf Hlt) as Hr.
  destruct (Hk k Hlt) as [-> | ->]; [now rewrite length_map|exact Hr].
Qed.

(** [bpf] on the full band and on the band [1, 1]. *)
Lemma bpf_bands (N d : nat) (x : list (list R)) :
  wf_matrix N d x -> (1 <= N)%nat ->
  exists X,
    ft (map (map RtoC) x) None 0 = Ok (Finite X) /\
    bpf x (0, 1) = Ok (x, X) /\
    exists x_bpf X_bpf,
      bpf x (1, 1) = Ok (x_bpf, X_bpf) /\
      ift X_bpf None 0 false = Ok (Float64 x_bpf) /\
      length X_bpf = N /\
      forall k, (k < N)%nat ->
        nth k X_bpf [] =
        if (N / 2 <=? k)%nat && (k <=? (N + 1) / 2)%nat
        then nth k X [] else repeat C0 d.
Proof.
  intros Hwf HN.
  pose proof (wf_matrix_map RtoC Hwf) as Hwfc.
  pose proof (ft_default Hwfc HN) as Hft.
  pose proof (wf_ft_default Hwfc HN) as HwfX.
  set (X := map (map (Cscal (1 / INR N))) _) in *.
  assert (Hsh : length x = N) by apply Hwf.
  exists X. split; [exact Hft|]. split.
  - unfold bpf. rewrite Hft. simpl bind. rewrite Hsh, bpf_mask_full.
    rewrite set_rows_zero_nil. simpl bind.
    rewrite (ift_default HwfX HN).
    unfold X. rewrite (ifft_ft_columns Hwfc HN). now rewrite map_Re_RtoC.
  - destruct (@set_rows_zero_spec X (bpf_mask N (1, 1)))
      as [X' [HX' [Hlen Hrows]]].
    { intros i Hi. apply bpf_mask_nyquist in Hi. destruct HwfX as [-> _]. lia. }
    destruct HwfX as [HlenX HrowsX].
    assert (HwfX : wf_matrix N d X) by (now split).
    rewrite HlenX in *.
    assert (Hk : forall k, (k < N)%nat ->
               nth k X' [] =
               if (N / 2 <=? k)%nat && (k <=? (N + 1) / 2)%nat
               then nth k X [] else repeat C0 d).
    { intros k Hlt. destruct (Hrows k Hlt) as [Hz Hkeep].
      destruct (Nat.leb_spec (N / 2) k), (Nat.leb_spec k ((N + 1) / 2));
        simpl andb; cbv iota.
      - apply Hkeep. rewrite bpf_mask_nyquist. lia.
      - rewrite Hz by (rewrite bpf_mask_nyquist; lia).
        pose proof (wf_matrix_nth HwfX Hlt) as Hr. rewrite <- Hr.
        clear. induction (nth k X []); simpl; [reflexivity|now f_equal].
      - rewrite Hz by (rewrite bpf_mask_nyquist; lia).
        pose proof (wf_matrix_nth HwfX Hlt) as Hr. rewrite <- Hr.
        clear. induction (nth k X []); simpl; [reflexivity|now f_equal].
      - rewrite Hz by (rewrite bpf_mask_nyquist; lia).
        pose proof (wf_matrix_nth HwfX Hlt) as Hr. rewrite <- Hr.
        clear. induction (nth k X []); simpl; [reflexivity|now f_equal]. }
    assert (HwfX' : wf_matrix N d X').
    { apply (@wf_set_rows_zero N d X X' (bpf_mask N (1, 1)) HwfX Hlen).
      intros k Hlt. rewrite (Hk k Hlt).
      destruct ((N / 2 <=? k)%nat && (k <=? (N + 1) / 2)%nat); [now right|left].
      pose proof (wf_matrix_nth HwfX Hlt) as Hr. rewrite <- Hr.
      clear. induction (nth k X []); simpl; [reflexivity|now f_equal]. }
    eexists. exists X'. split; [|split; [|split; [exact Hlen|exact Hk]]].
    + unfold bpf. rewrite Hft. simpl bind. rewrite Hsh, HX'. simpl bind.
      rewrite (ift_default HwfX' HN). reflexivity.
    + apply (ift_default HwfX' HN).
Qed.

End BpfProofs.

Import BpfProofs.

(** C4 (as stated, refuted). Two samples, one channel, band [1, 1]: the
    spectrum that [bpf] returns is zero at the zero-frequency bin and is
    1/2 at bin 1, the Nyquist bin. *)
Lemma bpf_nyquist_band_keeps_nyquist_bin :
  exists x_bpf X_bpf,
    bpf [[1]; [0]] (1, 1) = Ok (x_bpf, X_bpf) /\
    nth 0 (nth 0 X_bpf []) C0 = C0 /\
    nth 0 (nth 1 X_bpf []) C0 = (1 / 2, 0) /\
    nth 0 (nth 1 X_bpf []) C0 <> C0.
Proof.
  assert (Hwf : wf_matrix 2 1 [[1]; [0]])
    by (split; [reflexivity|repeat constructor]).
  destruct (@bpf_bands 2 1 [[1]; [0]] Hwf ltac:(lia))
    as [X [Hft [_ [x_bpf [X_bpf [Hb [_ [_ Hk]]]]]]]].
  exists x_bpf, X_bpf. split; [exact Hb|].
  pose proof (Hk 0%nat ltac:(lia)) as H0.
  pose proof (Hk 1%nat ltac:(lia)) as H1.
  change ((2 / 2 <=? 0)%nat && (0 <=? (2 + 1) / 2)%nat) with false in H0.
  change ((2 / 2 <=? 1)%nat && (1 <=? (2 + 1) / 2)%nat) with true in H1.
  cbv iota in H0, H1. rewrite H0, H1.
  pose proof (ft_default (wf_matrix_map RtoC Hwf) ltac:(lia)) as Hft'.
  remember (map (map (Cscal (1 / INR 2))) _) as E eqn:HE in Hft'.
  assert (HX : X = E) by congruence.
  assert (Hv : nth 0 (nth 1 X []) C0 = (1 / 2, 0)).
  { rewrite HX, HE.
    cbn [map Np.columns Np.of_columns shape snd hd length seq nth].
    rewrite nth_fft_vec by lia. cbn [Csum nth].
    replace (- (2 * PI * INR 0 * INR 1 / INR 2)) with 0
      by (simpl; unfold Rdiv; ring).
    rewrite cis_0. unfold cis. cx. f_equal; field. }
  split; [reflexivity|]. split; [exact Hv|].
  rewrite Hv. intros E'. assert (E1 := f_equal fst E'). cx. lra.
Qed.

(** C4 (amended). For a real matrix [x] with [N >= 1] samples,
    [bpf(x, [0, 1])] returns [x] itself (with the spectrum [ft(x)]), and
    [bpf(x, [1, 1])] returns the spectrum [ft(x)] with every bin set to zero
    except the bins [N//2 .. (N+1)//2]: the Nyquist bin when [N] is even,
    the two bins next to the Nyquist frequency when [N] is odd; the
    zero-frequency bin is among those set to zero as soon as [N >= 2]. *)
Theorem bpf_full_band_and_nyquist_band (N d : nat) (x : list (list R)) :
  wf_matrix N d x -> (1 <= N)%nat ->
  exists X,
    ft (map (map RtoC) x) None 0 = Ok (Finite X) /\
    bpf x (0, 1) = Ok (x, X) /\
    exists x_bpf X_bpf,
      bpf x (1, 1) = Ok (x_bpf, X_bpf) /\
      ift X_bpf None 0 false = Ok (Float64 x_bpf) /\
      length X_bpf = N /\
      forall k, (k < N)%nat ->
        nth k X_bpf [] =
        if (N / 2 <=? k)%nat && (k <=? (N + 1) / 2)%nat
        then nth k X [] else repeat C0 d.
Proof. exact (@bpf_bands N d x). Qed.

Lemma bpf_full_band_and_nyquist_band_witness :
  exists X,
    ft (map (map RtoC) [[1]; [0]]) None 0 = Ok (Finite X) /\
    bpf [[1]; [0]] (0, 1) = Ok ([[1]; [0]], X) /\
    exists x_bpf X_bpf,
      bpf [[1]; [0]] (1, 1) = Ok (x_bpf, X_bpf) /\
      ift X_bpf None 0 false = Ok (Float64 x_bpf) /\
      length X_bpf = 2%nat /\
      forall k, (k < 2)%nat ->
        nth k X_bpf [] =
        if (2 / 2 <=? k)%nat && (k <=? (2 + 1) / 2)%nat
        then nth k X [] else repeat C0 1.
Proof.
  apply (@bpf_full_band_and_nyquist_band 2 1 [[1]; [0]]).
  - split; [reflexivity|]. repeat constructor.
  - lia.
Defined.

(** ** Sums of reals over lists *)

Lemma Rsum_app (l1 l2 : list R) : Rsum (l1 ++ l2) = Rsum l1 + Rsum l2.
Proof.
  unfold Rsum. induction l1 as [|a l1 IH]; simpl; [lra|]. rewrite IH. lra.
Qed.

Lemma Rsum_map_le {A : Type} (f g : A -> R) (l : list A) :
  (forall x, In x l -> f x <= g x) -> Rsum (map f l) <= Rsum (map g l).
Proof.
  unfold Rsum. induction l as [|a l IH]; intros H; simpl; [lra|].
  pose proof (H a (or_introl eq_refl)).
  specialize (IH (fun x Hx => H x (or_intror Hx))). lra.
Qed.

Lemma Rsum_map_ext_in {A : Type} (f g : A -> R) (l : list A) :
  (forall x, In x l -> f x = g x) -> Rsum (map f l) = Rsum (map g l).
Proof. intros H. f_equal. now apply map_ext_in. Qed.

Lemma Rsum_map_zero {A : Type} (l : list A) : Rsum (map (fun _ => 0) l) = 0.
Proof. unfold Rsum. induction l; simpl; lra. Qed.

Lemma Rsum_map_nonneg {A : Type} (f : A -> R) (l : list A) :
  (forall x, In x l -> 0 <= f x) -> 0 <= Rsum (map f l).
Proof.
  intros H. rewrite <- (Rsum_map_zero l). now apply Rsum_map_le.
Qed.

Lemma Rsum_map_plus {A : Type} (f g : A -> R) (l : list A) :
  Rsum (map (fun x => f x + g x) l) = Rsum (map f l) + Rsum (map g l).
Proof. unfold Rsum. induction l; simpl; lra. Qed.

Lemma Rsum_map_scal {A : Type} (c : R) (f : A -> R) (l : list A) :
  Rsum (map (fun x => c * f x) l) = c * Rsum (map f l).
Proof. unfold Rsum. induction l; simpl; lra. Qed.

Lemma Rsum_flat_map {A B : Type} (h : B -> R) (g : A -> list B) (l : list A) :
  Rsum (map h (flat_map g l)) = Rsum (map (fun i => Rsum (map h (g i))) l).
Proof.
  induction l as [|a l IH]; simpl; [reflexivity|].
  rewrite map_app, Rsum_app, IH. reflexivity.
Qed.

Lemma Rsum_map_filter {A : Type} (p : A -> bool) (f : A -> R) (l : list A) :
  Rsum (map f (filter p l)) = Rsum (map (fun x => if p x then f x else 0) l).
Proof.
  unfold Rsum. induction l as [|a l IH]; simpl; [reflexivity|].
  destruct (p a); simpl; rewrite IH; lra.
Qed.

Lemma map_nth_seq {A B : Type} (h : A -> B) (l : list A) (d0 : A) :
  map (fun k => h (nth k l d0)) (seq 0 (length l)) = map h l.
Proof.
  apply nth_ext with (d := h d0) (d' := h d0).
  - now rewrite !length_map, length_seq.
  - intros k Hk. rewrite length_map, length_seq in Hk.
    rewrite (@nth_map_lt _ _ _ _ k (h d0) 0%nat) by (now rewrite length_seq).
    rewrite nth_seq_lt by lia. simpl. symmetry. apply map_nth.
Qed.

(** The sum of squares dominates the square of the sum, divided by the
    number of terms. *)
Lemma Rsum_square_le (a : nat -> R) (l : list nat) :
  (Rsum (map a l)) ^ 2 <= INR (length l) * Rsum (map (fun i => a i * a i) l).
Proof.
  induction l as [|i l IH].
  - simpl. unfold Rsum. simpl. lra.
  - cbn [map length]. rewrite S_INR. unfold Rsum in *. simpl fold_right.
    set (s := fold_right Rplus 0 (map a l)) in *.
    set (q := fold_right Rplus 0 (map (fun i => a i * a i) l)) in *.
    set (n := INR (length l)) in *.
    assert (Hn : 0 <= n) by apply pos_INR.
    assert (Hq : 0 <= q).
    { apply (@Rsum_map_nonneg _ (fun i => a i * a i)). intros. nra. }
    assert (H1 : 0 <= (s - n * a i) ^ 2) by (apply pow2_ge_0).
    destruct (Req_dec_T n 0) as [E|E].
    + rewrite E in *. assert (s = 0) by nra. subst s. rewrite H. nra.
    + assert (Hpos : 0 < n) by lra.
      assert (H2 : n * (2 * s * a i) <= n * (q + n * (a i * a i))) by nra.
      apply Rmult_le_reg_l in H2; [|exact Hpos]. nra.
Qed.

(** ** [psf]: the spectral matrices stay positive semidefinite *)

Module PsfProofs.
Import WATCtools.

(** A row of the stack, read as the function of its entries, is the upper
    triangle of a Hermitian matrix with the real diagonal [a >= 0] whose
    2 by 2 minors are not negative. *)
Definition good_row (d : nat) (a : nat -> R) (f : nat -> C) : Prop :=
  (forall i, 0 <= a i) /\
  forall k, (k < length (Sidx d))%nat ->
    (fst (nth k (Sidx d) (0, 0)%nat) = snd (nth k (Sidx d) (0, 0)%nat) ->
     f k = (a (fst (nth k (Sidx d) (0, 0)%nat)), 0)) /\
    Cnorm2 (f k) <=
    a (fst (nth k (Sidx d) (0, 0)%nat)) * a (snd (nth k (Sidx d) (0, 0)%nat)).

Definition Good (d : nat) (f : nat -> C) : Prop := exists a, good_row d a f.

Lemma Good_ext (d : nat) (f g : nat -> C) :
  (forall k, (k < length (Sidx d))%nat -> f k = g k) -> Good d f -> Good d g.
Proof.
  intros Hfg [a [Ha Hk]]. exists a. split; [exact Ha|].
  intros k Hlt. rewrite <- (Hfg k Hlt). now apply Hk.
Qed.

Lemma Good_zero (d : nat) : Good d (fun _ => C0).
Proof.
  exists (fun _ => 0). split; [intros; lra|].
  intros k _. split; [reflexivity|]. cx. lra.
Qed.

(** The cone of positive semidefinite 2 by 2 matrices is closed under
    sums. *)
Lemma minor_plus (z1 z2 : C) (p1 q1 p2 q2 : R) :
  0 <= p1 -> 0 <= q1 -> 0 <= p2 -> 0 <= q2 ->
  Cnorm2 z1 <= p1 * q1 -> Cnorm2 z2 <= p2 * q2 ->
  Cnorm2 (Cplus z1 z2) <= (p1 + p2) * (q1 + q2).
Proof.
  destruct z1 as [x1 y1], z2 as [x2 y2]. cx.
  intros Hp1 Hq1 Hp2 Hq2 H1 H2.
  set (u := x1 * x2 + y1 * y2).
  set (A := p1 * q2 + p2 * q1).
  assert (HA : 0 <= A) by (unfold A; nra).
  assert (Hu : u * u <= (x1 * x1 + y1 * y1) * (x2 * x2 + y2 * y2)).
  { unfold u. assert (0 <= (x1 * y2 - y1 * x2) ^ 2) by apply pow2_ge_0. nra. }
  assert (Hn1 : 0 <= x1 * x1 + y1 * y1) by nra.
  assert (Hn2 : 0 <= x2 * x2 + y2 * y2) by nra.
  assert (Hprod : (x1 * x1 + y1 * y1) * (x2 * x2 + y2 * y2)
                  <= (p1 * q1) * (p2 * q2)).
  { apply Rmult_le_compat; assumption. }
  assert (HA2 : 4 * ((p1 * q1) * (p2 * q2)) <= A * A).
  { unfold A. assert (0 <= (p1 * q2 - p2 * q1) ^ 2) by apply pow2_ge_0. nra. }
  assert (H2u : 2 * u <= A).
  { destruct (Rle_dec (2 * u) A) as [Hle|Hgt]; [exact Hle|].
    assert (A < 2 * u) by lra. nra. }
  unfold u, A in H2u. nra.
Qed.

Lemma Good_plus (d : nat) (f g : nat -> C) :
  Good d f -> Good d g -> Good d (fun k => Cplus (f k) (g k)).
Proof.
  intros [a [Ha Hf]] [b [Hb Hg]]. exists (fun i => a i + b i). split.
  - intros i. specialize (Ha i). specialize (Hb i). lra.
  - intros k Hk. destruct (Hf k Hk) as [Hf1 Hf2], (Hg k Hk) as [Hg1 Hg2].
    split.
    + intros E. rewrite (Hf1 E), (Hg1 E). cx. f_equal. ring.
    + apply minor_plus; auto.
Qed.

Lemma Good_scal (d : nat) (c : R) (f : nat -> C) :
  0 <= c -> Good d f -> Good d (fun k => Cscal c (f k)).
Proof.
  intros Hc [a [Ha Hf]]. exists (fun i => c * a i). split.
  - intros i. specialize (Ha i). nra.
  - intros k Hk. destruct (Hf k Hk) as [Hf1 Hf2]. split.
    + intros E. rewrite (Hf1 E). cx. f_equal. ring.
    + destruct (f k) as [x y]. cx.
      set (ai := a (fst (nth k (Sidx d) (0%nat, 0%nat)))) in *.
      set (aj := a (snd (nth k (Sidx d) (0%nat, 0%nat)))) in *.
      replace (c * x * (c * x) + c * y * (c * y))
        with (c * c * (x * x + y * y)) by ring.
      replace (c * ai * (c * aj)) with (c * c * (ai * aj)) by ring.
      apply Rmult_le_compat_l; [nra|exact Hf2].
Qed.

Lemma Good_Csum (d : nat) (F : nat -> nat -> C) (L : nat) :
  (forall l, Good d (F l)) -> Good d (fun k => Csum (fun l => F l k) L).
Proof.
  intros HF. induction L as [|L IH]; simpl.
  - apply Good_zero.
  - now apply Good_plus.
Qed.

(** The outer product of a vector with its conjugate. *)
Lemma Good_spectral_row (d : nat) (Xi : list C) :
  Good d (fun k => nth k (spectral_row d Xi) C0).
Proof.
  exists (fun i => Cnorm2 (nth i Xi C0)). split.
  - intros i. apply Cnorm2_nonneg.
  - intros k Hk. unfold spectral_row.
    rewrite (@nth_map_lt _ _ _ _ k C0 (0, 0)%nat) by exact Hk.
    destruct (nth k (Sidx d) (0, 0)%nat) as [i j]. simpl fst. simpl snd.
    split.
    + intros <-. destruct (nth i Xi C0) as [x y]. cx. f_equal; ring.
    + rewrite Cnorm2_mult.
      replace (Cnorm2 (Cconj (nth j Xi C0))) with (Cnorm2 (nth j Xi C0))
        by (cx; ring).
      lra.
Qed.

(** *** The traces of a good row *)

Definition asum (a : nat -> R) (d : nat) : R := Rsum (map a (seq 0 d)).

Lemma Sidx_diag_sum (d : nat) (g : nat -> R) :
  Rsum (map (fun ij => if (fst ij =? snd ij)%nat then g (fst ij) else 0)
            (Sidx d)) = asum g d.
Proof.
  unfold Sidx, asum, range. rewrite Rsum_flat_map, Nat.sub_0_r.
  apply Rsum_map_ext_in. intros i Hi. rewrite in_seq in Hi.
  rewrite map_map. simpl fst. simpl snd.
  replace (d - i)%nat with (S (d - i - 1)) by lia.
  cbn [seq map]. unfold Rsum. simpl fold_right. rewrite Nat.eqb_refl.
  rewrite (@map_ext_in _ _ _ (fun _ => 0)).
  - fold (Rsum (map (fun _ : nat => 0) (seq (S i) (d - i - 1)))).
    rewrite Rsum_map_zero. lra.
  - intros j Hj. rewrite in_seq in Hj.
    destruct (Nat.eqb_spec i j); [lia|reflexivity].
Qed.

Lemma tail_square (a : nat -> R) (d m : nat) :
  (m <= d)%nat ->
  Rsum (map (fun i => a i * a i
                      + 2 * a i * Rsum (map a (seq (S i) (d - i - 1))))
            (seq (d - m) m)) =
  (Rsum (map a (seq (d - m) m))) ^ 2.
Proof.
  induction m as [|m IH]; intros Hm.
  - unfold Rsum. simpl. lra.
  - replace (seq (d - S m) (S m)) with ((d - S m)%nat :: seq (d - m) m)
      by (simpl; f_equal; f_equal; lia).
    cbn [map]. unfold Rsum in *. simpl fold_right.
    rewrite IH by lia.
    replace (seq (S (d - S m)) (d - (d - S m) - 1)) with (seq (d - m) m)
      by (f_equal; lia).
    ring.
Qed.

Lemma Sidx_square_sum (d : nat) (a : nat -> R) :
  Rsum (map (fun ij => if (fst ij =? snd ij)%nat
                       then a (fst ij) * a (fst ij)
                       else 2 * a (fst ij) * a (snd ij))
            (Sidx d)) = (asum a d) ^ 2.
Proof.
  unfold asum. pose proof (@tail_square a d d (le_n d)) as H.
  rewrite Nat.sub_diag in H. rewrite <- H. clear H.
  unfold Sidx, range. rewrite Rsum_flat_map, Nat.sub_0_r.
  apply Rsum_map_ext_in. intros i Hi. rewrite in_seq in Hi.
  rewrite map_map. simpl fst. simpl snd.
  set (m := (d - i - 1)%nat).
  replace (d - i)%nat with (S m) by (unfold m; lia).
  cbn [seq map]. unfold Rsum at 1. simpl fold_right. rewrite Nat.eqb_refl.
  f_equal.
  rewrite (@map_ext_in _ _ _ (fun j => 2 * a i * a j)).
  - fold (Rsum (map (fun j => 2 * a i * a j) (seq (S i) m))).
    rewrite (@Rsum_map_scal _ (2 * a i) a). reflexivity.
  - intros j Hj. rewrite in_seq in Hj.
    destruct (Nat.eqb_spec i j); [lia|reflexivity].
Qed.

Lemma in_didx (d k : nat) :
  (k < length (Sidx d))%nat ->
  existsb (Nat.eqb k) (didx d) =
  (fst (nth k (Sidx d) (0, 0)%nat) =? snd (nth k (Sidx d) (0, 0)%nat))%nat.
Proof.
  intros Hk.
  destruct (fst (nth k (Sidx d) (0, 0)%nat) =? snd (nth k (Sidx d) (0, 0)%nat))%nat
    eqn:E.
  - apply existsb_exists. exists k. split; [|apply Nat.eqb_refl].
    unfold didx. apply filter_In. split; [|exact E]. apply in_seq. lia.
  - destruct (existsb (Nat.eqb k) (didx d)) eqn:E'; [|reflexivity].
    apply existsb_exists in E'. destruct E' as [k' [Hin Heq]].
    apply Nat.eqb_eq in Heq. subst k'. unfold didx in Hin.
    apply filter_In in Hin. destruct Hin as [_ Hin]. congruence.
Qed.

Section GoodTraces.
Variables (d : nat) (a : nat -> R) (row : list C).
Hypothesis Hlen : length row = length (Sidx d).
Hypothesis Hgood : good_row d a (fun k => nth k row C0).

Lemma good_trS : trS d row = (asum a d) ^ 2.
Proof.
  unfold trS. f_equal. unfold didx. rewrite Rsum_map_filter.
  rewrite <- (Sidx_diag_sum d a).
  rewrite <- (@map_nth_seq _ _
                (fun ij => if (fst ij =? snd ij)%nat then a (fst ij) else 0)
                (Sidx d) (0, 0)%nat).
  apply Rsum_map_ext_in. intros k Hk. rewrite in_seq in Hk.
  destruct Hgood as [_ Hg]. destruct (Hg k ltac:(lia)) as [Hd _].
  destruct (Nat.eqb_spec (fst (nth k (Sidx d) (0, 0)%nat))
                         (snd (nth k (Sidx d) (0, 0)%nat))) as [E|E];
    [|reflexivity].
  now rewrite (Hd E).
Qed.

Lemma good_trS2_upper : trS2 d row <= (asum a d) ^ 2.
Proof.
  unfold trS2. rewrite <- (Sidx_square_sum d a). rewrite Hlen.
  rewrite <- (@map_nth_seq _ _
                (fun ij => if (fst ij =? snd ij)%nat
                           then a (fst ij) * a (fst ij)
                           else 2 * a (fst ij) * a (snd ij))
                (Sidx d) (0, 0)%nat).
  apply Rsum_map_le. intros k Hk. rewrite in_seq in Hk.
  rewrite in_didx by lia.
  destruct Hgood as [_ Hg]. destruct (Hg k ltac:(lia)) as [Hd Hm].
  destruct (Nat.eqb_spec (fst (nth k (Sidx d) (0, 0)%nat))
                         (snd (nth k (Sidx d) (0, 0)%nat))) as [E|E].
  - rewrite (Hd E). cx. lra.
  - cbv zeta. lra.
Qed.

Lemma good_trS2_lower : asum (fun i => a i * a i) d <= trS2 d row.
Proof.
  unfold trS2. rewrite <- (Sidx_diag_sum d (fun i => a i * a i)). rewrite Hlen.
  rewrite <- (@map_nth_seq _ _
                (fun ij => if (fst ij =? snd ij)%nat
                           then a (fst ij) * a (fst ij) else 0)
                (Sidx d) (0, 0)%nat).
  apply Rsum_map_le. intros k Hk. rewrite in_seq in Hk.
  rewrite in_didx by lia.
  destruct Hgood as [_ Hg]. destruct (Hg k ltac:(lia)) as [Hd Hm].
  destruct (Nat.eqb_spec (fst (nth k (Sidx d) (0, 0)%nat))
                         (snd (nth k (Sidx d) (0, 0)%nat))) as [E|E].
  - rewrite (Hd E). cx. lra.
  - cbv zeta. pose proof (Cnorm2_nonneg (nth k row C0)). lra.
Qed.

(** The coherence of a positive semidefinite spectral matrix: [nan] when
    its trace is zero, and a number of [0, 1] otherwise. *)
Lemma good_coherence :
  (2 <= d)%nat ->
  (trS d row = 0 /\ coherence d row = NaN) \/
  (trS d row <> 0 /\ exists r, coherence d row = Fin r /\ 0 <= r <= 1).
Proof.
  intros Hd.
  pose proof good_trS as Ht. pose proof good_trS2_upper as Hu.
  pose proof good_trS2_lower as Hl.
  pose proof (Rsum_square_le a (seq 0 d)) as Hc. rewrite length_seq in Hc.
  fold (asum a d) in Hc. fold (asum (fun i => a i * a i) d) in Hc.
  assert (HdR : 2 <= INR d) by (apply (le_INR 2); exact Hd).
  set (s := asum a d) in *. set (q := asum (fun i => a i * a i) d) in *.
  unfold coherence, true_divide. rewrite Ht.
  destruct (Req_dec_T ((INR d - 1) * s ^ 2) 0) as [E0|E0].
  - left. assert (Hs : s ^ 2 = 0) by nra. split; [exact Hs|].
    assert (Hq : trS2 d row = 0).
    { assert (0 <= q) by
        (apply (@Rsum_map_nonneg _ (fun i => a i * a i)); intros; nra).
      nra. }
    rewrite Hq, Hs.
    destruct (Req_dec_T (INR d * 0 - 0) 0) as [_|Hn]; [reflexivity|].
    elim Hn. ring.
  - right. assert (Hs : s ^ 2 <> 0) by (intros E; apply E0; rewrite E; ring).
    split; [exact Hs|]. eexists. split; [reflexivity|].
    assert (Hs2 : 0 < s ^ 2).
    { pose proof (pow2_ge_0 s). lra. }
    assert (Hden : 0 < (INR d - 1) * s ^ 2) by nra.
    split.
    + apply Rmult_le_reg_r with ((INR d - 1) * s ^ 2); [exact Hden|].
      unfold Rdiv. rewrite Rmult_assoc, Rinv_l by lra. nra.
    + apply Rmult_le_reg_r with ((INR d - 1) * s ^ 2); [exact Hden|].
      unfold Rdiv. rewrite Rmult_assoc, Rinv_l by lra. nra.
Qed.

End GoodTraces.

(** *** Smoothing *)

Lemma In_py_slice {A : Type} (a b : Z) (l : list A) (x : A) :
  In x (py_slice a b l) -> In x l.
Proof.
  unfold py_slice. intros H.
  assert (Hf : forall n (l' : list A), In x (firstn n l') -> In x l').
  { intros n l'. rewrite <- (firstn_skipn n l') at 2. intros Hin.
    apply in_or_app. now left. }
  assert (Hs : forall n (l' : list A), In x (skipn n l') -> In x l').
  { intros n l'. rewrite <- (firstn_skipn n l') at 2. intros Hin.
    apply in_or_app. now right. }
  eapply Hs, Hf, H.
Qed.

Lemma length_py_slice {A : Type} (a b : Z) (l : list A) :
  (0 <= a)%Z -> (b < 0)%Z -> (a <= Z.of_nat (length l) + b)%Z ->
  length (py_slice a b l) = Z.to_nat (Z.of_nat (length l) + b - a).
Proof.
  intros Ha Hb Hab. unfold py_slice.
  destruct (Z.ltb_spec a 0); [lia|]. destruct (Z.ltb_spec b 0); [|lia].
  rewrite length_firstn, length_skipn. lia.
Qed.

(** Every row of the stack has the length of [Sidx] and is a positive
    semidefinite matrix. *)
Definition stack_ok (d : nat) (S : list (list C)) : Prop :=
  Forall (fun row => length row = length (Sidx d) /\
                     Good d (fun k => nth k row C0)) S.

Lemma stack_ok_row (d : nat) (S : list (list C)) (r : nat) :
  stack_ok d S -> Good d (fun k => nth k (nth r S []) C0).
Proof.
  intros HS. destruct (Nat.lt_ge_cases r (length S)) as [Hr|Hr].
  - unfold stack_ok in HS. rewrite Forall_forall in HS.
    apply HS. now apply nth_In.
  - rewrite nth_overflow by exact Hr.
    apply (@Good_ext d (fun _ => C0)); [|apply Good_zero].
    intros k _. now destruct k.
Qed.

Lemma stack_ok_init (d : nat) (X : list (list C)) :
  stack_ok d (map (spectral_row d) X).
Proof.
  unfold stack_ok. rewrite Forall_forall. intros row Hrow.
  rewrite in_map_iff in Hrow. destruct Hrow as [Xi [<- _]]. split.
  - unfold spectral_row. now rewrite length_map.
  - apply Good_spectral_row.
Qed.

Lemma length_convolve2d_full (S : list (list C)) (ker : list R) :
  S <> [] -> ker <> [] ->
  length (Np.convolve2d_full S ker) = (length S + length ker - 1)%nat.
Proof.
  intros HS Hk. unfold Np.convolve2d_full.
  destruct S as [|row S]; [congruence|].
  now rewrite length_map, length_seq.
Qed.

Lemma stack_ok_convolve (d : nat) (S : list (list C)) (ker : list R) :
  stack_ok d S -> Forall (fun c => 0 <= c) ker ->
  stack_ok d (Np.convolve2d_full S ker).
Proof.
  intros HS Hker. unfold Np.convolve2d_full.
  destruct S as [|row0 S0] eqn:ES; [constructor|].
  rewrite <- ES in *.
  assert (Hcols : snd (shape S) = length (Sidx d)).
  { rewrite ES. simpl. rewrite ES in HS. inversion HS as [|? ? [Hl _] _].
    exact Hl. }
  rewrite Hcols. unfold stack_ok. rewrite Forall_forall. intros row Hrow.
  rewrite in_map_iff in Hrow. destruct Hrow as [t [<- _]]. split.
  - now rewrite length_map, length_seq.
  - apply (@Good_ext d
             (fun k => Csum (fun l => if (l <=? t)%nat
                                      then Cscal (nth l ker 0)
                                             (nth k (nth (t - l) S []) C0)
                                      else C0) (length ker))).
    + intros k Hk.
      rewrite (@nth_map_lt _ _ _ _ k C0 0%nat) by (now rewrite length_seq).
      now rewrite nth_seq_lt.
    + apply (@Good_Csum d
               (fun l k => if (l <=? t)%nat
                           then Cscal (nth l ker 0)
                                  (nth k (nth (t - l) S []) C0)
                           else C0)).
      intros l. destruct (l <=? t)%nat; [|apply Good_zero].
      apply Good_scal; [|now apply stack_ok_row].
      destruct (Nat.lt_ge_cases l (length ker)) as [Hl|Hl].
      * rewrite Forall_forall in Hker. apply Hker. now apply nth_In.
      * rewrite nth_overflow by exact Hl. lra.
Qed.

Lemma stack_ok_slice (d : nat) (a b : Z) (S : list (list C)) :
  stack_ok d S -> stack_ok d (py_slice a b S).
Proof.
  unfold stack_ok. rewrite !Forall_forall. intros HS row Hrow.
  apply HS. eapply In_py_slice, Hrow.
Qed.

Lemma stack_ok_Ssmooth (d : nat) (S : list (list C)) (w n : nat)
  (window : nat -> list R) :
  stack_ok d S -> Forall (fun c => 0 <= c) (window w) ->
  stack_ok d (Ssmooth S w n window).
Proof.
  intros HS Hw. revert S HS. induction n as [|n IH]; intros S HS; cbn [Ssmooth].
  - exact HS.
  - apply IH. apply stack_ok_slice. now apply stack_ok_convolve.
Qed.

Lemma length_Ssmooth (S : list (list C)) (w n : nat) (window : nat -> list R) :
  (3 <= w)%nat -> length (window w) = w -> S <> [] ->
  length (Ssmooth S w n window) = length S.
Proof.
  intros Hw Hlen. revert S. induction n as [|n IH]; intros S HS; cbn [Ssmooth].
  - reflexivity.
  - assert (Hker : window w <> []).
    { intros E. rewrite E in Hlen. simpl in Hlen. lia. }
    assert (Hpos : (1 <= length S)%nat).
    { destruct S; [congruence|simpl; lia]. }
    assert (Hdiv : (Z.of_nat (w / 2) = Z.of_nat w / 2)%Z)
      by (now rewrite Nat2Z.inj_div).
    assert (Hsl : length (py_slice (Z.of_nat (w / 2)) (- Z.of_nat w / 2 + 1)
                            (Np.convolve2d_full S (window w))) = length S).
    { rewrite length_py_slice;
        rewrite ?length_convolve2d_full, ?Hlen by assumption;
        rewrite ?Hdiv; Z.to_euclidean_division_equations; lia. }
    rewrite IH; [exact Hsl|].
    intros E. rewrite E in Hsl. simpl in Hsl. lia.
Qed.

(** *** The default window *)

Lemma bartlett_nonneg (M : nat) : Forall (fun c => 0 <= c) (Np.bartlett M).
Proof.
  unfold Np.bartlett. destruct M as [|[|M]].
  - constructor.
  - repeat constructor. lra.
  - rewrite Forall_forall. intros c Hc. rewrite in_map_iff in Hc.
    destruct Hc as [k [<- Hk]]. rewrite in_seq in Hk.
    set (m := S (S M)) in *.
    assert (HM : 0 < INR (m - 1)) by (apply lt_0_INR; unfold m; lia).
    assert (Habs : Rabs (IZR (1 - Z.of_nat m + 2 * Z.of_nat k)) <= INR (m - 1)).
    { rewrite INR_IZR_INZ. apply Rabs_le. split.
      - rewrite <- opp_IZR. apply IZR_le. lia.
      - apply IZR_le. lia. }
    apply Rmult_le_reg_r with (INR (m - 1)); [exact HM|].
    rewrite Rmult_0_l.
    replace ((1 - Rabs (IZR (1 - Z.of_nat m + 2 * Z.of_nat k)) / INR (m - 1))
             * INR (m - 1))
      with (INR (m - 1) - Rabs (IZR (1 - Z.of_nat m + 2 * Z.of_nat k)))
      by (field; lra).
    lra.
Qed.

Lemma length_bartlett (M : nat) : length (Np.bartlett M) = M.
Proof.
  unfold Np.bartlett. destruct M as [|[|M]]; [reflexivity|reflexivity|].
  now rewrite length_map, length_seq.
Qed.

Lemma triang_nonneg (w : nat) : Forall (fun c => 0 <= c) (triang w).
Proof.
  unfold triang. pose proof (bartlett_nonneg (w + 2)) as H.
  rewrite Forall_forall in *. intros c Hc. apply H. eapply In_py_slice, Hc.
Qed.

Lemma length_triang (w : nat) : length (triang w) = w.
Proof.
  unfold triang. rewrite length_py_slice; rewrite ?length_bartlett; lia.
Qed.

Definition window_of (window : option (nat -> list R)) : nat -> list R :=
  match window with Some f => f | None => triang end.

Lemma window_of_nonneg (window : option (nat -> list R)) (w : nat) :
  (forall f, window = Some f -> Forall (fun c => 0 <= c) (f w)) ->
  Forall (fun c => 0 <= c) (window_of window w).
Proof.
  intros H. destruct window as [f|]; simpl; [now apply H|apply triang_nonneg].
Qed.

Lemma window_of_length (window : option (nat -> list R)) (w : nat) :
  (forall f, window = Some f -> length (f w) = w) ->
  length (window_of window w) = w.
Proof.
  intros H. destruct window as [f|]; simpl; [now apply H|apply length_triang].
Qed.

Lemma psf_stack_ok (d : nat) (X : list (list C)) (w n : nat)
  (window : option (nat -> list R)) :
  (forall f, window = Some f -> Forall (fun c => 0 <= c) (f w)) ->
  stack_ok d (psf_stack d X w n window).
Proof.
  intros Hw. unfold psf_stack. fold (window_of window).
  apply stack_ok_Ssmooth; [apply stack_ok_init|now apply window_of_nonneg].
Qed.

Lemma length_psf_stack (d : nat) (X : list (list C)) (w n : nat)
  (window : option (nat -> list R)) :
  (3 <= w)%nat -> (forall f, window = Some f -> length (f w) = w) ->
  X <> [] ->
  length (psf_stack d X w n window) = length X.
Proof.
  intros Hw Hlen HX. unfold psf_stack. fold (window_of window).
  rewrite length_Ssmooth; [now rewrite length_map|exact Hw| |].
  - now apply window_of_length.
  - destruct X; [congruence|discriminate].
Qed.

(** *** What [psf] returns *)

Lemma nth_set_last (l : list fl) (z d : fl) (k : nat) :
  (k < length l)%nat ->
  nth k (removelast l ++ [z]) d =
  if (k =? length l - 1)%nat then z else nth k l d.
Proof.
  revert k. induction l as [|a l IH]; intros k Hk; [simpl in Hk; lia|].
  destruct l as [|b l].
  - simpl in *. now replace k with 0%nat by lia.
  - destruct k as [|k].
    + reflexivity.
    + change (removelast (a :: b :: l)) with (a :: removelast (b :: l)).
      cbn [app nth]. rewrite IH by (simpl in *; lia).
      simpl length. now replace (S (S (length l)) - 1)%nat
                          with (S (S (length l) - 1)) by lia.
Qed.

Lemma length_set_last (l : list fl) (z : fl) :
  l <> [] -> length (removelast l ++ [z]) = length l.
Proof.
  intros Hl. rewrite length_app. simpl.
  rewrite (removelast_firstn_len l), length_firstn.
  destruct l; [congruence|simpl; lia].
Qed.

(** [P[0] = 0], and [P[-1] = 0] when the number of samples is even. *)
Lemma psf_P_spec (N : nat) (P0 P : list fl) :
  (P1 <- set_first P0 ;;
   (if (N mod 2 =? 1)%nat then Ok P1 else set_last P1)) = Ok P ->
  length P = length P0 /\ (1 <= length P0)%nat /\
  nth 0 P NaN = Fin 0 /\
  (N mod 2 = 0%nat -> last P NaN = Fin 0) /\
  (forall k, (0 < k < length P0)%nat ->
     (N mod 2 = 1%nat \/ k < length P0 - 1)%nat ->
     nth k P NaN = nth k P0 NaN) /\
  (forall k, (k < length P0)%nat ->
     nth k P NaN = Fin 0 \/ nth k P NaN = nth k P0 NaN).
Proof.
  destruct P0 as [|v t]; [discriminate|]. cbn [set_first bind].
  destruct (Nat.eqb_spec (N mod 2) 1) as [Hodd|Heven].
  - intros H. injection H as <-.
    split; [reflexivity|]. split; [simpl; lia|]. split; [reflexivity|].
    split; [intros E; rewrite E in Hodd; discriminate|]. split.
    + intros k Hk _. destruct k; [lia|reflexivity].
    + intros k Hk. destruct k; [now left|now right].
  - unfold set_last. intros H. injection H as <-.
    pose proof (@length_set_last (Fin 0 :: t) (Fin 0) ltac:(discriminate))
      as Hlen.
    assert (Hnth : forall k, (k < S (length t))%nat ->
              nth k (removelast (Fin 0 :: t) ++ [Fin 0]) NaN =
              if (k =? length t)%nat then Fin 0 else nth k (Fin 0 :: t) NaN).
    { intros k Hk. rewrite nth_set_last by (simpl; lia).
      replace (length (Fin 0 :: t) - 1)%nat with (length t) by (simpl; lia).
      reflexivity. }
    split; [exact Hlen|]. split; [simpl; lia|]. split.
    { rewrite Hnth by lia. now destruct (0 =? length t)%nat. }
    split; [intros _; apply last_last|]. split.
    + intros k Hk Hc. simpl length in *. rewrite Hnth by lia.
      destruct (Nat.eqb_spec k (length t)); [lia|].
      destruct k; [lia|reflexivity].
    + intros k Hk. simpl length in *. rewrite Hnth by lia.
      destruct (Nat.eqb_spec k (length t)); [now left|].
      destruct k; [now left|now right].
Qed.

Lemma ift_real_ok (X : list (list C)) :
  (1 <= length X)%nat -> exists r, ift X None 0 false = Ok (Float64 r).
Proof.
  intros HX. unfold ift, Np.ifft, Np.fft_axis. rewrite normalize_axis_0. simpl bind.
  unfold Np.fft_points. simpl Np.shape_at.
  destruct (Z.ltb_spec (Z.of_nat (length X)) 1); [lia|].
  simpl. eexists. reflexivity.
Qed.

Lemma psf_empty (p w n : nat) (window : option (nat -> list R)) :
  psf [] p w n window = Raise ValueError.
Proof. reflexivity. Qed.

(** From a call of [psf] that returns. *)
Lemma psf_inv (N d : nat) (x : list (list R)) (p w n : nat)
  (window : option (nat -> list R)) (xp : farray (list (list R)))
  (P : list fl) :
  wf_matrix N d x -> psf x p w n window = Ok (xp, P) ->
  exists X0,
    (1 <= N)%nat /\ (1 <= d)%nat /\
    ft (map (map RtoC) x) None 0 = Ok (Finite X0) /\
    length P = length (psf_stack d (firstn (N / 2 + 1) X0) w n window) /\
    (1 <= length P)%nat /\
    nth 0 P NaN = Fin 0 /\
    (N mod 2 = 0%nat -> last P NaN = Fin 0) /\
    (forall k, (0 < k < length P)%nat ->
       (N mod 2 = 1%nat \/ k < length P - 1)%nat ->
       nth k P NaN =
       coherence d (nth k (psf_stack d (firstn (N / 2 + 1) X0) w n window) [])) /\
    (forall k, (k < length P)%nat ->
       nth k P NaN = Fin 0 \/
       nth k P NaN =
       coherence d (nth k (psf_stack d (firstn (N / 2 + 1) X0) w n window) [])) /\
    (forallb is_finite (map (fun v => fl_pow v p) P) = false -> xp = NonFinite).
Proof.
  intros Hwf Hpsf.
  assert (HN : (1 <= N)%nat).
  { destruct Hwf as [Hlen _]. destruct x; [|simpl in Hlen; lia].
    rewrite psf_empty in Hpsf. discriminate. }
  pose proof (wf_matrix_map RtoC Hwf) as Hwfc.
  pose proof (ft_default Hwfc HN) as Hft.
  set (X0 := map (map (Cscal (1 / INR N))) _) in Hft.
  exists X0. unfold psf in Hpsf.
  rewrite (wf_matrix_shape Hwf HN), Hft in Hpsf. cbn [bind] in Hpsf.
  set (S := psf_stack d (firstn (N / 2 + 1) X0) w n window) in *.
  destruct (Nat.eqb_spec d 0) as [Hd0|Hd0]; [discriminate|].
  destruct (P1 <- set_first (map (coherence d) S) ;;
            (if (N mod 2 =? 1)%nat then Ok P1 else set_last P1))
    as [P'|e] eqn:EP.
  2:{ exfalso. destruct (set_first (map (coherence d) S)) as [P1|e1];
        cbn [bind] in *; [|discriminate].
      destruct (N mod 2 =? 1)%nat; [discriminate|].
      destruct (set_last P1); cbn [bind] in *; discriminate. }
  assert (Hbody : Ok (xp, P) =
            (if negb (length P' * d =? length (firstn (N / 2 + 1) X0) * d)%nat
             then Raise ValueError
             else
               if forallb is_finite (map (fun v => fl_pow v p) P')
               then
                 r <- ift
                        (map (fun r => map (Cscal (fl_value (fst r))) (snd r))
                           (combine (map (fun v => fl_pow v p) P')
                              (firstn (N / 2 + 1) X0)) ++
                         map (fun k =>
                                map Cconj
                                  (nth k
                                     (map (fun r =>
                                             map (Cscal (fl_value (fst r)))
                                               (snd r))
                                        (combine (map (fun v => fl_pow v p) P')
                                           (firstn (N / 2 + 1) X0))) []))
                             (rev (range 1
                                     (N / 2 -
                                      (if (N mod 2 =? 1)%nat then 0 else 1)
                                      + 1)))) None 0 false ;;
                 match r with
                 | Float64 x_psf => Ok (Finite x_psf, P')
                 | Complex128 _ => Raise ValueError
                 end
               else Ok (NonFinite, P'))).
  { rewrite <- Hpsf. clear Hpsf.
    destruct (set_first (map (coherence d) S)) as [P1|e1];
      cbn [bind] in *; [|discriminate].
    destruct (N mod 2 =? 1)%nat.
    - injection EP as ->. reflexivity.
    - rewrite EP. reflexivity. }
  clear Hpsf.
  assert (HP : P = P' /\
               (forallb is_finite (map (fun v => fl_pow v p) P) = false ->
                xp = NonFinite)).
  { destruct (negb _); [discriminate|].
    destruct (forallb is_finite (map (fun v => fl_pow v p) P')) eqn:Efin.
    - destruct (ift _ None 0 false) as [[r|r]|e]; cbn [bind] in Hbody;
        try discriminate.
      injection Hbody as -> ->. split; [reflexivity|]. congruence.
    - injection Hbody as -> ->. now split. }
  destruct HP as [-> Hxp]. clear Hbody.
  apply psf_P_spec in EP. rewrite length_map in EP.
  destruct EP as [Hlen [Hpos [H0 [Hlast [Hmid Hall]]]]].
  split; [exact HN|]. split; [lia|]. split; [exact Hft|].
  split; [exact Hlen|]. split; [lia|]. split; [exact H0|].
  split; [exact Hlast|]. rewrite Hlen. split; [|split; [|exact Hxp]].
  - intros k Hk Hc. rewrite (Hmid k Hk Hc).
    apply (@nth_map_lt _ _ _ _ k NaN []). lia.
  - intros k Hk. destruct (Hall k Hk) as [Hz|Hc]; [now left|right].
    rewrite Hc. apply (@nth_map_lt _ _ _ _ k NaN []). lia.
Qed.

(** [psf] returns on every matrix with a sample and a channel, for a
    window of [w >= 3] weights. *)
Lemma psf_returns (N d : nat) (x : list (list R)) (p w n : nat)
  (window : option (nat -> list R)) :
  wf_matrix N d x -> (1 <= N)%nat -> (1 <= d)%nat -> (3 <= w)%nat ->
  (forall f, window = Some f -> length (f w) = w) ->
  exists xp P, psf x p w n window = Ok (xp, P) /\ length P = (N / 2 + 1)%nat.
Proof.
  intros Hwf HN Hd Hw Hwin.
  pose proof (wf_matrix_map RtoC Hwf) as Hwfc.
  pose proof (ft_default Hwfc HN) as Hft.
  pose proof (wf_ft_default Hwfc HN) as [HlenX0 _].
  set (X0 := map (map (Cscal (1 / INR N))) _) in *.
  unfold psf. rewrite (wf_matrix_shape Hwf HN), Hft. cbn [bind].
  assert (Hhalf : (N / 2 + 1 <= N)%nat).
  { pose proof (Nat.div_mod_eq N 2).
    pose proof (Nat.mod_upper_bound N 2 ltac:(lia)). lia. }
  assert (HlenX : length (firstn (N / 2 + 1) X0) = (N / 2 + 1)%nat).
  { rewrite length_firstn. lia. }
  assert (HlenS : length (psf_stack d (firstn (N / 2 + 1) X0) w n window)
                  = (N / 2 + 1)%nat).
  { rewrite length_psf_stack; [exact HlenX|exact Hw|exact Hwin|].
    intros E. rewrite E in HlenX. simpl in HlenX. lia. }
  set (X := firstn (N / 2 + 1) X0) in *.
  set (S := psf_stack d X w n window) in *.
  destruct (Nat.eqb_spec d 0) as [Hd0|_]; [lia|].
  assert (Hchain : exists P',
             (P1 <- set_first (map (coherence d) S) ;;
              (if (N mod 2 =? 1)%nat then Ok P1 else set_last P1)) = Ok P').
  { destruct (map (coherence d) S) as [|v t] eqn:E.
    - apply (f_equal (@length fl)) in E. rewrite length_map, HlenS in E.
      simpl in E. lia.
    - cbn [set_first bind]. destruct (N mod 2 =? 1)%nat; eexists; reflexivity. }
  destruct Hchain as [P' HP'].
  pose proof (psf_P_spec _ _ HP') as [HlenP _].
  rewrite length_map, HlenS in HlenP.
  destruct (set_first (map (coherence d) S)) as [P1|e1];
    cbn [bind] in *; [|discriminate].
  assert (Hstep : forall (B : Type) (k : list fl -> result B),
             (P2 <- (if (N mod 2 =? 1)%nat then Ok P1 else set_last P1) ;; k P2)
             = k P').
  { intros B k. now rewrite HP'. }
  rewrite Hstep. rewrite HlenP, HlenX, Nat.eqb_refl. cbn [negb].
  destruct (forallb is_finite (map (fun v => fl_pow v p) P')).
  - match goal with
    | |- context [ift ?Y None 0 false] =>
        destruct (@ift_real_ok Y) as [r Hr]
    end.
    { rewrite length_app, length_map, length_combine, length_map, HlenP, HlenX.
      lia. }
    rewrite Hr. cbn [bind]. eexists. exists P'. now split.
  - eexists. exists P'. now split.
Qed.

(** *** A zero trace *)

Lemma coherence_zero_trace (d : nat) (row : list C) :
  trS d row = 0 -> is_finite (coherence d row) = false.
Proof.
  intros Ht. unfold coherence, true_divide. rewrite Ht.
  destruct (Req_dec_T ((INR d - 1) * 0) 0) as [_|Hn]; [|elim Hn; ring].
  destruct (Req_dec_T _ 0); [reflexivity|]. now destruct (Rlt_dec _ _).
Qed.

Lemma coherence_one_channel (row : list C) :
  is_finite (coherence 1 row) = false.
Proof.
  unfold coherence, true_divide. simpl INR.
  destruct (Req_dec_T ((1 - 1) * trS 1 row) 0) as [_|Hn]; [|elim Hn; ring].
  destruct (Req_dec_T _ 0); [reflexivity|]. now destruct (Rlt_dec _ _).
Qed.

Lemma forallb_false_nth {A : Type} (f : A -> bool) (l : list A) (k : nat)
  (d0 : A) :
  (k < length l)%nat -> f (nth k l d0) = false -> forallb f l = false.
Proof.
  intros Hk Hf. destruct (forallb f l) eqn:E; [|reflexivity].
  rewrite forallb_forall in E. rewrite E in Hf; [discriminate|].
  now apply nth_In.
Qed.

Lemma fl_pow_nonfinite (v : fl) (p : nat) :
  (1 <= p)%nat -> is_finite v = false -> is_finite (fl_pow v p) = false.
Proof.
  intros Hp Hv. destruct p as [|p]; [lia|].
  destruct v; try discriminate; cbn [fl_pow is_finite]; try reflexivity.
  now destruct (Nat.even (S p)).
Qed.

(** *** The zero matrix *)

Definition zrow (row : list C) : Prop := forall k, nth k row C0 = C0.

Lemma zrow_nil : zrow [].
Proof. intros k. now destruct k. Qed.

Lemma zrow_map_const {A : Type} (g : A -> C) (l : list A) :
  (forall a, In a l -> g a = C0) -> zrow (map g l).
Proof.
  intros H k. destruct (Nat.lt_ge_cases k (length (map g l))) as [Hk|Hk].
  - assert (Hin : In (nth k (map g l) C0) (map g l)) by (now apply nth_In).
    rewrite in_map_iff in Hin. destruct Hin as [a [<- Ha]]. now apply H.
  - now apply nth_overflow.
Qed.

Lemma zrow_fft_vec (N : nat) (v : list C) : zrow v -> zrow (Np.fft_vec N v).
Proof.
  intros Hv. unfold Np.fft_vec. apply zrow_map_const. intros k _.
  rewrite (@Csum_ext _ (fun _ => C0)); [apply Csum_zero|].
  intros j _. rewrite Hv. apply Cmult_0_l.
Qed.

Lemma zrows_nth (M : list (list C)) (r : nat) :
  (forall row, In row M -> zrow row) -> zrow (nth r M []).
Proof.
  intros H. destruct (Nat.lt_ge_cases r (length M)) as [Hr|Hr].
  - apply H. now apply nth_In.
  - rewrite nth_overflow by exact Hr. apply zrow_nil.
Qed.

Lemma ft_zero_rows (N d : nat) (x : list (list R)) (X0 : list (list C)) :
  wf_matrix N d x -> (1 <= N)%nat ->
  (forall row, In row x -> forall v, In v row -> v = 0) ->
  ft (map (map RtoC) x) None 0 = Ok (Finite X0) ->
  forall row, In row X0 -> zrow row.
Proof.
  intros Hwf HN Hz Hft.
  rewrite (ft_default (wf_matrix_map RtoC Hwf) HN) in Hft.
  injection Hft as <-. intros row Hrow.
  rewrite in_map_iff in Hrow. destruct Hrow as [row' [<- Hrow']].
  unfold Np.of_columns in Hrow'. rewrite in_map_iff in Hrow'.
  destruct Hrow' as [r [<- _]]. rewrite map_map.
  apply zrow_map_const. intros col Hcol.
  rewrite in_map_iff in Hcol. destruct Hcol as [c [<- Hc]].
  rewrite zrow_fft_vec; [apply Cscal_0_r|].
  unfold Np.columns in Hc. rewrite in_map_iff in Hc.
  destruct Hc as [ci [<- _]]. rewrite map_map.
  apply zrow_map_const. intros xr Hxr.
  destruct (Nat.lt_ge_cases ci (length (map RtoC xr))) as [Hlt|Hge].
  - assert (Hin : In (nth ci (map RtoC xr) C0) (map RtoC xr))
      by (now apply nth_In).
    rewrite in_map_iff in Hin. destruct Hin as [v [<- Hv]].
    now rewrite (Hz xr Hxr v Hv).
  - now apply nth_overflow.
Qed.

Lemma zrow_spectral_row (d : nat) (Xi : list C) :
  zrow Xi -> zrow (spectral_row d Xi).
Proof.
  intros HX. unfold spectral_row. apply zrow_map_const. intros ij _.
  rewrite HX. apply Cmult_0_l.
Qed.

Lemma zrows_convolve (S : list (list C)) (ker : list R) :
  (forall row, In row S -> zrow row) ->
  forall row, In row (Np.convolve2d_full S ker) -> zrow row.
Proof.
  intros HS row Hrow. unfold Np.convolve2d_full in Hrow.
  destruct S as [|row0 S0] eqn:ES; [destruct Hrow|].
  rewrite <- ES in *.
  rewrite in_map_iff in Hrow. destruct Hrow as [t [<- _]].
  apply zrow_map_const. intros c _.
  rewrite (@Csum_ext _ (fun _ => C0)); [apply Csum_zero|].
  intros l _. destruct (l <=? t)%nat; [|reflexivity].
  rewrite (@zrows_nth S (t - l)%nat HS). apply Cscal_0_r.
Qed.

Lemma zrows_Ssmooth (S : list (list C)) (w n : nat) (window : nat -> list R) :
  (forall row, In row S -> zrow row) ->
  forall row, In row (Ssmooth S w n window) -> zrow row.
Proof.
  revert S. induction n as [|n IH]; intros S HS; cbn [Ssmooth]; [exact HS|].
  apply IH. intros row Hrow. apply In_py_slice in Hrow.
  revert row Hrow. now apply zrows_convolve.
Qed.

Lemma zrows_psf_stack (d : nat) (X : list (list C)) (w n : nat)
  (window : option (nat -> list R)) :
  (forall row, In row X -> zrow row) ->
  forall row, In row (psf_stack d X w n window) -> zrow row.
Proof.
  intros HX. unfold psf_stack. apply zrows_Ssmooth.
  intros row Hrow. rewrite in_map_iff in Hrow.
  destruct Hrow as [Xi [<- HXi]]. apply zrow_spectral_row. now apply HX.
Qed.

Lemma zrow_traces (d : nat) (row : list C) :
  zrow row -> trS d row = 0 /\ trS2 d row = 0.
Proof.
  intros Hz. unfold trS, trS2. split.
  - rewrite (@Rsum_map_ext_in _ _ (fun _ => 0)).
    + rewrite Rsum_map_zero. ring.
    + intros k _. now rewrite Hz.
  - rewrite (@Rsum_map_ext_in _ _ (fun _ => 0)).
    + apply Rsum_map_zero.
    + intros k _. rewrite Hz. cx.
      destruct (existsb (Nat.eqb k) (didx d)); lra.
Qed.

Lemma zrow_coherence (d : nat) (row : list C) :
  zrow row -> coherence d row = NaN.
Proof.
  intros Hz. destruct (zrow_traces d Hz) as [H1 H2].
  unfold coherence, true_divide. rewrite H1, H2.
  destruct (Req_dec_T ((INR d - 1) * 0) 0) as [_|Hn]; [|elim Hn; ring].
  destruct (Req_dec_T (INR d * 0 - 0) 0) as [_|Hn]; [reflexivity|].
  elim Hn. ring.
Qed.

(** [psf] with a bin of zero trace: it returns, the coherence of that bin
    is not a finite number, and with a contrast [p >= 1] the filtered
    series is not finite either. *)
Lemma psf_zero_trace (N d : nat) (x : list (list R)) (p w n : nat)
  (window : option (nat -> list R)) (X0 : list (list C)) (k : nat) :
  wf_matrix N d x -> (1 <= N)%nat -> (1 <= d)%nat -> (3 <= w)%nat ->
  (forall f, window = Some f -> length (f w) = w) ->
  ft (map (map RtoC) x) None 0 = Ok (Finite X0) ->
  (0 < k < N / 2 + 1)%nat -> (N mod 2 = 0%nat -> k < N / 2)%nat ->
  trS d (nth k (psf_stack d (firstn (N / 2 + 1) X0) w n window) []) = 0 ->
  exists xp P,
    psf x p w n window = Ok (xp, P) /\
    length P = (N / 2 + 1)%nat /\
    is_finite (nth k P NaN) = false /\
    ((1 <= p)%nat -> xp = NonFinite) /\
    ((2 <= d)%nat ->
     (forall f, window = Some f -> Forall (fun c => 0 <= c) (f w)) ->
     nth k P NaN = NaN).
Proof.
  intros Hwf HN Hd Hw Hwin Hft Hk Heven Htr.
  destruct (@psf_returns N d x p w n window Hwf HN Hd Hw Hwin)
    as [xp [P [Hpsf HlenP]]].
  destruct (psf_inv _ _ _ _ Hwf Hpsf)
    as [X0' [_ [_ [Hft' [HlenS [_ [_ [_ [Hmid [_ Hxp]]]]]]]]]].
  rewrite Hft in Hft'. injection Hft' as <-.
  assert (Hc : nth k P NaN =
               coherence d (nth k (psf_stack d (firstn (N / 2 + 1) X0) w n window) [])).
  { apply Hmid; [lia|].
    pose proof (Nat.mod_upper_bound N 2 ltac:(lia)).
    destruct (Nat.eq_dec (N mod 2) 0) as [E|E]; [right|left; lia].
    specialize (Heven E). lia. }
  assert (Hnf : is_finite (nth k P NaN) = false).
  { rewrite Hc. now apply coherence_zero_trace. }
  exists xp, P. split; [exact Hpsf|]. split; [exact HlenP|].
  split; [exact Hnf|]. split.
  - intros Hp. apply Hxp.
    apply (@forallb_false_nth _ _ _ k NaN); [rewrite length_map; lia|].
    rewrite (@nth_map_lt _ _ _ _ k NaN NaN) by lia.
    now apply fl_pow_nonfinite.
  - intros Hd2 Hnonneg. rewrite Hc.
    set (S := psf_stack d (firstn (N / 2 + 1) X0) w n window) in *.
    pose proof (@psf_stack_ok d (firstn (N / 2 + 1) X0) w n window Hnonneg)
      as Hok.
    fold S in Hok. unfold stack_ok in Hok. rewrite Forall_forall in Hok.
    destruct (Hok (nth k S [])) as [Hl [a Ha]].
    { apply nth_In. rewrite <- HlenS. lia. }
    destruct (@good_coherence d a (nth k S []) Hl Ha Hd2) as [[_ HN']|[Hne _]];
      [exact HN'|contradiction].
Qed.

End PsfProofs.

Import PsfProofs.

(** One channel: with the default parameters the coherence of the bin
    above zero frequency is no finite number (the estimator divides by
    [d - 1 = 0]). *)
Lemma psf_one_channel :
  exists xp P,
    psf [[1]; [2]; [3]] 2 3 3 None = Ok (xp, P) /\
    length P = 2%nat /\
    is_finite (nth 1 P (Fin 0)) = false /\
    ~ (exists r, nth 1 P (Fin 0) = Fin r /\ 0 <= r <= 1).
Proof.
  assert (Hwf : wf_matrix 3 1 [[1]; [2]; [3]])
    by (split; [reflexivity|repeat constructor]).
  destruct (@psf_returns 3 1 [[1]; [2]; [3]] 2 3 3 None Hwf
              ltac:(lia) ltac:(lia) ltac:(lia)
              ltac:(intros f Hf; discriminate))
    as [xp [P [Hpsf HlenP]]].
  change (3 / 2 + 1)%nat with 2%nat in HlenP.
  destruct (@psf_inv 3 1 [[1]; [2]; [3]] 2 3 3 None xp P Hwf Hpsf)
    as [X0 [_ [_ [_ [_ [_ [_ [_ [Hmid _]]]]]]]]].
  assert (Hnf : is_finite (nth 1 P (Fin 0)) = false).
  { rewrite (nth_indep P (Fin 0) NaN) by lia.
    rewrite (Hmid 1%nat); [apply coherence_one_channel|lia|now left]. }
  exists xp, P. split; [exact Hpsf|]. split; [exact HlenP|].
  split; [exact Hnf|]. intros [r [Hr _]]. rewrite Hr in Hnf. discriminate.
Qed.

(** *** A window with a negative weight *)

Fixpoint qpow (m : nat) : C :=
  match m with
  | O => C1
  | S k => Cmult (qpow k) (0, -1)
  end.

Lemma cis_qpow (m : nat) : cis (- (INR m * (PI / 2))) = qpow m.
Proof.
  induction m as [|m IH].
  - simpl. rewrite Rmult_0_l, Ropp_0. apply cis_0.
  - rewrite S_INR. cbn [qpow]. rewrite <- IH.
    replace (- ((INR m + 1) * (PI / 2)))
      with (- (INR m * (PI / 2)) + - (PI / 2)) by ring.
    rewrite cis_plus. f_equal. rewrite cis_neg. unfold cis, Cconj. simpl.
    now rewrite cos_PI2, sin_PI2.
Qed.

Lemma cis_quarter (j k : nat) :
  cis (- (2 * PI * INR j * INR k / INR 4)) = qpow (j * k).
Proof.
  rewrite <- cis_qpow. f_equal. rewrite mult_INR. simpl INR. field.
Qed.

Definition negative_window (w : nat) : list R := [0; 8; -1].
Definition example_x : list (list R) := [[1; 1]; [1; 0]; [1; -1]; [1; 0]].

Lemma example_half_spectrum (X0 : list (list C)) :
  ft (map (map RtoC) example_x) None 0 = Ok (Finite X0) ->
  firstn (4 / 2 + 1) X0 = [[(1, 0); (0, 0)]; [(0, 0); (1 / 2, 0)]; [(0, 0); (0, 0)]].
Proof.
  intros Hft.
  assert (Hwf : wf_matrix 4 2 example_x)
    by (split; [reflexivity|repeat constructor]).
  pose proof (ft_default (wf_matrix_map RtoC Hwf) ltac:(lia)) as Hft'.
  remember (map (map (Cscal (1 / INR 4))) _) as E eqn:HE in Hft'.
  assert (HX : X0 = E) by congruence.
  rewrite HX, HE. unfold example_x.
  cbn [map Np.columns Np.of_columns shape snd hd length seq nth firstn
       Nat.div Nat.divmod fst Nat.add Np.fft_vec Csum].
  rewrite !cis_quarter.
  cbn [Nat.mul Nat.add qpow].
  unfold Cscal, Cplus, Cmult, RtoC, C0, C1. cbn [fst snd INR].
  repeat (f_equal; try field).
Qed.

Lemma py_slice_inner {A : Type} (a b c d e : A) :
  py_slice 1 (-1) [a; b; c; d; e] = [b; c; d].
Proof. reflexivity. Qed.

Lemma example_smoothed_row (X : list (list C)) :
  X = [[(1, 0); (0, 0)]; [(0, 0); (1 / 2, 0)]; [(0, 0); (0, 0)]] ->
  nth 1 (psf_stack 2 X 3 1 (Some negative_window)) [] =
  [(-1, 0); (0, 0); (2, 0)].
Proof.
  intros ->. unfold psf_stack. cbn [Ssmooth].
  change (Z.of_nat (3 / 2)) with 1%Z.
  change (- Z.of_nat 3 / 2 + 1)%Z with (-1)%Z.
  unfold negative_window, spectral_row.
  change (Sidx 2) with [(0, 0); (0, 1); (1, 1)]%nat.
  cbn [map nth fst snd].
  unfold Np.convolve2d_full.
  cbn [map nth fst snd shape hd length seq Nat.add Nat.sub Csum Nat.leb].
  rewrite py_slice_inner. cbn [nth].
  unfold Cscal, Cplus, Cmult, Cconj, C0. cbn [fst snd].
  repeat (f_equal; try field).
Qed.

Lemma example_coherence : coherence 2 [(-1, 0); (0, 0); (2, 0)] = Fin 9.
Proof.
  unfold coherence, trS, trS2.
  change (didx 2) with [0; 2]%nat.
  cbn [map nth length seq existsb Nat.eqb orb Re fst Rsum fold_right].
  unfold Cnorm2. cbn [fst snd INR].
  unfold true_divide.
  destruct (Req_dec_T _ 0) as [E|_]; [exfalso; lra|].
  f_equal. field.
Qed.

(** With this window the coherence of bin 1 is 9. *)
Lemma psf_negative_window_coherence :
  exists xp P,
    psf example_x 2 3 1 (Some negative_window) = Ok (xp, P) /\
    nth 1 P (Fin 0) = Fin 9.
Proof.
  assert (Hwf : wf_matrix 4 2 example_x)
    by (split; [reflexivity|repeat constructor]).
  destruct (@psf_returns 4 2 example_x 2 3 1 (Some negative_window) Hwf
              ltac:(lia) ltac:(lia) ltac:(lia))
    as [xp [P [Hpsf HlenP]]].
  { intros f Hf. injection Hf as <-. reflexivity. }
  change (4 / 2 + 1)%nat with 3%nat in HlenP.
  destruct (@psf_inv 4 2 example_x 2 3 1 (Some negative_window) xp P Hwf Hpsf)
    as [X0 [_ [_ [Hft [_ [_ [_ [_ [Hmid _]]]]]]]]].
  exists xp, P. split; [exact Hpsf|].
  rewrite (nth_indep P (Fin 0) NaN) by lia.
  rewrite (Hmid 1%nat); [|lia|right; lia].
  rewrite (example_smoothed_row (example_half_spectrum Hft)).
  apply example_coherence.
Qed.

Lemma zero_matrix_stack_trace (X0 : list (list C)) :
  ft (map (map RtoC) [[0; 0]; [0; 0]; [0; 0]]) None 0 = Ok (Finite X0) ->
  trS 2 (nth 1 (psf_stack 2 (firstn (3 / 2 + 1) X0) 3 3 None) []) = 0.
Proof.
  intros Hft. apply zrow_traces. apply zrows_nth.
  apply zrows_psf_stack. intros row Hrow.
  assert (Hin : In row X0).
  { rewrite <- (firstn_skipn (3 / 2 + 1) X0). apply in_or_app. now left. }
  clear Hrow. revert row Hin.
  apply (@ft_zero_rows 3 2 [[0; 0]; [0; 0]; [0; 0]] X0); [| lia | | exact Hft].
  - split; [reflexivity|]. repeat constructor.
  - intros row Hrow' v Hv. simpl in Hrow'.
    destruct Hrow' as [<-|[<-|[<-|[]]]]; simpl in Hv;
      destruct Hv as [<-|[<-|[]]]; reflexivity.
Qed.

(** The zero matrix (three samples, two channels): [psf] returns [nan]
    as the coherence of bin 1, and a filtered series that is not finite. *)
Lemma psf_zero_matrix :
  exists xp P,
    psf [[0; 0]; [0; 0]; [0; 0]] 2 3 3 None = Ok (xp, P) /\
    nth 1 P (Fin 0) = NaN /\
    xp = NonFinite /\
    ~ (exists e, psf [[0; 0]; [0; 0]; [0; 0]] 2 3 3 None = Raise e).
Proof.
  assert (Hwf : wf_matrix 3 2 [[0; 0]; [0; 0]; [0; 0]])
    by (split; [reflexivity|repeat constructor]).
  pose proof (ft_default (wf_matrix_map RtoC Hwf) ltac:(lia)) as Hft.
  destruct (@psf_zero_trace 3 2 [[0; 0]; [0; 0]; [0; 0]] 2 3 3 None _ 1%nat
              Hwf ltac:(lia) ltac:(lia) ltac:(lia)
              ltac:(intros f Hf; discriminate) Hft)
    as [xp [P [Hpsf [HlenP [_ [Hxp Hnan]]]]]].
  - simpl. lia.
  - simpl. intros H. discriminate.
  - now apply zero_matrix_stack_trace.
  - exists xp, P. split; [exact Hpsf|]. split; [|split].
    + change (3 / 2 + 1)%nat with 2%nat in HlenP.
      rewrite (nth_indep P (Fin 0) NaN) by lia.
      apply Hnan; [lia|]. intros f Hf. discriminate.
    + apply Hxp. lia.
    + intros [e He]. rewrite Hpsf in He. discriminate.
Qed.

(** C1 (as stated, refuted).  Three calls of [psf] whose coherence is not
    in [0, 1]: a window with a negative weight (bin 1 has coherence 9);
    one channel (the coherence of bin 1 is not finite); the zero matrix
    with the default parameters (the coherence of bin 1 is [nan]). *)
Lemma psf_coherence_outside_unit_interval :
  (exists xp P,
     psf example_x 2 3 1 (Some negative_window) = Ok (xp, P) /\
     nth 1 P (Fin 0) = Fin 9 /\ 1 < 9) /\
  (exists xp P,
     psf [[1]; [2]; [3]] 2 3 3 None = Ok (xp, P) /\
     is_finite (nth 1 P (Fin 0)) = false) /\
  (exists xp P,
     psf [[0; 0]; [0; 0]; [0; 0]] 2 3 3 None = Ok (xp, P) /\
     nth 1 P (Fin 0) = NaN).
Proof.
  split; [|split].
  - destruct psf_negative_window_coherence as [xp [P [H1 H2]]].
    exists xp, P. repeat split; [exact H1|exact H2|lra].
  - destruct psf_one_channel as [xp [P [H1 [_ [H2 _]]]]].
    exists xp, P. now split.
  - destruct psf_zero_matrix as [xp [P [H1 [H2 _]]]].
    exists xp, P. now split.
Qed.

(** *** The coherence of a call that returns *)

(** The number of coherences that [psf] returns. *)
Lemma psf_length (N d : nat) (x : list (list R)) (p w n : nat)
  (window : option (nat -> list R)) (xp : farray (list (list R)))
  (P : list fl) :
  wf_matrix N d x -> psf x p w n window = Ok (xp, P) ->
  length P = (N / 2 + 1)%nat.
Proof.
  intros Hwf Hpsf.
  destruct (psf_inv _ _ _ _ Hwf Hpsf) as [X0 [HN [Hd [Hft _]]]].
  pose proof (wf_matrix_map RtoC Hwf) as Hwfc.
  pose proof (ft_default Hwfc HN) as Hft'. rewrite Hft in Hft'.
  pose proof (wf_ft_default Hwfc HN) as [HlenX0 _].
  injection Hft' as HX0. rewrite <- HX0 in HlenX0. clear HX0.
  assert (Hhalf : (N / 2 + 1 <= N)%nat).
  { pose proof (Nat.div_mod_eq N 2).
    pose proof (Nat.mod_upper_bound N 2 ltac:(lia)). lia. }
  unfold psf in Hpsf.
  rewrite (wf_matrix_shape Hwf HN), Hft in Hpsf. cbn [bind] in Hpsf.
  destruct (Nat.eqb_spec d 0) as [Hd0|_]; [lia|].
  destruct (set_first _) as [P1|e1]; cbn [bind] in Hpsf; [|discriminate].
  destruct (if (N mod 2 =? 1)%nat then Ok P1 else set_last P1) as [P2|e2];
    cbn [bind] in Hpsf; [|discriminate].
  destruct (Nat.eqb_spec (length P2 * d) (length (firstn (N / 2 + 1) X0) * d))
    as [E|E]; cbn [negb] in Hpsf; [|discriminate].
  assert (HP : P = P2).
  { destruct (forallb is_finite (map (fun v => fl_pow v p) P2)).
    - destruct (ift _ None 0 false) as [[r|r]|e]; cbn [bind] in Hpsf;
        try discriminate.
      now injection Hpsf as _ <-.
    - now injection Hpsf as _ <-. }
  subst P2. rewrite length_firstn, HlenX0 in E.
  apply Nat.mul_cancel_r in E; lia.
Qed.

(** The coherence that [psf] returns. *)
Lemma psf_coherence_spec (N d : nat) (x : list (list R)) (p w n : nat)
  (window : option (nat -> list R)) :
  wf_matrix N d x ->
  (forall xp P, psf x p w n window = Ok (xp, P) ->
     exists X0,
       ft (map (map RtoC) x) None 0 = Ok (Finite X0) /\
       length P = (N / 2 + 1)%nat /\
       nth 0 P NaN = Fin 0 /\
       (N mod 2 = 0%nat -> nth (N / 2) P NaN = Fin 0) /\
       ((2 <= d)%nat ->
        (forall f, window = Some f -> Forall (fun c => 0 <= c) (f w)) ->
        forall k, (0 < k < N / 2 + 1)%nat ->
          (N mod 2 = 1%nat \/ k < N / 2)%nat ->
          (trS d (nth k (psf_stack d (firstn (N / 2 + 1) X0) w n window) [])
           = 0 /\ nth k P NaN = NaN) \/
          (trS d (nth k (psf_stack d (firstn (N / 2 + 1) X0) w n window) [])
           <> 0 /\ exists r, nth k P NaN = Fin r /\ 0 <= r <= 1))) /\
  ((1 <= N)%nat -> (1 <= d)%nat -> (3 <= w)%nat ->
   (forall f, window = Some f -> length (f w) = w) ->
   exists xp P, psf x p w n window = Ok (xp, P)).
Proof.
  intros Hwf. split.
  - intros xp P Hpsf.
    pose proof (psf_length _ _ _ _ Hwf Hpsf) as HlenP.
    destruct (@psf_inv N d x p w n window xp P Hwf Hpsf)
      as [X0 [_ [_ [Hft [HlenS [_ [H0 [Hlast [Hmid _]]]]]]]]].
    exists X0. split; [exact Hft|]. split; [exact HlenP|].
    split; [exact H0|]. split.
    + intros Heven. specialize (Hlast Heven).
      rewrite <- Hlast.
      destruct P as [|v P'] using rev_ind; [cbn [length] in HlenP; lia|].
      rewrite last_last. rewrite length_app in HlenP. cbn [length] in HlenP.
      rewrite app_nth2 by lia.
      replace (N / 2 - length P')%nat with 0%nat by lia. reflexivity.
    + intros Hd Hnonneg k Hk Hfree.
      rewrite (Hmid k) by lia.
      set (S := psf_stack d (firstn (N / 2 + 1) X0) w n window) in *.
      pose proof (@psf_stack_ok d (firstn (N / 2 + 1) X0) w n window Hnonneg)
        as Hok.
      fold S in Hok. unfold stack_ok in Hok. rewrite Forall_forall in Hok.
      destruct (Hok (nth k S [])) as [Hl [a Ha]].
      { apply nth_In. rewrite <- HlenS. lia. }
      destruct (@good_coherence d a (nth k S []) Hl Ha Hd)
        as [[Hz Hnan]|[Hnz Hfin]]; [left|right]; now split.
  - intros HN Hd Hw Hlen.
    destruct (@psf_returns N d x p w n window Hwf HN Hd Hw Hlen)
      as [xp [P [H _]]].
    now exists xp, P.
Qed.

(** *** The default call on four samples of two channels *)

(** The default window of three weights. *)
Lemma triang_3 : triang 3 = [1 / 2; 1; 1 / 2].
Proof.
  unfold triang, Np.bartlett.
  cbn [Nat.add seq map Nat.sub].
  rewrite py_slice_inner.
  change (IZR (1 - Z.of_nat 5 + 2 * Z.of_nat 1)) with (IZR (-2)).
  change (IZR (1 - Z.of_nat 5 + 2 * Z.of_nat 2)) with (IZR 0).
  change (IZR (1 - Z.of_nat 5 + 2 * Z.of_nat 3)) with (IZR 2).
  change (INR 4) with (1 + 1 + 1 + 1).
  replace (Rabs (-2)) with 2 by (rewrite Rabs_left; lra).
  rewrite Rabs_R0. replace (Rabs 2) with 2 by (rewrite Rabs_pos_eq; lra).
  repeat (f_equal; try field).
Qed.

Definition mix (x y z : C) : C :=
  Cplus (Cscal (1 / 2) x) (Cplus y (Cscal (1 / 2) z)).

(** One pass of the default smoothing over three bins. *)
Lemma triang_pass (a0 a1 a2 b0 b1 b2 c0 c1 c2 : C) :
  py_slice 1 (-1)
    (Np.convolve2d_full [[a0; a1; a2]; [b0; b1; b2]; [c0; c1; c2]]
       [1 / 2; 1; 1 / 2]) =
  [[mix C0 a0 b0; mix C0 a1 b1; mix C0 a2 b2];
   [mix a0 b0 c0; mix a1 b1 c1; mix a2 b2 c2];
   [mix b0 c0 C0; mix b1 c1 C0; mix b2 c2 C0]].
Proof.
  unfold Np.convolve2d_full.
  cbn [map nth fst snd shape hd length seq Nat.add Nat.sub Csum Nat.leb].
  rewrite py_slice_inner. unfold mix.
  destruct a0, a1, a2, b0, b1, b2, c0, c1, c2.
  unfold Cscal, Cplus, C0. cbn [fst snd].
  repeat (f_equal; try ring).
Qed.

Definition example_spectrum : list (list C) :=
  [[(1, 0); (0, 0)]; [(0, 0); (1 / 2, 0)]; [(0, 0); (0, 0)]].

(** The smoothed spectral matrix of bin 1 after the three default
    passes. *)
Lemma example_default_row :
  nth 1 (psf_stack 2 example_spectrum 3 3 None) [] =
  [(7 / 4, 0); (0, 0); (5 / 8, 0)].
Proof.
  unfold psf_stack, example_spectrum. cbn [Ssmooth].
  change (Z.of_nat (3 / 2)) with 1%Z.
  change (- Z.of_nat 3 / 2 + 1)%Z with (-1)%Z.
  rewrite triang_3. unfold spectral_row.
  change (Sidx 2) with [(0, 0); (0, 1); (1, 1)]%nat.
  cbn [map nth fst snd].
  rewrite !triang_pass. cbn [nth]. unfold mix.
  unfold Cscal, Cplus, Cmult, Cconj, C0. cbn [fst snd].
  repeat (f_equal; try field).
Qed.

Lemma example_default_trace :
  trS 2 [(7 / 4, 0); (0, 0); (5 / 8, 0)] = 361 / 64.
Proof.
  unfold trS. change (didx 2) with [0; 2]%nat.
  cbn [map nth Re fst Rsum fold_right]. field.
Qed.

Lemma example_default_coherence :
  coherence 2 [(7 / 4, 0); (0, 0); (5 / 8, 0)] = Fin (81 / 361).
Proof.
  unfold coherence. rewrite example_default_trace.
  unfold trS2. change (didx 2) with [0; 2]%nat.
  cbn [map nth length seq existsb Nat.eqb orb Rsum fold_right].
  unfold Cnorm2. cbn [fst snd INR].
  unfold true_divide.
  destruct (Req_dec_T _ 0) as [E|_]; [exfalso; lra|].
  f_equal. field.
Qed.

(** C1 (amended).  Whenever [psf] returns, for any number of channels and
    any window, the coherence vector has [m//2 + 1] entries, [P[0]] is 0
    and, when the sample count [m] is even, [P] at the Nyquist bin [m//2]
    is 0.  At every other bin [k], for [d >= 2] channels and a window of
    nonnegative weights (the default window is one), [P[k]] is [nan]
    exactly when the smoothed spectral matrix has zero trace at bin [k],
    and a number of [0, 1] otherwise.  [psf] does return for every matrix
    with a sample and a channel when the window has [w >= 3] weights. *)
Theorem psf_coherence_bounds (N d : nat) (x : list (list R)) (p w n : nat)
  (window : option (nat -> list R)) :
  wf_matrix N d x ->
  (forall xp P, psf x p w n window = Ok (xp, P) ->
     exists X0,
       ft (map (map RtoC) x) None 0 = Ok (Finite X0) /\
       length P = (N / 2 + 1)%nat /\
       nth 0 P NaN = Fin 0 /\
       (N mod 2 = 0%nat -> nth (N / 2) P NaN = Fin 0) /\
       ((2 <= d)%nat ->
        (forall f, window = Some f -> Forall (fun c => 0 <= c) (f w)) ->
        forall k, (0 < k < N / 2 + 1)%nat ->
          (N mod 2 = 1%nat \/ k < N / 2)%nat ->
          (trS d (nth k (psf_stack d (firstn (N / 2 + 1) X0) w n window) [])
           = 0 /\ nth k P NaN = NaN) \/
          (trS d (nth k (psf_stack d (firstn (N / 2 + 1) X0) w n window) [])
           <> 0 /\ exists r, nth k P NaN = Fin r /\ 0 <= r <= 1))) /\
  ((1 <= N)%nat -> (1 <= d)%nat -> (3 <= w)%nat ->
   (forall f, window = Some f -> length (f w) = w) ->
   exists xp P, psf x p w n window = Ok (xp, P)).
Proof. exact (@psf_coherence_spec N d x p w n window). Qed.

Lemma psf_coherence_bounds_witness :
  exists xp P r,
    psf example_x 2 3 3 None = Ok (xp, P) /\
    length P = 3%nat /\
    nth 0 P NaN = Fin 0 /\
    nth 1 P NaN = Fin r /\ 0 <= r <= 1 /\
    nth 2 P NaN = Fin 0.
Proof.
  destruct (@psf_coherence_bounds 4 2 example_x 2 3 3 None) as [Hall Hex].
  { split; [reflexivity|]. repeat constructor. }
  destruct Hex as [xp [P Hpsf]]; try lia.
  { intros f Hf. discriminate. }
  destruct (Hall xp P Hpsf) as [X0 [Hft [Hlen [H0 [Hny Hfree]]]]].
  destruct (Hfree ltac:(lia) ltac:(intros f Hf; discriminate) 1%nat)
    as [[Hz _]|[_ [r [Hr Hb]]]].
  - change (4 / 2 + 1)%nat with 3%nat. lia.
  - right. change (4 / 2)%nat with 2%nat. lia.
  - exfalso. rewrite (example_half_spectrum Hft) in Hz.
    fold example_spectrum in Hz.
    rewrite example_default_row, example_default_trace in Hz. lra.
  - exists xp, P, r. split; [exact Hpsf|]. split; [exact Hlen|].
    split; [exact H0|]. split; [exact Hr|]. split; [exact Hb|].
    apply Hny. reflexivity.
Defined.

(** C7 (as stated, refuted). On the zero matrix (three samples, two
    channels) the smoothed spectral matrix has zero trace; [psf] raises
    nothing: it returns [nan] as the coherence of bin 1, and a filtered
    series that is not finite. *)
Lemma psf_zero_matrix_returns_nan :
  exists xp P,
    psf [[0; 0]; [0; 0]; [0; 0]] 2 3 3 None = Ok (xp, P) /\
    nth 1 P (Fin 0) = NaN /\
    xp = NonFinite /\
    ~ (exists e, psf [[0; 0]; [0; 0]; [0; 0]] 2 3 3 None = Raise e).
Proof. exact psf_zero_matrix. Qed.

(** C7 (amended). [psf] has no report of a numeric degeneracy.  When the
    smoothed spectral matrix has zero trace at a bin [k] (other than the
    zero-frequency bin and, for an even sample count, the Nyquist bin,
    which are overwritten by 0), [psf] returns normally: [P[k]] is not a
    finite number ([nan], for at least two channels and a nonnegative
    window), and with a contrast [p >= 1] the filtered series it returns
    is not finite either. *)
Theorem psf_zero_trace_returns_nan (N d : nat) (x : list (list R))
  (p w n : nat) (window : option (nat -> list R)) (X0 : list (list C))
  (k : nat) :
  wf_matrix N d x -> (1 <= N)%nat -> (1 <= d)%nat -> (3 <= w)%nat ->
  (forall f, window = Some f -> length (f w) = w) ->
  ft (map (map RtoC) x) None 0 = Ok (Finite X0) ->
  (0 < k < N / 2 + 1)%nat -> (N mod 2 = 0%nat -> k < N / 2)%nat ->
  trS d (nth k (psf_stack d (firstn (N / 2 + 1) X0) w n window) []) = 0 ->
  exists xp P,
    psf x p w n window = Ok (xp, P) /\
    length P = (N / 2 + 1)%nat /\
    is_finite (nth k P NaN) = false /\
    ((1 <= p)%nat -> xp = NonFinite) /\
    ((2 <= d)%nat ->
     (forall f, window = Some f -> Forall (fun c => 0 <= c) (f w)) ->
     nth k P NaN = NaN).
Proof. exact (@psf_zero_trace N d x p w n window X0 k). Qed.

Lemma psf_zero_trace_returns_nan_witness :
  exists xp P,
    psf [[0; 0]; [0; 0]; [0; 0]] 2 3 3 None = Ok (xp, P) /\
    length P = (3 / 2 + 1)%nat /\
    is_finite (nth 1 P NaN) = false /\
    ((1 <= 2)%nat -> xp = NonFinite) /\
    ((2 <= 2)%nat ->
     (forall f, @None (nat -> list R) = Some f ->
                Forall (fun c => 0 <= c) (f 3%nat)) ->
     nth 1 P NaN = NaN).
Proof.
  assert (Hwf : wf_matrix 3 2 [[0; 0]; [0; 0]; [0; 0]])
    by (split; [reflexivity|repeat constructor]).
  pose proof (ft_default (wf_matrix_map RtoC Hwf) ltac:(lia)) as Hft.
  refine (@psf_zero_trace_returns_nan 3 2 [[0; 0]; [0; 0]; [0; 0]] 2 3 3 None
            _ 1%nat Hwf _ _ _ _ Hft _ _ _); try lia.
  - intros f Hf. discriminate.
  - simpl. lia.
  - simpl. intros H. discriminate.
  - now apply zero_matrix_stack_trace.
Defined.

(** ** [fk_freq]: the heap *)

Module FkProofs.
Import FkFreq.

Lemma upd_same (h : heap) (l : loc) (a : list (list R)) : upd h l a l = a.
Proof. unfold upd. now rewrite Nat.eqb_refl. Qed.

Lemma upd_other (h : heap) (l l' : loc) (a : list (list R)) :
  l' <> l -> upd h l a l' = h l'.
Proof. intros H. unfold upd. now destruct (Nat.eqb_spec l' l). Qed.

Lemma upd_upd (h : heap) (l : loc) (a b : list (list R)) :
  upd (upd h l a) l b = upd h l b.
Proof.
  apply functional_extensionality. intros l'. unfold upd.
  now destruct (l' =? l)%nat.
Qed.

Lemma length_set_nth {A : Type} (k : nat) (v : A) (l : list A) :
  length (set_nth k v l) = length l.
Proof.
  revert k. induction l as [|a l IH]; intros k; [now destruct k|].
  destruct k; simpl; [reflexivity|]. now rewrite IH.
Qed.

Lemma nth_set_nth {A : Type} (k j : nat) (v d0 : A) (l : list A) :
  (k < length l)%nat ->
  nth j (set_nth k v l) d0 = if (j =? k)%nat then v else nth j l d0.
Proof.
  revert k j. induction l as [|a l IH]; intros k j Hk; [simpl in Hk; lia|].
  destruct k, j; simpl; try reflexivity.
  apply IH. simpl in Hk. lia.
Qed.

(** [v - np.mean(v)] *)
Definition demean (v : list R) : list R := map (fun x => x - Np.mean v) v.

(** The coordinates after [fk_freq]: the first two rows (northing and
    easting) have their means removed. *)
Definition recenter (a : list (list R)) : list (list R) :=
  set_nth 1 (demean (nth 1 a [])) (set_nth 0 (demean (nth 0 a [])) a).

(** The time series after the pass over column [jj]. *)
Definition column (jj : nat) (a : list (list R)) : list R :=
  map (fun row => nth jj row 0) a.

Definition demean_col (jj : nat) (a : list (list R)) : list (list R) :=
  map (fun p => set_nth jj (snd p) (fst p)) (combine a (demean (column jj a))).

Definition demean_cols (jjs : list nat) (a : list (list R)) : list (list R) :=
  fold_left (fun a jj => demean_col jj a) jjs a.

Lemma length_demean (v : list R) : length (demean v) = length v.
Proof. unfold demean. apply length_map. Qed.

Lemma length_demean_col (jj : nat) (a : list (list R)) :
  length (demean_col jj a) = length a.
Proof.
  unfold demean_col.
  rewrite length_map, length_combine, length_demean.
  unfold column. rewrite length_map. apply Nat.min_id.
Qed.

Lemma nth_demean_col (jj r : nat) (a : list (list R)) :
  (r < length a)%nat ->
  nth r (demean_col jj a) [] =
  set_nth jj (nth r (column jj a) 0 - Np.mean (column jj a)) (nth r a []).
Proof.
  intros Hr. unfold demean_col.
  rewrite (@nth_map_lt _ _ _ _ r [] ([], 0)).
  2:{ rewrite length_combine, length_demean. unfold column.
      rewrite length_map. lia. }
  rewrite combine_nth
    by (rewrite length_demean; unfold column; now rewrite length_map).
  simpl. f_equal. unfold demean.
  rewrite (@nth_map_lt _ _ _ _ r 0 0)
    by (unfold column; now rewrite length_map).
  reflexivity.
Qed.

Lemma wf_demean_col (m n jj : nat) (a : list (list R)) :
  wf_matrix m n a -> wf_matrix m n (demean_col jj a).
Proof.
  intros Hwf. pose proof Hwf as [Hlen Hrows].
  split; [now rewrite length_demean_col|].
  rewrite Forall_forall. intros row Hrow.
  apply (In_nth _ _ []) in Hrow. destruct Hrow as [r [Hr <-]].
  rewrite length_demean_col in Hr.
  rewrite nth_demean_col by exact Hr. rewrite length_set_nth.
  apply (wf_matrix_nth Hwf). lia.
Qed.

Lemma wf_demean_cols (m n : nat) (jjs : list nat) (a : list (list R)) :
  wf_matrix m n a -> wf_matrix m n (demean_cols jjs a).
Proof.
  revert a. induction jjs as [|jj jjs IH]; intros a Hwf; simpl; [exact Hwf|].
  apply IH. now apply wf_demean_col.
Qed.

(** An entry after the pass over one column. *)
Lemma entry_demean_col (m n jj r c : nat) (a : list (list R)) :
  wf_matrix m n a -> (r < m)%nat -> (jj < n)%nat ->
  nth c (nth r (demean_col jj a) []) 0 =
  if (c =? jj)%nat
  then nth c (nth r a []) 0 - Np.mean (column c a)
  else nth c (nth r a []) 0.
Proof.
  intros Hwf Hr Hjj. pose proof Hwf as [Hlen _].
  rewrite nth_demean_col by lia.
  rewrite nth_set_nth by (now rewrite (wf_matrix_nth Hwf Hr)).
  destruct (Nat.eqb_spec c jj) as [->|Hne]; [|reflexivity].
  unfold column at 1. now rewrite (@nth_map_lt _ _ _ _ r 0 []) by lia.
Qed.

Lemma column_ext (m n c : nat) (a b : list (list R)) :
  wf_matrix m n a -> wf_matrix m n b ->
  (forall r, (r < m)%nat -> nth c (nth r b []) 0 = nth c (nth r a []) 0) ->
  column c b = column c a.
Proof.
  intros [Ha _] [Hb _] H. unfold column.
  apply nth_ext with (d := 0) (d' := 0).
  - now rewrite !length_map, Ha, Hb.
  - intros r Hr. rewrite length_map, Hb in Hr.
    rewrite !(@nth_map_lt _ _ _ _ r 0 []) by lia. now apply H.
Qed.

(** An entry after the pass over the columns [0 .. k-1]: the columns
    passed have lost their mean, the others are as they were. *)
Lemma entry_demean_cols (m n k r c : nat) (a : list (list R)) :
  wf_matrix m n a -> (r < m)%nat -> (k <= n)%nat ->
  nth c (nth r (demean_cols (seq 0 k) a) []) 0 =
  if (c <? k)%nat
  then nth c (nth r a []) 0 - Np.mean (column c a)
  else nth c (nth r a []) 0.
Proof.
  intros Hwf. revert r c. induction k as [|k IH]; intros r c Hr Hk.
  - reflexivity.
  - rewrite seq_S. unfold demean_cols. rewrite fold_left_app. simpl fold_left.
    fold (demean_cols (seq 0 k) a).
    pose proof (wf_demean_cols (seq 0 k) Hwf) as Hwfk.
    rewrite (entry_demean_col _ Hwfk Hr) by lia.
    rewrite IH by lia.
    destruct (Nat.eqb_spec c k) as [->|Hne].
    + destruct (Nat.ltb_spec k k); [lia|].
      destruct (Nat.ltb_spec k (S k)); [|lia].
      f_equal. f_equal.
      apply (@column_ext m n k a (demean_cols (seq 0 k) a) Hwf Hwfk).
      intros r' Hr'.
      rewrite IH by lia. destruct (Nat.ltb_spec k k); [lia|reflexivity].
    + destruct (Nat.ltb_spec c k), (Nat.ltb_spec c (S k)); try lia;
        reflexivity.
Qed.

Lemma upd_id (h : heap) (l : loc) : upd h l (h l) = h.
Proof.
  apply functional_extensionality. intros l'. unfold upd.
  now destruct (Nat.eqb_spec l' l) as [->|].
Qed.

Lemma shape_demean_col (jj : nat) (a : list (list R)) :
  snd (shape (demean_col jj a)) = snd (shape a).
Proof.
  destruct a as [|row a]; [reflexivity|].
  unfold demean_col, column, demean. simpl. now rewrite length_set_nth.
Qed.

Lemma get_col_data (data jj : nat) (g : heap) :
  (jj < snd (shape (g data)))%nat ->
  get_col (as_view data) jj g = (Ok (column jj (g data)), g).
Proof.
  intros H. unfold get_col, as_view. simpl.
  apply Nat.ltb_lt in H. unfold shape in H. simpl in H. now rewrite H.
Qed.

Lemma set_col_data (data jj : nat) (g : heap) :
  (jj < snd (shape (g data)))%nat ->
  set_col (as_view data) jj
    (map (fun v => v - Np.mean (column jj (g data))) (column jj (g data))) g =
  (Ok tt, upd g data (demean_col jj (g data))).
Proof.
  intros H. unfold set_col, as_view. simpl.
  apply Nat.ltb_lt in H. unfold shape in H. simpl in H. now rewrite H.
Qed.

Section Run.
Variable cosine_taper : nat -> list R.

(** The rows of coefficients that the loop over the traces computes. *)
Fixpoint trace_rows (m : nat) (nlow nf : Z) (jjs : list nat)
  (a : list (list R)) : list (list C) :=
  match jjs with
  | [] => []
  | jj :: rest =>
      py_slice nlow (nlow + nf)
        (Np.rfft_vec (nfft_of m)
           (map (fun p => fst p * snd p)
              (combine (column jj (demean_col jj a)) (cosine_taper m))))
      :: trace_rows m nlow nf rest (demean_col jj a)
  end.

Lemma length_trace_rows (m : nat) (nlow nf : Z) (jjs : list nat)
  (a : list (list R)) :
  length (trace_rows m nlow nf jjs a) = length jjs.
Proof.
  revert a. induction jjs as [|jj jjs IH]; intros a; simpl; [reflexivity|].
  now rewrite IH.
Qed.

(** The loop over the traces: it returns one row of coefficients per
    trace, and leaves in the heap the time series with the mean of every
    column removed. *)
Lemma trace_loop_run (data m : nat) (nlow nf : Z) (jjs : list nat) (g : heap) :
  (forall jj, In jj jjs -> (jj < snd (shape (g data)))%nat) ->
  trace_loop cosine_taper data m nlow nf jjs g =
  (Ok (trace_rows m nlow nf jjs (g data)),
   upd g data (demean_cols jjs (g data))).
Proof.
  revert g. induction jjs as [|jj jjs IH]; intros g Hjj.
  - simpl. unfold ret. now rewrite upd_id.
  - cbn [trace_loop]. unfold bindM at 1.
    rewrite get_col_data by (apply Hjj; now left).
    unfold bindM at 1.
    rewrite set_col_data by (apply Hjj; now left).
    set (g1 := upd g data (demean_col jj (g data))).
    assert (Hg1 : g1 data = demean_col jj (g data)) by apply upd_same.
    unfold bindM at 1.
    rewrite get_col_data
      by (rewrite Hg1, shape_demean_col; apply Hjj; now left).
    unfold bindM at 1. rewrite IH.
    2:{ intros jj' Hin. rewrite Hg1, shape_demean_col. apply Hjj. now right. }
    unfold ret. rewrite Hg1. cbn [trace_rows demean_cols fold_left].
    f_equal. unfold g1. now rewrite upd_upd.
Qed.

(** The delays [TT], the loop over the frequencies and the final
    division, as [fk_freq] computes them from the recentred coordinates. *)
Definition delays_of (a : list (list R)) (vmin vmax : R) (nvel ntheta : nat)
  : list (list (list R)) :=
  map (fun s =>
         map (fun t =>
                map (fun p => s * cos t * fst p + s * sin t * snd p)
                    (combine (nth 1 a []) (nth 0 a [])))
             (Np.linspace 0 (2 * PI) ntheta))
      (Np.linspace (1 / vmax) (1 / vmin) nvel).

Definition freq_loop (n nsta nvel ntheta : nat) (TT : list (list (list R)))
  (ft : list (list C)) (freqrange : list R)
  : result (list (list R) * list (list R)) :=
  fold_left (fun acc ii => a <- acc ;; freq_step n nsta TT ft freqrange a ii)
            (range 0 (length freqrange))
            (Ok (zeros nvel ntheta, zeros nvel ntheta)).

Definition power_map (acc : list (list R) * list (list R)) : list (list fl) :=
  map (fun rows => map (fun p => true_divide (fst p) (snd p))
                       (combine (fst rows) (snd rows)))
      (combine (fst acc) (snd acc)).

Lemma nfft_of_pos (m : nat) : 0 < INR (nfft_of m).
Proof.
  apply lt_0_INR. unfold nfft_of.
  assert (H : (2 ^ Nat.log2_up m <> 0)%nat) by (apply Nat.pow_nonzero; lia).
  lia.
Qed.

(** [fk_freq] up to the choice of the band: the coordinates are recentred
    in the caller's array. *)
Lemma fk_freq_prefix (data : loc) (fs : R) (rij : loc)
  (vmin vmax fmin fmax : R) (nvel ntheta : nat) (h : heap)
  (d n m nsta : nat) (nlow nhigh nf : Z) :
  data <> rij ->
  wf_matrix d n (h rij) -> (2 <= d)%nat ->
  wf_matrix m nsta (h data) -> (1 <= m)%nat ->
  vmax <> 0 -> vmin <> 0 -> fs <> 0 ->
  band_bins m fs fmin fmax = (nlow, nhigh, nf) ->
  fk_freq cosine_taper data fs rij vmin vmax fmin fmax nvel ntheta h =
  (if (nf <? 0)%Z then raise ValueError else
   ft <~ trace_loop cosine_taper data m nlow nf (range 0 nsta) ;
   acc <~ lift (freq_loop n nsta nvel ntheta
                  (delays_of (recenter (h rij)) vmin vmax nvel ntheta) ft
                  (Np.linspace fmin fmax (Z.to_nat nf))) ;
   ret (power_map acc))
    (upd h rij (recenter (h rij))).
Proof.
  intros Hne Hrij Hd Hdata Hm Hvmax Hvmin Hfs Hband.
  pose proof Hrij as [Hlen Hrows].
  unfold fk_freq.
  set (a := h rij) in *.
  set (a1 := set_nth 0 (demean (nth 0 a [])) a).
  assert (Hstep1 : forall (B : Type) (k : list R -> M B) (g : heap) (c : nat),
             (c < length (g rij))%nat ->
             bindM (get_col (transpose (as_view rij)) c) k g
             = k (nth c (g rij) []) g).
  { intros B k g c Hc. unfold bindM, get_col, transpose, as_view. simpl.
    apply Nat.ltb_lt in Hc. now rewrite Hc. }
  assert (Hstep2 : forall (B : Type) (k : unit -> M B) (g : heap) (c : nat)
                          (vals : list R),
             (c < length (g rij))%nat ->
             bindM (set_col (transpose (as_view rij)) c vals) k g
             = k tt (upd g rij (set_nth c vals (g rij)))).
  { intros B k g c vals Hc. unfold bindM, set_col, transpose, as_view. simpl.
    apply Nat.ltb_lt in Hc. now rewrite Hc. }
  rewrite Hstep1 by (fold a; lia). fold a.
  rewrite Hstep2 by (fold a; lia). fold a. fold (demean (nth 0 a [])). fold a1.
  set (g1 := upd h rij a1).
  assert (Hg1 : g1 rij = a1) by apply upd_same.
  assert (Hla1 : length a1 = d) by (unfold a1; now rewrite length_set_nth).
  rewrite Hstep1 by (rewrite Hg1; lia). rewrite Hg1.
  rewrite Hstep2 by (rewrite Hg1; lia). rewrite Hg1.
  fold (demean (nth 1 a1 [])).
  assert (Ha2 : set_nth 1 (demean (nth 1 a1 [])) a1 = recenter a).
  { assert (H1 : nth 1 a1 [] = nth 1 a []).
    { unfold a1. rewrite nth_set_nth by lia. reflexivity. }
    rewrite H1. reflexivity. }
  rewrite Ha2. unfold g1. rewrite upd_upd.
  set (h1 := upd h rij (recenter a)).
  assert (Hh1r : h1 rij = recenter a) by apply upd_same.
  assert (Hh1d : h1 data = h data) by (apply upd_other; exact Hne).
  assert (Hlr : length (recenter a) = d)
    by (unfold recenter; now rewrite !length_set_nth).
  unfold bindM at 1. unfold get_shape. rewrite Hh1d.
  rewrite (wf_matrix_shape Hdata Hm).
  destruct (Req_dec_T vmax 0) as [E|_]; [contradiction|].
  destruct (Req_dec_T vmin 0) as [E|_]; [contradiction|].
  rewrite Hstep1 by (rewrite Hh1r; lia). rewrite Hh1r.
  rewrite Hstep1 by (rewrite Hh1r; lia). rewrite Hh1r.
  destruct (Nat.eqb_spec m 0) as [E|_]; [lia|].
  destruct (Req_dec_T (fs / INR (nfft_of m)) 0) as [E|_].
  { exfalso. pose proof (nfft_of_pos m) as Hp.
    apply (f_equal (fun v => v * INR (nfft_of m))) in E.
    unfold Rdiv in E. rewrite Rmult_assoc, Rinv_l, Rmult_0_l in E by lra. lra. }
  rewrite Hband.
  assert (Hn : length (nth 1 (recenter a) []) = n).
  { apply (@wf_matrix_nth _ d n (recenter a) 1%nat); [|lia].
    split; [exact Hlr|]. rewrite Forall_forall. intros row Hrow.
    apply (In_nth _ _ []) in Hrow. destruct Hrow as [r [Hr <-]].
    rewrite Hlr in Hr. unfold recenter.
    rewrite nth_set_nth by (rewrite length_set_nth; lia).
    destruct (r =? 1)%nat.
    - rewrite length_demean. apply (wf_matrix_nth Hrij). lia.
    - rewrite nth_set_nth by lia. destruct (r =? 0)%nat.
      + rewrite length_demean. apply (wf_matrix_nth Hrij). lia.
      + apply (wf_matrix_nth Hrij). lia. }
  rewrite Hn. reflexivity.
Qed.

(** A band with [nf < 0]: [np.empty((nsta, nf))] raises, after the
    coordinates were recentred. *)
Lemma fk_freq_negative_band (data : loc) (fs : R) (rij : loc)
  (vmin vmax fmin fmax : R) (nvel ntheta : nat) (h : heap)
  (d n m nsta : nat) (nlow nhigh nf : Z) :
  data <> rij ->
  wf_matrix d n (h rij) -> (2 <= d)%nat ->
  wf_matrix m nsta (h data) -> (1 <= m)%nat ->
  vmax <> 0 -> vmin <> 0 -> fs <> 0 ->
  band_bins m fs fmin fmax = (nlow, nhigh, nf) ->
  (nf < 0)%Z ->
  fk_freq cosine_taper data fs rij vmin vmax fmin fmax nvel ntheta h =
  (Raise ValueError, upd h rij (recenter (h rij))).
Proof.
  intros Hne Hrij Hd Hdata Hm Hvmax Hvmin Hfs Hband Hnf.
  rewrite (@fk_freq_prefix data fs rij vmin vmax fmin fmax nvel ntheta h
             d n m nsta nlow nhigh nf) by assumption.
  destruct (Z.ltb_spec nf 0); [reflexivity|lia].
Qed.

(** A band with [nf >= 0]: the traces lose their means in the caller's
    array, and the power map is the quotient of the two sums over the
    frequencies. *)
Lemma fk_freq_run_rows (data : loc) (fs : R) (rij : loc)
  (vmin vmax fmin fmax : R) (nvel ntheta : nat) (h : heap)
  (d n m nsta : nat) (nlow nhigh nf : Z) :
  data <> rij ->
  wf_matrix d n (h rij) -> (2 <= d)%nat ->
  wf_matrix m nsta (h data) -> (1 <= m)%nat ->
  vmax <> 0 -> vmin <> 0 -> fs <> 0 ->
  band_bins m fs fmin fmax = (nlow, nhigh, nf) ->
  (0 <= nf)%Z ->
  fk_freq cosine_taper data fs rij vmin vmax fmin fmax nvel ntheta h =
  (match freq_loop n nsta nvel ntheta
           (delays_of (recenter (h rij)) vmin vmax nvel ntheta)
           (trace_rows m nlow nf (seq 0 nsta) (h data))
           (Np.linspace fmin fmax (Z.to_nat nf)) with
   | Ok acc => Ok (power_map acc)
   | Raise e => Raise e
   end,
   upd (upd h rij (recenter (h rij))) data
       (demean_cols (seq 0 nsta) (h data))).
Proof.
  intros Hne Hrij Hd Hdata Hm Hvmax Hvmin Hfs Hband Hnf.
  rewrite (@fk_freq_prefix data fs rij vmin vmax fmin fmax nvel ntheta h
             d n m nsta nlow nhigh nf) by assumption.
  destruct (Z.ltb_spec nf 0); [lia|].
  set (h1 := upd h rij (recenter (h rij))).
  assert (Hh1d : h1 data = h data) by (apply upd_other; exact Hne).
  unfold bindM at 1. rewrite trace_loop_run.
  2:{ intros jj Hjj. unfold range in Hjj. rewrite in_seq in Hjj.
      rewrite Hh1d, (wf_matrix_shape Hdata Hm). simpl. lia. }
  rewrite Hh1d. unfold range at 1 2. rewrite Nat.sub_0_r.
  unfold bindM, lift, ret.
  destruct (freq_loop _ _ _ _ _ _ _); reflexivity.
Qed.

Lemma fk_freq_run (data : loc) (fs : R) (rij : loc)
  (vmin vmax fmin fmax : R) (nvel ntheta : nat) (h : heap)
  (d n m nsta : nat) (nlow nhigh nf : Z) :
  data <> rij ->
  wf_matrix d n (h rij) -> (2 <= d)%nat ->
  wf_matrix m nsta (h data) -> (1 <= m)%nat ->
  vmax <> 0 -> vmin <> 0 -> fs <> 0 ->
  band_bins m fs fmin fmax = (nlow, nhigh, nf) ->
  (0 <= nf)%Z ->
  exists ft,
    length ft = nsta /\
    fk_freq cosine_taper data fs rij vmin vmax fmin fmax nvel ntheta h =
    (match freq_loop n nsta nvel ntheta
             (delays_of (recenter (h rij)) vmin vmax nvel ntheta) ft
             (Np.linspace fmin fmax (Z.to_nat nf)) with
     | Ok acc => Ok (power_map acc)
     | Raise e => Raise e
     end,
     upd (upd h rij (recenter (h rij))) data
         (demean_cols (seq 0 nsta) (h data))).
Proof.
  intros Hne Hrij Hd Hdata Hm Hvmax Hvmin Hfs Hband Hnf.
  exists (trace_rows m nlow nf (seq 0 nsta) (h data)). split.
  - now rewrite length_trace_rows, length_seq.
  - now apply (@fk_freq_run_rows data fs rij vmin vmax fmin fmax nvel ntheta
                 h d n m nsta nlow nhigh nf).
Qed.

End Run.

(** *** The loop over the frequencies *)

(** The squared modulus of a sum of [n] complex numbers is at most [n]
    times the sum of their squared moduli. *)
Lemma Cnorm2_Csum_list (l : list C) :
  Cnorm2 (Csum_list l) <= INR (length l) * Rsum (map Cnorm2 l).
Proof.
  induction l as [|z l IH].
  - unfold Csum_list, Rsum. simpl. cx. lra.
  - cbn [map length]. rewrite S_INR. unfold Csum_list, Rsum in *.
    simpl fold_right.
    set (s := fold_right Cplus C0 l) in *.
    set (q := fold_right Rplus 0 (map Cnorm2 l)) in *.
    set (n := INR (length l)) in *.
    assert (Hn : 0 <= n) by apply pos_INR.
    assert (Hq : 0 <= q).
    { apply (@Rsum_map_nonneg _ Cnorm2). intros. apply Cnorm2_nonneg. }
    destruct s as [sx sy], z as [zx zy]. cx.
    assert (H1 : 0 <= (sx - n * zx) ^ 2 + (sy - n * zy) ^ 2).
    { pose proof (pow2_ge_0 (sx - n * zx)). pose proof (pow2_ge_0 (sy - n * zy)).
      lra. }
    destruct (Req_dec_T n 0) as [E|E].
    + rewrite E in *. assert (sx = 0) by nra. assert (sy = 0) by nra.
      subst sx sy. nra.
    + assert (Hpos : 0 < n) by lra.
      assert (H2 : n * (2 * (sx * zx + sy * zy))
                   <= n * (q + n * (zx * zx + zy * zy))) by nra.
      apply Rmult_le_reg_l in H2; [|exact Hpos]. nra.
Qed.

Definition bounded (c : R) (T B : list (list R)) : Prop :=
  Forall2 (Forall2 (fun t b => 0 <= t <= c * b /\ 0 <= b)) T B.

Lemma bounded_zeros (c : R) (m n : nat) : bounded c (zeros m n) (zeros m n).
Proof.
  unfold bounded, zeros. induction m as [|m IH]; simpl; constructor; auto.
  clear. induction n as [|n IH]; simpl; constructor; auto. lra.
Qed.

Lemma bounded_add (c : R) (T B T2 B2 : list (list R)) :
  bounded c T B -> bounded c T2 B2 ->
  bounded c (add_matrix T T2) (add_matrix B B2).
Proof.
  unfold bounded, add_matrix. intros H. revert T2 B2.
  induction H as [|t b T B Htb HTB IH]; intros T2 B2 H2; [constructor|].
  destruct H2 as [|t2 b2 T2 B2 Htb2 HTB2]; [constructor|].
  simpl. constructor; [|now apply IH].
  clear - Htb Htb2. revert t2 b2 Htb2.
  induction Htb as [|x y t b Hxy Htb IH]; intros t2 b2 H2; [constructor|].
  destruct H2 as [|x2 y2 t2 b2 Hxy2 Htb2]; [constructor|].
  simpl. constructor; [lra|now apply IH].
Qed.

Lemma Forall2_map_same {A B1 B2 : Type} (R : B1 -> B2 -> Prop)
  (f : A -> B1) (g : A -> B2) (l : list A) :
  (forall x, In x l -> R (f x) (g x)) -> Forall2 R (map f l) (map g l).
Proof.
  induction l as [|a l IH]; intros H; simpl; constructor.
  - apply H. now left.
  - apply IH. intros x Hx. apply H. now right.
Qed.

Lemma length_broadcast_mult (a b : list C) :
  length a = length b -> length (broadcast_mult a b) = length a.
Proof.
  intros H. unfold broadcast_mult. rewrite H, Nat.eqb_refl.
  now rewrite length_map, length_combine, H, Nat.min_id.
Qed.

(** One frequency: [Top2 <= n * Bot] at every slowness and azimuth. *)
Lemma bounded_master (n : nat) (freq : R) (TT : list (list (list R)))
  (fcoeff : list C) :
  Forall (Forall (fun delays => length delays = n)) TT ->
  length fcoeff = n ->
  bounded (INR n)
    (map (map Cnorm2) (map (map Csum_list) (master freq TT fcoeff)))
    (map (map (fun ms => Rsum (map Cnorm2 ms))) (master freq TT fcoeff)).
Proof.
  intros HTT Hf. unfold bounded, master. rewrite !map_map.
  apply Forall2_map_same. intros row Hrow. rewrite !map_map.
  apply Forall2_map_same. intros delays Hd.
  rewrite Forall_forall in HTT. specialize (HTT row Hrow).
  rewrite Forall_forall in HTT. specialize (HTT delays Hd).
  set (ms := broadcast_mult _ fcoeff).
  assert (Hl : length ms = n).
  { unfold ms. rewrite length_broadcast_mult; rewrite length_map; lia. }
  split; [split; [apply Cnorm2_nonneg|]|].
  - rewrite <- Hl. apply Cnorm2_Csum_list.
  - apply (@Rsum_map_nonneg _ Cnorm2). intros. apply Cnorm2_nonneg.
Qed.

Lemma freq_loop_bounded (n nvel ntheta : nat) (TT : list (list (list R)))
  (ft : list (list C)) (freqrange : list R) :
  Forall (Forall (fun delays => length delays = n)) TT ->
  length ft = n ->
  exists acc,
    freq_loop n n nvel ntheta TT ft freqrange = Ok acc /\
    bounded (INR n) (fst acc) (snd acc).
Proof.
  intros HTT Hft. unfold freq_loop.
  assert (Hgen : forall iis acc0,
             bounded (INR n) (fst acc0) (snd acc0) ->
             exists acc,
               fold_left (fun acc ii => a <- acc ;;
                            freq_step n n TT ft freqrange a ii)
                         iis (Ok acc0) = Ok acc /\
               bounded (INR n) (fst acc) (snd acc)).
  { induction iis as [|ii iis IH]; intros acc0 H0.
    - exists acc0. now split.
    - cbn [fold_left bind]. unfold freq_step at 2.
      assert (Hb : broadcastable n n = true).
      { unfold broadcastable. now rewrite Nat.eqb_refl. }
      rewrite Hb. apply IH. simpl fst. simpl snd.
      apply bounded_add; [exact H0|].
      apply bounded_master; [exact HTT|now rewrite length_map]. }
  apply Hgen. simpl. apply bounded_zeros.
Qed.

(** The final division. *)
Lemma power_map_bounded (c : R) (acc : list (list R) * list (list R)) :
  0 <= c -> bounded c (fst acc) (snd acc) ->
  Forall (Forall (fun e => e = NaN \/ exists r, e = Fin r /\ 0 <= r <= c))
         (power_map acc).
Proof.
  intros Hc. destruct acc as [T B]. simpl fst. simpl snd. unfold power_map.
  simpl fst. simpl snd. intros H.
  induction H as [|t b T B Htb HTB IH]; simpl; constructor; [|exact IH].
  clear - Hc Htb. induction Htb as [|x y t b Hxy Htb IH]; simpl; constructor;
    [|exact IH].
  unfold true_divide.
  destruct (Req_dec_T y 0) as [Ey|Ey].
  - left. subst y. destruct (Req_dec_T x 0) as [_|Ex]; [reflexivity|].
    exfalso. apply Ex. lra.
  - right. eexists. split; [reflexivity|].
    assert (Hy : 0 < y) by lra.
    split.
    + apply Rmult_le_reg_r with y; [exact Hy|].
      unfold Rdiv. rewrite Rmult_assoc, Rinv_l by lra. lra.
    + apply Rmult_le_reg_r with y; [exact Hy|].
      unfold Rdiv. rewrite Rmult_assoc, Rinv_l by lra. lra.
Qed.

Lemma power_map_zeros (nvel ntheta : nat) :
  power_map (zeros nvel ntheta, zeros nvel ntheta) =
  repeat (repeat NaN ntheta) nvel.
Proof.
  unfold power_map, zeros. simpl fst. simpl snd.
  assert (Hrow : map (fun p => true_divide (fst p) (snd p))
                     (combine (repeat 0 ntheta) (repeat 0 ntheta))
                 = repeat NaN ntheta).
  { induction ntheta as [|k IH]; simpl; [reflexivity|]. rewrite IH. f_equal.
    unfold true_divide. destruct (Req_dec_T 0 0) as [_|E]; [reflexivity|].
    now elim E. }
  induction nvel as [|k IH]; simpl; [reflexivity|].
  rewrite IH. f_equal. exact Hrow.
Qed.

Lemma wf_recenter (d n : nat) (a : list (list R)) :
  wf_matrix d n a -> (2 <= d)%nat -> wf_matrix d n (recenter a).
Proof.
  intros Hwf Hd. pose proof Hwf as [Hlen _].
  assert (Hlr : length (recenter a) = d)
    by (unfold recenter; now rewrite !length_set_nth).
  split; [exact Hlr|]. rewrite Forall_forall. intros row Hrow.
  apply (In_nth _ _ []) in Hrow. destruct Hrow as [r [Hr <-]].
  rewrite Hlr in Hr. unfold recenter.
  rewrite nth_set_nth by (rewrite length_set_nth; lia).
  destruct (r =? 1)%nat.
  - rewrite length_demean. apply (wf_matrix_nth Hwf). lia.
  - rewrite nth_set_nth by lia. destruct (r =? 0)%nat.
    + rewrite length_demean. apply (wf_matrix_nth Hwf). lia.
    + apply (wf_matrix_nth Hwf). lia.
Qed.

Lemma recenter_rows (d n : nat) (a : list (list R)) :
  wf_matrix d n a -> (2 <= d)%nat ->
  nth 0 (recenter a) [] = demean (nth 0 a []) /\
  nth 1 (recenter a) [] = demean (nth 1 a []) /\
  forall r, (2 <= r)%nat -> nth r (recenter a) [] = nth r a [].
Proof.
  intros [Hlen _] Hd. unfold recenter. split; [|split].
  - rewrite !nth_set_nth by (rewrite ?length_set_nth; lia). reflexivity.
  - rewrite nth_set_nth by (rewrite ?length_set_nth; lia). reflexivity.
  - intros r Hr. rewrite !nth_set_nth by (rewrite ?length_set_nth; lia).
    destruct (Nat.eqb_spec r 1); [lia|]. destruct (Nat.eqb_spec r 0); [lia|].
    reflexivity.
Qed.

Lemma delays_lengths (d n : nat) (a : list (list R)) (vmin vmax : R)
  (nvel ntheta : nat) :
  wf_matrix d n a -> (2 <= d)%nat ->
  Forall (Forall (fun delays => length delays = n))
         (delays_of a vmin vmax nvel ntheta).
Proof.
  intros Hwf Hd. unfold delays_of.
  rewrite Forall_forall. intros row Hrow. rewrite in_map_iff in Hrow.
  destruct Hrow as [s [<- _]]. rewrite Forall_forall. intros dl Hdl.
  rewrite in_map_iff in Hdl. destruct Hdl as [t [<- _]].
  rewrite length_map, length_combine.
  rewrite (@wf_matrix_nth _ d n a 1%nat Hwf) by lia.
  rewrite (@wf_matrix_nth _ d n a 0%nat Hwf) by lia.
  apply Nat.min_id.
Qed.

Lemma py_int_eq (r : R) (z : Z) :
  0 <= r -> IZR z <= r < IZR z + 1 -> Np.py_int r = z.
Proof.
  intros Hr Hz. unfold Np.py_int.
  destruct (Rle_dec 0 r); [|contradiction]. now apply Zfloor_eq.
Qed.

Section Effects.
Variable cosine_taper : nat -> list R.

(** What a call of [fk_freq] leaves in the caller's arrays. *)
Lemma fk_freq_heap (data : loc) (fs : R) (rij : loc)
  (vmin vmax fmin fmax : R) (nvel ntheta : nat) (h : heap)
  (d n m nsta : nat) (nlow nhigh nf : Z) :
  data <> rij ->
  wf_matrix d n (h rij) -> (2 <= d)%nat ->
  wf_matrix m nsta (h data) -> (1 <= m)%nat ->
  vmax <> 0 -> vmin <> 0 -> fs <> 0 ->
  band_bins m fs fmin fmax = (nlow, nhigh, nf) ->
  let h' := snd (fk_freq cosine_taper data fs rij vmin vmax fmin fmax
                   nvel ntheta h) in
  (nth 0 (h' rij) [] = demean (nth 0 (h rij) []) /\
   nth 1 (h' rij) [] = demean (nth 1 (h rij) []) /\
   forall r, (2 <= r)%nat -> nth r (h' rij) [] = nth r (h rij) []) /\
  ((nf < 0)%Z -> h' data = h data) /\
  ((0 <= nf)%Z ->
   wf_matrix m nsta (h' data) /\
   forall r c, (r < m)%nat -> (c < nsta)%nat ->
     nth c (nth r (h' data) []) 0 =
     nth c (nth r (h data) []) 0 - Np.mean (column c (h data))) /\
  (forall l, l <> rij -> l <> data -> h' l = h l).
Proof.
  intros Hne Hrij Hd Hdata Hm Hvmax Hvmin Hfs Hband h'.
  assert (Hcases : (nf < 0)%Z \/ (0 <= nf)%Z) by lia.
  assert (Hh' : h' = (if (nf <? 0)%Z
                      then upd h rij (recenter (h rij))
                      else upd (upd h rij (recenter (h rij))) data
                             (demean_cols (seq 0 nsta) (h data)))).
  { unfold h'. destruct Hcases as [Hneg|Hpos].
    - rewrite (@fk_freq_negative_band cosine_taper data fs rij vmin vmax
                 fmin fmax nvel ntheta h d n m nsta nlow nhigh nf)
        by assumption.
      destruct (Z.ltb_spec nf 0); [reflexivity|lia].
    - destruct (@fk_freq_run cosine_taper data fs rij vmin vmax fmin fmax
                  nvel ntheta h d n m nsta nlow nhigh nf)
        as [ft [_ Hrun]]; try assumption.
      rewrite Hrun. destruct (Z.ltb_spec nf 0); [lia|reflexivity]. }
  assert (Hr : h' rij = recenter (h rij)).
  { rewrite Hh'. destruct (nf <? 0)%Z.
    - apply upd_same.
    - rewrite upd_other by (intros E; apply Hne; now symmetry).
      apply upd_same. }
  split; [rewrite Hr; now apply (@recenter_rows d n)|].
  split; [|split].
  - intros Hneg. rewrite Hh'. destruct (Z.ltb_spec nf 0); [|lia].
    now apply upd_other.
  - intros Hpos.
    assert (Hd' : h' data = demean_cols (seq 0 nsta) (h data)).
    { rewrite Hh'. destruct (Z.ltb_spec nf 0); [lia|]. apply upd_same. }
    rewrite Hd'. split; [now apply wf_demean_cols|].
    intros r c Hrm Hc.
    rewrite (@entry_demean_cols m nsta nsta r c (h data) Hdata Hrm (le_n _)).
    destruct (Nat.ltb_spec c nsta); [reflexivity|lia].
  - intros l Hl1 Hl2. rewrite Hh'. destruct (nf <? 0)%Z.
    + now apply upd_other.
    + rewrite upd_other by exact Hl2. now apply upd_other.
Qed.

(** A band with no bin, and a band with a negative count of bins. *)
Lemma fk_freq_empty_band (data : loc) (fs : R) (rij : loc)
  (vmin vmax fmin fmax : R) (nvel ntheta : nat) (h : heap)
  (d n m nsta : nat) (nlow nhigh nf : Z) :
  data <> rij ->
  wf_matrix d n (h rij) -> (2 <= d)%nat ->
  wf_matrix m nsta (h data) -> (1 <= m)%nat ->
  vmax <> 0 -> vmin <> 0 -> fs <> 0 ->
  band_bins m fs fmin fmax = (nlow, nhigh, nf) ->
  (nf = 0%Z ->
   fst (fk_freq cosine_taper data fs rij vmin vmax fmin fmax nvel ntheta h)
   = Ok (repeat (repeat NaN ntheta) nvel)) /\
  ((nf < 0)%Z ->
   fst (fk_freq cosine_taper data fs rij vmin vmax fmin fmax nvel ntheta h)
   = Raise ValueError).
Proof.
  intros Hne Hrij Hd Hdata Hm Hvmax Hvmin Hfs Hband. split.
  - intros Hnf.
    destruct (@fk_freq_run cosine_taper data fs rij vmin vmax fmin fmax
                nvel ntheta h d n m nsta nlow nhigh nf)
      as [ft [_ Hrun]]; try assumption; [lia|].
    rewrite Hrun, Hnf. simpl fst. unfold freq_loop. simpl.
    now rewrite power_map_zeros.
  - intros Hnf.
    now rewrite (@fk_freq_negative_band cosine_taper data fs rij vmin vmax
                   fmin fmax nvel ntheta h d n m nsta nlow nhigh nf)
      by assumption.
Qed.

(** The power map of a call that returns. *)
Lemma fk_freq_bounded (data : loc) (fs : R) (rij : loc)
  (vmin vmax fmin fmax : R) (nvel ntheta : nat) (h : heap) (d n m : nat) :
  data <> rij ->
  wf_matrix d n (h rij) -> (2 <= d)%nat ->
  wf_matrix m n (h data) -> (1 <= m)%nat ->
  vmax <> 0 -> vmin <> 0 -> fs <> 0 ->
  (forall pm h',
     fk_freq cosine_taper data fs rij vmin vmax fmin fmax nvel ntheta h
     = (Ok pm, h') ->
     Forall (Forall (fun e => e = NaN \/
                              exists r, e = Fin r /\ 0 <= r <= INR n)) pm) /\
  ((0 <= snd (band_bins m fs fmin fmax))%Z ->
   exists pm h',
     fk_freq cosine_taper data fs rij vmin vmax fmin fmax nvel ntheta h
     = (Ok pm, h')).
Proof.
  intros Hne Hrij Hd Hdata Hm Hvmax Hvmin Hfs.
  destruct (band_bins m fs fmin fmax) as [[nlow nhigh] nf] eqn:Hband.
  simpl snd.
  assert (Hpos : (0 <= nf)%Z ->
            exists acc,
              fk_freq cosine_taper data fs rij vmin vmax fmin fmax nvel ntheta h
              = (Ok (power_map acc),
                 upd (upd h rij (recenter (h rij))) data
                     (demean_cols (seq 0 n) (h data))) /\
              bounded (INR n) (fst acc) (snd acc)).
  { intros Hnf.
    destruct (@fk_freq_run cosine_taper data fs rij vmin vmax fmin fmax
                nvel ntheta h d n m n nlow nhigh nf)
      as [ft [Hlen Hrun]]; try assumption.
    destruct (@freq_loop_bounded n nvel ntheta
                (delays_of (recenter (h rij)) vmin vmax nvel ntheta) ft
                (Np.linspace fmin fmax (Z.to_nat nf)))
      as [acc [Hacc Hb]].
    - apply (@delays_lengths d n); [now apply wf_recenter|exact Hd].
    - exact Hlen.
    - exists acc. rewrite Hrun, Hacc. now split. }
  split.
  - intros pm h' Hrun.
    assert (Hcases : (nf < 0)%Z \/ (0 <= nf)%Z) by lia.
    destruct Hcases as [Hneg|Hnf].
    + rewrite (@fk_freq_negative_band cosine_taper data fs rij vmin vmax
                 fmin fmax nvel ntheta h d n m n nlow nhigh nf) in Hrun
        by assumption.
      discriminate.
    + destruct (Hpos Hnf) as [acc [Hacc Hb]]. rewrite Hacc in Hrun.
      injection Hrun as <- _.
      apply power_map_bounded; [apply pos_INR|exact Hb].
  - intros Hnf. destruct (Hpos Hnf) as [acc [Hacc _]]. eauto.
Qed.

End Effects.

(** *** Traces that are constant in time *)

Section ConstantTraces.
Variable cosine_taper : nat -> list R.

(** Every column of the time series holds one value. *)
Definition constant_columns (m n : nat) (a : list (list R)) : Prop :=
  wf_matrix m n a /\
  forall r c, (r < m)%nat -> (c < n)%nat ->
    nth c (nth r a []) 0 = nth c (nth 0 a []) 0.

Lemma Rsum_repeat (v : R) (m : nat) : Rsum (repeat v m) = INR m * v.
Proof.
  unfold Rsum. induction m as [|m IH]; [simpl; ring|].
  rewrite S_INR. cbn [repeat fold_right]. rewrite IH. ring.
Qed.

Lemma column_constant (m n jj : nat) (a : list (list R)) :
  constant_columns m n a -> (jj < n)%nat ->
  column jj a = repeat (nth jj (nth 0 a []) 0) m.
Proof.
  intros [[Hlen Hrows] Hc] Hjj. unfold column.
  apply nth_ext with (d := 0) (d' := 0).
  - now rewrite length_map, repeat_length.
  - intros r Hr. rewrite length_map in Hr.
    rewrite (@nth_map_lt _ _ _ _ r 0 []) by exact Hr.
    rewrite nth_repeat_lt by lia. apply Hc; lia.
Qed.

Lemma mean_constant (m n jj r : nat) (a : list (list R)) :
  constant_columns m n a -> (jj < n)%nat -> (r < m)%nat ->
  nth jj (nth r a []) 0 - Np.mean (column jj a) = 0.
Proof.
  intros Hc Hjj Hr. rewrite (column_constant Hc Hjj).
  unfold Np.mean. rewrite Rsum_repeat, repeat_length.
  destruct Hc as [_ Hc]. rewrite (Hc r jj Hr Hjj).
  assert (0 < INR m) by (apply lt_0_INR; lia). field. lra.
Qed.

Lemma constant_demean_col (m n jj : nat) (a : list (list R)) :
  constant_columns m n a -> (jj < n)%nat ->
  constant_columns m n (demean_col jj a).
Proof.
  intros Hc Hjj. pose proof Hc as [Hwf Hcc].
  split; [now apply wf_demean_col|].
  intros r c Hr Hcn.
  assert (H0 : (0 < m)%nat) by lia.
  rewrite !(@entry_demean_col m n jj _ c a Hwf) by assumption.
  destruct (c =? jj)%nat; rewrite (Hcc r c Hr Hcn); reflexivity.
Qed.

Lemma zero_trace_rows (m n : nat) (nlow nf : Z) (jjs : list nat)
  (a : list (list R)) :
  constant_columns m n a -> (forall jj, In jj jjs -> (jj < n)%nat) ->
  forall row, In row (trace_rows cosine_taper m nlow nf jjs a) ->
  forall z, In z row -> z = C0.
Proof.
  revert a. induction jjs as [|jj jjs IH]; intros a Hc Hjjs row Hrow z Hz;
    [destruct Hrow|].
  pose proof Hc as [Hwf _].
  assert (Hjj : (jj < n)%nat) by (apply Hjjs; now left).
  cbn [trace_rows] in Hrow. destruct Hrow as [<-|Hrow].
  - apply In_py_slice in Hz. unfold Np.rfft_vec in Hz.
    assert (Hz' : In z (Np.fft_vec (nfft_of m)
                      (map RtoC
                         (map (fun p => fst p * snd p)
                            (combine (column jj (demean_col jj a))
                               (cosine_taper m)))))).
    { rewrite <- (firstn_skipn (nfft_of m / 2 + 1) (Np.fft_vec _ _)).
      apply in_or_app. now left. }
    apply (In_nth _ _ C0) in Hz'. destruct Hz' as [k [_ <-]].
    apply PsfProofs.zrow_fft_vec. rewrite map_map.
    apply PsfProofs.zrow_map_const. intros [v t] Hin.
    apply in_combine_l in Hin. unfold column in Hin.
    rewrite in_map_iff in Hin. destruct Hin as [rw [Hv Hrw]].
    apply (In_nth _ _ []) in Hrw. destruct Hrw as [r [Hr <-]].
    rewrite length_demean_col in Hr. destruct Hwf as [Hlen _].
    rewrite Hlen in Hr.
    pose proof (@entry_demean_col m n jj r jj a (proj1 Hc) Hr Hjj) as He.
    rewrite Nat.eqb_refl in He. rewrite He in Hv.
    rewrite (mean_constant Hc Hjj Hr) in Hv. subst v.
    simpl. unfold RtoC, C0. f_equal. ring.
  - apply (IH (demean_col jj a)) with (row := row); try assumption.
    + now apply constant_demean_col.
    + intros jj' Hin. apply Hjjs. now right.
Qed.

End ConstantTraces.

Lemma length_linspace (a b : R) (num : nat) :
  length (Np.linspace a b num) = num.
Proof.
  unfold Np.linspace. destruct num as [|[|k]]; [reflexivity|reflexivity|].
  now rewrite length_map, length_seq.
Qed.

Lemma wf_delays_of (a : list (list R)) (vmin vmax : R) (nvel ntheta : nat) :
  wf_matrix nvel ntheta (delays_of a vmin vmax nvel ntheta).
Proof.
  unfold delays_of. split.
  - now rewrite length_map, length_linspace.
  - rewrite Forall_forall. intros row Hrow. rewrite in_map_iff in Hrow.
    destruct Hrow as [s [<- _]]. now rewrite length_map, length_linspace.
Qed.

Lemma zero_matrix_of_shape {A : Type} (m n : nat) (T : list (list A)) :
  wf_matrix m n T -> map (map (fun _ => 0)) T = zeros m n.
Proof.
  intros [Hlen Hrows]. unfold zeros. subst m.
  induction T as [|row T IH]; [reflexivity|].
  inversion Hrows as [|? ? Hrow Hrest]; subst. simpl.
  rewrite IH by exact Hrest. f_equal. apply map_const.
Qed.

Lemma add_zeros (m n : nat) : add_matrix (zeros m n) (zeros m n) = zeros m n.
Proof.
  unfold add_matrix, zeros.
  assert (Hrow : map (fun p => fst p + snd p)
                     (combine (repeat 0 n) (repeat 0 n)) = repeat 0 n).
  { induction n as [|k IH]; simpl; [reflexivity|]. rewrite IH. f_equal. ring. }
  induction m as [|k IH]; simpl; [reflexivity|]. rewrite IH. now f_equal.
Qed.

Lemma Csum_list_zero (l : list C) :
  (forall z, In z l -> z = C0) -> Csum_list l = C0.
Proof.
  unfold Csum_list. induction l as [|z l IH]; intros H; [reflexivity|].
  simpl. rewrite (H z (or_introl eq_refl)), IH; [apply Cplus_0_l|].
  intros z' Hz'. apply H. now right.
Qed.

Lemma broadcast_mult_zero (a b : list C) :
  (forall z, In z b -> z = C0) ->
  forall z, In z (broadcast_mult a b) -> z = C0.
Proof.
  intros Hb z Hz. unfold broadcast_mult in Hz.
  destruct (length a =? length b)%nat.
  - rewrite in_map_iff in Hz. destruct Hz as [[x y] [<- Hin]].
    apply in_combine_r in Hin. simpl. rewrite (Hb y Hin). apply Cmult_0_r.
  - destruct (length a =? 1)%nat.
    + rewrite in_map_iff in Hz. destruct Hz as [y [<- Hin]].
      rewrite (Hb y Hin). apply Cmult_0_r.
    + rewrite in_map_iff in Hz. destruct Hz as [x [<- _]].
      destruct b as [|y b]; simpl; [apply Cmult_0_r|].
      rewrite (Hb y (or_introl eq_refl)). apply Cmult_0_r.
Qed.

(** With coefficients that are all zero both sums stay zero. *)
Lemma freq_loop_zero (n nsta nvel ntheta : nat) (TT : list (list (list R)))
  (ft : list (list C)) (freqrange : list R) :
  wf_matrix nvel ntheta TT ->
  broadcastable n nsta = true ->
  (forall row, In row ft -> forall z, In z row -> z = C0) ->
  freq_loop n nsta nvel ntheta TT ft freqrange =
  Ok (zeros nvel ntheta, zeros nvel ntheta).
Proof.
  intros HTT Hb Hft. unfold freq_loop.
  generalize (range 0 (length freqrange)) as iis.
  induction iis as [|ii iis IH]; [reflexivity|].
  cbn [fold_left bind]. unfold freq_step at 2. rewrite Hb.
  assert (Hf : forall z, In z (map (fun row => nth ii row C0) ft) -> z = C0).
  { intros z Hz. rewrite in_map_iff in Hz. destruct Hz as [row [<- Hrow]].
    destruct (Nat.lt_ge_cases ii (length row)) as [Hlt|Hge].
    - apply (Hft row Hrow). now apply nth_In.
    - now apply nth_overflow. }
  assert (Htop : map (map Cnorm2)
                   (map (map Csum_list)
                      (master (nth ii freqrange 0) TT
                         (map (fun row => nth ii row C0) ft)))
                 = zeros nvel ntheta).
  { rewrite <- (zero_matrix_of_shape HTT). unfold master. rewrite !map_map.
    apply map_ext. intros row. rewrite !map_map. apply map_ext. intros dl.
    rewrite Csum_list_zero; [unfold Cnorm2, C0; simpl; ring|].
    now apply broadcast_mult_zero. }
  assert (Hbot : map (map (fun ms => Rsum (map Cnorm2 ms)))
                   (master (nth ii freqrange 0) TT
                      (map (fun row => nth ii row C0) ft))
                 = zeros nvel ntheta).
  { rewrite <- (zero_matrix_of_shape HTT). unfold master. rewrite !map_map.
    apply map_ext. intros row. rewrite !map_map. apply map_ext. intros dl.
    rewrite (@Rsum_map_ext_in _ Cnorm2 (fun _ => 0)); [apply Rsum_map_zero|].
    intros z Hz. rewrite (@broadcast_mult_zero _ _ Hf _ Hz).
    unfold Cnorm2, C0. simpl. ring. }
  rewrite Htop, Hbot. simpl fst. simpl snd. rewrite add_zeros. exact IH.
Qed.

(** Traces that are constant in time carry no power once their mean is
    removed: both sums are zero at every cell, and the map is [nan]. *)
Lemma fk_freq_constant_traces (cosine_taper : nat -> list R)
  (data : loc) (fs : R) (rij : loc)
  (vmin vmax fmin fmax : R) (nvel ntheta : nat) (h : heap)
  (d n m : nat) (nlow nhigh nf : Z) :
  data <> rij ->
  wf_matrix d n (h rij) -> (2 <= d)%nat ->
  constant_columns m n (h data) -> (1 <= m)%nat ->
  vmax <> 0 -> vmin <> 0 -> fs <> 0 ->
  band_bins m fs fmin fmax = (nlow, nhigh, nf) ->
  (0 <= nf)%Z ->
  fst (fk_freq cosine_taper data fs rij vmin vmax fmin fmax nvel ntheta h)
  = Ok (repeat (repeat NaN ntheta) nvel).
Proof.
  intros Hne Hrij Hd Hc Hm Hvmax Hvmin Hfs Hband Hnf.
  pose proof Hc as [Hdata _].
  rewrite (@fk_freq_run_rows cosine_taper data fs rij vmin vmax fmin fmax
             nvel ntheta h d n m n nlow nhigh nf) by assumption.
  rewrite freq_loop_zero.
  - simpl fst. now rewrite power_map_zeros.
  - apply wf_delays_of.
  - unfold broadcastable. now rewrite Nat.eqb_refl.
  - apply (@zero_trace_rows cosine_taper m n nlow nf (seq 0 n) (h data) Hc).
    intros jj Hjj. rewrite in_seq in Hjj. lia.
Qed.

End FkProofs.

Import FkFreq FkProofs.

(** *** A call of [fk_freq] on four samples of two sensors *)

(** The caller's memory: the time series at location 0, the sensor
    coordinates (northing row, easting row) at location 1. *)
Definition example_data : list (list R) := [[1; 2]; [3; 2]; [1; 2]; [3; 2]].
Definition example_rij : list (list R) := [[0; 2]; [0; 4]].
Definition example_heap : heap :=
  fun l => if (l =? 0)%nat then example_data else example_rij.

(** A taper of ones stands for obspy's cosine taper in the examples. *)
Definition flat_taper (m : nat) : list R := repeat 1 m.

Lemma wf_example_data : wf_matrix 4 2 (example_heap 0%nat).
Proof. split; [reflexivity|]. repeat constructor. Qed.

Lemma wf_example_rij : wf_matrix 2 2 (example_heap 1%nat).
Proof. split; [reflexivity|]. repeat constructor. Qed.

(** The band of bins for four samples at 4 Hz, between whole
    frequencies. *)
Lemma band_bins_4 (zlo zhi : Z) :
  (0 <= zlo)%Z -> (0 <= zhi)%Z ->
  band_bins 4 4 (IZR zlo) (IZR zhi) =
  (Z.max 1 zlo, Z.min 1 zhi, (Z.min 1 zhi - Z.max 1 zlo + 1)%Z).
Proof.
  intros Hlo Hhi. unfold band_bins.
  change (nfft_of 4) with 4%nat.
  assert (Hint : forall z, (0 <= z)%Z ->
             Np.py_int (IZR z / (4 / INR 4) + 0.5) = z).
  { intros z Hz. apply IZR_le in Hz.
    replace (IZR z / (4 / INR 4) + 0.5) with (IZR z + 1 / 2)
      by (simpl; lra).
    apply py_int_eq; lra. }
  rewrite !Hint by assumption. reflexivity.
Qed.

(** C5 (as stated, refuted). After a call that returns, the caller's
    time series hold the de-meaned values and the caller's coordinates
    the recentred ones. *)
Lemma fk_freq_overwrites_its_inputs :
  exists pm h',
    fk_freq flat_taper 0%nat 4 1%nat 1 2 1 1 2%nat 2%nat example_heap = (Ok pm, h') /\
    h' 0%nat = [[-1; 0]; [1; 0]; [-1; 0]; [1; 0]] /\
    h' 1%nat = [[-1; 1]; [-2; 2]] /\
    h' 0%nat <> example_heap 0%nat /\
    h' 1%nat <> example_heap 1%nat.
Proof.
  pose proof (@band_bins_4 1 1 ltac:(lia) ltac:(lia)) as Hband.
  change (Z.max 1 1) with 1%Z in Hband. change (Z.min 1 1) with 1%Z in Hband.
  change (1 - 1 + 1)%Z with 1%Z in Hband.
  destruct (@fk_freq_run flat_taper 0%nat 4 1%nat 1 2 1 1 2%nat 2%nat
              example_heap 2%nat 2%nat 4%nat 2%nat 1%Z 1%Z 1%Z)
    as [ft [Hlen Hrun]];
    try (apply wf_example_data); try (apply wf_example_rij);
    try lia; try lra; try exact Hband.
  destruct (@freq_loop_bounded 2 2 2
              (delays_of (recenter (example_heap 1%nat)) 1 2 2 2) ft
              (Np.linspace 1 1 (Z.to_nat 1)))
    as [acc [Hacc _]].
  { apply (@delays_lengths 2 2); [|lia].
    apply wf_recenter; [apply wf_example_rij|lia]. }
  { exact Hlen. }
  rewrite Hacc in Hrun.
  assert (H0 : upd (upd example_heap 1%nat (recenter (example_heap 1%nat))) 0%nat
                 (demean_cols (seq 0 2) (example_heap 0%nat)) 0%nat
               = [[-1; 0]; [1; 0]; [-1; 0]; [1; 0]]).
  { rewrite upd_same.
    unfold demean_cols, demean_col, column, demean, Np.mean, Rsum.
    simpl. repeat (f_equal; try field). }
  assert (H1 : upd (upd example_heap 1%nat (recenter (example_heap 1%nat))) 0%nat
                 (demean_cols (seq 0 2) (example_heap 0%nat)) 1%nat
               = [[-1; 1]; [-2; 2]]).
  { rewrite upd_other by lia. rewrite upd_same.
    unfold recenter, demean, Np.mean, Rsum.
    simpl. repeat (f_equal; try field). }
  eexists. eexists. split; [exact Hrun|].
  split; [exact H0|]. split; [exact H1|]. split.
  - rewrite H0. intros E.
    assert (E1 := f_equal (fun a => nth 0 (nth 0 a []) 0) E).
    simpl in E1. lra.
  - rewrite H1. intros E.
    assert (E1 := f_equal (fun a => nth 0 (nth 0 a []) 0) E).
    simpl in E1. lra.
Qed.

(** C5 (amended). [fk_freq] works in the caller's arrays.  A call that
    gets past its first checks (two coordinate rows, a sample, nonzero
    velocities and sample rate) leaves the first two rows of [rij]
    (northing and easting) with their means removed, [np.transpose] being
    a view and no copy, and the other rows as they were; unless
    [np.empty] raises for a negative bin count, it leaves every column of
    [data] with its mean removed; no other array of the caller
    changes. *)
Theorem fk_freq_mutates_in_place (cosine_taper : nat -> list R)
  (data : loc) (fs : R) (rij : loc) (vmin vmax fmin fmax : R)
  (nvel ntheta : nat) (h : heap) (d n m nsta : nat) (nlow nhigh nf : Z) :
  data <> rij ->
  wf_matrix d n (h rij) -> (2 <= d)%nat ->
  wf_matrix m nsta (h data) -> (1 <= m)%nat ->
  vmax <> 0 -> vmin <> 0 -> fs <> 0 ->
  band_bins m fs fmin fmax = (nlow, nhigh, nf) ->
  let h' := snd (fk_freq cosine_taper data fs rij vmin vmax fmin fmax
                   nvel ntheta h) in
  (nth 0 (h' rij) [] = demean (nth 0 (h rij) []) /\
   nth 1 (h' rij) [] = demean (nth 1 (h rij) []) /\
   forall r, (2 <= r)%nat -> nth r (h' rij) [] = nth r (h rij) []) /\
  ((nf < 0)%Z -> h' data = h data) /\
  ((0 <= nf)%Z ->
   wf_matrix m nsta (h' data) /\
   forall r c, (r < m)%nat -> (c < nsta)%nat ->
     nth c (nth r (h' data) []) 0 =
     nth c (nth r (h data) []) 0 - Np.mean (column c (h data))) /\
  (forall l, l <> rij -> l <> data -> h' l = h l).
Proof.
  exact (@fk_freq_heap cosine_taper data fs rij vmin vmax fmin fmax nvel
           ntheta h d n m nsta nlow nhigh nf).
Qed.

Lemma example_band : band_bins 4 4 1 1 = (1, 1, 1)%Z.
Proof. exact (@band_bins_4 1 1 ltac:(lia) ltac:(lia)). Qed.

Lemma fk_freq_mutates_in_place_witness :
  let h' := snd (fk_freq flat_taper 0%nat 4 1%nat 1 2 1 1 2%nat 2%nat example_heap) in
  (nth 0 (h' 1%nat) [] = demean (nth 0 (example_heap 1%nat) []) /\
   nth 1 (h' 1%nat) [] = demean (nth 1 (example_heap 1%nat) []) /\
   forall r, (2 <= r)%nat -> nth r (h' 1%nat) [] = nth r (example_heap 1%nat) []) /\
  ((1 < 0)%Z -> h' 0%nat = example_heap 0%nat) /\
  ((0 <= 1)%Z ->
   wf_matrix 4 2 (h' 0%nat) /\
   forall r c, (r < 4)%nat -> (c < 2)%nat ->
     nth c (nth r (h' 0%nat) []) 0 =
     nth c (nth r (example_heap 0%nat) []) 0
     - Np.mean (column c (example_heap 0%nat))) /\
  (forall l, l <> 1%nat -> l <> 0%nat -> h' l = example_heap l).
Proof.
  apply (@fk_freq_mutates_in_place flat_taper 0%nat 4 1%nat 1 2 1 1 2%nat
           2%nat example_heap 2%nat 2%nat 4%nat 2%nat 1%Z 1%Z 1%Z);
    try (apply wf_example_data); try (apply wf_example_rij);
    try lia; try lra; exact example_band.
Defined.

(** C6 (as stated, refuted). A band at the Nyquist frequency (four
    samples at 4 Hz, 2 Hz to 2 Hz) has no bin left, [nf = 0]: [fk_freq]
    raises nothing and returns a map of [nan]. *)
Lemma fk_freq_empty_band_returns_nan_map :
  band_bins 4 4 2 2 = (2, 1, 0)%Z /\
  fst (fk_freq flat_taper 0%nat 4 1%nat 1 2 2 2 2%nat 3%nat example_heap) =
  Ok [[NaN; NaN; NaN]; [NaN; NaN; NaN]].
Proof.
  pose proof (@band_bins_4 2 2 ltac:(lia) ltac:(lia)) as Hband.
  change (Z.max 1 2) with 2%Z in Hband. change (Z.min 1 2) with 1%Z in Hband.
  change (1 - 2 + 1)%Z with 0%Z in Hband.
  split; [exact Hband|].
  destruct (@fk_freq_empty_band flat_taper 0%nat 4 1%nat 1 2 2 2 2%nat 3%nat
              example_heap 2%nat 2%nat 4%nat 2%nat 2%Z 1%Z 0%Z)
    as [H0 _];
    try (apply wf_example_data); try (apply wf_example_rij);
    try lia; try lra; try exact Hband.
  now rewrite H0.
Qed.

(** C6 (amended). [fk_freq] defines no error for an empty band.  When the
    clamped band has no bin ([nf = 0]) it returns, silently, an [nvel] by
    [ntheta] map of [nan] (0/0); when the count is negative ([nf < 0]),
    [np.empty] raises numpy's [ValueError]. *)
Theorem fk_freq_degenerate_band (cosine_taper : nat -> list R)
  (data : loc) (fs : R) (rij : loc) (vmin vmax fmin fmax : R)
  (nvel ntheta : nat) (h : heap) (d n m nsta : nat) (nlow nhigh nf : Z) :
  data <> rij ->
  wf_matrix d n (h rij) -> (2 <= d)%nat ->
  wf_matrix m nsta (h data) -> (1 <= m)%nat ->
  vmax <> 0 -> vmin <> 0 -> fs <> 0 ->
  band_bins m fs fmin fmax = (nlow, nhigh, nf) ->
  (nf = 0%Z ->
   fst (fk_freq cosine_taper data fs rij vmin vmax fmin fmax nvel ntheta h)
   = Ok (repeat (repeat NaN ntheta) nvel)) /\
  ((nf < 0)%Z ->
   fst (fk_freq cosine_taper data fs rij vmin vmax fmin fmax nvel ntheta h)
   = Raise ValueError).
Proof.
  exact (@fk_freq_empty_band cosine_taper data fs rij vmin vmax fmin fmax
           nvel ntheta h d n m nsta nlow nhigh nf).
Qed.

Lemma example_band_above_nyquist : band_bins 4 4 3 3 = (3, 1, -1)%Z.
Proof. exact (@band_bins_4 3 3 ltac:(lia) ltac:(lia)). Qed.

Lemma fk_freq_degenerate_band_witness :
  ((-1)%Z = 0%Z ->
   fst (fk_freq flat_taper 0%nat 4 1%nat 1 2 3 3 2%nat 3%nat example_heap)
   = Ok (repeat (repeat NaN 3) 2)) /\
  ((-1 < 0)%Z ->
   fst (fk_freq flat_taper 0%nat 4 1%nat 1 2 3 3 2%nat 3%nat example_heap)
   = Raise ValueError).
Proof.
  apply (@fk_freq_degenerate_band flat_taper 0%nat 4 1%nat 1 2 3 3 2%nat
           3%nat example_heap 2%nat 2%nat 4%nat 2%nat 3%Z 1%Z (-1)%Z);
    try (apply wf_example_data); try (apply wf_example_rij);
    try lia; try lra; exact example_band_above_nyquist.
Defined.

(** The same call on traces that do not vary in time. *)
Definition constant_data : list (list R) := [[5; 7]; [5; 7]; [5; 7]; [5; 7]].
Definition constant_heap : heap :=
  fun l => if (l =? 0)%nat then constant_data else example_rij.

Lemma constant_example_data : constant_columns 4 2 (constant_heap 0%nat).
Proof.
  split; [split; [reflexivity|repeat constructor]|].
  intros r c Hr Hc.
  destruct r as [|[|[|[|r]]]]; [reflexivity|reflexivity|reflexivity|reflexivity|lia].
Qed.

(** C10 (as stated, refuted). A call that returns without error, on a
    band that keeps one bin (1 Hz of four samples at 4 Hz) and two
    constant traces: the entries of the power map are [nan], which is no
    number of [0, n]. *)
Lemma fk_freq_power_map_nan :
  band_bins 4 4 1 1 = (1, 1, 1)%Z /\
  exists h',
    fk_freq flat_taper 0%nat 4 1%nat 1 2 1 1 2%nat 2%nat constant_heap
    = (Ok [[NaN; NaN]; [NaN; NaN]], h') /\
    ~ (exists r, NaN = Fin r /\ 0 <= r <= 2).
Proof.
  pose proof (@band_bins_4 1 1 ltac:(lia) ltac:(lia)) as Hband.
  change (Z.max 1 1) with 1%Z in Hband. change (Z.min 1 1) with 1%Z in Hband.
  change (1 - 1 + 1)%Z with 1%Z in Hband.
  split; [exact Hband|].
  assert (H0 : fst (fk_freq flat_taper 0%nat 4 1%nat 1 2 1 1 2%nat 2%nat
                      constant_heap)
               = Ok (repeat (repeat NaN 2) 2)).
  { apply (@fk_freq_constant_traces flat_taper 0%nat 4 1%nat 1 2 1 1 2%nat
             2%nat constant_heap 2%nat 2%nat 4%nat 1%Z 1%Z 1%Z);
      try (apply constant_example_data); try (apply wf_example_rij);
      try lia; try lra; exact Hband. }
  destruct (fk_freq flat_taper 0%nat 4 1%nat 1 2 1 1 2%nat 2%nat constant_heap)
    as [res h'].
  simpl in H0. subst res. exists h'. split; [reflexivity|].
  intros [r [Hr _]]. discriminate.
Qed.

(** *** The power of the band *)

(** What [pow_mapb] accumulates.  At the frequency [ii] of the band,
    [Bot] is the sum over the stations of [|Master|**2]; every steering
    phasor is of modulus one, so it is the sum of [|fcoeff|**2] with
    [fcoeff = ft[:, ii]], the same at every slowness and azimuth. *)
Definition band_power (ft : list (list C)) (nf : nat) : R :=
  Rsum (map (fun ii => Rsum (map (fun row => Cnorm2 (nth ii row C0)) ft))
            (seq 0 nf)).

Module FkPower.

Lemma bot_cell (freq : R) (delays : list R) (fcoeff : list C) :
  length delays = length fcoeff ->
  Rsum (map Cnorm2
          (broadcast_mult (map (fun t => cis (- (2 * PI * freq * t))) delays)
             fcoeff)) =
  Rsum (map Cnorm2 fcoeff).
Proof.
  intros Hl. unfold broadcast_mult. rewrite length_map, Hl, Nat.eqb_refl.
  revert fcoeff Hl. induction delays as [|t delays IH]; intros [|z fcoeff] Hl;
    try discriminate; [reflexivity|].
  cbn [map combine fst snd]. unfold Rsum in *. cbn [fold_right].
  rewrite IH by (simpl in Hl; lia).
  rewrite Cnorm2_mult, Cnorm2_cis. ring.
Qed.

Lemma constant_matrix {A : Type} (f : A -> R) (v : R) (m n : nat)
  (T : list (list A)) :
  wf_matrix m n T ->
  (forall row, In row T -> forall x, In x row -> f x = v) ->
  map (map f) T = repeat (repeat v n) m.
Proof.
  intros [Hlen Hrows] Hf. subst m.
  induction T as [|row T IH]; [reflexivity|].
  inversion Hrows as [|? ? Hrow Hrest]; subst. cbn [map length repeat].
  rewrite IH; [|exact Hrest|intros r Hr; apply Hf; now right]. f_equal.
  assert (Hx : forall x, In x row -> f x = v) by (apply Hf; now left).
  clear - Hx. induction row as [|x row IH]; [reflexivity|].
  cbn [map length repeat]. rewrite (Hx x (or_introl eq_refl)), IH; auto.
  intros y Hy. apply Hx. now right.
Qed.

Lemma add_constant (a b : R) (m n : nat) :
  add_matrix (repeat (repeat a n) m) (repeat (repeat b n) m) =
  repeat (repeat (a + b) n) m.
Proof.
  unfold add_matrix.
  assert (Hrow : map (fun p => fst p + snd p)
                     (combine (repeat a n) (repeat b n)) = repeat (a + b) n).
  { induction n as [|k IH]; simpl; [reflexivity|]. now rewrite IH. }
  induction m as [|k IH]; simpl; [reflexivity|]. rewrite IH. now f_equal.
Qed.

(** The loop over the frequencies: [pow_mapb] ends with the power of the
    band in every cell, and [pow_mapt] is at most [n] times as much. *)
Lemma freq_loop_power (n nvel ntheta : nat) (TT : list (list (list R)))
  (ft : list (list C)) (freqrange : list R) :
  wf_matrix nvel ntheta TT ->
  Forall (Forall (fun delays => length delays = n)) TT ->
  length ft = n ->
  exists T,
    freq_loop n n nvel ntheta TT ft freqrange =
      Ok (T, repeat (repeat (band_power ft (length freqrange)) ntheta) nvel) /\
    bounded (INR n) T
      (repeat (repeat (band_power ft (length freqrange)) ntheta) nvel).
Proof.
  intros HTT Hlens Hft. unfold freq_loop, band_power, range.
  rewrite Nat.sub_0_r.
  set (F := fun ii => Rsum (map (fun row => Cnorm2 (nth ii row C0)) ft)).
  assert (Hgen : forall iis T0 v0,
             bounded (INR n) T0 (repeat (repeat v0 ntheta) nvel) ->
             exists T,
               fold_left (fun acc ii => a <- acc ;;
                            freq_step n n TT ft freqrange a ii)
                         iis (Ok (T0, repeat (repeat v0 ntheta) nvel)) =
               Ok (T, repeat (repeat (v0 + Rsum (map F iis)) ntheta) nvel) /\
               bounded (INR n) T
                 (repeat (repeat (v0 + Rsum (map F iis)) ntheta) nvel)).
  { induction iis as [|ii iis IH]; intros T0 v0 H0.
    - exists T0. unfold Rsum. cbn [map fold_right fold_left].
      rewrite Rplus_0_r. now split.
    - cbn [fold_left bind]. unfold freq_step at 2.
      assert (Hb : broadcastable n n = true).
      { unfold broadcastable. now rewrite Nat.eqb_refl. }
      rewrite Hb. cbn [fst snd].
      set (fcoeff := map (fun row => nth ii row C0) ft).
      assert (Hlf : length fcoeff = n)
        by (unfold fcoeff; now rewrite length_map).
      assert (Hbot : map (map (fun ms => Rsum (map Cnorm2 ms)))
                       (master (nth ii freqrange 0) TT fcoeff) =
                     repeat (repeat (Rsum (map Cnorm2 fcoeff)) ntheta) nvel).
      { unfold master. rewrite map_map.
        rewrite (@map_ext _ _
                   (fun row => map (fun ms => Rsum (map Cnorm2 ms))
                                 (map (fun delays => broadcast_mult
                                         (map (fun t => cis (- (2 * PI *
                                            nth ii freqrange 0 * t))) delays)
                                         fcoeff) row))
                   (map (fun delays => Rsum (map Cnorm2
                           (broadcast_mult
                              (map (fun t => cis (- (2 * PI *
                                 nth ii freqrange 0 * t))) delays) fcoeff)))))
          by (intros row; apply map_map).
        apply constant_matrix; [exact HTT|].
        intros row Hrow delays Hd. apply bot_cell.
        rewrite Forall_forall in Hlens. specialize (Hlens row Hrow).
        rewrite Forall_forall in Hlens. rewrite (Hlens delays Hd).
        now rewrite Hlf. }
      pose proof (@bounded_master n (nth ii freqrange 0) TT fcoeff Hlens Hlf)
        as Hbm.
      rewrite Hbot in Hbm. rewrite Hbot, add_constant.
      assert (HF : Rsum (map Cnorm2 fcoeff) = F ii).
      { unfold fcoeff, F. now rewrite map_map. }
      replace (v0 + Rsum (map F (ii :: iis)))
        with ((v0 + Rsum (map Cnorm2 fcoeff)) + Rsum (map F iis)).
      2:{ rewrite HF. unfold Rsum. cbn [map fold_right]. ring. }
      apply IH. rewrite <- add_constant. now apply bounded_add. }
  destruct (Hgen (seq 0 (length freqrange)) (zeros nvel ntheta) 0)
    as [T [HT HbT]].
  { apply bounded_zeros. }
  rewrite Rplus_0_l in HT, HbT. exists T. now split.
Qed.

(** The final division, with one number [E] in every cell of
    [pow_mapb]. *)
Lemma power_map_cells (c E : R) (nvel ntheta : nat) (T : list (list R)) :
  bounded c T (repeat (repeat E ntheta) nvel) ->
  wf_matrix nvel ntheta (power_map (T, repeat (repeat E ntheta) nvel)) /\
  (E = 0 ->
   Forall (Forall (fun e => e = NaN))
     (power_map (T, repeat (repeat E ntheta) nvel))) /\
  (E <> 0 ->
   Forall (Forall (fun e => exists r, e = Fin r /\ 0 <= r <= c))
     (power_map (T, repeat (repeat E ntheta) nvel))).
Proof.
  unfold power_map, bounded. cbn [fst snd].
  assert (Hrow : forall t, Forall2 (fun t b => 0 <= t <= c * b /\ 0 <= b) t
                             (repeat E ntheta) ->
            length (map (fun p => true_divide (fst p) (snd p))
                      (combine t (repeat E ntheta))) = ntheta /\
            (E = 0 -> Forall (fun e => e = NaN)
                        (map (fun p => true_divide (fst p) (snd p))
                           (combine t (repeat E ntheta)))) /\
            (E <> 0 -> Forall (fun e => exists r, e = Fin r /\ 0 <= r <= c)
                         (map (fun p => true_divide (fst p) (snd p))
                            (combine t (repeat E ntheta))))).
  { induction ntheta as [|k IH]; intros t Ht.
    - inversion Ht; subst. simpl. repeat split; constructor.
    - cbn [repeat] in Ht. inversion Ht as [|x y t' b' Hxy Ht']; subst.
      destruct (IH t' Ht') as [Hl [Hz Hnz]]. cbn [repeat combine map fst snd].
      split; [simpl; now rewrite Hl|]. split.
      + intros HE. constructor; [|now apply Hz].
        unfold true_divide. subst E.
        destruct (Req_dec_T 0 0) as [_|Hn]; [|now elim Hn].
        destruct (Req_dec_T x 0) as [_|Hx]; [reflexivity|].
        exfalso. apply Hx. lra.
      + intros HE. constructor; [|now apply Hnz].
        unfold true_divide. destruct (Req_dec_T E 0) as [Hn|_]; [contradiction|].
        eexists. split; [reflexivity|].
        assert (Hy : 0 < E) by lra.
        split.
        * apply Rmult_le_reg_r with E; [exact Hy|].
          unfold Rdiv. rewrite Rmult_assoc, Rinv_l by lra. lra.
        * apply Rmult_le_reg_r with E; [exact Hy|].
          unfold Rdiv. rewrite Rmult_assoc, Rinv_l by lra. lra. }
  revert T. induction nvel as [|k IH]; intros T HT.
  - inversion HT; subst. simpl. repeat split; constructor.
  - cbn [repeat] in HT. inversion HT as [|t b T' B' Htb HT']; subst.
    destruct (IH T' HT') as [[Hl Hrows] [Hz Hnz]].
    destruct (Hrow t Htb) as [Hlt [Hzt Hnzt]].
    cbn [repeat combine map fst snd]. split; [|split].
    + split; [simpl; now rewrite Hl|]. constructor; assumption.
    + intros HE. constructor; [now apply Hzt|now apply Hz].
    + intros HE. constructor; [now apply Hnzt|now apply Hnz].
Qed.

Section PowerMap.
Variable cosine_taper : nat -> list R.

(** The power map of a call on data of as many traces as sensors. *)
Lemma fk_freq_power (data : loc) (fs : R) (rij : loc)
  (vmin vmax fmin fmax : R) (nvel ntheta : nat) (h : heap) (d n m : nat)
  (nlow nhigh nf : Z) :
  data <> rij ->
  wf_matrix d n (h rij) -> (2 <= d)%nat ->
  wf_matrix m n (h data) -> (1 <= m)%nat ->
  vmax <> 0 -> vmin <> 0 -> fs <> 0 ->
  band_bins m fs fmin fmax = (nlow, nhigh, nf) ->
  exists ft,
    fst (trace_loop cosine_taper data m nlow nf (range 0 n) h) = Ok ft /\
    (forall pm h',
       fk_freq cosine_taper data fs rij vmin vmax fmin fmax nvel ntheta h
       = (Ok pm, h') ->
       wf_matrix nvel ntheta pm /\
       (band_power ft (Z.to_nat nf) = 0 ->
        Forall (Forall (fun e => e = NaN)) pm) /\
       (band_power ft (Z.to_nat nf) <> 0 ->
        Forall (Forall (fun e => exists r, e = Fin r /\ 0 <= r <= INR n)) pm))
    /\
    ((0 <= nf)%Z ->
     exists pm h',
       fk_freq cosine_taper data fs rij vmin vmax fmin fmax nvel ntheta h
       = (Ok pm, h')).
Proof.
  intros Hne Hrij Hd Hdata Hm Hvmax Hvmin Hfs Hband.
  exists (trace_rows cosine_taper m nlow nf (seq 0 n) (h data)).
  assert (Hloop : fst (trace_loop cosine_taper data m nlow nf (range 0 n) h) =
                  Ok (trace_rows cosine_taper m nlow nf (seq 0 n) (h data))).
  { rewrite trace_loop_run.
    - unfold range. now rewrite Nat.sub_0_r.
    - intros jj Hjj. unfold range in Hjj. rewrite in_seq in Hjj.
      rewrite (wf_matrix_shape Hdata Hm). simpl. lia. }
  split; [exact Hloop|].
  set (ft := trace_rows cosine_taper m nlow nf (seq 0 n) (h data)).
  assert (Hpos : (0 <= nf)%Z ->
            exists T,
              fk_freq cosine_taper data fs rij vmin vmax fmin fmax nvel
                ntheta h
              = (Ok (power_map
                       (T, repeat (repeat (band_power ft (Z.to_nat nf))
                                     ntheta) nvel)),
                 upd (upd h rij (recenter (h rij))) data
                     (demean_cols (seq 0 n) (h data))) /\
              bounded (INR n) T
                (repeat (repeat (band_power ft (Z.to_nat nf)) ntheta) nvel)).
  { intros Hnf.
    rewrite (@fk_freq_run_rows cosine_taper data fs rij vmin vmax fmin fmax
               nvel ntheta h d n m n nlow nhigh nf) by assumption.
    fold ft.
    destruct (@freq_loop_power n nvel ntheta
                (delays_of (recenter (h rij)) vmin vmax nvel ntheta) ft
                (Np.linspace fmin fmax (Z.to_nat nf)))
      as [T [HT HbT]].
    - apply wf_delays_of.
    - apply (@delays_lengths d n); [now apply wf_recenter|exact Hd].
    - unfold ft. now rewrite length_trace_rows, length_seq.
    - rewrite length_linspace in HT, HbT. exists T. rewrite HT. now split. }
  split.
  - intros pm h' Hrun.
    assert (Hcases : (nf < 0)%Z \/ (0 <= nf)%Z) by lia.
    destruct Hcases as [Hneg|Hnf].
    + rewrite (@fk_freq_negative_band cosine_taper data fs rij vmin vmax
                 fmin fmax nvel ntheta h d n m n nlow nhigh nf) in Hrun
        by assumption.
      discriminate.
    + destruct (Hpos Hnf) as [T [HT HbT]]. rewrite HT in Hrun.
      injection Hrun as <- _. now apply power_map_cells.
  - intros Hnf. destruct (Hpos Hnf) as [T [HT _]].
    eexists. eexists. exact HT.
Qed.

End PowerMap.

End FkPower.

Import FkPower.

(** A tone at 1 Hz on the first sensor: four samples at 4 Hz. *)
Definition tone_data : list (list R) := [[1; 0]; [0; 0]; [-1; 0]; [0; 0]].
Definition tone_heap : heap :=
  fun l => if (l =? 0)%nat then tone_data else example_rij.

Lemma py_slice_bin_1 {A : Type} (a b c : A) :
  py_slice 1 (1 + 1) [a; b; c] = [b].
Proof. reflexivity. Qed.

(** The coefficients of the band (the bin of 1 Hz) for the tone. *)
Lemma tone_rows :
  trace_rows flat_taper 4 1 1 (seq 0 2) tone_data = [[(2, 0)]; [(0, 0)]].
Proof.
  unfold tone_data. cbn [seq trace_rows].
  change (nfft_of 4) with 4%nat.
  unfold demean_col, column, demean, Np.mean, flat_taper, Np.rfft_vec.
  cbn [map nth combine fst snd set_nth repeat length Rsum fold_right
       Np.fft_vec seq Csum Nat.div Nat.divmod Nat.add firstn].
  rewrite !py_slice_bin_1.
  rewrite !cis_quarter. cbn [Nat.mul Nat.add qpow].
  unfold Cscal, Cplus, Cmult, RtoC, C0, C1. cbn [fst snd INR].
  repeat (f_equal; try field).
Qed.

Lemma tone_band_power :
  band_power [[(2, 0)]; [(0, 0)]] 1 = 4.
Proof.
  unfold band_power, Rsum, Cnorm2. cbn [seq map nth fold_right fst snd]. ring.
Qed.

(** C10 (amended).  For a call of [fk_freq] on real data of [n] sensors
    (coordinates of the same [n] sensors) that returns, with [ft] the
    coefficients of the band that the loop over the traces computes (the
    loop reads the data only): the map has [nvel] rows and [ntheta]
    columns; every entry is [nan] exactly when the power of the band, the
    number that [pow_mapb] accumulates in every cell, is zero (an empty
    band, or traces with no power in the band once their mean is removed);
    otherwise every entry is a number of [0, n].  No entry is infinite.
    The call does return whenever the band keeps a bin count
    [nf >= 0]. *)
Theorem fk_freq_power_map_bounded (cosine_taper : nat -> list R)
  (data : loc) (fs : R) (rij : loc) (vmin vmax fmin fmax : R)
  (nvel ntheta : nat) (h : heap) (d n m : nat) (nlow nhigh nf : Z) :
  data <> rij ->
  wf_matrix d n (h rij) -> (2 <= d)%nat ->
  wf_matrix m n (h data) -> (1 <= m)%nat ->
  vmax <> 0 -> vmin <> 0 -> fs <> 0 ->
  band_bins m fs fmin fmax = (nlow, nhigh, nf) ->
  exists ft,
    fst (trace_loop cosine_taper data m nlow nf (range 0 n) h) = Ok ft /\
    (forall pm h',
       fk_freq cosine_taper data fs rij vmin vmax fmin fmax nvel ntheta h
       = (Ok pm, h') ->
       wf_matrix nvel ntheta pm /\
       (band_power ft (Z.to_nat nf) = 0 ->
        Forall (Forall (fun e => e = NaN)) pm) /\
       (band_power ft (Z.to_nat nf) <> 0 ->
        Forall (Forall (fun e => exists r, e = Fin r /\ 0 <= r <= INR n)) pm))
    /\
    ((0 <= nf)%Z ->
     exists pm h',
       fk_freq cosine_taper data fs rij vmin vmax fmin fmax nvel ntheta h
       = (Ok pm, h')).
Proof.
  exact (@fk_freq_power cosine_taper data fs rij vmin vmax fmin fmax nvel
           ntheta h d n m nlow nhigh nf).
Qed.

Lemma fk_freq_power_map_bounded_witness :
  exists ft pm h',
    fst (trace_loop flat_taper 0%nat 4 1 1 (range 0 2) tone_heap) = Ok ft /\
    band_power ft 1 = 4 /\
    fk_freq flat_taper 0%nat 4 1%nat 1 2 1 1 2%nat 2%nat tone_heap
    = (Ok pm, h') /\
    wf_matrix 2 2 pm /\
    Forall (Forall (fun e => exists r, e = Fin r /\ 0 <= r <= INR 2)) pm.
Proof.
  destruct (@fk_freq_power_map_bounded flat_taper 0%nat 4 1%nat 1 2 1 1 2%nat
              2%nat tone_heap 2%nat 2%nat 4%nat 1%Z 1%Z 1%Z)
    as [ft [Hft [Hall Hex]]];
    try (apply wf_example_rij); try lia; try lra.
  - split; [reflexivity|]. repeat constructor.
  - exact example_band.
  - assert (Hrows : ft = [[(2, 0)]; [(0, 0)]]).
    { rewrite trace_loop_run in Hft.
      - cbn [fst] in Hft. injection Hft as <-. exact tone_rows.
      - intros jj Hjj. unfold range in Hjj. rewrite in_seq in Hjj.
        simpl. lia. }
    destruct Hex as [pm [h' Hrun]]; [lia|].
    destruct (Hall pm h' Hrun) as [Hwf [_ Hfin]].
    exists ft, pm, h'. split; [exact Hft|].
    change (Z.to_nat 1) with 1%nat in Hfin.
    rewrite Hrows in *. split; [exact tone_band_power|].
    split; [exact Hrun|]. split; [exact Hwf|].
    apply Hfin. rewrite tone_band_power. lra.
Defined.

(* ================================================================== *)
(** * Part III: further properties *)
(* ================================================================== *)

(** ** More on the discrete Fourier transform *)

Module FourierFacts.

Lemma matrix_ext {A : Type} (d0 : A) (m n : nat) (a b : list (list A)) :
  wf_matrix m n a -> wf_matrix m n b ->
  (forall r c, (r < m)%nat -> (c < n)%nat ->
     nth c (nth r a []) d0 = nth c (nth r b []) d0) ->
  a = b.
Proof.
  intros Ha Hb H. pose proof Ha as [Hla _]. pose proof Hb as [Hlb _].
  apply nth_ext with (d := []) (d' := []); [congruence|].
  intros r Hr. rewrite Hla in Hr.
  pose proof (wf_matrix_nth Ha Hr) as Hra.
  pose proof (wf_matrix_nth Hb Hr) as Hrb.
  apply nth_ext with (d := d0) (d' := d0); [congruence|].
  intros c Hc. rewrite Hra in Hc. now apply H.
Qed.

(** The arrays that [ft] and [ift] return with their default arguments. *)
Definition ft_matrix (N : nat) (x : list (list C)) : list (list C) :=
  map (map (Cscal (1 / INR N)))
    (Np.of_columns C0 N (map (Np.fft_vec N) (Np.columns C0 x))).

Definition ift_matrix (N : nat) (X : list (list C)) : list (list C) :=
  map (map (Cscal (INR N)))
    (Np.of_columns C0 N (map (Np.ifft_vec N) (Np.columns C0 X))).

Lemma nth_ifft_vec (n : nat) (v : list C) (j : nat) :
  (j < n)%nat ->
  nth j (Np.ifft_vec n v) C0 =
  Cscal (1 / INR n)
    (Csum (fun k => Cmult (nth k v C0)
                      (cis (2 * PI * INR j * INR k / INR n))) n).
Proof.
  intros Hj. unfold Np.ifft_vec.
  rewrite (@nth_map_lt _ _ _ _ j C0 0%nat) by (now rewrite length_seq).
  now rewrite nth_seq_lt.
Qed.

Lemma nth_column (N d : nat) (x : list (list C)) (c r : nat) :
  wf_matrix N d x -> (1 <= N)%nat -> (c < d)%nat -> (r < N)%nat ->
  nth r (nth c (Np.columns C0 x) []) C0 = nth c (nth r x []) C0.
Proof.
  intros Hwf HN Hc Hr. unfold Np.columns.
  rewrite (wf_matrix_shape Hwf HN). simpl snd.
  rewrite (@nth_map_lt _ _ _ _ c [] 0%nat) by (now rewrite length_seq).
  rewrite nth_seq_lt by lia. simpl Nat.add.
  destruct Hwf as [Hlen _].
  now rewrite (@nth_map_lt _ _ _ _ r C0 []) by lia.
Qed.

(** An entry of a transform along the columns. *)
Lemma nth_along_columns (f : list C -> list C) (N d : nat)
  (x : list (list C)) (r c : nat) :
  wf_matrix N d x -> (1 <= N)%nat -> (r < N)%nat -> (c < d)%nat ->
  nth c (nth r (Np.of_columns C0 N (map f (Np.columns C0 x))) []) C0 =
  nth r (f (nth c (Np.columns C0 x) [])) C0.
Proof.
  intros Hwf HN Hr Hc. unfold Np.of_columns.
  rewrite (@nth_map_lt _ _ _ _ r [] 0%nat) by (now rewrite length_seq).
  rewrite nth_seq_lt by lia. simpl Nat.add.
  pose proof (wf_columns C0 Hwf HN) as [Hcl _].
  rewrite (@nth_map_lt _ _ _ _ c C0 []) by (now rewrite length_map, Hcl).
  now rewrite (@nth_map_lt _ _ _ _ c [] []) by (now rewrite Hcl).
Qed.

Lemma wf_along_columns (f : list C -> list C) (N d : nat)
  (x : list (list C)) :
  wf_matrix N d x -> (1 <= N)%nat ->
  wf_matrix N d (Np.of_columns C0 N (map f (Np.columns C0 x))).
Proof.
  intros Hwf HN.
  pose proof (wf_columns C0 Hwf HN) as [Hc _].
  pose proof (wf_of_columns C0 N (map f (Np.columns C0 x))) as H.
  now rewrite length_map, Hc in H.
Qed.

Lemma wf_ft_matrix (N d : nat) (x : list (list C)) :
  wf_matrix N d x -> (1 <= N)%nat -> wf_matrix N d (ft_matrix N x).
Proof.
  intros Hwf HN. apply wf_matrix_map. now apply wf_along_columns.
Qed.

Lemma wf_ift_matrix (N d : nat) (X : list (list C)) :
  wf_matrix N d X -> (1 <= N)%nat -> wf_matrix N d (ift_matrix N X).
Proof.
  intros Hwf HN. apply wf_matrix_map. now apply wf_along_columns.
Qed.

Lemma nth_scaled (s : R) (N d : nat) (x : list (list C)) (r c : nat) :
  wf_matrix N d x -> (r < N)%nat -> (c < d)%nat ->
  nth c (nth r (map (map (Cscal s)) x) []) C0 =
  Cscal s (nth c (nth r x []) C0).
Proof.
  intros Hwf Hr Hc. pose proof Hwf as [Hlen _].
  rewrite (@nth_map_lt _ _ _ _ r [] []) by lia.
  rewrite (@nth_map_lt _ _ _ _ c C0 C0)
    by (now rewrite (wf_matrix_nth Hwf Hr)).
  reflexivity.
Qed.

Lemma ft_entry (N d : nat) (x : list (list C)) (r c : nat) :
  wf_matrix N d x -> (1 <= N)%nat -> (r < N)%nat -> (c < d)%nat ->
  nth c (nth r (ft_matrix N x) []) C0 =
  Cscal (1 / INR N)
    (Csum (fun j => Cmult (nth c (nth j x []) C0)
                      (cis (- (2 * PI * INR j * INR r / INR N)))) N).
Proof.
  intros Hwf HN Hr Hc. unfold ft_matrix.
  rewrite (@nth_scaled _ N d) by (try assumption; now apply wf_along_columns).
  f_equal. rewrite (@nth_along_columns _ N d) by assumption.
  rewrite nth_fft_vec by exact Hr. apply Csum_ext. intros j Hj.
  now rewrite (@nth_column N d) by assumption.
Qed.

Lemma ift_entry (N d : nat) (X : list (list C)) (r c : nat) :
  wf_matrix N d X -> (1 <= N)%nat -> (r < N)%nat -> (c < d)%nat ->
  nth c (nth r (ift_matrix N X) []) C0 =
  Csum (fun k => Cmult (nth c (nth k X []) C0)
                   (cis (2 * PI * INR r * INR k / INR N))) N.
Proof.
  intros Hwf HN Hr Hc. unfold ift_matrix.
  rewrite (@nth_scaled _ N d) by (try assumption; now apply wf_along_columns).
  rewrite (@nth_along_columns _ N d) by assumption.
  rewrite nth_ifft_vec by exact Hr. rewrite Cscal_Cscal.
  assert (HNr : 0 < INR N) by (apply lt_0_INR; lia).
  replace (INR N * (1 / INR N)) with 1 by (field; lra). rewrite Cscal_1.
  apply Csum_ext. intros k Hk.
  now rewrite (@nth_column N d) by assumption.
Qed.

(** The transform of the inverse transform. *)
Lemma ft_ift_matrix (N d : nat) (X : list (list C)) :
  wf_matrix N d X -> (1 <= N)%nat -> ft_matrix N (ift_matrix N X) = X.
Proof.
  intros Hwf HN.
  assert (HNr : 0 < INR N) by (apply lt_0_INR; lia).
  pose proof (wf_ift_matrix Hwf HN) as Hwi.
  apply (@matrix_ext _ C0 N d); [now apply wf_ft_matrix|exact Hwf|].
  intros r c Hr Hc. rewrite (@ft_entry N d) by assumption.
  rewrite (@Csum_ext _
     (fun j => Csum (fun l => Cmult (nth c (nth l X []) C0)
                 (Cmult (cis (- (2 * PI * INR r * INR j / INR N)))
                        (cis (2 * PI * INR l * INR j / INR N)))) N)).
  2:{ intros j Hj. rewrite (@ift_entry N d) by assumption.
      rewrite <- Csum_mult_r. apply Csum_ext. intros l _.
      rewrite <- Cmult_assoc. f_equal. rewrite Cmult_comm. f_equal.
      - f_equal. f_equal. field. lra.
      - f_equal. field. lra. }
  rewrite Csum_swap.
  rewrite (@Csum_ext _
     (fun l => Cmult (nth c (nth l X []) C0)
                 (if (l =? r)%nat then RtoC (INR N) else C0))).
  2:{ intros l Hl. rewrite Csum_mult_l. f_equal.
      now apply Csum_roots_of_unity. }
  rewrite (@Csum_single _ N r Hr).
  - rewrite Nat.eqb_refl. destruct (nth c (nth r X []) C0) as [a b]. cx.
    f_equal; field; lra.
  - intros k _ Hne. destruct (Nat.eqb_spec k r); [congruence|].
    apply Cmult_0_r.
Qed.

Lemma ift_ft_matrix (N d : nat) (x : list (list C)) :
  wf_matrix N d x -> (1 <= N)%nat -> ift_matrix N (ft_matrix N x) = x.
Proof. intros Hwf HN. now apply (@ifft_ft_columns N d). Qed.


(** *** Conjugate symmetry *)

Lemma Cconj_mult (a b : C) : Cconj (Cmult a b) = Cmult (Cconj a) (Cconj b).
Proof. cx_eq. Qed.

Lemma Cconj_plus (a b : C) : Cconj (Cplus a b) = Cplus (Cconj a) (Cconj b).
Proof. cx_eq. Qed.

Lemma Cconj_scal (r : R) (a : C) : Cconj (Cscal r a) = Cscal r (Cconj a).
Proof. cx_eq. Qed.

Lemma Cconj_conj (a : C) : Cconj (Cconj a) = a.
Proof. destruct a. cx_eq. Qed.

Lemma Cconj_real (a : C) : Im a = 0 -> Cconj a = a.
Proof. destruct a as [x y]. cx. intros ->. f_equal. ring. Qed.

Lemma Cconj_fixed (a : C) : Cconj a = a -> Im a = 0.
Proof.
  destruct a as [x y]. cx. intros E. assert (E1 := f_equal snd E).
  simpl in E1. lra.
Qed.

Lemma Csum_conj (f : nat -> C) (n : nat) :
  Csum (fun k => Cconj (f k)) n = Cconj (Csum f n).
Proof.
  induction n as [|n IH]; simpl; [cx_eq|]. rewrite IH. cx_eq.
Qed.

Lemma cis_period (t : R) (k : nat) : cis (t + 2 * INR k * PI) = cis t.
Proof. rewrite cis_plus, cis_2PI_nat. apply Cmult_1_r. Qed.

(** The phase at the mirrored bin [(N - k) % N]. *)
Lemma cis_mirror (N j k : nat) :
  (k < N)%nat ->
  cis (- (2 * PI * INR j * INR ((N - k) mod N) / INR N)) =
  cis (2 * PI * INR j * INR k / INR N).
Proof.
  intros Hk. assert (HN : 0 < INR N) by (apply lt_0_INR; lia).
  destruct k as [|k].
  - rewrite Nat.sub_0_r, Nat.Div0.mod_same. simpl INR. f_equal.
    unfold Rdiv. ring.
  - rewrite Nat.mod_small by lia. rewrite minus_INR by lia.
    rewrite <- (cis_period (- _) j). f_equal. field. lra.
Qed.

Lemma Csum_shift (f : nat -> C) (n : nat) :
  Csum f (S n) = Cplus (f 0%nat) (Csum (fun k => f (S k)) n).
Proof.
  induction n as [|n IH]; [simpl; cx_eq|].
  change (Csum f (S (S n))) with (Cplus (Csum f (S n)) (f (S n))).
  rewrite IH. cbn [Csum]. now rewrite Cplus_assoc.
Qed.

Lemma Csum_rev (f : nat -> C) (n : nat) :
  Csum (fun k => f (n - 1 - k)%nat) n = Csum f n.
Proof.
  revert f. induction n as [|n IH]; intros f; [reflexivity|].
  rewrite (Csum_shift f). cbn [Csum].
  replace (S n - 1 - n)%nat with 0%nat by lia. rewrite Cplus_comm. f_equal.
  rewrite <- (IH (fun k => f (S k))). apply Csum_ext. intros k Hk.
  f_equal. lia.
Qed.

(** A sum over the bins is a sum over the mirrored bins. *)
Lemma Csum_mirror (f : nat -> C) (N : nat) :
  Csum (fun k => f ((N - k) mod N)%nat) N = Csum f N.
Proof.
  destruct N as [|n]; [reflexivity|].
  rewrite !Csum_shift. rewrite Nat.sub_0_r, Nat.Div0.mod_same. f_equal.
  rewrite <- (Csum_rev (fun k => f (S k))). apply Csum_ext. intros k Hk.
  rewrite Nat.mod_small by lia. f_equal. lia.
Qed.

Lemma mirror_involutive (N k : nat) :
  (k < N)%nat -> ((N - (N - k) mod N) mod N = k)%nat.
Proof.
  intros Hk. destruct k as [|k].
  - now rewrite Nat.sub_0_r, Nat.Div0.mod_same, Nat.sub_0_r, Nat.Div0.mod_same.
  - rewrite (Nat.mod_small (N - S k)) by lia.
    rewrite Nat.mod_small by lia. lia.
Qed.

Lemma mirror_lt (N k : nat) : (k < N)%nat -> ((N - k) mod N < N)%nat.
Proof. intros Hk. apply Nat.mod_upper_bound. lia. Qed.

(** [X[(N-k) % N] = conj(X[k])] in every column: the spectrum of a real
    series. *)
Definition hermitian (N d : nat) (X : list (list C)) : Prop :=
  forall k c, (k < N)%nat -> (c < d)%nat ->
    nth c (nth ((N - k) mod N) X []) C0 = Cconj (nth c (nth k X []) C0).

Definition real_entries (N d : nat) (x : list (list C)) : Prop :=
  forall r c, (r < N)%nat -> (c < d)%nat -> Im (nth c (nth r x []) C0) = 0.

Lemma real_entries_RtoC (N d : nat) (x : list (list R)) :
  wf_matrix N d x -> real_entries N d (map (map RtoC) x).
Proof.
  intros Hwf r c Hr Hc. pose proof Hwf as [Hlen _].
  rewrite (@nth_map_lt _ _ _ _ r [] []) by lia.
  rewrite (@nth_map_lt _ _ _ _ c C0 0)
    by (now rewrite (wf_matrix_nth Hwf Hr)).
  reflexivity.
Qed.

(** The transform of a real array is conjugate symmetric. *)
Lemma ft_real_hermitian (N d : nat) (x : list (list C)) :
  wf_matrix N d x -> (1 <= N)%nat -> real_entries N d x ->
  hermitian N d (ft_matrix N x).
Proof.
  intros Hwf HN Hreal k c Hk Hc.
  rewrite !(@ft_entry N d) by (try assumption; now apply mirror_lt).
  rewrite Cconj_scal. f_equal. rewrite <- Csum_conj.
  apply Csum_ext. intros j Hj. rewrite Cconj_mult.
  rewrite (Cconj_real _ (Hreal j c Hj Hc)). f_equal.
  rewrite (cis_mirror j Hk). rewrite <- cis_neg. now rewrite Ropp_involutive.
Qed.

(** The inverse transform of a conjugate-symmetric array is real. *)
Lemma ift_hermitian_real (N d : nat) (X : list (list C)) :
  wf_matrix N d X -> (1 <= N)%nat -> hermitian N d X ->
  real_entries N d (ift_matrix N X).
Proof.
  intros Hwf HN Hh r c Hr Hc. apply Cconj_fixed.
  rewrite (@ift_entry N d) by assumption.
  rewrite <- Csum_conj.
  rewrite <- (Csum_mirror
                (fun k => Cmult (nth c (nth k X []) C0)
                            (cis (2 * PI * INR r * INR k / INR N))) N).
  apply Csum_ext. intros k Hk. rewrite Cconj_mult.
  rewrite (Hh k c Hk Hc). f_equal.
  pose proof (cis_mirror r Hk) as Hm. apply (f_equal Cconj) in Hm.
  rewrite <- !cis_neg in Hm. rewrite Ropp_involutive in Hm.
  rewrite Hm. now rewrite cis_neg.
Qed.

Lemma real_entries_eq (N d : nat) (x : list (list C)) :
  wf_matrix N d x -> real_entries N d x ->
  map (map RtoC) (map (map Re) x) = x.
Proof.
  intros Hwf Hreal.
  apply (@matrix_ext _ C0 N d); [|exact Hwf|].
  - apply wf_matrix_map. now apply wf_matrix_map.
  - intros r c Hr Hc. pose proof Hwf as [Hlen _].
    pose proof (wf_matrix_nth Hwf Hr) as Hrow.
    rewrite map_map.
    rewrite (@nth_map_lt _ _ _ _ r [] []) by lia.
    rewrite map_map.
    rewrite (@nth_map_lt _ _ _ _ c C0 C0) by lia.
    specialize (Hreal r c Hr Hc).
    destruct (nth c (nth r x []) C0) as [a b]. cx. now subst.
Qed.

End FourierFacts.

Import FourierFacts.

Lemma ft_matrix_default (N d : nat) (x : list (list C)) :
  wf_matrix N d x -> (1 <= N)%nat ->
  ft x None 0 = Ok (Finite (ft_matrix N x)).
Proof. intros Hwf HN. exact (ft_default Hwf HN). Qed.

Lemma ift_matrix_default (N d : nat) (X : list (list C)) (allowComplex : bool) :
  wf_matrix N d X -> (1 <= N)%nat ->
  ift X None 0 allowComplex =
  Ok (if allowComplex then Complex128 (ift_matrix N X)
      else Float64 (map (map Re) (ift_matrix N X))).
Proof.
  intros Hwf HN. unfold ift, Np.ifft, Np.fft_axis. rewrite normalize_axis_0. simpl bind.
  rewrite (fft_points_default Hwf HN). simpl.
  destruct Hwf as [Hlen _]. rewrite Hlen. now destruct allowComplex.
Qed.

(** X1. [ft] and [ift] undo each other.  For a complex array [X] with at
    least one row, the transform [ft] of [ift(X, allowComplex=True)] is
    [X], and the inverse transform of [ft(X)] is [X] again with
    [allowComplex=True]; with the default [allowComplex=False] it is the
    real part of [X], the imaginary part being dropped without a
    warning. *)
Theorem ft_ift_inverse (N d : nat) (X : list (list C)) :
  wf_matrix N d X -> (1 <= N)%nat ->
  (exists x,
     ift X None 0 true = Ok (Complex128 x) /\
     wf_matrix N d x /\
     ft x None 0 = Ok (Finite X)) /\
  (exists Y,
     ft X None 0 = Ok (Finite Y) /\
     ift Y None 0 true = Ok (Complex128 X) /\
     ift Y None 0 false = Ok (Float64 (map (map Re) X))).
Proof.
  intros Hwf HN. split.
  - exists (ift_matrix N X).
    pose proof (wf_ift_matrix Hwf HN) as Hwi.
    split; [exact (ift_matrix_default true Hwf HN)|]. split; [exact Hwi|].
    rewrite (ft_matrix_default Hwi HN). now rewrite (ft_ift_matrix Hwf HN).
  - exists (ft_matrix N X).
    pose proof (wf_ft_matrix Hwf HN) as Hwx.
    split; [exact (ft_matrix_default Hwf HN)|].
    rewrite !(ift_matrix_default _ Hwx HN).
    now rewrite (ift_ft_matrix Hwf HN).
Qed.

Lemma ft_ift_inverse_witness :
  (exists x,
     ift [[(1, 2)]; [(0, -1)]; [(3, 0)]] None 0 true = Ok (Complex128 x) /\
     wf_matrix 3 1 x /\
     ft x None 0 = Ok (Finite [[(1, 2)]; [(0, -1)]; [(3, 0)]])) /\
  (exists Y,
     ft [[(1, 2)]; [(0, -1)]; [(3, 0)]] None 0 = Ok (Finite Y) /\
     ift Y None 0 true = Ok (Complex128 [[(1, 2)]; [(0, -1)]; [(3, 0)]]) /\
     ift Y None 0 false =
       Ok (Float64 (map (map Re) [[(1, 2)]; [(0, -1)]; [(3, 0)]]))).
Proof.
  apply (@ft_ift_inverse 3 1 [[(1, 2)]; [(0, -1)]; [(3, 0)]]).
  - split; [reflexivity|]. repeat constructor.
  - lia.
Defined.

(** X2. The transform of a real series is conjugate symmetric: for a real
    [N] by [d] array, [ft(x)[(N-k) % N, c] = conj(ft(x)[k, c])]; so
    the bins [0 .. N//2] hold the whole spectrum, and forcing a real output
    in [ift] loses nothing of such a spectrum. *)
Theorem ft_real_conjugate_symmetric (N d : nat) (x : list (list R)) :
  wf_matrix N d x -> (1 <= N)%nat ->
  exists X,
    ft (map (map RtoC) x) None 0 = Ok (Finite X) /\
    wf_matrix N d X /\
    (forall k c, (k < N)%nat -> (c < d)%nat ->
       nth c (nth ((N - k) mod N) X []) C0 = Cconj (nth c (nth k X []) C0)) /\
    ift X None 0 true = Ok (Complex128 (map (map RtoC) x)).
Proof.
  intros Hwf HN. pose proof (wf_matrix_map RtoC Hwf) as Hwc.
  exists (ft_matrix N (map (map RtoC) x)).
  pose proof (wf_ft_matrix Hwc HN) as Hwx.
  split; [exact (ft_matrix_default Hwc HN)|]. split; [exact Hwx|]. split.
  - apply ft_real_hermitian; try assumption. now apply real_entries_RtoC.
  - rewrite (ift_matrix_default true Hwx HN).
    now rewrite (ift_ft_matrix Hwc HN).
Qed.

Lemma ft_real_conjugate_symmetric_witness :
  exists X,
    ft (map (map RtoC) [[1; 2]; [3; 4]; [5; 6]]) None 0 = Ok (Finite X) /\
    wf_matrix 3 2 X /\
    (forall k c, (k < 3)%nat -> (c < 2)%nat ->
       nth c (nth ((3 - k) mod 3) X []) C0 = Cconj (nth c (nth k X []) C0)) /\
    ift X None 0 true = Ok (Complex128 (map (map RtoC) [[1; 2]; [3; 4]; [5; 6]])).
Proof.
  apply (@ft_real_conjugate_symmetric 3 2 [[1; 2]; [3; 4]; [5; 6]]).
  - split; [reflexivity|]. repeat constructor.
  - lia.
Defined.

(** X3. The inverse transform of a conjugate-symmetric spectrum is real:
    when [X[(N-k) % N, c] = conj(X[k, c])] for all bins, the complex
    array [ift(X, allowComplex=True)] has no imaginary part, and it is
    the array that [ift(X)] returns. *)
Theorem ift_conjugate_symmetric_is_real (N d : nat) (X : list (list C)) :
  wf_matrix N d X -> (1 <= N)%nat ->
  (forall k c, (k < N)%nat -> (c < d)%nat ->
     nth c (nth ((N - k) mod N) X []) C0 = Cconj (nth c (nth k X []) C0)) ->
  exists x,
    ift X None 0 false = Ok (Float64 x) /\
    wf_matrix N d x /\
    ift X None 0 true = Ok (Complex128 (map (map RtoC) x)) /\
    ft (map (map RtoC) x) None 0 = Ok (Finite X).
Proof.
  intros Hwf HN Hh. exists (map (map Re) (ift_matrix N X)).
  pose proof (wf_ift_matrix Hwf HN) as Hwi.
  pose proof (real_entries_eq Hwi (ift_hermitian_real Hwf HN Hh)) as Hre.
  split; [exact (ift_matrix_default false Hwf HN)|].
  split; [now apply wf_matrix_map|]. rewrite Hre.
  split; [exact (ift_matrix_default true Hwf HN)|].
  rewrite (ft_matrix_default Hwi HN). now rewrite (ft_ift_matrix Hwf HN).
Qed.

Lemma ift_conjugate_symmetric_is_real_witness :
  exists x,
    ift [[(1, 0)]; [(2, 3)]; [(2, -3)]] None 0 false = Ok (Float64 x) /\
    wf_matrix 3 1 x /\
    ift [[(1, 0)]; [(2, 3)]; [(2, -3)]] None 0 true
    = Ok (Complex128 (map (map RtoC) x)) /\
    ft (map (map RtoC) x) None 0
    = Ok (Finite [[(1, 0)]; [(2, 3)]; [(2, -3)]]).
Proof.
  apply (@ift_conjugate_symmetric_is_real 3 1 [[(1, 0)]; [(2, 3)]; [(2, -3)]]).
  - split; [reflexivity|]. repeat constructor.
  - lia.
  - intros k c Hk Hc. assert (c = 0%nat) by lia. subst c.
    destruct k as [|[|[|k]]]; try lia; simpl; unfold Cconj, C0; simpl;
      f_equal; lra.
Defined.

(** X4. [ft] is linear: the transform of [a*x + y] is [a] times the
    transform of [x] plus the transform of [y], entry by entry. *)
Theorem ft_linear (N d : nat) (a : C) (x y z : list (list C)) :
  wf_matrix N d x -> wf_matrix N d y -> wf_matrix N d z -> (1 <= N)%nat ->
  (forall r c, (r < N)%nat -> (c < d)%nat ->
     nth c (nth r z []) C0 =
     Cplus (Cmult a (nth c (nth r x []) C0)) (nth c (nth r y []) C0)) ->
  exists X Y Z,
    ft x None 0 = Ok (Finite X) /\
    ft y None 0 = Ok (Finite Y) /\
    ft z None 0 = Ok (Finite Z) /\
    forall r c, (r < N)%nat -> (c < d)%nat ->
      nth c (nth r Z []) C0 =
      Cplus (Cmult a (nth c (nth r X []) C0)) (nth c (nth r Y []) C0).
Proof.
  intros Hx Hy Hz HN Hlin.
  exists (ft_matrix N x), (ft_matrix N y), (ft_matrix N z).
  split; [exact (ft_matrix_default Hx HN)|].
  split; [exact (ft_matrix_default Hy HN)|].
  split; [exact (ft_matrix_default Hz HN)|].
  intros r c Hr Hc. rewrite !(@ft_entry N d) by assumption.
  rewrite (@Csum_ext _
     (fun j => Cplus
        (Cmult a (Cmult (nth c (nth j x []) C0)
                    (cis (- (2 * PI * INR j * INR r / INR N)))))
        (Cmult (nth c (nth j y []) C0)
           (cis (- (2 * PI * INR j * INR r / INR N)))))).
  2:{ intros j Hj. rewrite (Hlin j c Hj Hc).
      rewrite Cmult_plus_distr_r. now rewrite Cmult_assoc. }
  rewrite Csum_plus, Csum_mult_l, Cscal_plus. f_equal.
  rewrite !Cscal_as_mult. rewrite !Cmult_assoc. f_equal. apply Cmult_comm.
Qed.

Lemma ft_linear_witness :
  exists X Y Z,
    ft [[(1, 0)]; [(0, 1)]] None 0 = Ok (Finite X) /\
    ft [[(2, 0)]; [(1, 0)]] None 0 = Ok (Finite Y) /\
    ft [[(2, 1)]; [(0, 0)]] None 0 = Ok (Finite Z) /\
    forall r c, (r < 2)%nat -> (c < 1)%nat ->
      nth c (nth r Z []) C0 =
      Cplus (Cmult (0, 1) (nth c (nth r X []) C0)) (nth c (nth r Y []) C0).
Proof.
  apply (@ft_linear 2 1 (0, 1) [[(1, 0)]; [(0, 1)]] [[(2, 0)]; [(1, 0)]]
           [[(2, 1)]; [(0, 0)]]);
    try (split; [reflexivity|repeat constructor]); try lia.
  intros r c Hr Hc. assert (c = 0%nat) by lia. subst c.
  destruct r as [|[|r]]; try lia; simpl; unfold Cplus, Cmult, C0; simpl;
    f_equal; lra.
Defined.

Lemma fft_vec_firstn (k : nat) (v : list C) :
  Np.fft_vec k (firstn k v) = Np.fft_vec k v.
Proof.
  unfold Np.fft_vec. apply map_ext. intros r. apply Csum_ext. intros j Hj.
  rewrite nth_firstn. destruct (Nat.ltb_spec j k); [reflexivity|lia].
Qed.

Lemma columns_firstn (k : nat) (x : list (list C)) :
  (1 <= k)%nat ->
  Np.columns C0 (firstn k x) = map (firstn k) (Np.columns C0 x).
Proof.
  intros Hk. unfold Np.columns.
  assert (Hs : snd (shape (firstn k x)) = snd (shape x)).
  { destruct k; [lia|]. now destruct x. }
  rewrite Hs, map_map. apply map_ext. intros c. now rewrite firstn_map.
Qed.

(** X5. Cropping: with [1 <= n <= N] the call [ft(x, n)] transforms the
    first [n] samples but still divides by the [N] samples of [x], so it
    returns [n/N] times the transform [ft(x[:n])] of the cropped
    series. *)
Theorem ft_cropped (N d k : nat) (x : list (list C)) :
  wf_matrix N d x -> (1 <= k <= N)%nat ->
  exists X Y,
    ft x (Some (Z.of_nat k)) 0 = Ok (Finite X) /\
    ft (firstn k x) None 0 = Ok (Finite Y) /\
    X = map (map (Cscal (INR k / INR N))) Y.
Proof.
  intros Hwf Hk.
  assert (Hwk : wf_matrix k d (firstn k x)).
  { destruct Hwf as [Hlen Hrows]. split.
    - rewrite length_firstn. lia.
    - rewrite Forall_forall in *. intros row Hrow. apply Hrows.
      rewrite <- (firstn_skipn k x). apply in_or_app. now left. }
  eexists. exists (ft_matrix k (firstn k x)).
  split; [|split; [exact (ft_matrix_default Hwk (proj1 Hk))|]].
  - unfold ft, Np.fft, Np.fft_axis. rewrite normalize_axis_0. cbn [bind].
    unfold Np.fft_points.
    destruct (Z.ltb_spec (Z.of_nat k) 1); [lia|]. cbn [bind].
    rewrite Nat2Z.id. cbn [Np.along_axis Np.shape_at].
    destruct Hwf as [Hlen _]. unfold shape. cbn [fst]. rewrite Hlen.
    rewrite divide_by_pos by lia. reflexivity.
  - unfold ft_matrix. rewrite columns_firstn by lia.
    rewrite (map_map (firstn k) (Np.fft_vec k)).
    rewrite (@map_ext _ _ (fun v => Np.fft_vec k (firstn k v)) (Np.fft_vec k))
      by (intros v; apply fft_vec_firstn).
    rewrite map_map. apply map_ext. intros row. rewrite map_map.
    apply map_ext. intros z. rewrite Cscal_Cscal. f_equal.
    assert (0 < INR k) by (apply lt_0_INR; lia).
    assert (0 < INR N) by (apply lt_0_INR; lia).
    field. lra.
Qed.

Lemma ft_cropped_witness :
  exists X Y,
    ft [[(1, 0)]; [(2, 0)]; [(5, 0)]] (Some (Z.of_nat 2)) 0 = Ok (Finite X) /\
    ft (firstn 2 [[(1, 0)]; [(2, 0)]; [(5, 0)]]) None 0 = Ok (Finite Y) /\
    X = map (map (Cscal (INR 2 / INR 3))) Y.
Proof.
  apply (@ft_cropped 3 1 2 [[(1, 0)]; [(2, 0)]; [(5, 0)]]).
  - split; [reflexivity|]. repeat constructor.
  - lia.
Defined.

(** ** [bpf]: a band inside [0, 1] *)

Module BpfMore.

Lemma round_bounds (r : R) : r - 1 / 2 <= IZR (Np.round r) <= r + 1 / 2.
Proof.
  unfold Np.round. pose proof (Zfloor_bound r) as Hf.
  destruct (Rlt_dec (r - IZR (Zfloor r)) (1 / 2)); [lra|].
  destruct (Rlt_dec (1 / 2) (r - IZR (Zfloor r))); [rewrite plus_IZR; lra|].
  destruct (Z.even (Zfloor r)); [lra|rewrite plus_IZR; lra].
Qed.

Lemma round_le (r s : R) : r <= s -> (Np.round r <= Np.round s)%Z.
Proof.
  intros H. destruct (Req_dec_T r s) as [->|Hne]; [lia|].
  pose proof (round_bounds r) as Hr. pose proof (round_bounds s) as Hs.
  assert (Hlt : IZR (Np.round r) < IZR (Np.round s + 1)).
  { rewrite plus_IZR. lra. }
  apply lt_IZR in Hlt. lia.
Qed.

(** The bin of a corner frequency given as a fraction of the Nyquist
    frequency. *)
Definition bpf_bin (N : nat) (f : R) : Z :=
  Np.round (f * (if (N mod 2 =? 1)%nat then INR N - 1 else INR N) / 2).

(** The bins that [bpf] keeps: the band and its mirror image. *)
Definition in_band (N : nat) (b0 b1 : Z) (k : nat) : bool :=
  ((b0 <=? Z.of_nat k) && (Z.of_nat k <=? b1)
   || (Z.of_nat N - b1 <=? Z.of_nat k) && (Z.of_nat k <=? Z.of_nat N - b0))%Z.

Lemma bpf_corners_bins (N : nat) (band : R * R) :
  bpf_corners N band =
  (bpf_bin N (Rmin (fst band) (snd band)),
   bpf_bin N (Rmax (fst band) (snd band)),
   (Z.of_nat N - bpf_bin N (Rmax (fst band) (snd band)))%Z,
   (Z.of_nat N - bpf_bin N (Rmin (fst band) (snd band)))%Z).
Proof.
  unfold bpf_corners, bpf_bin.
  destruct (parity_cases N) as [[HN [Hm Hh]]|[HN [Hm Hh]]]; rewrite Hm;
    simpl Nat.eqb; cbv iota zeta.
  - replace ((Z.of_nat N + 1) / 2)%Z with (Z.of_nat (N / 2) + 1)%Z
      by (apply Z.div_unique with (r := 0%Z); lia).
    repeat match goal with |- (_, _) = (_, _) => f_equal end; lia.
  - replace (Z.of_nat N / 2)%Z with (Z.of_nat (N / 2))
      by (apply Z.div_unique with (r := 0%Z); lia).
    repeat match goal with |- (_, _) = (_, _) => f_equal end; lia.
Qed.

Lemma bpf_mask_bins (N : nat) (band : R * R) (i : Z) :
  In i (bpf_mask N band) <->
  (0 <= i < bpf_bin N (Rmin (fst band) (snd band)))%Z \/
  (bpf_bin N (Rmax (fst band) (snd band)) < i
   < Z.of_nat N - bpf_bin N (Rmax (fst band) (snd band)))%Z \/
  (Z.of_nat N - bpf_bin N (Rmin (fst band) (snd band)) < i < Z.of_nat N)%Z.
Proof.
  unfold bpf_mask. rewrite bpf_corners_bins.
  rewrite !in_app_iff, !in_rangeZ. lia.
Qed.

Lemma bpf_bin_le (N : nat) (f g : R) :
  f <= g -> (bpf_bin N f <= bpf_bin N g)%Z.
Proof.
  intros H. unfold bpf_bin. apply round_le.
  assert (HM : 0 <= (if (N mod 2 =? 1)%nat then INR N - 1 else INR N)).
  { destruct (Nat.eqb_spec (N mod 2) 1) as [E|E].
    - assert (1 <= N)%nat by (destruct N; [discriminate|lia]).
      apply (le_INR 1) in H0. simpl in H0. lra.
    - apply pos_INR. }
  nra.
Qed.

Lemma bpf_bin_0 (N : nat) : bpf_bin N 0 = 0%Z.
Proof.
  unfold bpf_bin.
  replace (0 * _ / 2) with (IZR 0) by (unfold Rdiv; ring). apply round_IZR.
Qed.

Lemma bpf_bin_1 (N : nat) : bpf_bin N 1 = Z.of_nat (N / 2).
Proof.
  unfold bpf_bin.
  destruct (parity_cases N) as [[HN [Hm Hh]]|[HN [Hm Hh]]]; rewrite Hm;
    simpl Nat.eqb; cbv iota.
  - replace (1 * (INR N - 1) / 2) with (IZR (Z.of_nat (N / 2)));
      [apply round_IZR|].
    rewrite <- INR_IZR_INZ. rewrite HN at 2.
    rewrite plus_INR, mult_INR. simpl INR. field.
  - replace (1 * INR N / 2) with (IZR (Z.of_nat (N / 2)));
      [apply round_IZR|].
    rewrite <- INR_IZR_INZ. rewrite HN at 2.
    rewrite mult_INR. simpl INR. field.
Qed.

Lemma in_band_mirror (N : nat) (b0 b1 : Z) (k : nat) :
  (k < N)%nat -> in_band N b0 b1 ((N - k) mod N) = in_band N b0 b1 k.
Proof.
  intros Hk. destruct k as [|k].
  - now rewrite Nat.sub_0_r, Nat.Div0.mod_same.
  - rewrite Nat.mod_small by lia. unfold in_band.
    apply Bool.eq_iff_eq_true.
    rewrite !orb_true_iff, !andb_true_iff, !Z.leb_le. lia.
Qed.

Lemma zero_row (d : nat) (row : list C) :
  length row = d -> map (fun _ => C0) row = repeat C0 d.
Proof. intros <-. apply map_const. Qed.

Lemma nth_zero_row (d c : nat) : nth c (repeat C0 d) C0 = C0.
Proof. apply nth_repeat. Qed.

(** What [bpf] returns for a band inside [0, 1]. *)
Lemma bpf_general (N d : nat) (x : list (list R)) (band : R * R) :
  wf_matrix N d x -> (1 <= N)%nat ->
  0 <= Rmin (fst band) (snd band) -> Rmax (fst band) (snd band) <= 1 ->
  exists x_bpf X_bpf,
    bpf x band = Ok (x_bpf, X_bpf) /\
    (0 <= bpf_bin N (Rmin (fst band) (snd band))
     <= bpf_bin N (Rmax (fst band) (snd band)))%Z /\
    (bpf_bin N (Rmax (fst band) (snd band)) <= Z.of_nat (N / 2))%Z /\
    wf_matrix N d x_bpf /\ wf_matrix N d X_bpf /\
    (forall k, (k < N)%nat ->
       nth k X_bpf [] =
       if in_band N (bpf_bin N (Rmin (fst band) (snd band)))
            (bpf_bin N (Rmax (fst band) (snd band))) k
       then nth k (ft_matrix N (map (map RtoC) x)) []
       else repeat C0 d) /\
    hermitian N d X_bpf /\
    ift X_bpf None 0 true = Ok (Complex128 (map (map RtoC) x_bpf)) /\
    ft (map (map RtoC) x_bpf) None 0 = Ok (Finite X_bpf) /\
    bpf x_bpf band = Ok (x_bpf, X_bpf).
Proof.
  intros Hwf HN Hlo Hhi.
  set (lo := Rmin (fst band) (snd band)) in *.
  set (hi := Rmax (fst band) (snd band)) in *.
  assert (Hlohi : lo <= hi).
  { unfold lo, hi. apply Rle_trans with (fst band);
      [apply Rmin_l|apply Rmax_l]. }
  pose proof (bpf_bin_le N Hlo) as H0. rewrite bpf_bin_0 in H0.
  pose proof (bpf_bin_le N Hlohi) as H01.
  pose proof (bpf_bin_le N Hhi) as H1. rewrite bpf_bin_1 in H1.
  set (b0 := bpf_bin N lo) in *. set (b1 := bpf_bin N hi) in *.
  assert (Hhalf : (2 * Z.of_nat (N / 2) <= Z.of_nat N)%Z).
  { pose proof (parity_cases N). lia. }
  pose proof (wf_matrix_map RtoC Hwf) as Hwc.
  pose proof (ft_matrix_default Hwc HN) as Hft.
  pose proof (wf_ft_matrix Hwc HN) as HwX.
  set (X := ft_matrix N (map (map RtoC) x)) in *.
  pose proof HwX as [HlenX _].
  assert (Hmask : forall i, In i (bpf_mask N band) ->
            (0 <= i < Z.of_nat N)%Z).
  { intros i Hi. apply bpf_mask_bins in Hi. fold lo hi b0 b1 in Hi. lia. }
  assert (Hmask_k : forall k, (k < N)%nat ->
            (In (Z.of_nat k) (bpf_mask N band) <-> in_band N b0 b1 k = false)).
  { intros k Hk. rewrite bpf_mask_bins. fold lo hi b0 b1.
    rewrite <- Bool.not_true_iff_false. unfold in_band.
    rewrite !orb_true_iff, !andb_true_iff, !Z.leb_le. lia. }
  (* zeroing the rows of an array whose masked rows may be zero already *)
  assert (Hset : forall Y, wf_matrix N d Y ->
            exists Y',
              Np.set_rows_zero Y (bpf_mask N band) = Ok Y' /\
              wf_matrix N d Y' /\
              forall k, (k < N)%nat ->
                nth k Y' [] =
                if in_band N b0 b1 k then nth k Y [] else repeat C0 d).
  { intros Y HwY. pose proof HwY as [HlenY _].
    destruct (@set_rows_zero_spec Y (bpf_mask N band))
      as [Y' [HY' [Hlen Hrows]]].
    { intros i Hi. rewrite HlenY. now apply Hmask. }
    rewrite HlenY in *.
    assert (Hk : forall k, (k < N)%nat ->
               nth k Y' [] =
               if in_band N b0 b1 k then nth k Y [] else repeat C0 d).
    { intros k Hk. destruct (Hrows k Hk) as [Hz Hkeep].
      destruct (in_band N b0 b1 k) eqn:E.
      - apply Hkeep. rewrite (Hmask_k k Hk). congruence.
      - rewrite Hz by (now apply Hmask_k).
        apply zero_row. now apply (wf_matrix_nth HwY). }
    exists Y'. split; [exact HY'|]. split; [|exact Hk].
    apply (@wf_set_rows_zero N d Y Y' (bpf_mask N band) HwY Hlen).
    intros k Hk'. rewrite (Hk k Hk').
    destruct (in_band N b0 b1 k); [now right|left].
    symmetry. apply zero_row. now apply (wf_matrix_nth HwY). }
  destruct (Hset X HwX) as [X' [HX' [HwX' HkX']]].
  assert (Hherm : hermitian N d X').
  { intros k c Hk Hc.
    rewrite (HkX' _ (mirror_lt Hk)), (HkX' k Hk), (in_band_mirror _ _ Hk).
    destruct (in_band N b0 b1 k).
    - exact (@ft_real_hermitian N d (map (map RtoC) x) Hwc HN
               (real_entries_RtoC Hwf) k c Hk Hc).
    - rewrite nth_zero_row. cx_eq. }
  pose proof (wf_ift_matrix HwX' HN) as Hwi.
  pose proof (real_entries_eq Hwi (ift_hermitian_real HwX' HN Hherm)) as Hre.
  set (xb := map (map Re) (ift_matrix N X')) in *.
  assert (Hwxb : wf_matrix N d xb) by (now apply wf_matrix_map).
  assert (Hlenx : length x = N) by apply Hwf.
  assert (Hbpf : bpf x band = Ok (xb, X')).
  { unfold bpf. rewrite Hft. cbn [bind]. unfold shape. cbn [fst].
    rewrite Hlenx, HX'. cbn [bind].
    rewrite (ift_matrix_default false HwX' HN). reflexivity. }
  assert (Hftb : ft (map (map RtoC) xb) None 0 = Ok (Finite X')).
  { rewrite Hre. rewrite (ft_matrix_default Hwi HN).
    now rewrite (ft_ift_matrix HwX' HN). }
  exists xb, X'. split; [exact Hbpf|]. split; [lia|]. split; [lia|].
  split; [exact Hwxb|]. split; [exact HwX'|]. split; [exact HkX'|].
  split; [exact Hherm|]. split.
  { rewrite Hre. exact (ift_matrix_default true HwX' HN). }
  split; [exact Hftb|].
  destruct (Hset X' HwX') as [X'' [HX'' [HwX'' HkX'']]].
  assert (HXX : X'' = X').
  { apply nth_ext with (d := []) (d' := []).
    - destruct HwX'' as [-> _]. now destruct HwX' as [-> _].
    - intros k Hk. destruct HwX'' as [Hl _]. rewrite Hl in Hk.
      rewrite (HkX'' k Hk), (HkX' k Hk).
      now destruct (in_band N b0 b1 k). }
  unfold bpf. rewrite Hftb. cbn [bind]. unfold shape. cbn [fst].
  destruct Hwxb as [Hlxb _]. rewrite Hlxb, HX'', HXX. cbn [bind].
  rewrite (ift_matrix_default false HwX' HN). reflexivity.
Qed.

(** A corner frequency of 4 or more (a band in hertz, say, and not as a
    fraction of the Nyquist frequency) sends the zero mask out of bounds. *)
Lemma bpf_out_of_bounds (N d : nat) (x : list (list R)) (band : R * R) :
  wf_matrix N d x -> (2 <= N)%nat ->
  4 <= Rmin (fst band) (snd band) ->
  bpf x band = Raise IndexError.
Proof.
  intros Hwf HN Hlo.
  assert (HN1 : (1 <= N)%nat) by lia.
  pose proof (wf_matrix_map RtoC Hwf) as Hwc.
  pose proof (ft_matrix_default Hwc HN1) as Hft.
  pose proof (wf_ft_matrix Hwc HN1) as [HlenX _].
  assert (Hb : (Z.of_nat N < bpf_bin N (Rmin (fst band) (snd band)))%Z).
  { unfold bpf_bin.
    set (lo := Rmin (fst band) (snd band)) in *.
    match goal with |- (_ < Np.round ?r)%Z => pose proof (round_bounds r) as Hr;
      set (b := Np.round r) in *; set (v := r) in * end.
    assert (Hv : INR N + 1 / 2 < v).
    { unfold v. pose proof (le_INR 2 N HN) as H2. simpl in H2.
      destruct (Nat.eqb_spec (N mod 2) 1) as [E|E].
      - assert (H3 : (3 <= N)%nat).
        { destruct (Nat.eq_dec N 2) as [->|]; [discriminate|lia]. }
        apply (le_INR 3) in H3. simpl in H3. nra.
      - nra. }
    apply lt_IZR. rewrite <- INR_IZR_INZ. lra. }
  unfold bpf. rewrite Hft. cbn [bind]. unfold shape. cbn [fst].
  destruct Hwf as [Hlenx _]. rewrite Hlenx.
  unfold Np.set_rows_zero. rewrite HlenX.
  destruct (forallb _ (bpf_mask N band)) eqn:E; [|reflexivity].
  exfalso. rewrite forallb_forall in E.
  specialize (E (Z.of_nat N)).
  rewrite andb_true_iff, Z.leb_le, Z.ltb_lt in E.
  assert (Hin : In (Z.of_nat N) (bpf_mask N band)).
  { apply bpf_mask_bins. left. lia. }
  specialize (E Hin). lia.
Qed.

End BpfMore.

(** ** [psf]: the filtered spectrum *)

Module PsfMore.

(** The bins [0 .. N//2] of the transform of the data. *)
Definition half_spectrum (N : nat) (x : list (list R)) : list (list C) :=
  firstn (N / 2 + 1) (ft_matrix N (map (map RtoC) x)).

(** [P[0] = 0], and [P[-1] = 0] for an even number of samples. *)
Definition zeroed_ends (N : nat) (P0 : list fl) : result (list fl) :=
  P1 <- set_first P0 ;;
  (if (N mod 2 =? 1)%nat then Ok P1 else set_last P1).

(** [X *= tile(P**p, d).reshape(X.shape[::-1]).T] *)
Definition weighted (Pp : list fl) (X : list (list C)) : list (list C) :=
  map (fun r => map (Cscal (fl_value (fst r))) (snd r)) (combine Pp X).

(** [vstack((X[0 .. N//2], X[N//2-fudgeIdx .. 1].conj()))] *)
Definition reassembled (N : nat) (Xw : list (list C)) : list (list C) :=
  Xw ++ map (fun k => map Cconj (nth k Xw []))
            (rev (range 1 (N / 2 - (if (N mod 2 =? 1)%nat then 0 else 1) + 1))).

Lemma psf_unfold (N d : nat) (x : list (list R)) (p w n : nat)
  (window : option (nat -> list R)) :
  wf_matrix N d x -> (1 <= N)%nat -> (1 <= d)%nat ->
  psf x p w n window =
  (P <- zeroed_ends N
          (map (coherence d) (psf_stack d (half_spectrum N x) w n window)) ;;
   if negb (length P * d =? length (half_spectrum N x) * d)%nat
   then Raise ValueError
   else if forallb is_finite (map (fun v => fl_pow v p) P)
   then
     r <- ift (reassembled N
                 (weighted (map (fun v => fl_pow v p) P) (half_spectrum N x)))
            None 0 false ;;
     match r with
     | Float64 x_psf => Ok (Finite x_psf, P)
     | Complex128 _ => Raise ValueError
     end
   else Ok (NonFinite, P)).
Proof.
  intros Hwf HN Hd. unfold psf.
  rewrite (wf_matrix_shape Hwf HN).
  rewrite (ft_matrix_default (wf_matrix_map RtoC Hwf) HN). cbn [bind].
  destruct (Nat.eqb_spec d 0) as [E|_]; [lia|].
  unfold zeroed_ends, half_spectrum, weighted, reassembled.
  destruct (set_first _) as [P1|e1]; cbn [bind]; [|reflexivity].
  destruct (N mod 2 =? 1)%nat; cbn [bind]; [reflexivity|].
  destruct (set_last P1) as [P2|e2]; cbn [bind]; reflexivity.
Qed.

Lemma half_lt (N : nat) : (1 <= N)%nat -> (N / 2 + 1 <= N)%nat.
Proof. intros HN. pose proof (parity_cases N). lia. Qed.

Lemma wf_half_spectrum (N d : nat) (x : list (list R)) :
  wf_matrix N d x -> (1 <= N)%nat ->
  wf_matrix (N / 2 + 1) d (half_spectrum N x).
Proof.
  intros Hwf HN.
  pose proof (wf_ft_matrix (wf_matrix_map RtoC Hwf) HN) as [Hl Hr].
  unfold half_spectrum. split.
  - rewrite length_firstn, Hl. pose proof (half_lt HN). lia.
  - rewrite Forall_forall in *. intros row Hrow. apply Hr.
    rewrite <- (firstn_skipn (N / 2 + 1) (ft_matrix N _)).
    apply in_or_app. now left.
Qed.

Lemma nth_half_spectrum (N : nat) (x : list (list R)) (k : nat) :
  (k <= N / 2)%nat ->
  nth k (half_spectrum N x) [] = nth k (ft_matrix N (map (map RtoC) x)) [].
Proof.
  intros Hk. unfold half_spectrum. rewrite nth_firstn.
  destruct (Nat.ltb_spec k (N / 2 + 1)); [reflexivity|lia].
Qed.

Lemma wf_weighted (m d : nat) (Pp : list fl) (X : list (list C)) :
  wf_matrix m d X -> length Pp = m -> wf_matrix m d (weighted Pp X).
Proof.
  intros [Hl Hr] HP. unfold weighted. split.
  - rewrite length_map, length_combine. lia.
  - rewrite Forall_forall in *. intros row Hrow. rewrite in_map_iff in Hrow.
    destruct Hrow as [[v r] [<- Hin]]. apply in_combine_r in Hin.
    rewrite length_map. now apply Hr.
Qed.

Lemma nth_weighted (m d : nat) (Pp : list fl) (X : list (list C)) (k : nat) :
  wf_matrix m d X -> length Pp = m -> (k < m)%nat ->
  nth k (weighted Pp X) [] = map (Cscal (fl_value (nth k Pp NaN))) (nth k X []).
Proof.
  intros [Hl _] HP Hk. unfold weighted.
  rewrite (@nth_map_lt _ _ _ _ k [] (NaN, []))
    by (rewrite length_combine; lia).
  now rewrite combine_nth by lia.
Qed.

(** The number of mirrored bins. *)
Definition mirrored (N : nat) : nat :=
  (N / 2 - (if (N mod 2 =? 1)%nat then 0 else 1))%nat.

Lemma mirrored_eq (N : nat) : (1 <= N)%nat -> (N / 2 + 1 + mirrored N = N)%nat.
Proof.
  intros HN. unfold mirrored.
  destruct (parity_cases N) as [[H1 [Hm _]]|[H1 [Hm _]]]; rewrite Hm;
    simpl Nat.eqb; cbv iota; lia.
Qed.

Lemma length_reassembled (N : nat) (Xw : list (list C)) :
  (1 <= N)%nat -> length Xw = (N / 2 + 1)%nat ->
  length (reassembled N Xw) = N.
Proof.
  intros HN Hl. unfold reassembled. fold (mirrored N).
  rewrite length_app, length_map, length_rev. unfold range.
  rewrite length_seq, Hl. pose proof (mirrored_eq HN). lia.
Qed.

Lemma nth_reassembled (N : nat) (Xw : list (list C)) (r : nat) :
  (1 <= N)%nat -> length Xw = (N / 2 + 1)%nat -> (r < N)%nat ->
  nth r (reassembled N Xw) [] =
  if (r <=? N / 2)%nat then nth r Xw [] else map Cconj (nth (N - r) Xw []).
Proof.
  intros HN Hl Hr. unfold reassembled. fold (mirrored N).
  pose proof (mirrored_eq HN) as HM.
  destruct (Nat.leb_spec r (N / 2)) as [Hle|Hgt].
  - now rewrite app_nth1 by lia.
  - rewrite app_nth2 by lia. rewrite Hl.
    assert (Hlr : length (rev (range 1 (mirrored N + 1))) = mirrored N).
    { rewrite length_rev. unfold range. rewrite length_seq. lia. }
    rewrite (@nth_map_lt _ _ _ _ (r - (N / 2 + 1)) [] 0%nat) by lia.
    f_equal. f_equal.
    rewrite rev_nth by (rewrite length_rev in Hlr; lia).
    unfold range. rewrite length_seq.
    rewrite nth_seq_lt by lia. lia.
Qed.

Lemma wf_reassembled (N d : nat) (Xw : list (list C)) :
  (1 <= N)%nat -> wf_matrix (N / 2 + 1) d Xw ->
  wf_matrix N d (reassembled N Xw).
Proof.
  intros HN Hwf. pose proof Hwf as [Hl _].
  split; [now apply length_reassembled|].
  rewrite Forall_forall. intros row Hrow.
  apply (In_nth _ _ []) in Hrow. destruct Hrow as [r [Hr <-]].
  rewrite length_reassembled in Hr by assumption.
  rewrite nth_reassembled by assumption.
  destruct (Nat.leb_spec r (N / 2)).
  - apply (wf_matrix_nth Hwf). lia.
  - rewrite length_map. apply (wf_matrix_nth Hwf).
    pose proof (parity_cases N). lia.
Qed.

(** The reassembled spectrum is conjugate symmetric, whatever the weights:
    the zero-frequency bin and the Nyquist bin of a real series are real. *)
Lemma reassembled_hermitian (N d : nat) (x : list (list R)) (Pp : list fl) :
  wf_matrix N d x -> (1 <= N)%nat -> length Pp = (N / 2 + 1)%nat ->
  hermitian N d (reassembled N (weighted Pp (half_spectrum N x))).
Proof.
  intros Hwf HN HP k c Hk Hc.
  pose proof (wf_half_spectrum Hwf HN) as HwH.
  pose proof (@wf_weighted (N / 2 + 1) d Pp _ HwH HP) as HwW.
  pose proof HwW as [HlW _].
  pose proof (wf_matrix_map RtoC Hwf) as Hwc.
  pose proof (@ft_real_hermitian N d (map (map RtoC) x) Hwc HN
                (real_entries_RtoC Hwf)) as Hh.
  assert (Hrow : forall j, (j <= N / 2)%nat ->
            nth c (nth j (weighted Pp (half_spectrum N x)) []) C0 =
            Cscal (fl_value (nth j Pp NaN))
              (nth c (nth j (ft_matrix N (map (map RtoC) x)) []) C0)).
  { intros j Hj.
    rewrite (@nth_weighted (N / 2 + 1) d) by (try assumption; lia).
    rewrite nth_half_spectrum by exact Hj.
    rewrite (@nth_map_lt _ _ _ _ c C0 C0); [reflexivity|].
    rewrite (@wf_matrix_nth _ N d _ j (wf_ft_matrix Hwc HN)); [exact Hc|].
    pose proof (half_lt HN). lia. }
  assert (Hconj : forall j, (j <= N / 2)%nat ->
            nth c (map Cconj (nth j (weighted Pp (half_spectrum N x)) [])) C0 =
            Cconj (nth c (nth j (weighted Pp (half_spectrum N x)) []) C0)).
  { intros j Hj. apply (@nth_map_lt _ _ _ _ c C0 C0).
    rewrite (@wf_matrix_nth _ (N / 2 + 1) d _ j HwW); [exact Hc|lia]. }
  pose proof (parity_cases N) as Hpar.
  rewrite !nth_reassembled by (try assumption; now apply mirror_lt).
  destruct k as [|k].
  - rewrite Nat.sub_0_r, Nat.Div0.mod_same. cbn [Nat.leb].
    rewrite Hrow by lia. rewrite Cconj_scal. f_equal.
    pose proof (Hh 0%nat c Hk Hc) as H0.
    rewrite Nat.sub_0_r, Nat.Div0.mod_same in H0. exact H0.
  - rewrite (Nat.mod_small (N - S k)) by lia.
    destruct (Nat.leb_spec (N - S k) (N / 2)) as [Hm|Hm];
      destruct (Nat.leb_spec (S k) (N / 2)) as [Hq|Hq]; try lia.
    + (* the Nyquist bin of an even number of samples *)
      assert (E : (N - S k = S k)%nat) by lia. rewrite E.
      rewrite Hrow by lia. rewrite Cconj_scal. f_equal.
      pose proof (Hh (S k) c Hk Hc) as H0.
      rewrite (Nat.mod_small (N - S k)) in H0 by lia.
      now rewrite E in H0.
    + rewrite Hconj by lia. now rewrite Cconj_conj.
    + replace (N - (N - S k))%nat with (S k) by lia.
      now rewrite Hconj by lia.
Qed.


(** From a call of [psf] that returns: the length of the coherence, and
    the filtered series when every weight is finite. *)
Lemma psf_inv_series (N d : nat) (x : list (list R)) (p w n : nat)
  (window : option (nat -> list R)) (xp : farray (list (list R)))
  (P : list fl) :
  wf_matrix N d x -> psf x p w n window = Ok (xp, P) ->
  (1 <= N)%nat /\ (1 <= d)%nat /\ length P = (N / 2 + 1)%nat /\
  xp = (if forallb is_finite (map (fun v => fl_pow v p) P)
        then Finite (map (map Re)
                       (ift_matrix N
                          (reassembled N
                             (weighted (map (fun v => fl_pow v p) P)
                                (half_spectrum N x)))))
        else NonFinite).
Proof.
  intros Hwf Hpsf.
  destruct (@psf_inv N d x p w n window xp P Hwf Hpsf) as [X0 [HN [Hd _]]].
  rewrite (psf_unfold p w n window Hwf HN Hd) in Hpsf.
  destruct (zeroed_ends N _) as [P'|e]; cbn [bind] in Hpsf; [|discriminate].
  pose proof (wf_half_spectrum Hwf HN) as HwH. pose proof HwH as [HlH _].
  rewrite HlH in Hpsf.
  destruct (Nat.eqb_spec (length P' * d) ((N / 2 + 1) * d)) as [E|E];
    cbn [negb] in Hpsf; [|discriminate].
  assert (HlP : length P' = (N / 2 + 1)%nat) by nia.
  destruct (forallb is_finite (map (fun v => fl_pow v p) P')) eqn:Efin.
  - assert (HwY : wf_matrix N d
                    (reassembled N
                       (weighted (map (fun v => fl_pow v p) P')
                          (half_spectrum N x)))).
    { apply wf_reassembled; [exact HN|]. apply wf_weighted; [exact HwH|].
      now rewrite length_map. }
    rewrite (ift_matrix_default false HwY HN) in Hpsf. cbn [bind] in Hpsf.
    injection Hpsf as <- <-. rewrite Efin. now repeat split.
  - injection Hpsf as <- <-. rewrite Efin. now repeat split.
Qed.

(** The transform of the series that [psf] returns. *)
Lemma psf_spectrum (N d : nat) (x : list (list R)) (p w n : nat)
  (window : option (nat -> list R)) (x_psf : list (list R)) (P : list fl) :
  wf_matrix N d x -> psf x p w n window = Ok (Finite x_psf, P) ->
  (1 <= N)%nat /\ length P = (N / 2 + 1)%nat /\
  wf_matrix N d x_psf /\
  forallb is_finite (map (fun v => fl_pow v p) P) = true /\
  ft (map (map RtoC) x_psf) None 0 =
  Ok (Finite (reassembled N
                (weighted (map (fun v => fl_pow v p) P) (half_spectrum N x)))).
Proof.
  intros Hwf Hpsf.
  destruct (psf_inv_series _ _ _ _ Hwf Hpsf) as [HN [Hd [HlP Hxp]]].
  destruct (forallb is_finite (map (fun v => fl_pow v p) P)) eqn:Efin;
    [|discriminate].
  injection Hxp as ->.
  set (Y := reassembled N _) in *.
  pose proof (wf_half_spectrum Hwf HN) as HwH.
  assert (HlPp : length (map (fun v => fl_pow v p) P) = (N / 2 + 1)%nat)
    by (now rewrite length_map).
  assert (HwY : wf_matrix N d Y).
  { apply wf_reassembled; [exact HN|]. now apply wf_weighted. }
  pose proof (wf_ift_matrix HwY HN) as Hwi.
  pose proof (@reassembled_hermitian N d x _ Hwf HN HlPp) as Hh. fold Y in Hh.
  pose proof (real_entries_eq Hwi (ift_hermitian_real HwY HN Hh)) as Hre.
  split; [exact HN|]. split; [exact HlP|].
  split; [now apply wf_matrix_map|]. split; [reflexivity|].
  rewrite Hre. rewrite (ft_matrix_default Hwi HN).
  now rewrite (ft_ift_matrix HwY HN).
Qed.

Lemma Cnorm2_conj (z : C) : Cnorm2 (Cconj z) = Cnorm2 z.
Proof. cx. ring. Qed.

Lemma Cnorm2_zero (z : C) : Cnorm2 z = 0 -> z = C0.
Proof.
  destruct z as [a b]. cx. intros H.
  assert (a = 0) by nra. assert (b = 0) by nra. now subst.
Qed.

Lemma Rsum_ge_term {A : Type} (f : A -> R) (l : list A) (c : A) :
  (forall a, In a l -> 0 <= f a) -> In c l -> f c <= Rsum (map f l).
Proof.
  unfold Rsum. induction l as [|a l IH]; intros Hpos Hin; [destruct Hin|].
  simpl. pose proof (Hpos a (or_introl eq_refl)) as Ha.
  assert (Hl : 0 <= fold_right Rplus 0 (map f l)).
  { apply (@Rsum_map_nonneg _ f). intros b Hb. apply Hpos. now right. }
  destruct Hin as [->|Hin]; [lra|].
  specialize (IH (fun b Hb => Hpos b (or_intror Hb)) Hin). lra.
Qed.

(** Without smoothing the spectral matrix is an outer product, of rank
    one: its coherence is 1. *)
Lemma coherence_spectral_row (d : nat) (Xi : list C) (c : nat) :
  (2 <= d)%nat -> (c < d)%nat -> nth c Xi C0 <> C0 ->
  coherence d (spectral_row d Xi) = Fin 1.
Proof.
  intros Hd Hc Hne.
  set (a := fun i => Cnorm2 (nth i Xi C0)).
  set (row := spectral_row d Xi).
  assert (Hlen : length row = length (Sidx d))
    by (unfold row, spectral_row; now rewrite length_map).
  assert (Hrow : forall k, (k < length (Sidx d))%nat ->
            nth k row C0 =
            Cmult (nth (fst (nth k (Sidx d) (0, 0)%nat)) Xi C0)
                  (Cconj (nth (snd (nth k (Sidx d) (0, 0)%nat)) Xi C0))).
  { intros k Hk. unfold row, spectral_row.
    now rewrite (@nth_map_lt _ _ _ _ k C0 (0, 0)%nat) by exact Hk. }
  assert (Hgood : good_row d a (fun k => nth k row C0)).
  { split; [intros i; apply Cnorm2_nonneg|]. intros k Hk. rewrite (Hrow k Hk).
    destruct (nth k (Sidx d) (0, 0)%nat) as [i j]. simpl fst. simpl snd. split.
    - intros <-. unfold a. destruct (nth i Xi C0) as [u v]. cx. f_equal; ring.
    - rewrite Cnorm2_mult, Cnorm2_conj. unfold a. lra. }
  pose proof (@good_trS d a row Hlen Hgood) as Ht.
  assert (Ht2 : trS2 d row = (asum a d) ^ 2).
  { unfold trS2. rewrite <- (Sidx_square_sum d a). rewrite Hlen.
    rewrite <- (@map_nth_seq _ _
                  (fun ij => if (fst ij =? snd ij)%nat
                             then a (fst ij) * a (fst ij)
                             else 2 * a (fst ij) * a (snd ij))
                  (Sidx d) (0, 0)%nat).
    apply Rsum_map_ext_in. intros k Hk. rewrite in_seq in Hk.
    rewrite in_didx by lia. rewrite (Hrow k ltac:(lia)).
    rewrite Cnorm2_mult, Cnorm2_conj. fold (a (fst (nth k (Sidx d) (0, 0)%nat))).
    fold (a (snd (nth k (Sidx d) (0, 0)%nat))).
    destruct (Nat.eqb_spec (fst (nth k (Sidx d) (0, 0)%nat))
                           (snd (nth k (Sidx d) (0, 0)%nat))) as [E|E].
    - rewrite <- E. cbv zeta. field.
    - cbv zeta. ring. }
  assert (Hs : 0 < asum a d).
  { apply Rlt_le_trans with (a c).
    - pose proof (Cnorm2_nonneg (nth c Xi C0)) as H0. unfold a.
      destruct (Req_dec_T (Cnorm2 (nth c Xi C0)) 0) as [E|E]; [|lra].
      elim Hne. now apply Cnorm2_zero.
    - unfold asum. apply Rsum_ge_term.
      + intros i _. apply Cnorm2_nonneg.
      + apply in_seq. lia. }
  assert (HdR : 2 <= INR d) by (apply (le_INR 2); exact Hd).
  unfold coherence, true_divide. fold row. rewrite Ht, Ht2.
  assert (Hden : 0 < (INR d - 1) * asum a d ^ 2) by nra.
  destruct (Req_dec_T ((INR d - 1) * asum a d ^ 2) 0) as [E|_]; [lra|].
  f_equal. field. split; nra.
Qed.

Lemma py_slice_nil {A : Type} (a b : Z) : @py_slice A a b [] = [].
Proof. unfold py_slice. rewrite skipn_nil. apply firstn_nil. Qed.

Lemma Ssmooth_nil (w n : nat) (window : nat -> list R) :
  Ssmooth [] w n window = [].
Proof.
  induction n as [|n IH]; [reflexivity|]. cbn [Ssmooth].
  cbn [Np.convolve2d_full]. now rewrite py_slice_nil.
Qed.

(** A window of one or two weights: the slice [[w//2:-w//2+1]] of the
    smoothed stack is empty. *)
Lemma Ssmooth_narrow (S : list (list C)) (w n : nat) (window : nat -> list R) :
  (1 <= w <= 2)%nat -> (1 <= n)%nat -> Ssmooth S w n window = [].
Proof.
  intros Hw Hn. destruct n as [|n]; [lia|]. cbn [Ssmooth].
  assert (Hs : py_slice (Z.of_nat (w / 2)) (- Z.of_nat w / 2 + 1)
                 (Np.convolve2d_full S (window w)) = []).
  { assert (Hc : w = 1%nat \/ w = 2%nat) by lia.
    unfold py_slice.
    set (len := Z.of_nat (length (Np.convolve2d_full S (window w)))).
    assert (Hlen : (0 <= len)%Z) by (unfold len; lia).
    destruct Hc as [-> | ->].
    - change (Z.of_nat (1 / 2)) with 0%Z.
      change (- Z.of_nat 1 / 2 + 1)%Z with 0%Z. cbn [Z.ltb Z.compare].
      replace (Z.to_nat (Z.min 0 len - Z.min 0 len)) with 0%nat by lia.
      reflexivity.
    - change (Z.of_nat (2 / 2)) with 1%Z.
      change (- Z.of_nat 2 / 2 + 1)%Z with 0%Z. cbn [Z.ltb Z.compare].
      replace (Z.to_nat (Z.min 0 len - Z.min 1 len)) with 0%nat by lia.
      reflexivity. }
  rewrite Hs. apply Ssmooth_nil.
Qed.

End PsfMore.

Import BpfMore PsfMore.

Lemma bpf_band_order (x : list (list R)) (band : R * R) :
  bpf x (snd band, fst band) = bpf x band.
Proof.
  unfold bpf, bpf_mask, bpf_corners. cbn [fst snd].
  now rewrite (Rmin_comm (snd band)), (Rmax_comm (snd band)).
Qed.

(** X6. For a band inside [0, 1], given in either order, [bpf] returns
    the spectrum [ft(x)] with the rows of the bins [b0 .. b1] and of their
    mirror images [N-b1 .. N-b0] kept and every other row set to zero,
    where [b0 <= b1 <= N//2] are the corner frequencies times [(N-1)/2]
    ([N] odd) or [N/2] ([N] even), rounded. *)
Theorem bpf_passband (N d : nat) (x : list (list R)) (band : R * R) :
  wf_matrix N d x -> (1 <= N)%nat ->
  0 <= Rmin (fst band) (snd band) -> Rmax (fst band) (snd band) <= 1 ->
  exists X x_bpf X_bpf,
    ft (map (map RtoC) x) None 0 = Ok (Finite X) /\
    bpf x band = Ok (x_bpf, X_bpf) /\
    bpf x (snd band, fst band) = Ok (x_bpf, X_bpf) /\
    (0 <= bpf_bin N (Rmin (fst band) (snd band))
     <= bpf_bin N (Rmax (fst band) (snd band)))%Z /\
    (bpf_bin N (Rmax (fst band) (snd band)) <= Z.of_nat (N / 2))%Z /\
    wf_matrix N d x_bpf /\ wf_matrix N d X_bpf /\
    forall k, (k < N)%nat ->
      nth k X_bpf [] =
      if in_band N (bpf_bin N (Rmin (fst band) (snd band)))
           (bpf_bin N (Rmax (fst band) (snd band))) k
      then nth k X [] else repeat C0 d.
Proof.
  intros Hwf HN Hlo Hhi.
  destruct (@bpf_general N d x band Hwf HN Hlo Hhi)
    as [xb [Xb [Hb [H0 [H1 [Hwx [HwX [Hk _]]]]]]]].
  exists (ft_matrix N (map (map RtoC) x)), xb, Xb.
  split; [exact (ft_matrix_default (wf_matrix_map RtoC Hwf) HN)|].
  split; [exact Hb|]. split; [now rewrite bpf_band_order|].
  repeat (split; [assumption|]). exact Hk.
Qed.

(** The upper half of the band, from half the Nyquist frequency. *)
Definition upper_half_band : R * R := (1 / 2, 1).

Lemma Rmin_half_one : 0 <= Rmin (fst upper_half_band) (snd upper_half_band).
Proof.
  unfold upper_half_band. cbn [fst snd]. unfold Rmin.
  destruct (Rle_dec (1 / 2) 1); lra.
Qed.

Lemma Rmax_half_one : Rmax (fst upper_half_band) (snd upper_half_band) <= 1.
Proof.
  unfold upper_half_band. cbn [fst snd]. unfold Rmax.
  destruct (Rle_dec (1 / 2) 1); lra.
Qed.

Lemma wf_four_samples : wf_matrix 4 1 [[1]; [0]; [2]; [5]].
Proof. split; [reflexivity|repeat constructor]. Qed.

Lemma bpf_passband_witness :
  exists X x_bpf X_bpf,
    ft (map (map RtoC) [[1]; [0]; [2]; [5]]) None 0 = Ok (Finite X) /\
    bpf [[1]; [0]; [2]; [5]] upper_half_band = Ok (x_bpf, X_bpf) /\
    bpf [[1]; [0]; [2]; [5]] (snd upper_half_band, fst upper_half_band)
    = Ok (x_bpf, X_bpf) /\
    (0 <= bpf_bin 4 (Rmin (fst upper_half_band) (snd upper_half_band))
     <= bpf_bin 4 (Rmax (fst upper_half_band) (snd upper_half_band)))%Z /\
    (bpf_bin 4 (Rmax (fst upper_half_band) (snd upper_half_band)) <= Z.of_nat (4 / 2))%Z /\
    wf_matrix 4 1 x_bpf /\ wf_matrix 4 1 X_bpf /\
    forall k, (k < 4)%nat ->
      nth k X_bpf [] =
      if in_band 4 (bpf_bin 4 (Rmin (fst upper_half_band) (snd upper_half_band)))
           (bpf_bin 4 (Rmax (fst upper_half_band) (snd upper_half_band))) k
      then nth k X [] else repeat C0 1.
Proof.
  apply (@bpf_passband 4 1 [[1]; [0]; [2]; [5]] upper_half_band).
  - exact wf_four_samples.
  - lia.
  - exact Rmin_half_one.
  - exact Rmax_half_one.
Defined.

(** X7. The two arrays that [bpf] returns agree: for a band inside
    [0, 1] the masked spectrum [X_bpf] is conjugate symmetric, so the
    real part that [bpf] takes of its inverse transform drops nothing, and
    [X_bpf] is the transform [ft(x_bpf)] of the filtered series. *)
Theorem bpf_outputs_agree (N d : nat) (x : list (list R)) (band : R * R) :
  wf_matrix N d x -> (1 <= N)%nat ->
  0 <= Rmin (fst band) (snd band) -> Rmax (fst band) (snd band) <= 1 ->
  exists x_bpf X_bpf,
    bpf x band = Ok (x_bpf, X_bpf) /\
    (forall k c, (k < N)%nat -> (c < d)%nat ->
       nth c (nth ((N - k) mod N) X_bpf []) C0 =
       Cconj (nth c (nth k X_bpf []) C0)) /\
    ift X_bpf None 0 true = Ok (Complex128 (map (map RtoC) x_bpf)) /\
    ft (map (map RtoC) x_bpf) None 0 = Ok (Finite X_bpf).
Proof.
  intros Hwf HN Hlo Hhi.
  destruct (@bpf_general N d x band Hwf HN Hlo Hhi)
    as [xb [Xb [Hb [_ [_ [_ [_ [_ [Hh [Hi [Hf _]]]]]]]]]]].
  exists xb, Xb. now repeat split.
Qed.

Lemma bpf_outputs_agree_witness :
  exists x_bpf X_bpf,
    bpf [[1]; [0]; [2]; [5]] upper_half_band = Ok (x_bpf, X_bpf) /\
    (forall k c, (k < 4)%nat -> (c < 1)%nat ->
       nth c (nth ((4 - k) mod 4) X_bpf []) C0 =
       Cconj (nth c (nth k X_bpf []) C0)) /\
    ift X_bpf None 0 true = Ok (Complex128 (map (map RtoC) x_bpf)) /\
    ft (map (map RtoC) x_bpf) None 0 = Ok (Finite X_bpf).
Proof.
  apply (@bpf_outputs_agree 4 1 [[1]; [0]; [2]; [5]] upper_half_band).
  - exact wf_four_samples.
  - lia.
  - exact Rmin_half_one.
  - exact Rmax_half_one.
Defined.

(** X8. [bpf] is idempotent: for a band inside [0, 1], filtering the
    filtered series again with the same band returns the same series and
    the same spectrum. *)
Theorem bpf_idempotent (N d : nat) (x : list (list R)) (band : R * R) :
  wf_matrix N d x -> (1 <= N)%nat ->
  0 <= Rmin (fst band) (snd band) -> Rmax (fst band) (snd band) <= 1 ->
  exists x_bpf X_bpf,
    bpf x band = Ok (x_bpf, X_bpf) /\
    bpf x_bpf band = Ok (x_bpf, X_bpf).
Proof.
  intros Hwf HN Hlo Hhi.
  destruct (@bpf_general N d x band Hwf HN Hlo Hhi)
    as [xb [Xb [Hb [_ [_ [_ [_ [_ [_ [_ [_ Hi]]]]]]]]]]].
  exists xb, Xb. now split.
Qed.

Lemma bpf_idempotent_witness :
  exists x_bpf X_bpf,
    bpf [[1]; [0]; [2]; [5]] upper_half_band = Ok (x_bpf, X_bpf) /\
    bpf x_bpf upper_half_band = Ok (x_bpf, X_bpf).
Proof.
  apply (@bpf_idempotent 4 1 [[1]; [0]; [2]; [5]] upper_half_band).
  - exact wf_four_samples.
  - lia.
  - exact Rmin_half_one.
  - exact Rmax_half_one.
Defined.

(** X9. A band whose lower corner is 4 or more (a band given in hertz,
    say, and not as a fraction of the Nyquist frequency) makes [bpf]
    raise [IndexError], for every series of at least two samples: the
    indices of the zero mask run past the end of the spectrum. *)
Theorem bpf_band_out_of_bounds (N d : nat) (x : list (list R)) (band : R * R) :
  wf_matrix N d x -> (2 <= N)%nat ->
  4 <= Rmin (fst band) (snd band) ->
  bpf x band = Raise IndexError.
Proof. exact (@bpf_out_of_bounds N d x band). Qed.

Lemma bpf_band_out_of_bounds_witness :
  bpf [[1]; [0]; [2]; [5]] (5, 10) = Raise IndexError.
Proof.
  apply (@bpf_band_out_of_bounds 4 1 [[1]; [0]; [2]; [5]] (5, 10)).
  - exact wf_four_samples.
  - lia.
  - cbn [fst snd]. unfold Rmin. destruct (Rle_dec 5 10); lra.
Defined.

(** The spectrum of a real series is its lower half, reassembled. *)
Lemma reassembled_half (N d : nat) (x : list (list R)) :
  wf_matrix N d x -> (1 <= N)%nat ->
  reassembled N (half_spectrum N x) = ft_matrix N (map (map RtoC) x).
Proof.
  intros Hwf HN.
  pose proof (wf_matrix_map RtoC Hwf) as Hwc.
  pose proof (wf_ft_matrix Hwc HN) as HwX.
  pose proof (wf_half_spectrum Hwf HN) as HwH. pose proof HwH as [HlH _].
  pose proof (@ft_real_hermitian N d (map (map RtoC) x) Hwc HN
                (real_entries_RtoC Hwf)) as Hh.
  pose proof (parity_cases N) as Hpar.
  apply (@matrix_ext _ C0 N d); [now apply wf_reassembled|exact HwX|].
  intros r c Hr Hc. rewrite nth_reassembled by assumption.
  destruct (Nat.leb_spec r (N / 2)) as [Hle|Hgt].
  - now rewrite nth_half_spectrum.
  - rewrite nth_half_spectrum by lia.
    rewrite (@nth_map_lt _ _ _ _ c C0 C0)
      by (rewrite (@wf_matrix_nth _ N d _ (N - r)%nat HwX); [exact Hc|lia]).
    pose proof (Hh (N - r)%nat c ltac:(lia) Hc) as H.
    rewrite Nat.mod_small in H by lia.
    replace (N - (N - r))%nat with r in H by lia. now rewrite H.
Qed.

Lemma weighted_ones (P : list fl) (H : list (list C)) :
  length P = length H -> weighted (map (fun v => fl_pow v 0) P) H = H.
Proof.
  unfold weighted. revert H. induction P as [|v P IH]; intros [|row H] Hl;
    try discriminate; [reflexivity|].
  cbn [map combine fst snd fl_pow fl_value].
  rewrite IH by (simpl in Hl; lia). f_equal.
  rewrite <- (map_id row) at 2. apply map_ext. intros z. apply Cscal_1.
Qed.

Lemma forallb_ones (P : list fl) :
  forallb is_finite (map (fun v => fl_pow v 0) P) = true.
Proof. induction P as [|v P IH]; [reflexivity|exact IH]. Qed.

(** [psf] returns as soon as the smoothed stack keeps its rows. *)
Lemma psf_returns_rows (N d : nat) (x : list (list R)) (p w n : nat)
  (window : option (nat -> list R)) :
  wf_matrix N d x -> (1 <= N)%nat -> (1 <= d)%nat ->
  length (psf_stack d (half_spectrum N x) w n window) = (N / 2 + 1)%nat ->
  exists xp P, psf x p w n window = Ok (xp, P).
Proof.
  intros Hwf HN Hd HlS. rewrite (psf_unfold p w n window Hwf HN Hd).
  pose proof (wf_half_spectrum Hwf HN) as HwH. pose proof HwH as [HlH _].
  assert (Hz : exists P', zeroed_ends N
                 (map (coherence d) (psf_stack d (half_spectrum N x) w n window))
               = Ok P' /\ length P' = (N / 2 + 1)%nat).
  { destruct (map (coherence d) _) as [|v t] eqn:E.
    - apply (f_equal (@length fl)) in E. rewrite length_map, HlS in E.
      simpl in E. lia.
    - assert (Hl : length (v :: t) = (N / 2 + 1)%nat)
        by (now rewrite <- E, length_map).
      unfold zeroed_ends. cbn [set_first bind].
      destruct (N mod 2 =? 1)%nat.
      + eexists. split; [reflexivity|]. simpl in *. lia.
      + unfold set_last. eexists. split; [reflexivity|].
        rewrite length_set_last by discriminate. simpl in *. lia. }
  destruct Hz as [P' [-> HlP]]. cbn [bind].
  rewrite HlP, HlH, Nat.eqb_refl. cbn [negb].
  destruct (forallb is_finite _).
  - assert (HwY : wf_matrix N d
                    (reassembled N
                       (weighted (map (fun v => fl_pow v p) P')
                          (half_spectrum N x)))).
    { apply wf_reassembled; [exact HN|]. apply wf_weighted; [exact HwH|].
      now rewrite length_map. }
    rewrite (ift_matrix_default false HwY HN). cbn [bind]. eauto.
  - eauto.
Qed.

Lemma psf_contrast_zero (N d : nat) (x : list (list R)) (w n : nat)
  (window : option (nat -> list R)) :
  wf_matrix N d x -> (1 <= N)%nat -> (1 <= d)%nat -> (3 <= w)%nat ->
  (forall f, window = Some f -> length (f w) = w) ->
  exists P, psf x 0 w n window = Ok (Finite x, P) /\
            length P = (N / 2 + 1)%nat.
Proof.
  intros Hwf HN Hd Hw Hwin.
  destruct (@psf_returns N d x 0 w n window Hwf HN Hd Hw Hwin)
    as [xp [P [Hpsf HlP]]].
  destruct (psf_inv_series _ _ _ _ Hwf Hpsf) as [_ [_ [_ Hxp]]].
  rewrite forallb_ones in Hxp.
  pose proof (wf_half_spectrum Hwf HN) as [HlH _].
  rewrite weighted_ones in Hxp by lia.
  rewrite (reassembled_half Hwf HN) in Hxp.
  rewrite (ift_ft_matrix (wf_matrix_map RtoC Hwf) HN) in Hxp.
  rewrite map_Re_RtoC in Hxp. subst xp. now exists P.
Qed.

Definition example_series : list (list R) := [[1; 2]; [3; 5]; [4; 1]].

Lemma wf_example_series : wf_matrix 3 2 example_series.
Proof. split; [reflexivity|repeat constructor]. Qed.

(** The default call [psf(x)] on the four samples of two channels: the
    coherence of bin 1 is 81/361, and the filtered series is finite. *)
Lemma example_default_call :
  exists x_psf,
    psf example_x 2 3 3 None =
    Ok (Finite x_psf, [Fin 0; Fin (81 / 361); Fin 0]).
Proof.
  assert (Hwf : wf_matrix 4 2 example_x)
    by (split; [reflexivity|repeat constructor]).
  destruct (@psf_returns 4 2 example_x 2 3 3 None Hwf
              ltac:(lia) ltac:(lia) ltac:(lia)
              ltac:(intros f Hf; discriminate))
    as [xp [P [Hpsf HlenP]]].
  change (4 / 2 + 1)%nat with 3%nat in HlenP.
  destruct (@psf_inv 4 2 example_x 2 3 3 None xp P Hwf Hpsf)
    as [X0 [_ [_ [Hft [_ [_ [H0 [Hlast [Hmid _]]]]]]]]].
  assert (H1 : nth 1 P NaN = Fin (81 / 361)).
  { rewrite (Hmid 1%nat); [|lia|right; lia].
    rewrite (example_half_spectrum Hft). fold example_spectrum.
    rewrite example_default_row. apply example_default_coherence. }
  destruct P as [|v0 [|v1 [|v2 [|v3 P]]]]; try (simpl in HlenP; lia).
  cbn [nth] in H0, H1. specialize (Hlast eq_refl). cbn [last] in Hlast.
  subst v0 v1 v2.
  destruct (psf_inv_series _ _ _ _ Hwf Hpsf) as [_ [_ [_ Hxp]]].
  cbn [map fl_pow forallb is_finite andb] in Hxp.
  eexists. rewrite Hpsf, Hxp. reflexivity.
Qed.

(** X10. What [psf] does to the spectrum: when it returns a finite
    series [x_psf], the transform of [x_psf] is, at every bin [k] of
    [0 .. N//2], the transform of [x] multiplied by [P[k]**p], and it is
    conjugate symmetric: the real part that [psf] takes of the inverse
    transform drops nothing.  [x_psf] has the shape of [x], [P] has
    [N//2+1] entries. *)
Theorem psf_filters_spectrum (N d : nat) (x : list (list R)) (p w n : nat)
  (window : option (nat -> list R)) (x_psf : list (list R)) (P : list fl) :
  wf_matrix N d x -> psf x p w n window = Ok (Finite x_psf, P) ->
  exists X Xf,
    ft (map (map RtoC) x) None 0 = Ok (Finite X) /\
    ft (map (map RtoC) x_psf) None 0 = Ok (Finite Xf) /\
    wf_matrix N d x_psf /\ length P = (N / 2 + 1)%nat /\
    (forall k c, (k <= N / 2)%nat -> (c < d)%nat ->
       nth c (nth k Xf []) C0 =
       Cscal (fl_value (fl_pow (nth k P NaN) p)) (nth c (nth k X []) C0)) /\
    (forall k c, (k < N)%nat -> (c < d)%nat ->
       nth c (nth ((N - k) mod N) Xf []) C0 = Cconj (nth c (nth k Xf []) C0)).
Proof.
  intros Hwf Hpsf.
  destruct (psf_spectrum _ _ _ _ Hwf Hpsf) as [HN [HlP [Hwx [_ Hft]]]].
  pose proof (wf_matrix_map RtoC Hwf) as Hwc.
  pose proof (wf_half_spectrum Hwf HN) as HwH.
  assert (HlPp : length (map (fun v => fl_pow v p) P) = (N / 2 + 1)%nat)
    by (now rewrite length_map).
  exists (ft_matrix N (map (map RtoC) x)). eexists.
  split; [exact (ft_matrix_default Hwc HN)|]. split; [exact Hft|].
  split; [exact Hwx|]. split; [exact HlP|]. split.
  - intros k c Hk Hc.
    pose proof (@wf_weighted (N / 2 + 1) d _ _ HwH HlPp) as [HlW _].
    rewrite nth_reassembled
      by (try assumption; pose proof (half_lt HN); lia).
    destruct (Nat.leb_spec k (N / 2)); [|lia].
    rewrite (@nth_weighted (N / 2 + 1) d) by (try assumption; lia).
    rewrite nth_half_spectrum by exact Hk.
    rewrite (@nth_map_lt _ _ _ _ c C0 C0).
    + now rewrite (@nth_map_lt _ _ _ _ k NaN NaN) by lia.
    + rewrite (@wf_matrix_nth _ N d _ k (wf_ft_matrix Hwc HN)); [exact Hc|].
      pose proof (half_lt HN). lia.
  - exact (@reassembled_hermitian N d x _ Hwf HN HlPp).
Qed.

Lemma psf_filters_spectrum_witness :
  exists x_psf X Xf,
    psf example_x 2 3 3 None =
      Ok (Finite x_psf, [Fin 0; Fin (81 / 361); Fin 0]) /\
    ft (map (map RtoC) example_x) None 0 = Ok (Finite X) /\
    ft (map (map RtoC) x_psf) None 0 = Ok (Finite Xf) /\
    wf_matrix 4 2 x_psf /\
    length [Fin 0; Fin (81 / 361); Fin 0] = (4 / 2 + 1)%nat /\
    (forall k c, (k <= 4 / 2)%nat -> (c < 2)%nat ->
       nth c (nth k Xf []) C0 =
       Cscal (fl_value (fl_pow (nth k [Fin 0; Fin (81 / 361); Fin 0] NaN) 2))
         (nth c (nth k X []) C0)) /\
    (forall k c, (k < 4)%nat -> (c < 2)%nat ->
       nth c (nth ((4 - k) mod 4) Xf []) C0 = Cconj (nth c (nth k Xf []) C0)).
Proof.
  destruct example_default_call as [x_psf HP].
  destruct (@psf_filters_spectrum 4 2 example_x 2 3 3 None x_psf
              [Fin 0; Fin (81 / 361); Fin 0]) as [X [Xf H]].
  - split; [reflexivity|]. repeat constructor.
  - exact HP.
  - exists x_psf, X, Xf. split; [exact HP|exact H].
Defined.

(** X11. A contrast [p = 0] switches the filter off: [P**0] is 1 at
    every bin, [nan] included, and [psf] returns the series [x] itself
    (with the coherence [P] it computed). *)
Theorem psf_zero_contrast (N d : nat) (x : list (list R)) (w n : nat)
  (window : option (nat -> list R)) :
  wf_matrix N d x -> (1 <= N)%nat -> (1 <= d)%nat -> (3 <= w)%nat ->
  (forall f, window = Some f -> length (f w) = w) ->
  exists P, psf x 0 w n window = Ok (Finite x, P) /\
            length P = (N / 2 + 1)%nat.
Proof. exact (@psf_contrast_zero N d x w n window). Qed.

Lemma psf_zero_contrast_witness :
  exists P, psf example_series 0 3 3 None = Ok (Finite example_series, P) /\
            length P = (3 / 2 + 1)%nat.
Proof.
  apply (@psf_zero_contrast 3 2 example_series 3 3 None).
  - exact wf_example_series.
  - lia.
  - lia.
  - lia.
  - intros f Hf. discriminate.
Defined.

Lemma psf_no_smoothing (N d : nat) (x : list (list R)) (p w : nat)
  (window : option (nat -> list R)) :
  wf_matrix N d x -> (1 <= N)%nat -> (2 <= d)%nat ->
  exists X xp P,
    ft (map (map RtoC) x) None 0 = Ok (Finite X) /\
    psf x p w 0 window = Ok (xp, P) /\
    length P = (N / 2 + 1)%nat /\
    forall k c, (0 < k < N / 2 + 1)%nat ->
      (N mod 2 = 1%nat \/ k < N / 2)%nat ->
      (c < d)%nat -> nth c (nth k X []) C0 <> C0 ->
      nth k P NaN = Fin 1.
Proof.
  intros Hwf HN Hd.
  pose proof (wf_matrix_map RtoC Hwf) as Hwc.
  pose proof (wf_half_spectrum Hwf HN) as [HlH _].
  destruct (@psf_returns_rows N d x p w 0 window Hwf HN ltac:(lia))
    as [xp [P Hpsf]].
  { unfold psf_stack. cbn [Ssmooth]. now rewrite length_map. }
  destruct (psf_inv_series _ _ _ _ Hwf Hpsf) as [_ [_ [HlP _]]].
  destruct (@psf_inv N d x p w 0 window xp P Hwf Hpsf)
    as [X0 [_ [_ [Hft [_ [_ [_ [_ [Hmid _]]]]]]]]].
  rewrite (ft_matrix_default Hwc HN) in Hft. injection Hft as <-.
  exists (ft_matrix N (map (map RtoC) x)), xp, P.
  split; [exact (ft_matrix_default Hwc HN)|]. split; [exact Hpsf|].
  split; [exact HlP|]. intros k c Hk Hint Hc Hne.
  rewrite Hmid by lia. unfold psf_stack. cbn [Ssmooth].
  fold (half_spectrum N x).
  rewrite (@nth_map_lt _ _ _ _ k [] []) by lia.
  apply (@coherence_spectral_row d _ c); [exact Hd|exact Hc|].
  now rewrite nth_half_spectrum by lia.
Qed.

(** X12. Without smoothing ([n = 0]) the estimator is 1: for at least
    two channels [psf] returns, and the coherence is exactly 1 at every
    bin between the zero-frequency bin and the Nyquist bin where the
    spectrum of at least one channel is not zero. *)
Theorem psf_unsmoothed_coherence_is_one (N d : nat) (x : list (list R))
  (p w : nat) (window : option (nat -> list R)) :
  wf_matrix N d x -> (1 <= N)%nat -> (2 <= d)%nat ->
  exists X xp P,
    ft (map (map RtoC) x) None 0 = Ok (Finite X) /\
    psf x p w 0 window = Ok (xp, P) /\
    length P = (N / 2 + 1)%nat /\
    forall k c, (0 < k < N / 2 + 1)%nat ->
      (N mod 2 = 1%nat \/ k < N / 2)%nat ->
      (c < d)%nat -> nth c (nth k X []) C0 <> C0 ->
      nth k P NaN = Fin 1.
Proof. exact (@psf_no_smoothing N d x p w window). Qed.

Lemma psf_unsmoothed_coherence_is_one_witness :
  exists X xp P,
    ft (map (map RtoC) example_series) None 0 = Ok (Finite X) /\
    psf example_series 2 3 0 None = Ok (xp, P) /\
    length P = (3 / 2 + 1)%nat /\
    forall k c, (0 < k < 3 / 2 + 1)%nat ->
      (3 mod 2 = 1%nat \/ k < 3 / 2)%nat ->
      (c < 2)%nat -> nth c (nth k X []) C0 <> C0 ->
      nth k P NaN = Fin 1.
Proof.
  apply (@psf_unsmoothed_coherence_is_one 3 2 example_series 2 3 None).
  - exact wf_example_series.
  - lia.
  - lia.
Defined.

Lemma psf_narrow (N d : nat) (x : list (list R)) (p w n : nat)
  (window : option (nat -> list R)) :
  wf_matrix N d x -> (1 <= N)%nat -> (1 <= d)%nat ->
  (1 <= w <= 2)%nat -> (1 <= n)%nat ->
  psf x p w n window = Raise IndexError.
Proof.
  intros Hwf HN Hd Hw Hn. rewrite (psf_unfold p w n window Hwf HN Hd).
  unfold psf_stack. now rewrite Ssmooth_narrow.
Qed.

(** X13. A smoothing window of one or two weights: the slice
    [[w//2:-w//2+1]] that [Ssmooth] takes is empty, the coherence vector
    is empty, and [psf] raises [IndexError] at [P[0] = 0], for every
    series with a sample and a channel and every number [n >= 1] of
    smoothing passes.  The default [w = 3] is the least width that
    works. *)
Theorem psf_narrow_window_raises (N d : nat) (x : list (list R))
  (p w n : nat) (window : option (nat -> list R)) :
  wf_matrix N d x -> (1 <= N)%nat -> (1 <= d)%nat ->
  (1 <= w <= 2)%nat -> (1 <= n)%nat ->
  psf x p w n window = Raise IndexError.
Proof. exact (@psf_narrow N d x p w n window). Qed.

Lemma psf_narrow_window_raises_witness :
  psf example_series 2 2 3 None = Raise IndexError.
Proof.
  apply (@psf_narrow_window_raises 3 2 example_series 2 2 3 None).
  - exact wf_example_series.
  - lia.
  - lia.
  - lia.
  - lia.
Defined.

Lemma psf_one_column (N : nat) (x : list (list R)) (p w n : nat)
  (window : option (nat -> list R)) :
  wf_matrix N 1 x -> (3 <= N)%nat -> (3 <= w)%nat ->
  (forall f, window = Some f -> length (f w) = w) ->
  exists xp P,
    psf x p w n window = Ok (xp, P) /\
    length P = (N / 2 + 1)%nat /\
    (forall k, (0 < k < N / 2 + 1)%nat -> (N mod 2 = 1%nat \/ k < N / 2)%nat ->
       is_finite (nth k P NaN) = false) /\
    ((1 <= p)%nat -> xp = NonFinite).
Proof.
  intros Hwf HN Hw Hwin.
  destruct (@psf_returns N 1 x p w n window Hwf ltac:(lia) ltac:(lia) Hw Hwin)
    as [xp [P [Hpsf HlP]]].
  destruct (@psf_inv N 1 x p w n window xp P Hwf Hpsf)
    as [X0 [_ [_ [_ [_ [_ [_ [_ [Hmid [_ Hxp]]]]]]]]]].
  assert (Hnf : forall k, (0 < k < N / 2 + 1)%nat ->
            (N mod 2 = 1%nat \/ k < N / 2)%nat ->
            is_finite (nth k P NaN) = false).
  { intros k Hk Hint. rewrite Hmid by lia. apply coherence_one_channel. }
  exists xp, P. split; [exact Hpsf|]. split; [exact HlP|].
  split; [exact Hnf|]. intros Hp. apply Hxp.
  pose proof (parity_cases N) as Hpar.
  apply (@forallb_false_nth _ _ _ 1%nat NaN); [rewrite length_map; lia|].
  rewrite (@nth_map_lt _ _ _ _ 1%nat NaN NaN) by lia.
  apply fl_pow_nonfinite; [exact Hp|]. apply Hnf; lia.
Qed.

(** X14. One channel: the estimator divides by [d - 1 = 0].  For a
    single series of at least three samples [psf] raises nothing; the
    coherence it returns is not a finite number at any bin between the
    zero-frequency bin and the Nyquist bin, and with a contrast
    [p >= 1] the filtered series is not finite either. *)
Theorem psf_single_channel (N : nat) (x : list (list R)) (p w n : nat)
  (window : option (nat -> list R)) :
  wf_matrix N 1 x -> (3 <= N)%nat -> (3 <= w)%nat ->
  (forall f, window = Some f -> length (f w) = w) ->
  exists xp P,
    psf x p w n window = Ok (xp, P) /\
    length P = (N / 2 + 1)%nat /\
    (forall k, (0 < k < N / 2 + 1)%nat -> (N mod 2 = 1%nat \/ k < N / 2)%nat ->
       is_finite (nth k P NaN) = false) /\
    ((1 <= p)%nat -> xp = NonFinite).
Proof. exact (@psf_one_column N x p w n window). Qed.

Lemma psf_single_channel_witness :
  exists xp P,
    psf [[1]; [2]; [3]; [5]] 2 3 3 None = Ok (xp, P) /\
    length P = (4 / 2 + 1)%nat /\
    (forall k, (0 < k < 4 / 2 + 1)%nat -> (4 mod 2 = 1%nat \/ k < 4 / 2)%nat ->
       is_finite (nth k P NaN) = false) /\
    ((1 <= 2)%nat -> xp = NonFinite).
Proof.
  apply (@psf_single_channel 4 [[1]; [2]; [3]; [5]] 2 3 3 None).
  - split; [reflexivity|repeat constructor].
  - lia.
  - lia.
  - intros f Hf. discriminate.
Defined.

(** ** [fk_freq]: what the power map depends on *)

Module FkMore.

Lemma Rsum_map_minus (mu : R) (v : list R) :
  Rsum (map (fun x => x - mu) v) = Rsum v - INR (length v) * mu.
Proof.
  unfold Rsum. induction v as [|a v IH]; [simpl; ring|].
  cbn [map fold_right length]. rewrite IH, S_INR. ring.
Qed.

Lemma mean_demean (v : list R) : Np.mean (demean v) = 0.
Proof.
  unfold Np.mean, demean. rewrite Rsum_map_minus, length_map.
  destruct v as [|a v]; [unfold Rsum, Rdiv; simpl; ring|].
  assert (H : 0 < INR (length (a :: v))) by (apply lt_0_INR; simpl; lia).
  unfold Np.mean. field. lra.
Qed.

Lemma demean_idem (v : list R) : demean (demean v) = demean v.
Proof.
  unfold demean at 1. rewrite mean_demean.
  rewrite <- (map_id (demean v)) at 2. apply map_ext. intros x. ring.
Qed.

Lemma demean_shift (v v' : list R) (s : R) :
  length v' = length v ->
  (forall i, (i < length v)%nat -> nth i v' 0 = nth i v 0 + s) ->
  demean v' = demean v.
Proof.
  intros Hl Hs.
  assert (Hv' : v' = map (fun x => x + s) v).
  { apply nth_ext with (d := 0) (d' := 0); [now rewrite length_map|].
    intros i Hi. rewrite Hl in Hi.
    rewrite (@nth_map_lt _ _ _ _ i 0 0) by exact Hi. now apply Hs. }
  subst v'. unfold demean. rewrite map_map. apply map_ext_in. intros x Hx.
  unfold Np.mean. rewrite length_map.
  assert (Hsum : Rsum (map (fun x => x + s) v) = Rsum v + INR (length v) * s).
  { clear. unfold Rsum. induction v as [|a v IH]; [simpl; ring|].
    cbn [map fold_right length]. rewrite IH, S_INR. ring. }
  rewrite Hsum.
  assert (H : 0 < INR (length v)).
  { apply lt_0_INR. destruct v; [destruct Hx|simpl; lia]. }
  field. lra.
Qed.

Lemma column_demean_col (m n jj c : nat) (a : list (list R)) :
  wf_matrix m n a -> (jj < n)%nat ->
  column c (demean_col jj a) =
  if (c =? jj)%nat then demean (column jj a) else column c a.
Proof.
  intros Hwf Hjj. pose proof Hwf as [Hlen _].
  apply nth_ext with (d := 0) (d' := 0).
  - unfold column at 1. rewrite length_map, length_demean_col.
    destruct (c =? jj)%nat; [rewrite length_demean|]; unfold column;
      now rewrite length_map.
  - intros r Hr. unfold column at 1 in Hr.
    rewrite length_map, length_demean_col, Hlen in Hr.
    unfold column at 1.
    rewrite (@nth_map_lt _ _ _ _ r 0 []) by (rewrite length_demean_col; lia).
    rewrite (@entry_demean_col m n jj r c a Hwf Hr Hjj).
    destruct (Nat.eqb_spec c jj) as [->|Hne].
    + unfold demean.
      rewrite (@nth_map_lt _ _ _ _ r 0 0) by (unfold column; rewrite length_map; lia).
      unfold column at 2. now rewrite (@nth_map_lt _ _ _ _ r 0 []) by lia.
    + unfold column. now rewrite (@nth_map_lt _ _ _ _ r 0 []) by lia.
Qed.

Lemma demean_column_demean_col (m n jj c : nat) (a : list (list R)) :
  wf_matrix m n a -> (jj < n)%nat ->
  demean (column c (demean_col jj a)) = demean (column c a).
Proof.
  intros Hwf Hjj. rewrite (column_demean_col c Hwf Hjj).
  destruct (Nat.eqb_spec c jj) as [->|]; [apply demean_idem|reflexivity].
Qed.

Section Traces.
Variable cosine_taper : nat -> list R.

(** The coefficients of one trace: its mean removed, tapered,
    transformed, the band kept. *)
Definition trace_row (m : nat) (nlow nf : Z) (col : list R) : list C :=
  py_slice nlow (nlow + nf)
    (Np.rfft_vec (nfft_of m)
       (map (fun p => fst p * snd p) (combine (demean col) (cosine_taper m)))).

Lemma trace_rows_map (m n : nat) (nlow nf : Z) (jjs : list nat)
  (a : list (list R)) :
  wf_matrix m n a -> (forall jj, In jj jjs -> (jj < n)%nat) ->
  trace_rows cosine_taper m nlow nf jjs a =
  map (fun jj => trace_row m nlow nf (column jj a)) jjs.
Proof.
  revert a. induction jjs as [|jj jjs IH]; intros a Hwf Hjjs; [reflexivity|].
  assert (Hjj : (jj < n)%nat) by (apply Hjjs; now left).
  cbn [trace_rows map]. f_equal.
  - unfold trace_row. rewrite (column_demean_col jj Hwf Hjj).
    now rewrite Nat.eqb_refl.
  - rewrite IH; [|now apply wf_demean_col|intros j Hj; apply Hjjs; now right].
    apply map_ext_in. intros j Hj. unfold trace_row.
    now rewrite (demean_column_demean_col j Hwf Hjj).
Qed.

(** The outcome of [fk_freq] is a function of the recentred coordinates
    and of the traces without their means. *)
Lemma fk_freq_result_eq (data : loc) (fs : R) (rij : loc)
  (vmin vmax fmin fmax : R) (nvel ntheta : nat) (h h' : heap)
  (d n m nsta : nat) :
  data <> rij ->
  wf_matrix d n (h rij) -> wf_matrix d n (h' rij) -> (2 <= d)%nat ->
  wf_matrix m nsta (h data) -> wf_matrix m nsta (h' data) -> (1 <= m)%nat ->
  vmax <> 0 -> vmin <> 0 -> fs <> 0 ->
  demean (nth 0 (h' rij) []) = demean (nth 0 (h rij) []) ->
  demean (nth 1 (h' rij) []) = demean (nth 1 (h rij) []) ->
  (forall jj, (jj < nsta)%nat ->
     demean (column jj (h' data)) = demean (column jj (h data))) ->
  fst (fk_freq cosine_taper data fs rij vmin vmax fmin fmax nvel ntheta h') =
  fst (fk_freq cosine_taper data fs rij vmin vmax fmin fmax nvel ntheta h).
Proof.
  intros Hne Hr Hr' Hd Hdat Hdat' Hm Hvmax Hvmin Hfs H0 H1 Hcols.
  destruct (band_bins m fs fmin fmax) as [[nlow nhigh] nf] eqn:Hband.
  destruct (Z.ltb_spec nf 0) as [Hneg|Hpos].
  - rewrite !(@fk_freq_negative_band cosine_taper data fs rij vmin vmax fmin
                fmax nvel ntheta _ d n m nsta nlow nhigh nf) by assumption.
    reflexivity.
  - rewrite !(@fk_freq_run_rows cosine_taper data fs rij vmin vmax fmin
                fmax nvel ntheta _ d n m nsta nlow nhigh nf) by assumption.
    cbn [fst].
    assert (HTT : delays_of (recenter (h' rij)) vmin vmax nvel ntheta =
                  delays_of (recenter (h rij)) vmin vmax nvel ntheta).
    { unfold delays_of.
      destruct (recenter_rows Hr Hd) as [E0 [E1 _]].
      destruct (recenter_rows Hr' Hd) as [E0' [E1' _]].
      now rewrite E0, E1, E0', E1', H0, H1. }
    assert (Hft : trace_rows cosine_taper m nlow nf (seq 0 nsta) (h' data) =
                  trace_rows cosine_taper m nlow nf (seq 0 nsta) (h data)).
    { rewrite !(@trace_rows_map m nsta)
        by (try assumption; intros jj Hjj; rewrite in_seq in Hjj; lia).
      apply map_ext_in. intros jj Hjj. rewrite in_seq in Hjj.
      unfold trace_row. now rewrite (Hcols jj) by lia. }
    now rewrite HTT, Hft.
Qed.

End Traces.

Lemma list_ext_rows {A : Type} (d : nat) (a b : list (list A)) :
  length a = d -> length b = d ->
  (forall r, (r < d)%nat -> nth r a [] = nth r b []) -> a = b.
Proof.
  intros Ha Hb H. apply nth_ext with (d := []) (d' := []); [congruence|].
  intros r Hr. apply H. lia.
Qed.

Lemma recenter_idem (d n : nat) (a : list (list R)) :
  wf_matrix d n a -> (2 <= d)%nat -> recenter (recenter a) = recenter a.
Proof.
  intros Hwf Hd. pose proof (wf_recenter Hwf Hd) as Hwr.
  destruct (recenter_rows Hwf Hd) as [E0 [E1 E2]].
  destruct (recenter_rows Hwr Hd) as [F0 [F1 F2]].
  apply (@list_ext_rows _ d);
    [apply (wf_recenter Hwr Hd)|apply Hwr|].
  intros r Hr. destruct r as [|[|r]].
  - now rewrite F0, E0, demean_idem.
  - now rewrite F1, E1, demean_idem.
  - now rewrite F2 by lia.
Qed.

Lemma column_demean_cols (m n c : nat) (a : list (list R)) :
  wf_matrix m n a -> (c < n)%nat ->
  column c (demean_cols (seq 0 n) a) = demean (column c a).
Proof.
  intros Hwf Hc. pose proof Hwf as [Hlen _].
  pose proof (wf_demean_cols (seq 0 n) Hwf) as [Hl' _].
  apply nth_ext with (d := 0) (d' := 0).
  - unfold column at 1. rewrite length_map, Hl', length_demean.
    unfold column. now rewrite length_map.
  - intros r Hr. unfold column at 1 in Hr. rewrite length_map, Hl' in Hr.
    unfold column at 1.
    rewrite (@nth_map_lt _ _ _ _ r 0 []) by lia.
    rewrite (@entry_demean_cols m n n r c a Hwf Hr (le_n _)).
    destruct (Nat.ltb_spec c n); [|lia]. unfold demean.
    rewrite (@nth_map_lt _ _ _ _ r 0 0) by (unfold column; rewrite length_map; lia).
    unfold column at 2. now rewrite (@nth_map_lt _ _ _ _ r 0 []) by lia.
Qed.

Lemma demean_cols_idem (m n : nat) (a : list (list R)) :
  wf_matrix m n a ->
  demean_cols (seq 0 n) (demean_cols (seq 0 n) a) = demean_cols (seq 0 n) a.
Proof.
  intros Hwf. pose proof (wf_demean_cols (seq 0 n) Hwf) as Hw1.
  pose proof (wf_demean_cols (seq 0 n) Hw1) as Hw2.
  apply (@FourierFacts.matrix_ext _ 0 m n); [exact Hw2|exact Hw1|].
  intros r c Hr Hc.
  rewrite (@entry_demean_cols m n n r c _ Hw1 Hr (le_n _)).
  destruct (Nat.ltb_spec c n); [|lia].
  rewrite (column_demean_cols Hwf Hc), mean_demean. ring.
Qed.

End FkMore.

Import FkMore.

Lemma fk_freq_offsets (cosine_taper : nat -> list R)
  (data : loc) (fs : R) (rij : loc) (vmin vmax fmin fmax : R)
  (nvel ntheta : nat) (h h' : heap) (d n m nsta : nat)
  (s0 s1 : R) (o : nat -> R) :
  data <> rij ->
  wf_matrix d n (h rij) -> wf_matrix d n (h' rij) -> (2 <= d)%nat ->
  wf_matrix m nsta (h data) -> wf_matrix m nsta (h' data) -> (1 <= m)%nat ->
  vmax <> 0 -> vmin <> 0 -> fs <> 0 ->
  (forall i, (i < n)%nat ->
     nth i (nth 0 (h' rij) []) 0 = nth i (nth 0 (h rij) []) 0 + s0) ->
  (forall i, (i < n)%nat ->
     nth i (nth 1 (h' rij) []) 0 = nth i (nth 1 (h rij) []) 0 + s1) ->
  (forall r c, (r < m)%nat -> (c < nsta)%nat ->
     nth c (nth r (h' data) []) 0 = nth c (nth r (h data) []) 0 + o c) ->
  fst (fk_freq cosine_taper data fs rij vmin vmax fmin fmax nvel ntheta h') =
  fst (fk_freq cosine_taper data fs rij vmin vmax fmin fmax nvel ntheta h).
Proof.
  intros Hne Hr Hr' Hd Hdat Hdat' Hm Hvmax Hvmin Hfs H0 H1 Hcols.
  apply (@fk_freq_result_eq cosine_taper data fs rij vmin vmax fmin fmax
           nvel ntheta h h' d n m nsta); try assumption.
  - apply (@demean_shift _ _ s0).
    + now rewrite (@wf_matrix_nth _ d n _ 0%nat Hr'),
        (@wf_matrix_nth _ d n _ 0%nat Hr) by lia.
    + intros i Hi. apply H0.
      now rewrite (@wf_matrix_nth _ d n _ 0%nat Hr) in Hi by lia.
  - apply (@demean_shift _ _ s1).
    + now rewrite (@wf_matrix_nth _ d n _ 1%nat Hr'),
        (@wf_matrix_nth _ d n _ 1%nat Hr) by lia.
    + intros i Hi. apply H1.
      now rewrite (@wf_matrix_nth _ d n _ 1%nat Hr) in Hi by lia.
  - intros jj Hjj. pose proof Hdat as [Hl _]. pose proof Hdat' as [Hl' _].
    apply (@demean_shift _ _ (o jj)).
    + unfold column. now rewrite !length_map, Hl, Hl'.
    + intros r Hri. unfold column in Hri. rewrite length_map, Hl in Hri.
      unfold column. rewrite !(@nth_map_lt _ _ _ _ r 0 []) by lia.
      now apply Hcols.
Qed.

(** The same four samples of two sensors, every trace and every
    coordinate moved by a constant. *)
Definition shifted_heap : heap :=
  fun l => if (l =? 0)%nat then [[11; 2]; [13; 2]; [11; 2]; [13; 2]]
           else [[5; 7]; [1; 5]].

Lemma wf_shifted_data : wf_matrix 4 2 (shifted_heap 0%nat).
Proof. split; [reflexivity|]. repeat constructor. Qed.

Lemma wf_shifted_rij : wf_matrix 2 2 (shifted_heap 1%nat).
Proof. split; [reflexivity|]. repeat constructor. Qed.

(** X15. The outcome of [fk_freq] does not depend on the level of the
    traces nor on the origin of the coordinates: adding a constant to
    every sample of a trace, to every northing or to every easting,
    leaves the power map (or the exception) as it was.  Both are removed
    by the subtraction of the means. *)
Theorem fk_freq_ignores_offsets (cosine_taper : nat -> list R)
  (data : loc) (fs : R) (rij : loc) (vmin vmax fmin fmax : R)
  (nvel ntheta : nat) (h h' : heap) (d n m nsta : nat)
  (s0 s1 : R) (o : nat -> R) :
  data <> rij ->
  wf_matrix d n (h rij) -> wf_matrix d n (h' rij) -> (2 <= d)%nat ->
  wf_matrix m nsta (h data) -> wf_matrix m nsta (h' data) -> (1 <= m)%nat ->
  vmax <> 0 -> vmin <> 0 -> fs <> 0 ->
  (forall i, (i < n)%nat ->
     nth i (nth 0 (h' rij) []) 0 = nth i (nth 0 (h rij) []) 0 + s0) ->
  (forall i, (i < n)%nat ->
     nth i (nth 1 (h' rij) []) 0 = nth i (nth 1 (h rij) []) 0 + s1) ->
  (forall r c, (r < m)%nat -> (c < nsta)%nat ->
     nth c (nth r (h' data) []) 0 = nth c (nth r (h data) []) 0 + o c) ->
  fst (fk_freq cosine_taper data fs rij vmin vmax fmin fmax nvel ntheta h') =
  fst (fk_freq cosine_taper data fs rij vmin vmax fmin fmax nvel ntheta h).
Proof.
  exact (@fk_freq_offsets cosine_taper data fs rij vmin vmax fmin fmax nvel
           ntheta h h' d n m nsta s0 s1 o).
Qed.

Lemma fk_freq_ignores_offsets_witness :
  fst (fk_freq flat_taper 0%nat 4 1%nat 1 2 1 1 2%nat 2%nat shifted_heap) =
  fst (fk_freq flat_taper 0%nat 4 1%nat 1 2 1 1 2%nat 2%nat example_heap).
Proof.
  apply (@fk_freq_ignores_offsets flat_taper 0%nat 4 1%nat 1 2 1 1 2%nat 2%nat
           example_heap shifted_heap 2%nat 2%nat 4%nat 2%nat 5 1
           (fun c => if (c =? 0)%nat then 10 else 0));
    try (apply wf_example_data); try (apply wf_example_rij);
    try (apply wf_shifted_data); try (apply wf_shifted_rij);
    try lia; try lra.
  - intros i Hi. destruct i as [|[|i]]; try lia; simpl; lra.
  - intros i Hi. destruct i as [|[|i]]; try lia; simpl; lra.
  - intros r c Hr Hc.
    destruct c as [|[|c]]; try lia;
      destruct r as [|[|[|[|r]]]]; try lia; simpl; lra.
Defined.

Lemma fk_freq_again (cosine_taper : nat -> list R)
  (data : loc) (fs : R) (rij : loc) (vmin vmax fmin fmax : R)
  (nvel ntheta : nat) (h : heap) (d n m nsta : nat) :
  data <> rij ->
  wf_matrix d n (h rij) -> (2 <= d)%nat ->
  wf_matrix m nsta (h data) -> (1 <= m)%nat ->
  vmax <> 0 -> vmin <> 0 -> fs <> 0 ->
  fk_freq cosine_taper data fs rij vmin vmax fmin fmax nvel ntheta
    (snd (fk_freq cosine_taper data fs rij vmin vmax fmin fmax nvel ntheta h))
  = fk_freq cosine_taper data fs rij vmin vmax fmin fmax nvel ntheta h.
Proof.
  intros Hne Hr Hd Hdat Hm Hvmax Hvmin Hfs.
  assert (Hne' : rij <> data) by (intros E; apply Hne; now symmetry).
  pose proof (wf_recenter Hr Hd) as Hwr.
  destruct (band_bins m fs fmin fmax) as [[nlow nhigh] nf] eqn:Hband.
  destruct (Z.ltb_spec nf 0) as [Hneg|Hpos].
  - rewrite (@fk_freq_negative_band cosine_taper data fs rij vmin vmax fmin
               fmax nvel ntheta h d n m nsta nlow nhigh nf) by assumption.
    cbn [snd]. set (h1 := upd h rij (recenter (h rij))).
    assert (H1r : h1 rij = recenter (h rij)) by apply upd_same.
    assert (H1d : h1 data = h data) by (apply upd_other; exact Hne).
    rewrite (@fk_freq_negative_band cosine_taper data fs rij vmin vmax fmin
               fmax nvel ntheta h1 d n m nsta nlow nhigh nf);
      try assumption; [|now rewrite H1r|now rewrite H1d].
    rewrite H1r, (recenter_idem Hr Hd). unfold h1. now rewrite upd_upd.
  - rewrite (@fk_freq_run_rows cosine_taper data fs rij vmin vmax fmin
               fmax nvel ntheta h d n m nsta nlow nhigh nf) by assumption.
    cbn [snd].
    set (h2 := upd (upd h rij (recenter (h rij))) data
                 (demean_cols (seq 0 nsta) (h data))).
    assert (H2r : h2 rij = recenter (h rij)).
    { unfold h2. rewrite upd_other by exact Hne'. apply upd_same. }
    assert (H2d : h2 data = demean_cols (seq 0 nsta) (h data))
      by apply upd_same.
    pose proof (wf_demean_cols (seq 0 nsta) Hdat) as Hwd.
    rewrite (@fk_freq_run_rows cosine_taper data fs rij vmin vmax fmin
               fmax nvel ntheta h2 d n m nsta nlow nhigh nf);
      try assumption; [|now rewrite H2r|now rewrite H2d].
    assert (Er : recenter (h2 rij) = h2 rij)
      by (rewrite H2r; apply (recenter_idem Hr Hd)).
    assert (Ed : demean_cols (seq 0 nsta) (h2 data) = h2 data)
      by (rewrite H2d; apply (demean_cols_idem Hdat)).
    rewrite Er, Ed, !upd_id. f_equal.
    rewrite H2r, H2d.
    rewrite !(@trace_rows_map cosine_taper m nsta)
      by (try assumption; intros jj Hjj; rewrite in_seq in Hjj; lia).
    assert (Hrows : map (fun jj => trace_row cosine_taper m nlow nf
                                     (column jj (demean_cols (seq 0 nsta) (h data))))
                        (seq 0 nsta) =
                    map (fun jj => trace_row cosine_taper m nlow nf
                                     (column jj (h data))) (seq 0 nsta)).
    { apply map_ext_in. intros jj Hjj. rewrite in_seq in Hjj.
      unfold trace_row.
      rewrite (column_demean_cols Hdat) by lia. now rewrite demean_idem. }
    now rewrite Hrows.
Qed.

(** X16. Calling [fk_freq] again on the arrays that a first call has
    overwritten returns the same outcome and changes the arrays no
    further: coordinates that are recentred and traces whose means are
    removed are fixed points of the in-place updates. *)
Theorem fk_freq_second_call (cosine_taper : nat -> list R)
  (data : loc) (fs : R) (rij : loc) (vmin vmax fmin fmax : R)
  (nvel ntheta : nat) (h : heap) (d n m nsta : nat) :
  data <> rij ->
  wf_matrix d n (h rij) -> (2 <= d)%nat ->
  wf_matrix m nsta (h data) -> (1 <= m)%nat ->
  vmax <> 0 -> vmin <> 0 -> fs <> 0 ->
  fk_freq cosine_taper data fs rij vmin vmax fmin fmax nvel ntheta
    (snd (fk_freq cosine_taper data fs rij vmin vmax fmin fmax nvel ntheta h))
  = fk_freq cosine_taper data fs rij vmin vmax fmin fmax nvel ntheta h.
Proof.
  exact (@fk_freq_again cosine_taper data fs rij vmin vmax fmin fmax nvel
           ntheta h d n m nsta).
Qed.

Lemma fk_freq_second_call_witness :
  fk_freq flat_taper 0%nat 4 1%nat 1 2 1 1 2%nat 2%nat
    (snd (fk_freq flat_taper 0%nat 4 1%nat 1 2 1 1 2%nat 2%nat example_heap))
  = fk_freq flat_taper 0%nat 4 1%nat 1 2 1 1 2%nat 2%nat example_heap.
Proof.
  apply (@fk_freq_second_call flat_taper 0%nat 4 1%nat 1 2 1 1 2%nat 2%nat
           example_heap 2%nat 2%nat 4%nat 2%nat);
    try (apply wf_example_data); try (apply wf_example_rij);
    try lia; lra.
Defined.

(** ** [fk_freq]: shapes and errors *)

Module FkEdges.

Lemma wf_add_matrix (m n : nat) (A B : list (list R)) :
  wf_matrix m n A -> wf_matrix m n B -> wf_matrix m n (add_matrix A B).
Proof.
  intros [HlA HrA] [HlB HrB]. unfold add_matrix. split.
  - rewrite length_map, length_combine. lia.
  - rewrite Forall_forall in *. intros row Hrow. rewrite in_map_iff in Hrow.
    destruct Hrow as [[ra rb] [<- Hin]]. cbn [fst snd].
    rewrite length_map, length_combine.
    rewrite (HrA ra (in_combine_l _ _ _ _ Hin)).
    rewrite (HrB rb (in_combine_r _ _ _ _ Hin)). lia.
Qed.

Lemma wf_zeros (m n : nat) : wf_matrix m n (zeros m n).
Proof.
  unfold zeros. split; [apply repeat_length|].
  rewrite Forall_forall. intros row Hrow. apply repeat_spec in Hrow.
  subst row. apply repeat_length.
Qed.

Lemma wf_master_map {B : Type} (f : list C -> B) (nvel ntheta : nat)
  (freq : R) (TT : list (list (list R))) (fcoeff : list C) :
  wf_matrix nvel ntheta TT ->
  wf_matrix nvel ntheta (map (map f) (master freq TT fcoeff)).
Proof.
  intros H. unfold master. apply wf_matrix_map. now apply wf_matrix_map.
Qed.

Lemma fold_raise {A B : Type} (f : A -> B -> result A) (l : list B) (e : exn) :
  fold_left (fun acc b => a <- acc ;; f a b) l (Raise e) = Raise e.
Proof. induction l as [|b l IH]; [reflexivity|exact IH]. Qed.

Lemma freq_loop_shape (n nsta nvel ntheta : nat) (TT : list (list (list R)))
  (ft : list (list C)) (freqrange : list R)
  (acc : list (list R) * list (list R)) :
  wf_matrix nvel ntheta TT ->
  freq_loop n nsta nvel ntheta TT ft freqrange = Ok acc ->
  wf_matrix nvel ntheta (fst acc) /\ wf_matrix nvel ntheta (snd acc).
Proof.
  intros HTT. unfold freq_loop.
  assert (Hgen : forall iis acc0,
            wf_matrix nvel ntheta (fst acc0) ->
            wf_matrix nvel ntheta (snd acc0) ->
            fold_left (fun acc ii => a <- acc ;;
                         freq_step n nsta TT ft freqrange a ii)
                      iis (Ok acc0) = Ok acc ->
            wf_matrix nvel ntheta (fst acc) /\ wf_matrix nvel ntheta (snd acc)).
  { induction iis as [|ii iis IH]; intros acc0 H0 H1 Hrun.
    - injection Hrun as <-. now split.
    - cbn [fold_left bind] in Hrun. unfold freq_step at 2 in Hrun.
      destruct (broadcastable n nsta).
      + apply IH in Hrun; [exact Hrun| |]; cbn [fst snd].
        * apply wf_add_matrix; [exact H0|].
          apply wf_matrix_map. now apply wf_master_map.
        * apply wf_add_matrix; [exact H1|]. now apply wf_master_map.
      + rewrite fold_raise in Hrun. discriminate. }
  apply Hgen; apply wf_zeros.
Qed.

Lemma wf_power_map (m n : nat) (acc : list (list R) * list (list R)) :
  wf_matrix m n (fst acc) -> wf_matrix m n (snd acc) ->
  wf_matrix m n (power_map acc).
Proof.
  intros [HlA HrA] [HlB HrB]. unfold power_map. split.
  - rewrite length_map, length_combine. lia.
  - rewrite Forall_forall in *. intros row Hrow. rewrite in_map_iff in Hrow.
    destruct Hrow as [[ra rb] [<- Hin]]. cbn [fst snd].
    rewrite length_map, length_combine.
    rewrite (HrA ra (in_combine_l _ _ _ _ Hin)).
    rewrite (HrB rb (in_combine_r _ _ _ _ Hin)). lia.
Qed.

(** The clamped band keeps at most [nfft//2 - 1] bins. *)
Lemma band_bins_le (m : nat) (fs fmin fmax : R) (nlow nhigh nf : Z) :
  band_bins m fs fmin fmax = (nlow, nhigh, nf) ->
  (1 <= nlow)%Z /\ (nhigh <= Z.of_nat (nfft_of m) / 2 - 1)%Z /\
  nf = (nhigh - nlow + 1)%Z.
Proof.
  unfold band_bins. intros H. injection H as <- <- <-. lia.
Qed.

Section Errors.
Variable cosine_taper : nat -> list R.

Lemma fk_freq_shape (data : loc) (fs : R) (rij : loc)
  (vmin vmax fmin fmax : R) (nvel ntheta : nat) (h : heap)
  (d n m nsta : nat) (pm : list (list fl)) (h' : heap) :
  data <> rij ->
  wf_matrix d n (h rij) -> (2 <= d)%nat ->
  wf_matrix m nsta (h data) -> (1 <= m)%nat ->
  vmax <> 0 -> vmin <> 0 -> fs <> 0 ->
  fk_freq cosine_taper data fs rij vmin vmax fmin fmax nvel ntheta h
  = (Ok pm, h') ->
  wf_matrix nvel ntheta pm.
Proof.
  intros Hne Hr Hd Hdat Hm Hvmax Hvmin Hfs Hrun.
  destruct (band_bins m fs fmin fmax) as [[nlow nhigh] nf] eqn:Hband.
  destruct (Z.ltb_spec nf 0) as [Hneg|Hpos].
  - rewrite (@fk_freq_negative_band cosine_taper data fs rij vmin vmax fmin
               fmax nvel ntheta h d n m nsta nlow nhigh nf) in Hrun
      by assumption.
    discriminate.
  - rewrite (@fk_freq_run_rows cosine_taper data fs rij vmin vmax fmin
               fmax nvel ntheta h d n m nsta nlow nhigh nf) in Hrun
      by assumption.
    destruct (freq_loop _ _ _ _ _ _ _) as [acc|e] eqn:Hloop; [|discriminate].
    injection Hrun as <- _.
    apply freq_loop_shape in Hloop; [|apply wf_delays_of].
    now apply wf_power_map.
Qed.

Lemma step_get (rij : loc) (B : Type) (k : list R -> M B) (g : heap) (c : nat) :
  (c < length (g rij))%nat ->
  bindM (get_col (transpose (as_view rij)) c) k g = k (nth c (g rij) []) g.
Proof.
  intros Hc. unfold bindM, get_col, transpose, as_view. simpl.
  apply Nat.ltb_lt in Hc. now rewrite Hc.
Qed.

Lemma step_set (rij : loc) (B : Type) (k : unit -> M B) (g : heap) (c : nat)
  (vals : list R) :
  (c < length (g rij))%nat ->
  bindM (set_col (transpose (as_view rij)) c vals) k g
  = k tt (upd g rij (set_nth c vals (g rij))).
Proof.
  intros Hc. unfold bindM, set_col, transpose, as_view. simpl.
  apply Nat.ltb_lt in Hc. now rewrite Hc.
Qed.

(** The errors that [fk_freq] meets once the coordinates are recentred,
    in the order of the code. *)
Lemma fk_freq_early (data : loc) (fs : R) (rij : loc)
  (vmin vmax fmin fmax : R) (nvel ntheta : nat) (h : heap) (d n : nat) :
  data <> rij ->
  wf_matrix d n (h rij) -> (2 <= d)%nat ->
  (vmax = 0 \/ vmin = 0 ->
   fk_freq cosine_taper data fs rij vmin vmax fmin fmax nvel ntheta h
   = (Raise ZeroDivisionError, upd h rij (recenter (h rij)))) /\
  (vmax <> 0 -> vmin <> 0 -> h data = [] ->
   fk_freq cosine_taper data fs rij vmin vmax fmin fmax nvel ntheta h
   = (Raise OverflowError, upd h rij (recenter (h rij)))) /\
  (vmax <> 0 -> vmin <> 0 -> h data <> [] -> fs = 0 ->
   fk_freq cosine_taper data fs rij vmin vmax fmin fmax nvel ntheta h
   = (Raise ZeroDivisionError, upd h rij (recenter (h rij)))).
Proof.
  intros Hne Hrij Hd. pose proof Hrij as [Hlen _].
  set (a := h rij) in *.
  set (a1 := set_nth 0 (demean (nth 0 a [])) a).
  set (h1 := upd h rij (recenter a)).
  assert (Hh1r : h1 rij = recenter a) by apply upd_same.
  assert (Hh1d : h1 data = h data) by (apply upd_other; exact Hne).
  assert (Hlr : length (recenter a) = d)
    by (unfold recenter; now rewrite !length_set_nth).
  assert (Hpre : forall (B : Type) (k : unit -> M B),
            bindM (get_col (transpose (as_view rij)) 0)
              (fun c0 =>
                 bindM (set_col (transpose (as_view rij)) 0
                          (map (fun v => v - Np.mean c0) c0))
                   (fun _ =>
                      bindM (get_col (transpose (as_view rij)) 1)
                        (fun c1 =>
                           bindM (set_col (transpose (as_view rij)) 1
                                    (map (fun v => v - Np.mean c1) c1)) k))) h
            = k tt h1).
  { intros B k.
    rewrite step_get by (fold a; lia). fold a.
    rewrite step_set by (fold a; lia). fold a.
    fold (demean (nth 0 a [])). fold a1.
    set (g1 := upd h rij a1).
    assert (Hg1 : g1 rij = a1) by apply upd_same.
    assert (Hla1 : length a1 = d) by (unfold a1; now rewrite length_set_nth).
    rewrite step_get by (rewrite Hg1; lia). rewrite Hg1.
    rewrite step_set by (rewrite Hg1; lia). rewrite Hg1.
    fold (demean (nth 1 a1 [])).
    assert (H1 : nth 1 a1 [] = nth 1 a []).
    { unfold a1. rewrite nth_set_nth by lia. reflexivity. }
    rewrite H1. fold (recenter a). unfold g1. now rewrite upd_upd. }
  split; [|split].
  - intros Hv. unfold fk_freq. rewrite Hpre.
    unfold bindM at 1. unfold get_shape. rewrite Hh1d.
    destruct (shape (h data)) as [m nsta].
    destruct (Req_dec_T vmax 0) as [E|E]; [reflexivity|].
    destruct (Req_dec_T vmin 0) as [E'|E']; [reflexivity|].
    destruct Hv; contradiction.
  - intros Hvmax Hvmin Hdata. unfold fk_freq. rewrite Hpre.
    unfold bindM at 1. unfold get_shape. rewrite Hh1d.
    rewrite Hdata. cbn [shape length hd].
    destruct (Req_dec_T vmax 0) as [E|_]; [contradiction|].
    destruct (Req_dec_T vmin 0) as [E|_]; [contradiction|].
    rewrite step_get by (rewrite Hh1r; lia). rewrite Hh1r.
    rewrite step_get by (rewrite Hh1r; lia). rewrite Hh1r.
    reflexivity.
  - intros Hvmax Hvmin Hdata Hfs. unfold fk_freq. rewrite Hpre.
    unfold bindM at 1. unfold get_shape. rewrite Hh1d.
    destruct (shape (h data)) as [m nsta] eqn:Hsh.
    assert (Hm : m <> 0%nat).
    { unfold shape in Hsh. injection Hsh as <- _.
      destruct (h data); [congruence|discriminate]. }
    destruct (Req_dec_T vmax 0) as [E|_]; [contradiction|].
    destruct (Req_dec_T vmin 0) as [E|_]; [contradiction|].
    rewrite step_get by (rewrite Hh1r; lia). rewrite Hh1r.
    rewrite step_get by (rewrite Hh1r; lia). rewrite Hh1r.
    destruct (Nat.eqb_spec m 0) as [E|_]; [contradiction|].
    destruct (Req_dec_T (fs / INR (nfft_of m)) 0) as [_|E]; [reflexivity|].
    elim E. rewrite Hfs. unfold Rdiv. ring.
Qed.

(** Fewer than two rows of coordinates. *)
Lemma fk_freq_few_rows (data : loc) (fs : R) (rij : loc)
  (vmin vmax fmin fmax : R) (nvel ntheta : nat) (h : heap) :
  (h rij = [] ->
   fk_freq cosine_taper data fs rij vmin vmax fmin fmax nvel ntheta h
   = (Raise IndexError, h)) /\
  (forall row, h rij = [row] ->
   fk_freq cosine_taper data fs rij vmin vmax fmin fmax nvel ntheta h
   = (Raise IndexError, upd h rij [demean row])).
Proof.
  split.
  - intros E. unfold fk_freq, bindM, get_col, transpose, as_view. simpl.
    now rewrite E.
  - intros row E. unfold fk_freq.
    rewrite step_get by (rewrite E; simpl; lia).
    rewrite step_set by (rewrite E; simpl; lia).
    rewrite E. cbn [nth set_nth]. fold (demean row).
    unfold bindM, get_col, transpose, as_view. simpl.
    now rewrite upd_same.
Qed.

(** One or two samples: the band is empty. *)
Lemma fk_freq_short (data : loc) (fs : R) (rij : loc)
  (vmin vmax fmin fmax : R) (nvel ntheta : nat) (h : heap)
  (d n m nsta : nat) :
  data <> rij ->
  wf_matrix d n (h rij) -> (2 <= d)%nat ->
  wf_matrix m nsta (h data) -> (1 <= m <= 2)%nat ->
  vmax <> 0 -> vmin <> 0 -> fs <> 0 ->
  (m = 1%nat ->
   fst (fk_freq cosine_taper data fs rij vmin vmax fmin fmax nvel ntheta h)
   = Raise ValueError) /\
  (fst (fk_freq cosine_taper data fs rij vmin vmax fmin fmax nvel ntheta h)
   = Raise ValueError \/
   fst (fk_freq cosine_taper data fs rij vmin vmax fmin fmax nvel ntheta h)
   = Ok (repeat (repeat NaN ntheta) nvel)).
Proof.
  intros Hne Hr Hd Hdat Hm Hvmax Hvmin Hfs.
  destruct (band_bins m fs fmin fmax) as [[nlow nhigh] nf] eqn:Hband.
  destruct (band_bins_le Hband) as [Hlo [Hhi Hnf]].
  destruct (@fk_freq_empty_band cosine_taper data fs rij vmin vmax fmin fmax
              nvel ntheta h d n m nsta nlow nhigh nf)
    as [Hzero Hneg]; try assumption; [lia|].
  assert (Hcases : m = 1%nat \/ m = 2%nat) by lia.
  destruct Hcases as [-> | ->].
  - change (Z.of_nat (nfft_of 1) / 2 - 1)%Z with (-1)%Z in Hhi.
    split; [intros _|left]; apply Hneg; lia.
  - change (Z.of_nat (nfft_of 2) / 2 - 1)%Z with 0%Z in Hhi.
    split; [intros E; discriminate|].
    assert (Hc : (nf < 0)%Z \/ nf = 0%Z) by lia.
    destruct Hc as [Hc|Hc]; [left; now apply Hneg|right; now apply Hzero].
Qed.

(** As many coordinates as traces are needed, unless one of the two
    numbers is 1. *)
Lemma fk_freq_mismatch (data : loc) (fs : R) (rij : loc)
  (vmin vmax fmin fmax : R) (nvel ntheta : nat) (h : heap)
  (d n m nsta : nat) (nlow nhigh nf : Z) :
  data <> rij ->
  wf_matrix d n (h rij) -> (2 <= d)%nat ->
  wf_matrix m nsta (h data) -> (1 <= m)%nat ->
  vmax <> 0 -> vmin <> 0 -> fs <> 0 ->
  band_bins m fs fmin fmax = (nlow, nhigh, nf) -> (1 <= nf)%Z ->
  n <> nsta -> n <> 1%nat -> nsta <> 1%nat ->
  fk_freq cosine_taper data fs rij vmin vmax fmin fmax nvel ntheta h
  = (Raise ValueError,
     upd (upd h rij (recenter (h rij))) data
         (demean_cols (seq 0 nsta) (h data))).
Proof.
  intros Hne Hr Hd Hdat Hm Hvmax Hvmin Hfs Hband Hnf Hn1 Hn2 Hn3.
  rewrite (@fk_freq_run_rows cosine_taper data fs rij vmin vmax fmin
             fmax nvel ntheta h d n m nsta nlow nhigh nf)
    by (try assumption; lia).
  unfold freq_loop. rewrite length_linspace. unfold range.
  rewrite Nat.sub_0_r.
  destruct (Z.to_nat nf) as [|k] eqn:E; [lia|].
  cbn [seq fold_left bind]. unfold freq_step at 2.
  assert (Hb : broadcastable n nsta = false).
  { unfold broadcastable.
    destruct (Nat.eqb_spec n nsta); [contradiction|].
    destruct (Nat.eqb_spec n 1); [contradiction|].
    destruct (Nat.eqb_spec nsta 1); [contradiction|]. reflexivity. }
  rewrite Hb, fold_raise. reflexivity.
Qed.

End Errors.

End FkEdges.

Import FkEdges.

Lemma fk_freq_shape_and_return (cosine_taper : nat -> list R)
  (data : loc) (fs : R) (rij : loc) (vmin vmax fmin fmax : R)
  (nvel ntheta : nat) (h : heap) (d n m : nat) :
  data <> rij ->
  wf_matrix d n (h rij) -> (2 <= d)%nat ->
  wf_matrix m n (h data) -> (1 <= m)%nat ->
  vmax <> 0 -> vmin <> 0 -> fs <> 0 ->
  (forall pm h',
     fk_freq cosine_taper data fs rij vmin vmax fmin fmax nvel ntheta h
     = (Ok pm, h') -> wf_matrix nvel ntheta pm) /\
  ((0 <= snd (band_bins m fs fmin fmax))%Z ->
   exists pm h',
     fk_freq cosine_taper data fs rij vmin vmax fmin fmax nvel ntheta h
     = (Ok pm, h') /\ wf_matrix nvel ntheta pm).
Proof.
  intros Hne Hr Hd Hdat Hm Hvmax Hvmin Hfs.
  assert (Hall : forall pm h',
            fk_freq cosine_taper data fs rij vmin vmax fmin fmax nvel ntheta h
            = (Ok pm, h') -> wf_matrix nvel ntheta pm).
  { intros pm h' Hrun.
    exact (@fk_freq_shape cosine_taper data fs rij vmin vmax fmin fmax nvel
             ntheta h d n m n pm h' Hne Hr Hd Hdat Hm Hvmax Hvmin Hfs Hrun). }
  split; [exact Hall|]. intros Hnf.
  destruct (@fk_freq_bounded cosine_taper data fs rij vmin vmax fmin fmax
              nvel ntheta h d n m Hne Hr Hd Hdat Hm Hvmax Hvmin Hfs)
    as [_ Hex].
  destruct (Hex Hnf) as [pm [h' Hrun]]. exists pm, h'.
  split; [exact Hrun|now apply (Hall pm h')].
Qed.

(** X17. The power map that [fk_freq] returns has [nvel] rows and
    [ntheta] columns (the docstring announces [(ntheta, nvel)]), and for
    data of as many traces as sensors it is returned whenever the band
    keeps a bin count [nf >= 0]. *)
Theorem fk_freq_map_shape (cosine_taper : nat -> list R)
  (data : loc) (fs : R) (rij : loc) (vmin vmax fmin fmax : R)
  (nvel ntheta : nat) (h : heap) (d n m : nat) :
  data <> rij ->
  wf_matrix d n (h rij) -> (2 <= d)%nat ->
  wf_matrix m n (h data) -> (1 <= m)%nat ->
  vmax <> 0 -> vmin <> 0 -> fs <> 0 ->
  (forall pm h',
     fk_freq cosine_taper data fs rij vmin vmax fmin fmax nvel ntheta h
     = (Ok pm, h') -> wf_matrix nvel ntheta pm) /\
  ((0 <= snd (band_bins m fs fmin fmax))%Z ->
   exists pm h',
     fk_freq cosine_taper data fs rij vmin vmax fmin fmax nvel ntheta h
     = (Ok pm, h') /\ wf_matrix nvel ntheta pm).
Proof.
  exact (@fk_freq_shape_and_return cosine_taper data fs rij vmin vmax fmin
           fmax nvel ntheta h d n m).
Qed.

Lemma fk_freq_map_shape_witness :
  (forall pm h',
     fk_freq flat_taper 0%nat 4 1%nat 1 2 1 1 3%nat 5%nat example_heap
     = (Ok pm, h') -> wf_matrix 3 5 pm) /\
  ((0 <= snd (band_bins 4 4 1 1))%Z ->
   exists pm h',
     fk_freq flat_taper 0%nat 4 1%nat 1 2 1 1 3%nat 5%nat example_heap
     = (Ok pm, h') /\ wf_matrix 3 5 pm).
Proof.
  apply (@fk_freq_map_shape flat_taper 0%nat 4 1%nat 1 2 1 1 3%nat 5%nat
           example_heap 2%nat 2%nat 4%nat);
    try (apply wf_example_data); try (apply wf_example_rij);
    try lia; lra.
Defined.

(** X18. The errors that [fk_freq] meets after it has recentred the
    coordinates, in the order of the code: a velocity [vmin] or [vmax]
    equal to zero raises [ZeroDivisionError] ([1/vmax], [1/vmin]); data
    with no sample raise [OverflowError] ([ceil(log2(0))]); a sample
    rate of zero raises [ZeroDivisionError] ([fmin / deltaf]).  In each
    case the caller's coordinates are already recentred, and nothing
    else is changed. *)
Theorem fk_freq_early_errors (cosine_taper : nat -> list R)
  (data : loc) (fs : R) (rij : loc) (vmin vmax fmin fmax : R)
  (nvel ntheta : nat) (h : heap) (d n : nat) :
  data <> rij ->
  wf_matrix d n (h rij) -> (2 <= d)%nat ->
  (vmax = 0 \/ vmin = 0 ->
   fk_freq cosine_taper data fs rij vmin vmax fmin fmax nvel ntheta h
   = (Raise ZeroDivisionError, upd h rij (recenter (h rij)))) /\
  (vmax <> 0 -> vmin <> 0 -> h data = [] ->
   fk_freq cosine_taper data fs rij vmin vmax fmin fmax nvel ntheta h
   = (Raise OverflowError, upd h rij (recenter (h rij)))) /\
  (vmax <> 0 -> vmin <> 0 -> h data <> [] -> fs = 0 ->
   fk_freq cosine_taper data fs rij vmin vmax fmin fmax nvel ntheta h
   = (Raise ZeroDivisionError, upd h rij (recenter (h rij)))).
Proof.
  exact (@fk_freq_early cosine_taper data fs rij vmin vmax fmin fmax nvel
           ntheta h d n).
Qed.

Lemma fk_freq_early_errors_witness :
  (0 = 0 \/ 1 = 0 ->
   fk_freq flat_taper 0%nat 4 1%nat 1 0 1 1 2%nat 2%nat example_heap
   = (Raise ZeroDivisionError,
      upd example_heap 1%nat (recenter (example_heap 1%nat)))) /\
  (0 <> 0 -> 1 <> 0 -> example_heap 0%nat = [] ->
   fk_freq flat_taper 0%nat 4 1%nat 1 0 1 1 2%nat 2%nat example_heap
   = (Raise OverflowError,
      upd example_heap 1%nat (recenter (example_heap 1%nat)))) /\
  (0 <> 0 -> 1 <> 0 -> example_heap 0%nat <> [] -> 4 = 0 ->
   fk_freq flat_taper 0%nat 4 1%nat 1 0 1 1 2%nat 2%nat example_heap
   = (Raise ZeroDivisionError,
      upd example_heap 1%nat (recenter (example_heap 1%nat)))).
Proof.
  apply (@fk_freq_early_errors flat_taper 0%nat 4 1%nat 1 0 1 1 2%nat 2%nat
           example_heap 2%nat 2%nat).
  - lia.
  - apply wf_example_rij.
  - lia.
Defined.

Lemma fk_freq_one_row (cosine_taper : nat -> list R)
  (data : loc) (fs : R) (rij : loc) (vmin vmax fmin fmax : R)
  (nvel ntheta : nat) (h : heap) :
  (length (h rij) < 2)%nat ->
  fst (fk_freq cosine_taper data fs rij vmin vmax fmin fmax nvel ntheta h)
  = Raise IndexError /\
  snd (fk_freq cosine_taper data fs rij vmin vmax fmin fmax nvel ntheta h) rij
  = map demean (h rij) /\
  forall l, l <> rij ->
    snd (fk_freq cosine_taper data fs rij vmin vmax fmin fmax nvel ntheta h) l
    = h l.
Proof.
  intros Hlen.
  destruct (@fk_freq_few_rows cosine_taper data fs rij vmin vmax fmin fmax
              nvel ntheta h) as [H0 H1].
  destruct (h rij) as [|row [|row' rest]] eqn:E; [| |simpl in Hlen; lia].
  - rewrite (H0 eq_refl). cbn [fst snd map]. now repeat split.
  - rewrite (H1 row eq_refl). cbn [fst snd map]. split; [reflexivity|].
    split; [apply upd_same|]. intros l Hl. now apply upd_other.
Qed.

(** X19. Coordinates with fewer than two rows: [fk_freq] raises
    [IndexError] when it reads the second row ([rij[:, 1]] of the
    transposed view).  By then a single row has already lost its mean in
    the caller's array; no other array is changed. *)
Theorem fk_freq_few_coordinate_rows (cosine_taper : nat -> list R)
  (data : loc) (fs : R) (rij : loc) (vmin vmax fmin fmax : R)
  (nvel ntheta : nat) (h : heap) :
  (length (h rij) < 2)%nat ->
  fst (fk_freq cosine_taper data fs rij vmin vmax fmin fmax nvel ntheta h)
  = Raise IndexError /\
  snd (fk_freq cosine_taper data fs rij vmin vmax fmin fmax nvel ntheta h) rij
  = map demean (h rij) /\
  forall l, l <> rij ->
    snd (fk_freq cosine_taper data fs rij vmin vmax fmin fmax nvel ntheta h) l
    = h l.
Proof.
  exact (@fk_freq_one_row cosine_taper data fs rij vmin vmax fmin fmax nvel
           ntheta h).
Qed.

(** Two sensors on a line: one row of coordinates. *)
Definition line_heap : heap :=
  fun l => if (l =? 0)%nat then example_data else [[0; 2]].

Lemma fk_freq_few_coordinate_rows_witness :
  fst (fk_freq flat_taper 0%nat 4 1%nat 1 2 1 1 2%nat 2%nat line_heap)
  = Raise IndexError /\
  snd (fk_freq flat_taper 0%nat 4 1%nat 1 2 1 1 2%nat 2%nat line_heap) 1%nat
  = map demean (line_heap 1%nat) /\
  forall l, l <> 1%nat ->
    snd (fk_freq flat_taper 0%nat 4 1%nat 1 2 1 1 2%nat 2%nat line_heap) l
    = line_heap l.
Proof.
  apply (@fk_freq_few_coordinate_rows flat_taper 0%nat 4 1%nat 1 2 1 1 2%nat
           2%nat line_heap).
  simpl. lia.
Defined.

(** X20. One or two samples leave no band: the band is clamped to the
    bins [1 .. nfft//2 - 1], an empty range for [nfft <= 2].  With one
    sample [fk_freq] raises [ValueError] ([np.empty] with a negative
    count); with two it raises [ValueError] or returns a map of [nan]:
    it never returns a number. *)
Theorem fk_freq_short_series (cosine_taper : nat -> list R)
  (data : loc) (fs : R) (rij : loc) (vmin vmax fmin fmax : R)
  (nvel ntheta : nat) (h : heap) (d n m nsta : nat) :
  data <> rij ->
  wf_matrix d n (h rij) -> (2 <= d)%nat ->
  wf_matrix m nsta (h data) -> (1 <= m <= 2)%nat ->
  vmax <> 0 -> vmin <> 0 -> fs <> 0 ->
  (m = 1%nat ->
   fst (fk_freq cosine_taper data fs rij vmin vmax fmin fmax nvel ntheta h)
   = Raise ValueError) /\
  (fst (fk_freq cosine_taper data fs rij vmin vmax fmin fmax nvel ntheta h)
   = Raise ValueError \/
   fst (fk_freq cosine_taper data fs rij vmin vmax fmin fmax nvel ntheta h)
   = Ok (repeat (repeat NaN ntheta) nvel)).
Proof.
  exact (@fk_freq_short cosine_taper data fs rij vmin vmax fmin fmax nvel
           ntheta h d n m nsta).
Qed.

(** Two samples of two sensors. *)
Definition short_heap : heap :=
  fun l => if (l =? 0)%nat then [[1; 2]; [3; 2]] else example_rij.

Lemma fk_freq_short_series_witness :
  (2%nat = 1%nat ->
   fst (fk_freq flat_taper 0%nat 4 1%nat 1 2 1 1 2%nat 2%nat short_heap)
   = Raise ValueError) /\
  (fst (fk_freq flat_taper 0%nat 4 1%nat 1 2 1 1 2%nat 2%nat short_heap)
   = Raise ValueError \/
   fst (fk_freq flat_taper 0%nat 4 1%nat 1 2 1 1 2%nat 2%nat short_heap)
   = Ok (repeat (repeat NaN 2) 2)).
Proof.
  apply (@fk_freq_short_series flat_taper 0%nat 4 1%nat 1 2 1 1 2%nat 2%nat
           short_heap 2%nat 2%nat 2%nat 2%nat);
    try (apply wf_example_rij); try lia; try lra.
  split; [reflexivity|]. repeat constructor.
Defined.

(** X21. Traces and sensors that differ in number (neither number being
    1, which numpy broadcasts) make [fk_freq] raise [ValueError] at the
    first frequency of the band, in the product of the steering vectors
    and the Fourier coefficients; by then the caller's coordinates are
    recentred and every trace has lost its mean. *)
Theorem fk_freq_station_mismatch (cosine_taper : nat -> list R)
  (data : loc) (fs : R) (rij : loc) (vmin vmax fmin fmax : R)
  (nvel ntheta : nat) (h : heap) (d n m nsta : nat) (nlow nhigh nf : Z) :
  data <> rij ->
  wf_matrix d n (h rij) -> (2 <= d)%nat ->
  wf_matrix m nsta (h data) -> (1 <= m)%nat ->
  vmax <> 0 -> vmin <> 0 -> fs <> 0 ->
  band_bins m fs fmin fmax = (nlow, nhigh, nf) -> (1 <= nf)%Z ->
  n <> nsta -> n <> 1%nat -> nsta <> 1%nat ->
  fk_freq cosine_taper data fs rij vmin vmax fmin fmax nvel ntheta h
  = (Raise ValueError,
     upd (upd h rij (recenter (h rij))) data
         (demean_cols (seq 0 nsta) (h data))).
Proof.
  exact (@fk_freq_mismatch cosine_taper data fs rij vmin vmax fmin fmax nvel
           ntheta h d n m nsta nlow nhigh nf).
Qed.

(** Four samples of three traces, the coordinates of two sensors. *)
Definition mismatch_heap : heap :=
  fun l => if (l =? 0)%nat
           then [[1; 2; 0]; [3; 2; 1]; [1; 2; 0]; [3; 2; 1]]
           else example_rij.

Lemma fk_freq_station_mismatch_witness :
  fk_freq flat_taper 0%nat 4 1%nat 1 2 1 1 2%nat 2%nat mismatch_heap
  = (Raise ValueError,
     upd (upd mismatch_heap 1%nat (recenter (mismatch_heap 1%nat))) 0%nat
         (demean_cols (seq 0 3) (mismatch_heap 0%nat))).
Proof.
  apply (@fk_freq_station_mismatch flat_taper 0%nat 4 1%nat 1 2 1 1 2%nat
           2%nat mismatch_heap 2%nat 2%nat 4%nat 3%nat 1%Z 1%Z 1%Z);
    try (apply wf_example_rij); try lia; try lra; try exact example_band.
  split; [reflexivity|]. repeat constructor.
Defined.

(** ** [fk_freq]: the amplitude of the traces *)

Module FkScale.

Definition scale (k : R) (M : list (list R)) : list (list R) :=
  map (map (Rmult k)) M.

Lemma mean_scale (c : R) (v : list R) :
  Np.mean (map (Rmult c) v) = c * Np.mean v.
Proof.
  unfold Np.mean. rewrite length_map.
  replace (Rsum (map (Rmult c) v)) with (c * Rsum v).
  - unfold Rdiv. ring.
  - unfold Rsum. induction v as [|a v IH]; simpl; [ring|].
    rewrite <- IH. ring.
Qed.

Lemma demean_scale (c : R) (v : list R) :
  demean (map (Rmult c) v) = map (Rmult c) (demean v).
Proof.
  unfold demean. rewrite mean_scale, !map_map. apply map_ext. intros x. ring.
Qed.

Lemma combine_scale (c : R) (v t : list R) :
  map (fun p => fst p * snd p) (combine (map (Rmult c) v) t) =
  map (Rmult c) (map (fun p => fst p * snd p) (combine v t)).
Proof.
  revert t. induction v as [|a v IH]; intros [|b t]; try reflexivity.
  cbn [map combine fst snd]. rewrite IH. f_equal. ring.
Qed.

Lemma nth_map_Cscal (c : R) (l : list C) (j : nat) :
  nth j (map (Cscal c) l) C0 = Cscal c (nth j l C0).
Proof. rewrite <- (Cscal_0_r c) at 1. apply map_nth. Qed.

Lemma fft_vec_scale (n : nat) (c : R) (v : list C) :
  Np.fft_vec n (map (Cscal c) v) = map (Cscal c) (Np.fft_vec n v).
Proof.
  unfold Np.fft_vec. rewrite map_map. apply map_ext. intros k.
  rewrite <- Csum_scal. apply Csum_ext. intros j _.
  rewrite nth_map_Cscal. apply Cscal_mult_l.
Qed.

Lemma py_slice_map {A B : Type} (f : A -> B) (a b : Z) (l : list A) :
  py_slice a b (map f l) = map f (py_slice a b l).
Proof.
  unfold py_slice. rewrite length_map. now rewrite skipn_map, firstn_map.
Qed.

Section Scaled.
Variable cosine_taper : nat -> list R.

Lemma trace_row_scale (m : nat) (nlow nf : Z) (c : R) (col : list R) :
  trace_row cosine_taper m nlow nf (map (Rmult c) col) =
  map (Cscal c) (trace_row cosine_taper m nlow nf col).
Proof.
  unfold trace_row, Np.rfft_vec.
  rewrite demean_scale, combine_scale.
  replace (map RtoC (map (Rmult c) (map (fun p => fst p * snd p)
             (combine (demean col) (cosine_taper m)))))
    with (map (Cscal c) (map RtoC (map (fun p => fst p * snd p)
             (combine (demean col) (cosine_taper m))))).
  - now rewrite fft_vec_scale, firstn_map, py_slice_map.
  - rewrite !map_map. apply map_ext. intros p. cx_eq.
Qed.

End Scaled.

Lemma broadcast_mult_scale (c : R) (a b : list C) :
  broadcast_mult a (map (Cscal c) b) = map (Cscal c) (broadcast_mult a b).
Proof.
  unfold broadcast_mult. rewrite length_map.
  destruct (length a =? length b)%nat.
  - revert b. induction a as [|x a IH]; intros [|y b]; try reflexivity.
    cbn [map combine fst snd]. rewrite IH. f_equal. cx_eq.
  - destruct (length a =? 1)%nat.
    + rewrite !map_map. apply map_ext. intros y. cx_eq.
    + rewrite map_map. apply map_ext. intros z.
      destruct b as [|y b]; cbn [map hd]; cx_eq.
Qed.

Lemma Csum_list_scale (c : R) (l : list C) :
  Csum_list (map (Cscal c) l) = Cscal c (Csum_list l).
Proof.
  unfold Csum_list. induction l as [|z l IH]; simpl; [cx_eq|].
  rewrite IH. cx_eq.
Qed.

Lemma Cnorm2_scal (c : R) (z : C) : Cnorm2 (Cscal c z) = c * c * Cnorm2 z.
Proof. cx. ring. Qed.

Lemma Rsum_norm_scale (c : R) (l : list C) :
  Rsum (map Cnorm2 (map (Cscal c) l)) = c * c * Rsum (map Cnorm2 l).
Proof.
  rewrite map_map.
  rewrite (@map_ext _ _ (fun z => Cnorm2 (Cscal c z))
             (fun z => c * c * Cnorm2 z)) by (intros; apply Cnorm2_scal).
  apply (@Rsum_map_scal _ (c * c) Cnorm2).
Qed.

Lemma add_matrix_scale (k : R) (A B : list (list R)) :
  add_matrix (scale k A) (scale k B) = scale k (add_matrix A B).
Proof.
  unfold add_matrix, scale. revert B.
  induction A as [|ra A IH]; intros [|rb B]; try reflexivity.
  cbn [map combine fst snd]. rewrite IH. f_equal.
  clear. revert rb. induction ra as [|x ra IH]; intros [|y rb]; try reflexivity.
  cbn [map combine fst snd]. rewrite IH. f_equal. ring.
Qed.

Lemma scale_zeros (k : R) (m n : nat) : scale k (zeros m n) = zeros m n.
Proof.
  unfold scale, zeros. rewrite map_repeat. f_equal. rewrite map_repeat.
  f_equal. ring.
Qed.

Lemma freq_step_scale (n nsta : nat) (TT : list (list (list R)))
  (ft : list (list C)) (freqrange : list R) (c : R)
  (acc : list (list R) * list (list R)) (ii : nat) :
  freq_step n nsta TT (map (map (Cscal c)) ft) freqrange
    (scale (c * c) (fst acc), scale (c * c) (snd acc)) ii =
  match freq_step n nsta TT ft freqrange acc ii with
  | Ok a => Ok (scale (c * c) (fst a), scale (c * c) (snd a))
  | Raise e => Raise e
  end.
Proof.
  unfold freq_step. destruct (broadcastable n nsta); [|reflexivity].
  cbn [fst snd]. rewrite <- !add_matrix_scale.
  assert (Hf : map (fun row => nth ii row C0) (map (map (Cscal c)) ft) =
               map (Cscal c) (map (fun row => nth ii row C0) ft)).
  { rewrite !map_map. apply map_ext. intros row. apply nth_map_Cscal. }
  rewrite Hf. set (fcoeff := map (fun row => nth ii row C0) ft).
  f_equal. f_equal.
  - f_equal. unfold scale, master. rewrite !map_map. apply map_ext.
    intros row. rewrite !map_map. apply map_ext. intros delays.
    rewrite broadcast_mult_scale, Csum_list_scale. apply Cnorm2_scal.
  - f_equal. unfold scale, master. rewrite !map_map. apply map_ext.
    intros row. rewrite !map_map. apply map_ext. intros delays.
    rewrite broadcast_mult_scale. apply Rsum_norm_scale.
Qed.

Lemma freq_loop_scale (n nsta nvel ntheta : nat) (TT : list (list (list R)))
  (ft : list (list C)) (freqrange : list R) (c : R) :
  freq_loop n nsta nvel ntheta TT (map (map (Cscal c)) ft) freqrange =
  match freq_loop n nsta nvel ntheta TT ft freqrange with
  | Ok a => Ok (scale (c * c) (fst a), scale (c * c) (snd a))
  | Raise e => Raise e
  end.
Proof.
  unfold freq_loop.
  rewrite <- (scale_zeros (c * c) nvel ntheta) at 1 2.
  change (scale (c * c) (zeros nvel ntheta), scale (c * c) (zeros nvel ntheta))
    with (scale (c * c) (fst (zeros nvel ntheta, zeros nvel ntheta)),
          scale (c * c) (snd (zeros nvel ntheta, zeros nvel ntheta))).
  generalize (zeros nvel ntheta, zeros nvel ntheta) as acc0.
  generalize (range 0 (length freqrange)) as iis.
  induction iis as [|ii iis IH]; intros acc0; [reflexivity|].
  cbn [fold_left bind]. rewrite freq_step_scale.
  destruct (freq_step n nsta TT ft freqrange acc0 ii) as [a|e].
  - apply IH.
  - now rewrite !FkEdges.fold_raise.
Qed.

Lemma true_divide_scale (k t b : R) :
  0 < k -> true_divide (k * t) (k * b) = true_divide t b.
Proof.
  intros Hk. unfold true_divide.
  destruct (Req_dec_T b 0) as [->|Hb].
  - rewrite Rmult_0_r. destruct (Req_dec_T 0 0) as [_|E]; [|now elim E].
    destruct (Req_dec_T t 0) as [->|Ht].
    + rewrite Rmult_0_r. destruct (Req_dec_T 0 0) as [_|E]; [reflexivity|].
      now elim E.
    + destruct (Req_dec_T (k * t) 0) as [E|_]; [exfalso; nra|].
      destruct (Rlt_dec 0 t), (Rlt_dec 0 (k * t)); try reflexivity;
        exfalso; nra.
  - destruct (Req_dec_T (k * b) 0) as [E|_]; [exfalso; nra|].
    f_equal. field. split; lra.
Qed.

Lemma power_map_scale (k : R) (acc : list (list R) * list (list R)) :
  0 < k ->
  power_map (scale k (fst acc), scale k (snd acc)) = power_map acc.
Proof.
  intros Hk. destruct acc as [A B]. unfold power_map, scale. cbn [fst snd].
  revert B. induction A as [|ra A IH]; intros [|rb B]; try reflexivity.
  cbn [map combine fst snd]. rewrite IH. f_equal.
  clear IH. revert rb. induction ra as [|x ra IH]; intros [|y rb];
    try reflexivity.
  cbn [map combine fst snd]. rewrite IH. f_equal.
  now apply true_divide_scale.
Qed.

Section Amplitude.
Variable cosine_taper : nat -> list R.

(** The traces multiplied by a constant that is not zero. *)
Lemma fk_freq_scaled (data : loc) (fs : R) (rij : loc)
  (vmin vmax fmin fmax : R) (nvel ntheta : nat) (h h' : heap)
  (d n m nsta : nat) (c : R) :
  data <> rij ->
  wf_matrix d n (h rij) -> (2 <= d)%nat ->
  wf_matrix m nsta (h data) -> wf_matrix m nsta (h' data) -> (1 <= m)%nat ->
  vmax <> 0 -> vmin <> 0 -> fs <> 0 ->
  c <> 0 -> h' rij = h rij ->
  (forall r k, (r < m)%nat -> (k < nsta)%nat ->
     nth k (nth r (h' data) []) 0 = c * nth k (nth r (h data) []) 0) ->
  fst (fk_freq cosine_taper data fs rij vmin vmax fmin fmax nvel ntheta h') =
  fst (fk_freq cosine_taper data fs rij vmin vmax fmin fmax nvel ntheta h).
Proof.
  intros Hne Hr Hd Hdat Hdat' Hm Hvmax Hvmin Hfs Hc Hrij Hscale.
  assert (Hr' : wf_matrix d n (h' rij)) by (now rewrite Hrij).
  destruct (band_bins m fs fmin fmax) as [[nlow nhigh] nf] eqn:Hband.
  destruct (Z.ltb_spec nf 0) as [Hneg|Hpos].
  - rewrite !(@fk_freq_negative_band cosine_taper data fs rij vmin vmax fmin
                fmax nvel ntheta _ d n m nsta nlow nhigh nf) by assumption.
    reflexivity.
  - rewrite !(@fk_freq_run_rows cosine_taper data fs rij vmin vmax fmin
                fmax nvel ntheta _ d n m nsta nlow nhigh nf) by assumption.
    cbn [fst]. rewrite Hrij.
    rewrite !(@trace_rows_map cosine_taper m nsta)
      by (try assumption; intros jj Hjj; rewrite in_seq in Hjj; lia).
    assert (Hrows : map (fun jj => trace_row cosine_taper m nlow nf
                                     (column jj (h' data))) (seq 0 nsta) =
                    map (map (Cscal c))
                      (map (fun jj => trace_row cosine_taper m nlow nf
                                        (column jj (h data))) (seq 0 nsta))).
    { rewrite map_map. apply map_ext_in. intros jj Hjj. rewrite in_seq in Hjj.
      rewrite <- trace_row_scale. f_equal.
      pose proof Hdat as [Hl _]. pose proof Hdat' as [Hl' _].
      unfold column. rewrite map_map.
      apply nth_ext with (d := 0) (d' := 0); [now rewrite !length_map, Hl, Hl'|].
      intros r Hri. rewrite length_map, Hl' in Hri.
      rewrite (@nth_map_lt _ _ _ _ r 0 []) by lia.
      rewrite (@nth_map_lt _ _ _ _ r 0 []) by lia.
      apply Hscale; lia. }
    rewrite Hrows, freq_loop_scale.
    destruct (freq_loop _ _ _ _ _ _ _) as [acc|e]; [|reflexivity].
    rewrite power_map_scale; [reflexivity|]. nra.
Qed.

End Amplitude.

End FkScale.

Import FkScale.

(** The traces of the example, three times as large. *)
Definition tripled_heap : heap :=
  fun l => if (l =? 0)%nat then [[3; 6]; [9; 6]; [3; 6]; [9; 6]]
           else example_rij.

(** X22. The power map of [fk_freq] is normalised (the docstring says it
    is not): every entry is the quotient of two sums that both grow with
    the square of the amplitude, so multiplying all the traces by a
    constant other than zero leaves the outcome as it was. *)
Theorem fk_freq_scale_invariant (cosine_taper : nat -> list R)
  (data : loc) (fs : R) (rij : loc) (vmin vmax fmin fmax : R)
  (nvel ntheta : nat) (h h' : heap) (d n m nsta : nat) (c : R) :
  data <> rij ->
  wf_matrix d n (h rij) -> (2 <= d)%nat ->
  wf_matrix m nsta (h data) -> wf_matrix m nsta (h' data) -> (1 <= m)%nat ->
  vmax <> 0 -> vmin <> 0 -> fs <> 0 ->
  c <> 0 -> h' rij = h rij ->
  (forall r k, (r < m)%nat -> (k < nsta)%nat ->
     nth k (nth r (h' data) []) 0 = c * nth k (nth r (h data) []) 0) ->
  fst (fk_freq cosine_taper data fs rij vmin vmax fmin fmax nvel ntheta h') =
  fst (fk_freq cosine_taper data fs rij vmin vmax fmin fmax nvel ntheta h).
Proof.
  exact (@fk_freq_scaled cosine_taper data fs rij vmin vmax fmin fmax nvel
           ntheta h h' d n m nsta c).
Qed.

Lemma fk_freq_scale_invariant_witness :
  fst (fk_freq flat_taper 0%nat 4 1%nat 1 2 1 1 2%nat 2%nat tripled_heap) =
  fst (fk_freq flat_taper 0%nat 4 1%nat 1 2 1 1 2%nat 2%nat example_heap).
Proof.
  apply (@fk_freq_scale_invariant flat_taper 0%nat 4 1%nat 1 2 1 1 2%nat 2%nat
           example_heap tripled_heap 2%nat 2%nat 4%nat 2%nat 3);
    try (apply wf_example_data); try (apply wf_example_rij);
    try lia; try lra.
  - split; [reflexivity|]. repeat constructor.
  - reflexivity.
  - intros r k Hr Hk.
    destruct k as [|[|k]]; try lia;
      destruct r as [|[|[|[|r]]]]; try lia; simpl; lra.
Defined.

(** ** [MCCMcalc] *)

Module MccmProofs.
Import Mccm.

Lemma length_pair_weights (wgt : list R) :
  length (pair_weights wgt) = (length wgt * (length wgt - 1) / 2)%nat.
Proof. unfold pair_weights. now rewrite length_map, length_pair_index. Qed.

Lemma pair_weights_ones (n : nat) :
  pair_weights (repeat 1 n) = repeat 1 (n * (n - 1) / 2).
Proof.
  unfold pair_weights. rewrite repeat_length.
  rewrite <- (length_pair_index n).
  rewrite <- (map_const (A := (nat * nat)%type) 1 (pair_index n)). apply map_ext_in.
  intros [i j] Hin. apply in_pair_index in Hin. cbn [fst snd].
  rewrite !nth_repeat_lt by lia. ring.
Qed.

Lemma Rsum_ones (k : nat) : Rsum (repeat 1 k) = INR k.
Proof. rewrite Rsum_repeat. ring. Qed.

Lemma Rsum_times_ones (a : list R) :
  Rsum (map (fun p => fst p * snd p) (combine a (repeat 1 (length a))))
  = Rsum a.
Proof.
  unfold Rsum. induction a as [|x a IH]; [reflexivity|].
  cbn [length repeat combine map fold_right fst snd]. rewrite IH. ring.
Qed.

Lemma weighted_pairs_ones (k : nat) : weighted_pairs (repeat 1 k) = seq 0 k.
Proof.
  unfold weighted_pairs. rewrite repeat_length.
  apply forallb_filter_id. apply forallb_forall. intros i Hi.
  rewrite in_seq in Hi. rewrite nth_repeat_lt by lia.
  destruct (Req_dec_T 1 0); [lra|reflexivity].
Qed.

(** With weights of one, [MCCMcalc] is [MCCMcalc] without weights. *)
Lemma mccm_unit_weights (n : nat) (cmax : list R) :
  (2 <= n)%nat -> length cmax = (n * (n - 1) / 2)%nat ->
  MCCMcalc cmax (Some (repeat 1 n)) = MCCMcalc cmax None.
Proof.
  intros Hn Hlen.
  assert (Hpos : (1 <= n * (n - 1) / 2)%nat).
  { apply Nat.div_le_lower_bound; [lia|]. nia. }
  unfold MCCMcalc. rewrite pair_weights_ones. unfold average_weighted.
  rewrite repeat_length, Hlen, Nat.eqb_refl. cbn [negb].
  rewrite Rsum_ones.
  assert (HR : 0 < INR (n * (n - 1) / 2)) by (apply lt_0_INR; lia).
  destruct (Req_dec_T (INR (n * (n - 1) / 2)) 0) as [E|_]; [lra|].
  rewrite <- Hlen at 1. rewrite Rsum_times_ones.
  rewrite weighted_pairs_ones. rewrite <- Hlen.
  rewrite (@map_nth_seq _ _ (fun v => v) cmax 0), map_id.
  unfold average, true_divide. rewrite Hlen.
  destruct (Req_dec_T (INR (n * (n - 1) / 2)) 0) as [E|_]; [lra|].
  reflexivity.
Qed.

Lemma Rsum_all_zero (l : list R) : (forall x, In x l -> x = 0) -> Rsum l = 0.
Proof.
  unfold Rsum. induction l as [|a l IH]; intros H; [reflexivity|].
  simpl. rewrite (H a (or_introl eq_refl)), IH; [ring|].
  intros x Hx. apply H. now right.
Qed.

(** The errors of the weighted branch. *)
Lemma mccm_errors (cmax wgt : list R) :
  (length cmax <> (length wgt * (length wgt - 1) / 2)%nat ->
   MCCMcalc cmax (Some wgt) = Raises TypeError) /\
  (length cmax = (length wgt * (length wgt - 1) / 2)%nat ->
   (exists k, forall i, i <> k -> nth i wgt 0 = 0) ->
   MCCMcalc cmax (Some wgt) = Raises (Core ZeroDivisionError)).
Proof.
  unfold MCCMcalc, average_weighted. rewrite length_pair_weights. split.
  - intros Hne. destruct (Nat.eqb_spec (length cmax)
                            (length wgt * (length wgt - 1) / 2)) as [E|_];
      [contradiction|reflexivity].
  - intros Heq [k Hk]. rewrite Heq, Nat.eqb_refl. cbn [negb].
    assert (Hz : Rsum (pair_weights wgt) = 0).
    { apply Rsum_all_zero. intros x Hx. unfold pair_weights in Hx.
      rewrite in_map_iff in Hx. destruct Hx as [[i j] [<- Hin]].
      apply in_pair_index in Hin. cbn [fst snd].
      destruct (Nat.eq_dec i k) as [->|Hi].
      - rewrite (Hk j) by lia. ring.
      - rewrite (Hk i Hi). ring. }
    rewrite Hz. destruct (Req_dec_T 0 0) as [_|E]; [reflexivity|now elim E].
Qed.

Lemma Rsum_combine_ext (a a' w : list R) :
  length a = length w -> length a' = length w ->
  (forall k, (k < length w)%nat -> nth k w 0 <> 0 -> nth k a' 0 = nth k a 0) ->
  Rsum (map (fun p => fst p * snd p) (combine a' w)) =
  Rsum (map (fun p => fst p * snd p) (combine a w)).
Proof.
  unfold Rsum. revert a a'.
  induction w as [|y w IH]; intros a a' Ha Ha' H.
  - destruct a, a'; try discriminate. reflexivity.
  - destruct a as [|x a], a' as [|x' a']; try discriminate.
    cbn [combine map fold_right fst snd].
    assert (IH' : fold_right Rplus 0
                    (map (fun p => fst p * snd p) (combine a' w)) =
                  fold_right Rplus 0
                    (map (fun p => fst p * snd p) (combine a w))).
    { apply IH.
      - simpl in Ha. lia.
      - simpl in Ha'. lia.
      - intros k Hk Hne. apply (H (S k)); [simpl; lia|exact Hne]. }
    rewrite IH'.
    destruct (Req_dec_T y 0) as [->|Hy]; [ring|].
    pose proof (H 0%nat ltac:(simpl; lia) Hy) as H0. simpl in H0.
    now rewrite H0.
Qed.

(** The pairs of weight zero do not count. *)
Lemma mccm_ignores_unweighted (cmax cmax' wgt : list R) :
  length cmax' = length cmax ->
  (forall k, (k < length cmax)%nat -> nth k (pair_weights wgt) 0 <> 0 ->
     nth k cmax' 0 = nth k cmax 0) ->
  MCCMcalc cmax' (Some wgt) = MCCMcalc cmax (Some wgt).
Proof.
  intros Hlen Hagree. unfold MCCMcalc, average_weighted. rewrite Hlen.
  destruct (Nat.eqb_spec (length cmax) (length (pair_weights wgt))) as [E|E];
    cbn [negb]; [|reflexivity].
  destruct (Req_dec_T (Rsum (pair_weights wgt)) 0) as [_|Hs]; [reflexivity|].
  rewrite (@Rsum_combine_ext cmax cmax' (pair_weights wgt))
    by (try lia; intros k Hk; apply Hagree; lia).
  f_equal. f_equal. f_equal. apply map_ext_in. intros i Hi.
  unfold weighted_pairs in Hi. apply filter_In in Hi. destruct Hi as [Hi Hw].
  rewrite in_seq in Hi. apply Hagree; [lia|].
  destruct (Req_dec_T (nth i (pair_weights wgt) 0) 0); [discriminate|assumption].
Qed.

(** *** Bounds *)

Lemma in_insert (x y : R) (l : list R) : In y (insert x l) -> y = x \/ In y l.
Proof.
  induction l as [|z l IH]; simpl.
  - intros [<-|[]]. now left.
  - destruct (Rle_dec x z); simpl.
    + intros [<-|H]; [now left|now right].
    + intros [<-|H]; [right; now left|].
      destruct (IH H) as [->|Hin]; [now left|right; now right].
Qed.

Lemma in_sort (y : R) (l : list R) : In y (sort l) -> In y l.
Proof.
  induction l as [|x l IH]; simpl; [tauto|]. intros H.
  apply in_insert in H. destruct H as [->|H]; [now left|right; now apply IH].
Qed.

Lemma length_insert (x : R) (l : list R) : length (insert x l) = S (length l).
Proof.
  induction l as [|z l IH]; simpl; [reflexivity|].
  destruct (Rle_dec x z); simpl; [reflexivity|now rewrite IH].
Qed.

Lemma length_sort (l : list R) : length (sort l) = length l.
Proof.
  induction l as [|x l IH]; simpl; [reflexivity|].
  now rewrite length_insert, IH.
Qed.

Lemma median_bounds (lo hi : R) (a : list R) :
  a <> [] -> (forall x, In x a -> lo <= x <= hi) ->
  exists v, median a = Fin v /\ lo <= v <= hi.
Proof.
  intros Hne Hb.
  assert (Hnth : forall k, (k < length a)%nat -> lo <= nth k (sort a) 0 <= hi).
  { intros k Hk. apply Hb, in_sort, nth_In. now rewrite length_sort. }
  assert (Hpos : (1 <= length a)%nat) by (destruct a; [congruence|simpl; lia]).
  assert (Hhalf : (length a / 2 < length a)%nat)
    by (apply Nat.div_lt; lia).
  unfold median. destruct a as [|x a]; [congruence|].
  set (l := x :: a) in *.
  destruct (Nat.even (length l)).
  - eexists. split; [reflexivity|].
    pose proof (Hnth (length l / 2 - 1)%nat ltac:(lia)).
    pose proof (Hnth (length l / 2)%nat Hhalf). lra.
  - eexists. split; [reflexivity|]. now apply Hnth.
Qed.

Lemma weighted_sum_bounds (lo hi : R) (a w : list R) :
  length a = length w ->
  (forall x, In x a -> lo <= x <= hi) -> (forall y, In y w -> 0 <= y) ->
  lo * Rsum w <= Rsum (map (fun p => fst p * snd p) (combine a w))
  <= hi * Rsum w.
Proof.
  unfold Rsum. revert a. induction w as [|y w IH]; intros a Hl Ha Hw.
  - destruct a; [|discriminate]. simpl. lra.
  - destruct a as [|x a]; [discriminate|].
    cbn [combine map fold_right fst snd].
    specialize (IH a ltac:(simpl in Hl; lia)
                  (fun v Hv => Ha v (or_intror Hv))
                  (fun v Hv => Hw v (or_intror Hv))).
    pose proof (Ha x (or_introl eq_refl)).
    pose proof (Hw y (or_introl eq_refl)). nra.
Qed.

(** Both means lie between the least and the greatest maximum. *)
Lemma mccm_bounds (lo hi : R) (cmax wgt : list R) (MCCM MdCCM : fl) :
  (forall x, In x cmax -> lo <= x <= hi) ->
  (forall y, In y wgt -> 0 <= y) ->
  MCCMcalc cmax (Some wgt) = Returns (MCCM, MdCCM) ->
  (exists v, MCCM = Fin v /\ lo <= v <= hi) /\
  (exists v, MdCCM = Fin v /\ lo <= v <= hi).
Proof.
  intros Hc Hw. unfold MCCMcalc, average_weighted.
  destruct (Nat.eqb_spec (length cmax) (length (pair_weights wgt))) as [E|E];
    cbn [negb]; [|discriminate].
  destruct (Req_dec_T (Rsum (pair_weights wgt)) 0) as [|Hs]; [discriminate|].
  intros H. injection H as <- <-.
  assert (HW : forall y, In y (pair_weights wgt) -> 0 <= y).
  { intros y Hy. unfold pair_weights in Hy. rewrite in_map_iff in Hy.
    destruct Hy as [[i j] [<- Hin]]. cbn [fst snd].
    assert (Hnn : forall k, 0 <= nth k wgt 0).
    { intros k. destruct (Nat.lt_ge_cases k (length wgt)) as [Hk|Hk].
      - apply Hw. now apply nth_In.
      - rewrite nth_overflow by exact Hk. lra. }
    apply Rmult_le_pos; apply Hnn. }
  assert (Hpos : 0 < Rsum (pair_weights wgt)).
  { pose proof (@Rsum_map_nonneg _ (fun v => v) (pair_weights wgt) HW) as H0.
    rewrite map_id in H0. lra. }
  split.
  - eexists. split; [reflexivity|].
    pose proof (@weighted_sum_bounds lo hi cmax (pair_weights wgt) E Hc HW)
      as [H1 H2].
    split.
    + apply Rmult_le_reg_r with (Rsum (pair_weights wgt)); [exact Hpos|].
      unfold Rdiv. rewrite Rmult_assoc, Rinv_l by lra. lra.
    + apply Rmult_le_reg_r with (Rsum (pair_weights wgt)); [exact Hpos|].
      unfold Rdiv. rewrite Rmult_assoc, Rinv_l by lra. lra.
  - apply median_bounds.
    + (* some pair has a weight that is not zero *)
      intros Hnil.
      assert (Hall : forall y, In y (pair_weights wgt) -> y = 0).
      { intros y Hy. apply (In_nth _ _ 0) in Hy. destruct Hy as [k [Hk <-]].
        destruct (Req_dec_T (nth k (pair_weights wgt) 0) 0) as [E0|E0];
          [exact E0|].
        exfalso.
        assert (Hin : In k (weighted_pairs (pair_weights wgt))).
        { unfold weighted_pairs. apply filter_In. split; [apply in_seq; lia|].
          destruct (Req_dec_T (nth k (pair_weights wgt) 0) 0);
            [contradiction|reflexivity]. }
        destruct (weighted_pairs (pair_weights wgt)); [destruct Hin|discriminate]. }
      apply Hs. now apply Rsum_all_zero.
    + intros x Hx. rewrite in_map_iff in Hx. destruct Hx as [i [<- Hi]].
      unfold weighted_pairs in Hi. apply filter_In in Hi. destruct Hi as [Hi _].
      rewrite in_seq in Hi. apply Hc. apply nth_In. lia.
Qed.

End MccmProofs.

Import Mccm MccmProofs.

(** X23. The default of [MCCMcalc] is the weight one on every channel:
    for [n >= 2] channels and the [n(n-1)/2] maxima of their pairs,
    [MCCMcalc(cmax, ones(n))] returns what [MCCMcalc(cmax)] returns, the
    mean and the median of [cmax]. *)
Theorem MCCMcalc_unit_weights (n : nat) (cmax : list R) :
  (2 <= n)%nat -> length cmax = (n * (n - 1) / 2)%nat ->
  MCCMcalc cmax (Some (repeat 1 n)) = MCCMcalc cmax None.
Proof. exact (@mccm_unit_weights n cmax). Qed.

Lemma MCCMcalc_unit_weights_witness :
  MCCMcalc [1 / 2; 1 / 4; 1] (Some (repeat 1 3)) =
  MCCMcalc [1 / 2; 1 / 4; 1] None.
Proof.
  apply (@MCCMcalc_unit_weights 3 [1 / 2; 1 / 4; 1]).
  - lia.
  - reflexivity.
Defined.

(** X24. The two errors of [MCCMcalc] with weights, both raised by
    [numpy.average]: [TypeError] when [cmax] does not have one entry per
    pair of channels, [n(n-1)/2] for [n] weights; [ZeroDivisionError]
    when at most one channel has a weight other than zero, every pair
    then having the weight zero. *)
Theorem MCCMcalc_errors (cmax wgt : list R) :
  (length cmax <> (length wgt * (length wgt - 1) / 2)%nat ->
   MCCMcalc cmax (Some wgt) = Raises TypeError) /\
  (length cmax = (length wgt * (length wgt - 1) / 2)%nat ->
   (exists k, forall i, i <> k -> nth i wgt 0 = 0) ->
   MCCMcalc cmax (Some wgt) = Raises (Core ZeroDivisionError)).
Proof. exact (@mccm_errors cmax wgt). Qed.

(** X25. A pair with a channel of weight zero does not count: two
    vectors of maxima that agree on every pair whose product of weights
    is not zero give the same [MCCM] and the same [MdCCM] (or the same
    exception). *)
Theorem MCCMcalc_ignores_unweighted (cmax cmax' wgt : list R) :
  length cmax' = length cmax ->
  (forall k, (k < length cmax)%nat -> nth k (pair_weights wgt) 0 <> 0 ->
     nth k cmax' 0 = nth k cmax 0) ->
  MCCMcalc cmax' (Some wgt) = MCCMcalc cmax (Some wgt).
Proof. exact (@mccm_ignores_unweighted cmax cmax' wgt). Qed.

Lemma MCCMcalc_ignores_unweighted_witness :
  MCCMcalc [1; 7; 9] (Some [1; 1; 0]) = MCCMcalc [1; 2; 3] (Some [1; 1; 0]).
Proof.
  apply (@MCCMcalc_ignores_unweighted [1; 2; 3] [1; 7; 9] [1; 1; 0]).
  - reflexivity.
  - intros k Hk Hw. destruct k as [|[|[|k]]]; [reflexivity| | |simpl in Hk; lia];
      exfalso; apply Hw; simpl; ring.
Defined.

Lemma mccm_returns_bounded (lo hi : R) (cmax wgt : list R) :
  length cmax = (length wgt * (length wgt - 1) / 2)%nat ->
  (forall x, In x cmax -> lo <= x <= hi) ->
  (forall y, In y wgt -> 0 <= y) ->
  Rsum (pair_weights wgt) <> 0 ->
  exists v1 v2,
    MCCMcalc cmax (Some wgt) = Returns (Fin v1, Fin v2) /\
    lo <= v1 <= hi /\ lo <= v2 <= hi.
Proof.
  intros Hlen Hc Hw Hs.
  assert (Hret : exists MCCM MdCCM,
            MCCMcalc cmax (Some wgt) = Returns (MCCM, MdCCM)).
  { unfold MCCMcalc, average_weighted. rewrite length_pair_weights, Hlen.
    rewrite Nat.eqb_refl. cbn [negb].
    destruct (Req_dec_T (Rsum (pair_weights wgt)) 0); [contradiction|].
    eauto. }
  destruct Hret as [MCCM [MdCCM Hret]].
  destruct (@mccm_bounds lo hi cmax wgt MCCM MdCCM Hc Hw Hret)
    as [[v1 [-> H1]] [v2 [-> H2]]].
  exists v1, v2. now split.
Qed.

(** X26. With weights that are not negative, and two channels at least
    whose weights are not zero, [MCCMcalc] returns two numbers, and both
    the weighted mean [MCCM] and the median [MdCCM] lie between any two
    bounds of the maxima [cmax]. *)
Theorem MCCMcalc_bounds (lo hi : R) (cmax wgt : list R) :
  length cmax = (length wgt * (length wgt - 1) / 2)%nat ->
  (forall x, In x cmax -> lo <= x <= hi) ->
  (forall y, In y wgt -> 0 <= y) ->
  Rsum (pair_weights wgt) <> 0 ->
  exists v1 v2,
    MCCMcalc cmax (Some wgt) = Returns (Fin v1, Fin v2) /\
    lo <= v1 <= hi /\ lo <= v2 <= hi.
Proof. exact (@mccm_returns_bounded lo hi cmax wgt). Qed.

Lemma MCCMcalc_bounds_witness :
  exists v1 v2,
    MCCMcalc [1 / 2; 1 / 4; 1] (Some [1; 2; 0]) = Returns (Fin v1, Fin v2) /\
    0 <= v1 <= 1 /\ 0 <= v2 <= 1.
Proof.
  apply (@MCCMcalc_bounds 0 1 [1 / 2; 1 / 4; 1] [1; 2; 0]).
  - reflexivity.
  - intros x [<-|[<-|[<-|[]]]]; lra.
  - intros y [<-|[<-|[<-|[]]]]; lra.
  - unfold pair_weights, Rsum. simpl. lra.
Defined.

(** ** [co_array]: a translation of the array *)

Lemma co_array_shift (d n : nat) (rij rij' : list (list R)) (s : nat -> R) :
  wf_matrix d n rij -> wf_matrix d n rij' ->
  (forall r c, (r < d)%nat -> (c < n)%nat ->
     nth c (nth r rij' []) 0 = nth c (nth r rij []) 0 + s r) ->
  co_array rij' = co_array rij.
Proof.
  intros Hwf Hwf' Hs. rewrite !co_array_ok. f_equal.
  pose proof Hwf as [Hlen _]. pose proof Hwf' as [Hlen' _].
  destruct d as [|d].
  - apply length_zero_iff_nil in Hlen, Hlen'. now subst.
  - rewrite (wf_matrix_shape Hwf), (wf_matrix_shape Hwf') by lia.
    cbn [snd].
    apply nth_ext with (d := []) (d' := []);
      [rewrite !length_map; congruence|].
    intros r Hr. rewrite length_map, Hlen' in Hr.
    rewrite !(@nth_map_lt _ _ _ _ r [] []) by lia.
    apply map_ext_in. intros [i j] Hin. apply in_pair_index in Hin.
    cbn [fst snd]. rewrite !Hs by lia. ring.
Qed.

(** X27. The co-array does not depend on the origin of the coordinates:
    adding a constant to a row of [rij] (the same displacement of every
    sensor) leaves [co_array(rij)] as it was. *)
Theorem co_array_translation_invariant (d n : nat)
  (rij rij' : list (list R)) (s : nat -> R) :
  wf_matrix d n rij -> wf_matrix d n rij' ->
  (forall r c, (r < d)%nat -> (c < n)%nat ->
     nth c (nth r rij' []) 0 = nth c (nth r rij []) 0 + s r) ->
  co_array rij' = co_array rij.
Proof. exact (@co_array_shift d n rij rij' s). Qed.

Lemma co_array_translation_invariant_witness :
  co_array [[5; 6; 5]; [-1; -1; 0]] = co_array [[0; 1; 0]; [0; 0; 1]].
Proof.
  apply (@co_array_translation_invariant 2 3 [[0; 1; 0]; [0; 0; 1]]
           [[5; 6; 5]; [-1; -1; 0]] (fun r => if (r =? 0)%nat then 5 else -1)).
  - split; [reflexivity|]. repeat constructor.
  - split; [reflexivity|]. repeat constructor.
  - intros r c Hr Hc.
    destruct r as [|[|r]]; try lia;
      destruct c as [|[|[|c]]]; try lia; simpl; lra.
Defined.

(** ** [randc]: the spectrum that is inverted *)

Module RandcProofs.
Import Randc FourierFacts.

Lemma Zfloor_half (N : nat) :
  (1 <= N)%nat ->
  Zfloor ((IZR (Z.of_nat N) - 1) / 2) = Z.of_nat ((N - 1) / 2).
Proof.
  intros HN. apply Zfloor_eq. rewrite <- !INR_IZR_INZ.
  pose proof (Nat.div_mod_eq (N - 1) 2) as E.
  pose proof (Nat.mod_upper_bound (N - 1) 2 ltac:(lia)) as Hm.
  assert (EN : INR N - 1 = 2 * INR ((N - 1) / 2) + INR ((N - 1) mod 2)).
  { apply (f_equal INR) in E. rewrite plus_INR, mult_INR, minus_INR in E by lia.
    change (INR 2) with 2 in E. change (INR 1) with 1 in E. lra. }
  assert (H0 : 0 <= INR ((N - 1) mod 2)) by apply pos_INR.
  assert (H1 : INR ((N - 1) mod 2) <= 1).
  { change 1 with (INR 1). apply le_INR. lia. }
  rewrite EN. split; lra.
Qed.

(** The number of phases that are drawn for each column, and whether
    there is a Nyquist bin. *)
Definition drawn (N : nat) : nat := ((N - 1) / 2)%nat.
Definition nyquist (N : nat) : nat := if (N mod 2 =? 1)%nat then 0%nat else 1%nat.

Lemma drawn_nyquist (N : nat) :
  (1 <= N)%nat -> (N = 2 * drawn N + 1 + nyquist N)%nat.
Proof.
  intros HN. unfold drawn, nyquist.
  pose proof (Nat.div_mod_eq (N - 1) 2) as E.
  pose proof (Nat.div_mod_eq N 2) as E2.
  pose proof (Nat.mod_upper_bound (N - 1) 2 ltac:(lia)) as Hm.
  pose proof (Nat.mod_upper_bound N 2 ltac:(lia)) as Hm2.
  destruct (Nat.eqb_spec (N mod 2) 1) as [H1|H1]; lia.
Qed.

Lemma nth_parts {A : Type} (z : A) (a f b : list A) (d : A) (k : nat) :
  nth k ([z] ++ a ++ f ++ b) d =
  match k with
  | O => z
  | S j =>
      if (j <? length a)%nat then nth j a d
      else if (j - length a <? length f)%nat then nth (j - length a) f d
      else nth (j - length a - length f) b d
  end.
Proof.
  destruct k as [|j]; [reflexivity|]. cbn [app nth].
  destruct (Nat.ltb_spec j (length a)) as [H|H].
  - now rewrite app_nth1.
  - rewrite app_nth2 by lia.
    destruct (Nat.ltb_spec (j - length a) (length f)) as [H'|H'].
    + now rewrite app_nth1.
    + now rewrite app_nth2 by lia.
Qed.

Lemma length_range (a b : nat) : length (range a b) = (b - a)%nat.
Proof. unfold range. apply length_seq. Qed.

(** The amplitude of bin [k] before the power is taken: the distance to
    the nearer end. *)
Lemma amplitudes_eq (N : nat) (c0 : fl) :
  (1 <= N)%nat ->
  amplitudes c0 (drawn N)
    (if (N mod 2 =? 1)%nat then [] else [Fin (IZR (Z.of_nat N) / 2)]) =
  c0 :: map (fun k => Fin (INR (Nat.min k (N - k)))) (seq 1 (N - 1)).
Proof.
  intros HN. pose proof (drawn_nyquist HN) as E. unfold nyquist in E.
  set (n := drawn N) in *.
  assert (Hlf : length (if (N mod 2 =? 1)%nat then []
                        else [Fin (IZR (Z.of_nat N) / 2)]) =
                (if (N mod 2 =? 1)%nat then 0 else 1)%nat)
    by (destruct (N mod 2 =? 1)%nat; reflexivity).
  apply nth_ext with (d := NaN) (d' := NaN).
  - unfold amplitudes. cbn [length app].
    rewrite !length_app, !length_map, length_rev, length_range, Hlf,
      length_seq. lia.
  - intros k Hk. unfold amplitudes in *. rewrite nth_parts.
    cbn [length app] in Hk.
    rewrite !length_app, !length_map, length_rev, length_range, Hlf in Hk.
    destruct k as [|j]; [reflexivity|]. cbn [nth].
    rewrite (@nth_map_lt _ _ (fun k => Fin (INR (Nat.min k (N - k)))) _
               j NaN 0%nat) by (rewrite length_seq; lia).
    rewrite nth_seq_lt by lia.
    rewrite length_map, length_range, Hlf.
    destruct (Nat.ltb_spec j (n + 1 - 1)) as [H|H].
    + rewrite (@nth_map_lt _ _ _ _ j NaN 0%nat) by (rewrite length_range; lia).
      unfold range. rewrite nth_seq_lt by lia. do 2 f_equal. lia.
    + destruct (Nat.ltb_spec (j - (n + 1 - 1))
                  (if (N mod 2 =? 1)%nat then 0 else 1)%nat) as [H'|H'].
      * destruct (N mod 2 =? 1)%nat; [lia|].
        assert (Ej : j = n) by lia. subst j.
        replace (n - (n + 1 - 1))%nat with 0%nat by lia. cbn [nth].
        f_equal. rewrite <- INR_IZR_INZ.
        replace (Nat.min (1 + n) (N - (1 + n))) with (1 + n)%nat by lia.
        pose proof (f_equal INR E) as EN.
        rewrite !plus_INR, mult_INR in EN.
        change (INR 2) with 2 in EN. change (INR 1) with 1 in EN.
        rewrite plus_INR. change (INR 1) with 1. lra.
      * rewrite (@nth_map_lt _ _ _ _ _ NaN 0%nat)
          by (rewrite length_rev, length_range; lia).
        rewrite rev_nth by (rewrite length_range; lia).
        rewrite length_range. unfold range. rewrite nth_seq_lt by lia.
        do 2 f_equal. lia.
Qed.

Lemma float_power_positive (r y : R) :
  0 < r -> float_power (Fin r) y = Fin (Rpower r y).
Proof.
  intros Hr. unfold float_power.
  destruct (Req_dec_T y 0) as [->|Hy].
  - now rewrite Rpower_O.
  - destruct (Req_dec_T r 0) as [E|_]; [lra|].
    destruct (Rlt_dec 0 r); [reflexivity|contradiction].
Qed.

Lemma float_power_c0 (beta : R) :
  beta <> 0 ->
  float_power (if Rlt_dec beta 0 then Fin 0 else PInf) (- beta / 2) = Fin 0.
Proof.
  intros Hb. unfold float_power.
  destruct (Req_dec_T (- beta / 2) 0) as [E|_]; [lra|].
  destruct (Rlt_dec beta 0) as [Hneg|Hpos].
  - destruct (Req_dec_T 0 0) as [_|E]; [|now elim E].
    destruct (Rlt_dec 0 (- beta / 2)); [reflexivity|lra].
  - destruct (Rlt_dec 0 (- beta / 2)); [lra|reflexivity].
Qed.

(** The amplitude of bin [k] once the power is taken and the first row
    is set to zero. *)
Definition amplitude (N : nat) (beta : R) (k : nat) : R :=
  match k with
  | O => 0
  | _ => Rpower (INR (Nat.min k (N - k))) (- beta / 2)
  end.

(** The phases of bin [k]. *)
Definition phase_row (N cols : nat) (cPhase : list (list R)) (k : nat)
  : list R :=
  match k with
  | O => repeat 0 cols
  | S j =>
      if (j <? drawn N)%nat then nth j cPhase []
      else if (j - drawn N <? nyquist N)%nat then repeat 0 cols
      else map Ropp (nth (N - k - 1) cPhase [])
  end.

Lemma Cnorm2_scal_cis (a t : R) : Cnorm2 (Cscal a (cis t)) = a * a.
Proof.
  pose proof (Cnorm2_cis t) as H. unfold Cnorm2, Cscal, cis in *.
  cbn [fst snd] in *.
  replace (a * cos t * (a * cos t) + a * sin t * (a * sin t))
    with (a * a * (cos t * cos t + sin t * sin t)) by ring.
  rewrite H. ring.
Qed.

Section Spectrum.
Variable N cols : nat.
Variable beta : R.
Variable cPhase : list (list R).
Hypothesis HN : (1 <= N)%nat.
Hypothesis Hphase : wf_matrix (drawn N) cols cPhase.

Lemma phase_rows_eq :
  [repeat 0 cols] ++ cPhase
     ++ (if (N mod 2 =? 1)%nat then [] else [repeat 0 cols])
     ++ map (map Ropp) (rev cPhase) =
  map (phase_row N cols cPhase) (seq 0 N).
Proof.
  pose proof (drawn_nyquist HN) as E. pose proof Hphase as [Hl _].
  assert (Hlf : length (if (N mod 2 =? 1)%nat then []
                        else [repeat 0 cols]) = nyquist N)
    by (unfold nyquist; destruct (N mod 2 =? 1)%nat; reflexivity).
  apply nth_ext with (d := []) (d' := []).
  - cbn [length app].
    rewrite !length_app, !length_map, length_rev, Hlf, length_seq, Hl. lia.
  - intros k Hk. cbn [length app] in Hk.
    rewrite !length_app, !length_map, length_rev, Hlf, Hl in Hk.
    rewrite nth_parts.
    rewrite (@nth_map_lt _ _ _ _ k [] 0%nat) by (rewrite length_seq; lia).
    rewrite nth_seq_lt by lia. cbn [Nat.add].
    destruct k as [|j]; [reflexivity|]. cbn [phase_row].
    rewrite Hl, Hlf.
    destruct (Nat.ltb_spec j (drawn N)) as [H|H]; [reflexivity|].
    destruct (Nat.ltb_spec (j - drawn N) (nyquist N)) as [H'|H'].
    + unfold nyquist in *. destruct (N mod 2 =? 1)%nat; [lia|].
      replace (j - drawn N)%nat with 0%nat by lia. reflexivity.
    + rewrite (@nth_map_lt _ _ _ _ _ [] [])
        by (rewrite length_rev; lia).
      rewrite rev_nth by lia. f_equal. f_equal. lia.
Qed.

Lemma length_phase_row (k : nat) :
  (k < N)%nat -> length (phase_row N cols cPhase k) = cols.
Proof.
  intros Hk. pose proof (drawn_nyquist HN) as E.
  destruct k as [|j]; cbn [phase_row]; [apply repeat_length|].
  destruct (Nat.ltb_spec j (drawn N)) as [H|H].
  - now apply (wf_matrix_nth Hphase).
  - destruct (Nat.ltb_spec (j - drawn N) (nyquist N)) as [H'|H'].
    + apply repeat_length.
    + rewrite length_map. apply (wf_matrix_nth Hphase). lia.
Qed.

(** The phase of bin [N - k] is the opposite of that of bin [k]. *)
Lemma phase_row_mirror (k c : nat) :
  (1 <= k < N)%nat ->
  nth c (phase_row N cols cPhase (N - k)) 0 =
  - nth c (phase_row N cols cPhase k) 0.
Proof.
  intros Hk. pose proof (drawn_nyquist HN) as E.
  assert (Hopp : forall l, nth c (map Ropp l) 0 = - nth c l 0).
  { intros l. rewrite <- Ropp_0 at 1. apply map_nth. }
  assert (Hzero : nth c (repeat 0 cols) 0 = 0) by apply nth_repeat.
  destruct k as [|j]; [lia|].
  destruct (N - S j)%nat as [|i] eqn:Ei; [lia|]. cbn [phase_row].
  assert (Hny : (nyquist N <= 1)%nat)
    by (unfold nyquist; destruct (N mod 2 =? 1)%nat; lia).
  destruct (Nat.ltb_spec j (drawn N)) as [Hj|Hj];
    destruct (Nat.ltb_spec i (drawn N)) as [Hi|Hi]; try lia.
  - destruct (Nat.ltb_spec (i - drawn N) (nyquist N)) as [H'|H']; [lia|].
    rewrite Hopp. do 3 f_equal. lia.
  - destruct (Nat.ltb_spec (j - drawn N) (nyquist N)) as [H'|H']; [lia|].
    rewrite Hopp, Ropp_involutive. do 2 f_equal. lia.
  - destruct (Nat.ltb_spec (j - drawn N) (nyquist N)) as [H'|H'];
      destruct (Nat.ltb_spec (i - drawn N) (nyquist N)) as [H''|H'']; try lia.
    rewrite Hzero. ring.
Qed.

Lemma amplitude_mirror (k : nat) :
  (1 <= k < N)%nat -> amplitude N beta (N - k) = amplitude N beta k.
Proof.
  intros Hk. unfold amplitude.
  destruct k as [|j]; [lia|]. destruct (N - S j)%nat as [|i] eqn:Ei; [lia|].
  do 2 f_equal. lia.
Qed.

(** The array [r] of [randc] when it is multiplied by the phasors. *)
Definition powered : list (list fl) :=
  map (fun k => repeat (Fin (amplitude N beta k)) cols) (seq 0 N).

Lemma powered_eq (c0 := if Rlt_dec beta 0 then Fin 0 else PInf)
  (r := map (fun a => repeat (float_power a (- beta / 2)) cols)
          (amplitudes c0 (drawn N)
             (if (N mod 2 =? 1)%nat then []
              else [Fin (IZR (Z.of_nat N) / 2)]))) :
  (if Req_dec_T beta 0 then set_first_row cols r else Ok r) = Ok powered.
Proof.
  subst r. rewrite (amplitudes_eq _ HN). unfold powered.
  assert (Hseq : seq 0 N = 0%nat :: seq 1 (N - 1)).
  { clear Hphase. destruct N as [|N']; [lia|]. simpl.
    now rewrite Nat.sub_0_r. }
  rewrite Hseq. cbn [map].
  assert (Htail :
    map (fun a => repeat (float_power a (- beta / 2)) cols)
      (map (fun k => Fin (INR (Nat.min k (N - k)))) (seq 1 (N - 1))) =
    map (fun k => repeat (Fin (amplitude N beta k)) cols) (seq 1 (N - 1))).
  { rewrite map_map. apply map_ext_in. intros k Hk. rewrite in_seq in Hk.
    rewrite float_power_positive by (apply lt_0_INR; lia).
    destruct k as [|k]; [lia|]. reflexivity. }
  rewrite Htail.
  destruct (Req_dec_T beta 0) as [Hb|Hb]; cbn [set_first_row amplitude].
  - reflexivity.
  - subst c0. now rewrite float_power_c0.
Qed.

Lemma powered_finite : forallb (forallb is_finite) powered = true.
Proof.
  unfold powered. apply forallb_forall. intros row Hrow.
  rewrite in_map_iff in Hrow. destruct Hrow as [k [<- _]].
  apply forallb_forall. intros v Hv. apply repeat_spec in Hv. now subst v.
Qed.

(** The spectrum that [randc] hands to [ift]. *)
Definition spectrum : list (list C) :=
  map (fun k => map (fun t => Cscal (amplitude N beta k) (cis t))
                  (phase_row N cols cPhase k))
      (seq 0 N).

Lemma combine_repeat {A B : Type} (a : A) (l : list B) :
  combine (repeat a (length l)) l = map (pair a) l.
Proof. induction l as [|b l IH]; [reflexivity|]. simpl. now rewrite IH. Qed.

Lemma combine_map_seq {A B : Type} (f : nat -> A) (g : nat -> B)
  (l : list nat) :
  combine (map f l) (map g l) = map (fun k => (f k, g k)) l.
Proof. induction l as [|k l IH]; [reflexivity|]. simpl. now rewrite IH. Qed.

Lemma spectrum_eq :
  map (fun p => map (fun q => Cscal (fl_value (fst q)) (snd q))
                  (combine (fst p) (snd p)))
      (combine powered
         (phasors cols cPhase
            (if (N mod 2 =? 1)%nat then [] else [repeat 0 cols]))) =
  spectrum.
Proof.
  unfold phasors. rewrite phase_rows_eq. unfold powered, spectrum.
  rewrite map_map, combine_map_seq, map_map.
  apply map_ext_in. intros k Hk. rewrite in_seq in Hk. cbn [fst snd].
  rewrite <- (length_phase_row (k := k)) at 1 by lia.
  rewrite <- (length_map cis), combine_repeat, !map_map.
  reflexivity.
Qed.

Lemma wf_spectrum : wf_matrix N cols spectrum.
Proof.
  unfold spectrum. split; [now rewrite length_map, length_seq|].
  rewrite Forall_forall. intros row Hrow. rewrite in_map_iff in Hrow.
  destruct Hrow as [k [<- Hk]]. rewrite in_seq in Hk.
  rewrite length_map. apply length_phase_row. lia.
Qed.

Lemma spectrum_entry (k c : nat) :
  (k < N)%nat -> (c < cols)%nat ->
  nth c (nth k spectrum []) C0 =
  Cscal (amplitude N beta k) (cis (nth c (phase_row N cols cPhase k) 0)).
Proof.
  intros Hk Hc. unfold spectrum.
  rewrite (@nth_map_lt _ _ _ _ k [] 0%nat) by (now rewrite length_seq).
  rewrite nth_seq_lt by lia. cbn [Nat.add].
  now rewrite (@nth_map_lt _ _ _ _ c C0 0) by (now rewrite length_phase_row).
Qed.

Lemma spectrum_dc (c : nat) :
  (c < cols)%nat -> nth c (nth 0 spectrum []) C0 = C0.
Proof.
  intros Hc. rewrite spectrum_entry by lia. cbn [amplitude]. cx_eq.
Qed.

Lemma spectrum_hermitian : hermitian N cols spectrum.
Proof.
  intros k c Hk Hc. destruct k as [|j].
  - rewrite Nat.sub_0_r, Nat.Div0.mod_same. rewrite spectrum_dc by exact Hc.
    cx_eq.
  - rewrite Nat.mod_small by lia. rewrite !spectrum_entry by lia.
    rewrite amplitude_mirror, phase_row_mirror by lia.
    now rewrite cis_neg, Cconj_scal.
Qed.

Lemma spectrum_power (k c : nat) :
  (1 <= k < N)%nat -> (c < cols)%nat ->
  Cnorm2 (nth c (nth k spectrum []) C0) =
  Rpower (INR (Nat.min k (N - k))) (- beta).
Proof.
  intros Hk Hc. rewrite spectrum_entry by lia.
  rewrite Cnorm2_scal_cis.
  destruct k as [|j]; [lia|]. cbn [amplitude].
  rewrite <- Rpower_plus. f_equal. field.
Qed.

End Spectrum.

(** *** Sums over a real array *)

Lemma Csum_RtoC_list (l : list R) :
  Csum (fun j => RtoC (nth j l 0)) (length l) = RtoC (Rsum l).
Proof.
  induction l as [|a l IH]; [reflexivity|].
  cbn [length]. rewrite Csum_shift. cbn [nth]. rewrite IH.
  unfold Rsum. cbn [fold_right]. cx_eq.
Qed.

(** The zero-frequency bin of a real array holds the means of its
    columns. *)
Lemma ft_dc_real (N d : nat) (y : list (list R)) (c : nat) :
  wf_matrix N d y -> (1 <= N)%nat -> (c < d)%nat ->
  nth c (nth 0 (ft_matrix N (map (map RtoC) y)) []) C0 =
  RtoC (Rsum (map (fun row => nth c row 0) y) / INR N).
Proof.
  intros Hwf HN Hc. pose proof Hwf as [Hl _].
  rewrite (@ft_entry N d) by (try assumption; try lia; now apply wf_matrix_map).
  rewrite (@Csum_ext _ (fun j => RtoC (nth j (map (fun row => nth c row 0) y) 0))).
  - pose proof (Csum_RtoC_list (map (fun row => nth c row 0) y)) as Hs.
    rewrite length_map, Hl in Hs. rewrite Hs. cx_eq. unfold Rdiv. ring.
  - intros j Hj.
    rewrite (@nth_map_lt _ _ _ _ j [] []) by lia.
    rewrite (@nth_map_lt _ _ _ _ c C0 0) by (now rewrite (wf_matrix_nth Hwf Hj)).
    rewrite (@nth_map_lt _ _ _ _ j 0 []) by lia.
    replace (- (2 * PI * INR j * INR 0 / INR N)) with 0
      by (simpl INR; unfold Rdiv; ring).
    rewrite cis_0. cx_eq.
Qed.

Lemma row_nth_seq (row : list R) :
  map (fun c => nth c row 0) (seq 0 (length row)) = row.
Proof.
  apply nth_ext with (d := 0) (d' := 0);
    [now rewrite length_map, length_seq|].
  intros c Hc. rewrite length_map, length_seq in Hc.
  rewrite (@nth_map_lt _ _ _ _ c 0 0%nat) by (now rewrite length_seq).
  now rewrite nth_seq_lt.
Qed.

(** The sum of all the entries is the sum of the sums of the columns. *)
Lemma Rsum_concat_columns (N d : nat) (y : list (list R)) :
  wf_matrix N d y ->
  Rsum (concat y) =
  Rsum (map (fun c => Rsum (map (fun row => nth c row 0) y)) (seq 0 d)).
Proof.
  revert N. induction y as [|row y IH]; intros N [Hl Hr].
  - cbn [concat map]. unfold Rsum at 1. cbn [fold_right].
    symmetry. apply (@Rsum_map_zero nat).
  - inversion Hr as [|? ? Hrow Hrest]; subst.
    cbn [concat map]. rewrite Rsum_app.
    rewrite (IH (length y)) by (split; [reflexivity|assumption]).
    rewrite <- (row_nth_seq row) at 1.
    rewrite <- (@Rsum_map_plus nat). apply Rsum_map_ext_in.
    intros c _. unfold Rsum. reflexivity.
Qed.

Lemma length_concat_matrix {A : Type} (N d : nat) (y : list (list A)) :
  wf_matrix N d y -> length (concat y) = (N * d)%nat.
Proof.
  revert N. induction y as [|row y IH]; intros N [Hl Hr].
  - now subst N.
  - inversion Hr as [|? ? Hrow Hrest]; subst.
    cbn [concat length]. rewrite length_app.
    rewrite (IH (length y)) by (split; [reflexivity|assumption]). lia.
Qed.

Lemma entry_in_concat (N d : nat) (y : list (list R)) (r c : nat) :
  wf_matrix N d y -> (r < N)%nat -> (c < d)%nat ->
  In (nth c (nth r y []) 0) (concat y).
Proof.
  intros Hwf Hr Hc. pose proof Hwf as [Hl _]. apply in_concat.
  exists (nth r y []). split.
  - apply nth_In. lia.
  - apply nth_In. now rewrite (wf_matrix_nth Hwf Hr).
Qed.

Lemma squares_zero (l : list R) :
  Rsum (map (fun v => v * v) l) = 0 -> forall v, In v l -> v = 0.
Proof.
  induction l as [|a l IH]; intros H v Hv; [contradiction|].
  unfold Rsum in H. cbn [map fold_right] in H.
  fold (Rsum (map (fun v => v * v) l)) in H.
  assert (H0 : 0 <= Rsum (map (fun v => v * v) l))
    by (apply Rsum_map_nonneg; intros; nra).
  destruct Hv as [<-|Hv]; [nra|]. apply IH; [nra|exact Hv].
Qed.

(** [std] of values that sum to zero. *)
Lemma std_centred (z : list R) :
  Rsum z = 0 -> (2 <= length z)%nat ->
  std z = Fin (sqrt (Rsum (map (fun v => v * v) z) / INR (length z - 1))).
Proof.
  intros Hz Hl. unfold std, Np.mean. rewrite Hz.
  replace (0 / INR (length z)) with 0 by (unfold Rdiv; ring).
  rewrite (@Rsum_map_ext_in _ (fun v => (v - 0) * (v - 0)) (fun v => v * v))
    by (intros; ring).
  unfold true_divide.
  destruct (Req_dec_T (INR (length z - 1)) 0) as [E|_]; [|reflexivity].
  change 0 with (INR 0) in E. apply INR_eq in E. lia.
Qed.

Lemma Rpower_one (y : R) : Rpower 1 y = 1.
Proof. unfold Rpower. now rewrite ln_1, Rmult_0_r, exp_0. Qed.

(** *** A run of [randc] *)

Definition dims (shp : shape_arg) : Z * Z :=
  match shp with
  | Int n0 | Tuple1 n0 => (n0, 1%Z)
  | Tuple2 n0 n1 => (n0, n1)
  end.

Lemma odd_of_nat (N : nat) :
  (Z.of_nat N mod 2 =? 1)%Z = (N mod 2 =? 1)%nat.
Proof.
  change 2%Z with (Z.of_nat 2). rewrite <- Nat2Z.inj_mod.
  destruct (Nat.eqb_spec (N mod 2) 1) as [E|E].
  - rewrite E. reflexivity.
  - apply Z.eqb_neq. lia.
Qed.

Section Run.
Variable random_sample : nat -> nat -> list (list R).
Variable N cols : nat.
Variable beta : R.
Hypothesis HN : (1 <= N)%nat.
Hypothesis Hdraws : wf_matrix (drawn N) cols (random_sample (drawn N) cols).

(** The phases and the spectrum of the run, the series that [ift]
    returns, and its standard deviation. *)
Definition cPhase : list (list R) :=
  map (map (fun u => u * 2 * PI)) (random_sample (drawn N) cols).

Definition series : list (list R) :=
  map (map Re) (ift_matrix N (spectrum N cols beta cPhase)).

Lemma wf_cPhase : wf_matrix (drawn N) cols cPhase.
Proof. unfold cPhase. now apply wf_matrix_map. Qed.

Lemma randc_run (shp : shape_arg) :
  dims shp = (Z.of_nat N, Z.of_nat cols) ->
  randc random_sample shp beta =
  Ok (reshape shp
        (map (map (fun v => divide v (std (concat series)))) series)).
Proof.
  intros Hshp. unfold randc. fold (dims shp). rewrite Hshp.
  rewrite (Zfloor_half HN). fold (drawn N).
  replace ((Z.of_nat (drawn N) <? 0) || (Z.of_nat cols <? 0))%Z with false
    by (symmetry; apply orb_false_iff; split; apply Z.ltb_ge; lia).
  rewrite !Nat2Z.id, odd_of_nat. fold cPhase.
  rewrite (amplitudes_eq _ HN) at 1.
  cbn [length]. rewrite length_map, length_seq.
  replace (negb (S (N - 1) * cols =? cols * N)%nat) with false
    by (symmetry; apply negb_false_iff, Nat.eqb_eq; nia).
  rewrite (powered_eq cols beta HN). cbn [bind].
  rewrite powered_finite.
  rewrite (spectrum_eq beta HN wf_cPhase).
  rewrite (ift_matrix_default false (wf_spectrum beta HN wf_cPhase) HN).
  cbn [bind]. reflexivity.
Qed.

Lemma series_real :
  map (map RtoC) series = ift_matrix N (spectrum N cols beta cPhase).
Proof.
  unfold series.
  apply (@real_entries_eq N cols).
  - apply wf_ift_matrix; [apply (wf_spectrum beta HN wf_cPhase)|exact HN].
  - apply ift_hermitian_real;
      [apply (wf_spectrum beta HN wf_cPhase)|exact HN|].
    apply (spectrum_hermitian beta HN wf_cPhase).
Qed.

Lemma wf_series : wf_matrix N cols series.
Proof.
  unfold series. apply wf_matrix_map. apply wf_ift_matrix; [|exact HN].
  apply (wf_spectrum beta HN wf_cPhase).
Qed.

Lemma ft_series :
  ft_matrix N (map (map RtoC) series) = spectrum N cols beta cPhase.
Proof.
  rewrite series_real. apply (@ft_ift_matrix N cols); [|exact HN].
  apply (wf_spectrum beta HN wf_cPhase).
Qed.

Lemma series_column_sum (c : nat) :
  (c < cols)%nat -> Rsum (map (fun row => nth c row 0) series) = 0.
Proof.
  intros Hc. pose proof (ft_dc_real wf_series HN Hc) as H.
  rewrite ft_series, (spectrum_dc beta HN wf_cPhase Hc) in H.
  assert (HNr : 0 < INR N) by (apply lt_0_INR; lia).
  apply (f_equal fst) in H. unfold C0, RtoC in H. cbn [fst] in H.
  apply Rmult_eq_reg_r with (r := / INR N); [|apply Rinv_neq_0_compat; lra].
  unfold Rdiv in H. rewrite <- H. ring.
Qed.

Lemma series_sum : Rsum (concat series) = 0.
Proof.
  rewrite (Rsum_concat_columns wf_series).
  rewrite (@Rsum_map_ext_in _ _ (fun _ => 0)).
  - apply (@Rsum_map_zero nat).
  - intros c Hc. rewrite in_seq in Hc. apply series_column_sum. lia.
Qed.

Hypothesis HN2 : (2 <= N)%nat.
Hypothesis Hcols : (1 <= cols)%nat.

Lemma series_energy : 0 < Rsum (map (fun v => v * v) (concat series)).
Proof.
  assert (H0 : 0 <= Rsum (map (fun v => v * v) (concat series)))
    by (apply Rsum_map_nonneg; intros; nra).
  destruct (Req_dec_T (Rsum (map (fun v => v * v) (concat series))) 0)
    as [E|E]; [exfalso|lra].
  pose proof (squares_zero _ E) as Hzero.
  assert (Hentry : nth 0 (nth 1 (spectrum N cols beta cPhase) []) C0 = C0).
  { rewrite <- ft_series.
    rewrite (@ft_entry N cols)
      by (try lia; apply wf_matrix_map; apply wf_series).
    rewrite (@Csum_ext _ (fun _ => C0)).
    - rewrite Csum_zero. cx_eq.
    - intros j Hj. pose proof wf_series as Hwf. pose proof Hwf as [Hl _].
      rewrite (@nth_map_lt _ _ _ _ j [] []) by lia.
      rewrite (@nth_map_lt _ _ _ _ 0%nat C0 0)
        by (rewrite (wf_matrix_nth Hwf Hj); lia).
      rewrite (Hzero _ (@entry_in_concat N cols series j 0 Hwf Hj Hcols)).
      cx_eq. }
  pose proof (@spectrum_power N cols beta cPhase HN wf_cPhase 1 0
                ltac:(lia) ltac:(lia)) as Hp.
  rewrite Hentry in Hp.
  replace (Nat.min 1 (N - 1)) with 1%nat in Hp by lia.
  change (INR 1) with 1 in Hp. rewrite Rpower_one in Hp.
  unfold Cnorm2, C0 in Hp. cbn [fst snd] in Hp. lra.
Qed.

(** The standard deviation of the series. *)
Definition sigma : R :=
  sqrt (Rsum (map (fun v => v * v) (concat series)) / INR (N * cols - 1)).

Lemma size_ge : (2 <= N * cols)%nat.
Proof. nia. Qed.

Lemma dof_pos : 0 < INR (N * cols - 1).
Proof. apply lt_0_INR. pose proof size_ge. lia. Qed.

Lemma sigma_pos : 0 < sigma.
Proof.
  unfold sigma. apply sqrt_lt_R0. apply Rdiv_lt_0_compat;
    [apply series_energy|apply dof_pos].
Qed.

Lemma std_series : std (concat series) = Fin sigma.
Proof.
  rewrite std_centred.
  - now rewrite (length_concat_matrix wf_series).
  - apply series_sum.
  - rewrite (length_concat_matrix wf_series). apply size_ge.
Qed.

(** The array that is returned. *)
Definition normalised : list (list R) :=
  map (map (fun v => v / sigma)) series.

Lemma randc_returns (shp : shape_arg) :
  dims shp = (Z.of_nat N, Z.of_nat cols) ->
  randc random_sample shp beta =
  Ok (reshape shp (map (map Fin) normalised)).
Proof.
  intros Hshp. rewrite (randc_run _ Hshp), std_series.
  unfold normalised. do 2 f_equal. rewrite map_map.
  apply map_ext. intros row. rewrite map_map. apply map_ext. intros v.
  cbn [divide]. unfold true_divide. pose proof sigma_pos.
  destruct (Req_dec_T sigma 0) as [E|_]; [lra|reflexivity].
Qed.

Lemma wf_normalised : wf_matrix N cols normalised.
Proof. unfold normalised. apply wf_matrix_map. apply wf_series. Qed.

Lemma normalised_column_sum (c : nat) :
  (c < cols)%nat -> Rsum (map (fun row => nth c row 0) normalised) = 0.
Proof.
  intros Hc. unfold normalised. rewrite map_map.
  rewrite (@Rsum_map_ext_in _ _
             (fun row => / sigma * (fun row => nth c row 0) row)).
  - rewrite Rsum_map_scal, (series_column_sum Hc). ring.
  - intros row Hrow.
    replace 0 with (0 / sigma) at 1 by (unfold Rdiv; ring).
    rewrite (map_nth (fun v => v / sigma)). unfold Rdiv. ring.
Qed.

Lemma normalised_sum : Rsum (concat normalised) = 0.
Proof.
  rewrite (Rsum_concat_columns wf_normalised).
  rewrite (@Rsum_map_ext_in _ _ (fun _ => 0)).
  - apply (@Rsum_map_zero nat).
  - intros c Hc. rewrite in_seq in Hc. apply normalised_column_sum. lia.
Qed.

Lemma std_normalised : std (concat normalised) = Fin 1.
Proof.
  rewrite std_centred.
  - rewrite (length_concat_matrix wf_normalised). f_equal.
    rewrite <- sqrt_1 at 1. f_equal.
    unfold normalised. rewrite <- concat_map, map_map.
    rewrite (@Rsum_map_ext_in _ _
               (fun v => / (sigma * sigma) * (fun v => v * v) v)).
    + rewrite Rsum_map_scal. unfold sigma at 1 2.
      pose proof series_energy as He. pose proof dof_pos as Hd.
      rewrite sqrt_sqrt by (apply Rlt_le, Rdiv_lt_0_compat; assumption).
      field. split; lra.
    + intros v _. pose proof sigma_pos. field. lra.
  - apply normalised_sum.
  - rewrite (length_concat_matrix wf_normalised). apply size_ge.
Qed.

Lemma ft_normalised :
  ft_matrix N (map (map RtoC) normalised) =
  map (map (Cscal (/ sigma))) (spectrum N cols beta cPhase).
Proof.
  pose proof (wf_spectrum beta HN wf_cPhase) as HwX.
  pose proof wf_series as Hws. pose proof wf_normalised as Hwn.
  apply (@matrix_ext _ C0 N cols).
  - apply wf_ft_matrix; [now apply wf_matrix_map|exact HN].
  - now apply wf_matrix_map.
  - intros r c Hr Hc.
    rewrite (@nth_scaled _ N cols) by assumption.
    rewrite <- ft_series.
    rewrite !(@ft_entry N cols) by (try assumption; now apply wf_matrix_map).
    rewrite Cscal_Cscal, (Rmult_comm (/ sigma)), <- Cscal_Cscal. f_equal.
    rewrite <- Csum_scal. apply Csum_ext. intros j Hj.
    rewrite <- Cscal_mult_l. f_equal.
    pose proof Hws as [Hl _]. pose proof Hwn as [Hl' _].
    rewrite !(@nth_map_lt _ _ (map RtoC) _ j [] []) by lia.
    rewrite !(@nth_map_lt _ _ RtoC _ c C0 0)
      by (rewrite (@wf_matrix_nth _ N cols); assumption).
    unfold normalised.
    rewrite (@nth_map_lt _ _ _ _ j [] []) by lia.
    rewrite (@nth_map_lt _ _ _ _ c 0 0)
      by (rewrite (@wf_matrix_nth _ N cols); assumption).
    cx_eq. unfold Rdiv. ring.
Qed.

Lemma normalised_power (k c : nat) :
  (1 <= k < N)%nat -> (c < cols)%nat ->
  Cnorm2 (nth c (nth k (ft_matrix N (map (map RtoC) normalised)) []) C0) =
  Rpower (INR (Nat.min k (N - k))) (- beta) / (sigma * sigma).
Proof.
  intros Hk Hc. rewrite ft_normalised.
  rewrite (@nth_scaled _ N cols)
    by (try assumption; try lia; apply (wf_spectrum beta HN wf_cPhase)).
  pose proof (@spectrum_power N cols beta cPhase HN wf_cPhase k c Hk Hc) as Hp.
  pose proof sigma_pos as Hs.
  destruct (nth c (nth k (spectrum N cols beta cPhase) []) C0) as [a b].
  unfold Cnorm2, Cscal in *. cbn [fst snd] in *. rewrite <- Hp.
  field. lra.
Qed.

Lemma normalised_dc (c : nat) :
  (c < cols)%nat ->
  nth c (nth 0 (ft_matrix N (map (map RtoC) normalised)) []) C0 = C0.
Proof.
  intros Hc. rewrite ft_normalised.
  rewrite (@nth_scaled _ N cols)
    by (try assumption; try lia; apply (wf_spectrum beta HN wf_cPhase)).
  rewrite (spectrum_dc beta HN wf_cPhase Hc). apply Cscal_0_r.
Qed.

End Run.

End RandcProofs.

Module RandcEdges.
Import Randc FourierFacts RandcProofs.

Lemma randc_negative (random_sample : nat -> nat -> list (list R))
  (shp : shape_arg) (beta : R) :
  (fst (dims shp) <= 0 \/ snd (dims shp) < 0)%Z ->
  randc random_sample shp beta = Raise ValueError.
Proof.
  intros H. unfold randc. fold (dims shp).
  destruct (dims shp) as [n0 m1]. cbn [fst snd] in H.
  replace ((Zfloor ((IZR n0 - 1) / 2) <? 0) || (m1 <? 0))%Z with true;
    [reflexivity|].
  symmetry. apply orb_true_iff. destruct H as [H|H].
  - left. apply Z.ltb_lt. apply lt_IZR.
    pose proof (Zfloor_bound ((IZR n0 - 1) / 2)) as [Hb _].
    apply IZR_le in H. lra.
  - right. now apply Z.ltb_lt.
Qed.

Section OneRow.
Variable random_sample : nat -> nat -> list (list R).
Variable cols : nat.
Variable beta : R.
Hypothesis Hdraws : wf_matrix 0 cols (random_sample 0 cols).

Lemma series_one_row : series random_sample 1 cols beta = [repeat 0 cols].
Proof.
  assert (H1 : (1 <= 1)%nat) by lia.
  pose proof (@wf_cPhase random_sample 1 cols Hdraws) as Hph.
  pose proof (wf_spectrum beta H1 Hph) as HwX.
  apply (@matrix_ext _ 0 1 cols).
  - apply (@wf_series random_sample 1 cols beta H1 Hdraws).
  - split; [reflexivity|]. repeat constructor. apply repeat_length.
  - intros r c Hr Hc. assert (r = 0)%nat by lia. subst r.
    cbn [nth]. rewrite nth_repeat. unfold series.
    pose proof (wf_ift_matrix HwX H1) as Hwi. pose proof Hwi as [Hl _].
    rewrite (@nth_map_lt _ _ _ _ 0%nat [] []) by lia.
    rewrite (@nth_map_lt _ _ _ _ c 0 C0)
      by (rewrite (@wf_matrix_nth _ 1 cols); [assumption|assumption|lia]).
    rewrite (@ift_entry 1 cols) by (try assumption; lia).
    cbn [Csum]. rewrite (spectrum_dc beta H1 Hph Hc). cx. ring.
Qed.

Lemma std_zeros : divide 0 (std (repeat 0 cols)) = NaN.
Proof.
  unfold std.
  rewrite (@Rsum_map_ext_in _ _ (fun _ => 0)).
  2:{ intros v Hv. apply repeat_spec in Hv. subst v. unfold Np.mean.
      rewrite Rsum_repeat. unfold Rdiv. ring. }
  rewrite (@Rsum_map_zero R). unfold true_divide.
  destruct (Req_dec_T (INR (length (repeat 0 cols) - 1)) 0) as [_|Hd].
  - destruct (Req_dec_T 0 0) as [_|E]; [reflexivity|now elim E].
  - replace (0 / INR (length (repeat 0 cols) - 1)) with 0
      by (unfold Rdiv; ring).
    rewrite sqrt_0. cbn [divide]. unfold true_divide.
    destruct (Req_dec_T 0 0) as [_|E]; [reflexivity|now elim E].
Qed.

Lemma randc_one_row (shp : shape_arg) :
  dims shp = (1%Z, Z.of_nat cols) ->
  randc random_sample shp beta = Ok (reshape shp [repeat NaN cols]).
Proof.
  intros Hshp. assert (H1 : (1 <= 1)%nat) by lia.
  rewrite (@randc_run random_sample 1 cols beta H1 Hdraws shp Hshp).
  rewrite series_one_row. cbn [concat map]. rewrite app_nil_r.
  do 3 f_equal. rewrite map_repeat. now rewrite std_zeros.
Qed.

End OneRow.

End RandcEdges.

Import Randc RandcProofs RandcEdges.

(** Draws that are all zero: every phase is zero. *)
Definition zero_draws (n cols : nat) : list (list R) :=
  repeat (repeat 0 cols) n.

(** X28. For a shape [(N, cols)] with at least two rows and one column,
    whatever the draws and whatever [beta], [randc] returns an array of
    [N] by [cols] numbers; every column sums to zero, and the standard
    deviation of the whole array (with [ddof=1]) is 1.  The normalisation
    is one division of the whole array: the columns share it. *)
Theorem randc_zero_mean_unit_std
  (random_sample : nat -> nat -> list (list R)) (N cols : nat) (beta : R) :
  (2 <= N)%nat -> (1 <= cols)%nat ->
  wf_matrix ((N - 1) / 2) cols (random_sample ((N - 1) / 2)%nat cols) ->
  exists y,
    randc random_sample (Tuple2 (Z.of_nat N) (Z.of_nat cols)) beta =
      Ok (Matrix (map (map Fin) y)) /\
    wf_matrix N cols y /\
    (forall c, (c < cols)%nat -> Rsum (map (fun row => nth c row 0) y) = 0) /\
    std (concat y) = Fin 1.
Proof.
  intros HN2 Hcols Hdraws. assert (HN : (1 <= N)%nat) by lia.
  exists (normalised random_sample N cols beta). split; [|split; [|split]].
  - apply randc_returns; (assumption || reflexivity).
  - apply wf_normalised; assumption.
  - intros c Hc. apply normalised_column_sum; assumption.
  - apply std_normalised; assumption.
Qed.

Lemma randc_zero_mean_unit_std_witness :
  exists y,
    randc zero_draws (Tuple2 (Z.of_nat 4) (Z.of_nat 2)) 1 =
      Ok (Matrix (map (map Fin) y)) /\
    wf_matrix 4 2 y /\
    (forall c, (c < 2)%nat -> Rsum (map (fun row => nth c row 0) y) = 0) /\
    std (concat y) = Fin 1.
Proof.
  apply (@randc_zero_mean_unit_std zero_draws 4 2 1); try lia.
  split; [reflexivity|]. repeat constructor.
Defined.

(** X29. The spectrum of the array that [randc] returns follows the power
    law of the docstring: [ft] of the output is zero at frequency zero,
    and at every other bin [k] the squared modulus is one constant times
    [f ** (-beta)], where [f = min(k, N - k)] is the frequency of the bin
    counted in steps (the bins above [N/2] hold the negative
    frequencies).  The constant is the same for all bins and columns. *)
Theorem randc_power_law
  (random_sample : nat -> nat -> list (list R)) (N cols : nat) (beta : R) :
  (2 <= N)%nat -> (1 <= cols)%nat ->
  wf_matrix ((N - 1) / 2) cols (random_sample ((N - 1) / 2)%nat cols) ->
  exists y Y s,
    randc random_sample (Tuple2 (Z.of_nat N) (Z.of_nat cols)) beta =
      Ok (Matrix (map (map Fin) y)) /\
    ft (map (map RtoC) y) None 0 = Ok (Finite Y) /\
    0 < s /\
    forall k c, (k < N)%nat -> (c < cols)%nat ->
      Cnorm2 (nth c (nth k Y []) C0) =
      match k with
      | O => 0
      | _ => s * Rpower (INR (Nat.min k (N - k))) (- beta)
      end.
Proof.
  intros HN2 Hcols Hdraws. assert (HN : (1 <= N)%nat) by lia.
  assert (Hs : 0 < sigma random_sample N cols beta)
    by (apply sigma_pos; assumption).
  exists (normalised random_sample N cols beta).
  exists (ft_matrix N (map (map RtoC) (normalised random_sample N cols beta))).
  exists (/ (sigma random_sample N cols beta * sigma random_sample N cols beta)).
  split; [|split; [|split]].
  - apply randc_returns; (assumption || reflexivity).
  - apply (@ft_matrix_default N cols); [|exact HN].
    apply wf_matrix_map.
    apply wf_normalised; assumption.
  - apply Rinv_0_lt_compat. nra.
  - intros k c Hk Hc. destruct k as [|j].
    + rewrite normalised_dc by assumption.
      unfold Cnorm2, C0. cbn [fst snd]. ring.
    + rewrite normalised_power by (try assumption; lia).
      unfold Rdiv. ring.
Qed.

Lemma randc_power_law_witness :
  exists y Y s,
    randc zero_draws (Tuple2 (Z.of_nat 4) (Z.of_nat 2)) 1 =
      Ok (Matrix (map (map Fin) y)) /\
    ft (map (map RtoC) y) None 0 = Ok (Finite Y) /\
    0 < s /\
    forall k c, (k < 4)%nat -> (c < 2)%nat ->
      Cnorm2 (nth c (nth k Y []) C0) =
      match k with
      | O => 0
      | _ => s * Rpower (INR (Nat.min k (4 - k))) (- 1)
      end.
Proof.
  apply (@randc_power_law zero_draws 4 2 1); try lia.
  split; [reflexivity|]. repeat constructor.
Defined.

(** X30. The shapes that give no noise.  A first dimension of zero or
    less, or a negative second one, raises [ValueError] (the phases are
    drawn with a negative count).  A single row returns [nan] in every
    entry, without an error: the one row is the zero-frequency bin, which
    is set to zero, and the normalisation divides zero by a standard
    deviation that is zero or [nan]. *)
Theorem randc_no_noise
  (random_sample : nat -> nat -> list (list R)) (cols : nat) (beta : R) :
  wf_matrix 0 cols (random_sample 0%nat cols) ->
  randc random_sample (Tuple2 1 (Z.of_nat cols)) beta =
    Ok (Matrix [repeat NaN cols]) /\
  (cols = 1%nat ->
   randc random_sample (Int 1) beta = Ok (Vector [NaN])) /\
  (forall n0 n1, (n0 <= 0 \/ n1 < 0)%Z ->
     randc random_sample (Tuple2 n0 n1) beta = Raise ValueError) /\
  (forall n0, (n0 <= 0)%Z ->
     randc random_sample (Int n0) beta = Raise ValueError /\
     randc random_sample (Tuple1 n0) beta = Raise ValueError).
Proof.
  intros Hdraws. split; [|split; [|split]].
  - exact (@randc_one_row random_sample cols beta Hdraws
             (Tuple2 1 (Z.of_nat cols)) eq_refl).
  - intros ->.
    exact (@randc_one_row random_sample 1 beta Hdraws (Int 1) eq_refl).
  - intros n0 n1 H. now apply randc_negative.
  - intros n0 H. split; apply randc_negative; left; exact H.
Qed.

Lemma randc_no_noise_witness :
  randc zero_draws (Tuple2 1 (Z.of_nat 1)) 2 = Ok (Matrix [repeat NaN 1]) /\
  (1%nat = 1%nat -> randc zero_draws (Int 1) 2 = Ok (Vector [NaN])) /\
  (forall n0 n1, (n0 <= 0 \/ n1 < 0)%Z ->
     randc zero_draws (Tuple2 n0 n1) 2 = Raise ValueError) /\
  (forall n0, (n0 <= 0)%Z ->
     randc zero_draws (Int n0) 2 = Raise ValueError /\
     randc zero_draws (Tuple1 n0) 2 = Raise ValueError).
Proof.
  apply (@randc_no_noise zero_draws 1 2).
  split; [reflexivity|]. constructor.
Defined.
